(** * utility-types: the type-level utilities of [src/mapped-types.ts]

    The repository consists of type aliases only.  Each alias is a function
    from types to types, evaluated by the TypeScript checker.  This file
    embeds a universe of types, the checker operations the aliases are
    composed of (union construction, distribution of conditional types,
    [keyof], indexed access, homomorphic mapped types, intersection), and
    then the aliases themselves, one definition per alias, named as in the
    source.

    The universe: [undefined], [null], the primitives, string, number and
    boolean literals, function types, the interface [Function], arrays and
    readonly arrays, promises, object types with named properties and their
    [readonly] and [?] modifiers, unions (with [never] the empty union) and
    intersections.  It has no [any], [unknown] or [void], no tuples, no index
    signatures and no number or symbol keys, and it does not list the members
    that arrays, functions and promises take from the standard library.  An
    interface that extends an array type and declares nothing of its own
    ([_DeepReadonlyArray]) is the intersection of that array type with the
    empty object type: it has the elements of the array type but is not
    the global [Array] or [ReadonlyArray].  A
    test of the source against a pattern with [any] in it
    ([T extends any[]], [T extends Promise<any>], ...) is a predicate of its
    own.  Strict null checks are on. *)

From Stdlib Require Import List String Bool ZArith Lia Arith PeanoNat Permutation.
Import ListNotations.
Open Scope string_scope.
Open Scope list_scope.

Set Implicit Arguments.
Set Warnings "-register-all".

(** ** The universe of types *)

(** Primitive types that are not unions of literals.  [boolean] is the union
    [true | false] and is defined below. *)
Inductive prim : Type := PString | PNumber | PBigint | PSymbol.

(** Literal (unit) types. *)
Inductive lit : Type :=
| LStr (s : string)
| LNum (n : Z)
| LBool (b : bool).

(** A property of an object type: its modifiers and its declared type.  For
    an optional property the declared type is stored without [undefined];
    reading the property ([T[K]]) adds it back. *)
Record prop (A : Type) : Type := mkProp {
  p_readonly : bool;
  p_optional : bool;
  p_type : A
}.

Inductive ty : Type :=
| TUndefined
| TNull
| TPrim (p : prim)
| TLit (l : lit)
| TFunction                                   (* the global interface Function *)
| TFunc (params : list ty) (ret : ty)         (* (p1, ..., pn) => ret *)
| TArray (elem : ty)                          (* Array<elem>, elem[] *)
| TReadonlyArray (elem : ty)                  (* ReadonlyArray<elem> *)
| TPromise (res : ty)                         (* Promise<res> *)
| TObject (props : list (string * prop ty))   (* { k1: t1; ... } *)
| TUnion (ms : list ty)                       (* m1 | ... | mn; never is the empty union *)
| TInter (a b : ty).                          (* a & b, when it does not reduce *)

Definition TNever : ty := TUnion [].
Definition TString : ty := TPrim PString.
Definition TNumber : ty := TPrim PNumber.
Definition TBigint : ty := TPrim PBigint.
Definition TSymbol : ty := TPrim PSymbol.
Definition TTrue : ty := TLit (LBool true).
Definition TFalse : ty := TLit (LBool false).
Definition TBoolean : ty := TUnion [TTrue; TFalse].
Definition TKey (k : string) : ty := TLit (LStr k).

(** Induction principle that reaches the types nested in lists. *)
Section ty_induction.
Variable P : ty -> Prop.
Hypothesis HUndefined : P TUndefined.
Hypothesis HNull : P TNull.
Hypothesis HPrim : forall p, P (TPrim p).
Hypothesis HLit : forall l, P (TLit l).
Hypothesis HFunction : P TFunction.
Hypothesis HFunc : forall ps r, Forall P ps -> P r -> P (TFunc ps r).
Hypothesis HArray : forall e, P e -> P (TArray e).
Hypothesis HReadonlyArray : forall e, P e -> P (TReadonlyArray e).
Hypothesis HPromise : forall r, P r -> P (TPromise r).
Hypothesis HObject :
  forall props, Forall (fun kp => P (p_type (snd kp))) props -> P (TObject props).
Hypothesis HUnion : forall ms, Forall P ms -> P (TUnion ms).
Hypothesis HInter : forall a b, P a -> P b -> P (TInter a b).

Fixpoint ty_nested_ind (t : ty) : P t :=
  match t with
  | TUndefined => HUndefined
  | TNull => HNull
  | TPrim p => HPrim p
  | TLit l => HLit l
  | TFunction => HFunction
  | TFunc ps r =>
      HFunc ((fix go (l : list ty) : Forall P l :=
                match l with
                | [] => Forall_nil P
                | x :: l' => Forall_cons x (ty_nested_ind x) (go l')
                end) ps) (ty_nested_ind r)
  | TArray e => HArray (ty_nested_ind e)
  | TReadonlyArray e => HReadonlyArray (ty_nested_ind e)
  | TPromise r => HPromise (ty_nested_ind r)
  | TObject props =>
      HObject ((fix go (l : list (string * prop ty))
                  : Forall (fun kp => P (p_type (snd kp))) l :=
                  match l with
                  | [] => Forall_nil _
                  | kp :: l' =>
                      Forall_cons kp (ty_nested_ind (p_type (snd kp))) (go l')
                  end) props)
  | TUnion ms =>
      HUnion ((fix go (l : list ty) : Forall P l :=
                 match l with
                 | [] => Forall_nil P
                 | x :: l' => Forall_cons x (ty_nested_ind x) (go l')
                 end) ms)
  | TInter a b => HInter (ty_nested_ind a) (ty_nested_ind b)
  end.
End ty_induction.

(** ** Decidable syntactic equality *)

Definition prim_eqb (p q : prim) : bool :=
  match p, q with
  | PString, PString | PNumber, PNumber | PBigint, PBigint | PSymbol, PSymbol => true
  | _, _ => false
  end.

Definition lit_eqb (a b : lit) : bool :=
  match a, b with
  | LStr s, LStr s' => String.eqb s s'
  | LNum n, LNum n' => Z.eqb n n'
  | LBool x, LBool y => Bool.eqb x y
  | _, _ => false
  end.

Fixpoint list_eqb (A : Type) (eqb : A -> A -> bool) (l l' : list A) : bool :=
  match l, l' with
  | [], [] => true
  | x :: r, y :: r' => eqb x y && list_eqb eqb r r'
  | _, _ => false
  end.

Fixpoint ty_eqb (t u : ty) {struct t} : bool :=
  match t, u with
  | TUndefined, TUndefined => true
  | TNull, TNull => true
  | TPrim p, TPrim q => prim_eqb p q
  | TLit a, TLit b => lit_eqb a b
  | TFunction, TFunction => true
  | TFunc ps r, TFunc ps' r' => list_eqb ty_eqb ps ps' && ty_eqb r r'
  | TArray e, TArray e' => ty_eqb e e'
  | TReadonlyArray e, TReadonlyArray e' => ty_eqb e e'
  | TPromise r, TPromise r' => ty_eqb r r'
  | TObject ps, TObject ps' =>
      list_eqb (fun kp kp' =>
                  String.eqb (fst kp) (fst kp')
                  && Bool.eqb (p_readonly (snd kp)) (p_readonly (snd kp'))
                  && Bool.eqb (p_optional (snd kp)) (p_optional (snd kp'))
                  && ty_eqb (p_type (snd kp)) (p_type (snd kp'))) ps ps'
  | TUnion ms, TUnion ms' => list_eqb ty_eqb ms ms'
  | TInter a b, TInter a' b' => ty_eqb a a' && ty_eqb b b'
  | _, _ => false
  end.

(** ** Unions *)

(** The constituents of a type seen as a union: a union is flattened, any
    other type is its own single constituent, [never] has none. *)
Fixpoint members (t : ty) : list ty :=
  match t with
  | TUnion ms => flat_map members ms
  | _ => [t]
  end.

(** A string or number literal is absorbed by its primitive type when both
    occur in one union (literal reduction). *)
Definition absorbed (l : list ty) (m : ty) : bool :=
  match m with
  | TLit (LStr _) => existsb (ty_eqb (TPrim PString)) l
  | TLit (LNum _) => existsb (ty_eqb (TPrim PNumber)) l
  | _ => false
  end.

Definition reduce (l : list ty) : list ty :=
  filter (fun m => negb (absorbed l m)) l.

(** Removal of repeated constituents. *)
Fixpoint dedup (l : list ty) : list ty :=
  match l with
  | [] => []
  | x :: r => if existsb (ty_eqb x) r then dedup r else x :: dedup r
  end.

(** The constituents of the union of the types in [l]: nested unions are
    flattened, repeated constituents are dropped, absorbed literals are
    removed. *)
Definition constituents (l : list ty) : list ty :=
  reduce (dedup (flat_map members l)).

(** Union construction as the checker does it; a union of one constituent is
    that constituent. *)
Definition mk_union (l : list ty) : ty :=
  match constituents l with
  | [x] => x
  | l' => TUnion l'
  end.

Definition union2 (a b : ty) : ty := mk_union [a; b].

(** A conditional type [T extends ... ? X : Y] whose checked type is a naked
    type parameter distributes over the constituents of [T]; [branch] is the
    conditional applied to one constituent. *)
Definition cond_dist (branch : ty -> ty) (T : ty) : ty :=
  mk_union (map branch (members T)).

(** ** Assignability ([extends]) *)

Fixpoint size (t : ty) : nat :=
  match t with
  | TFunc ps r => S (list_sum (map size ps) + size r)
  | TArray e | TReadonlyArray e | TPromise e => S (size e)
  | TObject props => S (list_sum (map (fun kp => S (S (size (p_type (snd kp))))) props))
  | TUnion ms => S (list_sum (map size ms))
  | TInter a b => S (size a + size b)
  | _ => 1
  end.

Fixpoint assoc (A : Type) (k : string) (l : list (string * A)) : option A :=
  match l with
  | [] => None
  | (k', v) :: r => if String.eqb k k' then Some v else assoc k r
  end.

Fixpoint forallb2 (A B : Type) (f : A -> B -> bool) (l : list A) (l' : list B) : bool :=
  match l, l' with
  | x :: r, y :: r' => f x y && forallb2 f r r'
  | _, _ => true
  end.

Definition is_undefined (t : ty) : bool :=
  match t with TUndefined => true | _ => false end.

(** [T[K]] of an optional property includes [undefined]. *)
Definition prop_read (p : prop ty) : ty :=
  if p_optional p then union2 (p_type p) TUndefined else p_type p.

(** Assignability of [s] to [t] under strict null checks, restricted to the
    universe above.  The members that arrays, functions and promises inherit
    from the standard library are not part of the universe, so such a type
    is assignable to an object type only when that is the empty object type.
    Function types compare parameters contravariantly and results
    covariantly, and a source may take fewer parameters than its target.
    The recursion swaps its arguments at parameters, hence the fuel;
    [extends] supplies enough of it ([extends_f_enough] below). *)
Fixpoint extends_f (n : nat) (s t : ty) : bool :=
  match n with
  | O => false
  | S n' =>
      match s, t with
      | TUnion ms, _ => forallb (fun m => extends_f n' m t) ms
      | _, TUnion ms' => existsb (extends_f n' s) ms'
      | _, TInter a b => extends_f n' s a && extends_f n' s b
      | TInter a b, _ => extends_f n' a t || extends_f n' b t
      | TUndefined, TUndefined => true
      | TNull, TNull => true
      | TPrim p, TPrim q => prim_eqb p q
      | TLit a, TLit b => lit_eqb a b
      | TLit (LStr _), TPrim PString => true
      | TLit (LNum _), TPrim PNumber => true
      | TFunction, TFunction => true
      | TFunc _ _, TFunction => true
      | TFunc ps r, TFunc ps' r' =>
          (List.length ps <=? List.length ps')%nat
          && forallb2 (fun p p' => extends_f n' p' p) ps ps'
          && extends_f n' r r'
      | TArray e, TArray e' => extends_f n' e e'
      | TArray e, TReadonlyArray e' => extends_f n' e e'
      | TReadonlyArray e, TReadonlyArray e' => extends_f n' e e'
      | TPromise r, TPromise r' => extends_f n' r r'
      | TObject ps, TObject ps' =>
          forallb (fun kp' =>
                     match assoc (fst kp') ps with
                     | Some p =>
                         (negb (p_optional p) || p_optional (snd kp'))
                         && extends_f n' (prop_read p) (prop_read (snd kp'))
                     | None => p_optional (snd kp')
                     end) ps'
      | (TUndefined | TNull), TObject _ => false
      | _, TObject [] => true
      | _, _ => false
      end
  end.

Definition extends (s t : ty) : bool := extends_f (size s + size t + 4) s t.

(** ** Intersections *)

(** Intersection of two constituents: equal types and a literal with its
    primitive reduce, distinct primitives and literals are disjoint, anything
    else stays an intersection. *)
Definition inter_atom (a b : ty) : ty :=
  if ty_eqb a b then a
  else
    match a, b with
    | TLit (LStr _), TPrim PString | TLit (LNum _), TPrim PNumber => a
    | TPrim PString, TLit (LStr _) | TPrim PNumber, TLit (LNum _) => b
    | (TUndefined | TNull | TPrim _ | TLit _), (TUndefined | TNull | TPrim _ | TLit _) =>
        TNever
    | _, _ => TInter a b
    end.

(** [A & B]: intersection distributes over the constituents of both sides. *)
Definition inter (A B : ty) : ty :=
  mk_union (flat_map (fun a => map (inter_atom a) (members B)) (members A)).

(** ** Object types: properties, [keyof], indexed access, mapped types *)

(** Removal of [undefined] from a property type (what the checker does when it
    stores an optional property or strips [?]). *)
Definition strip_undefined (t : ty) : ty :=
  mk_union (filter (fun m => negb (is_undefined m)) (members t)).

Definition make_prop (ro opt : bool) (t : ty) : prop ty :=
  mkProp ro opt (if opt then strip_undefined t else t).

(** The property [k] of an object type or of an intersection of object types.
    In an intersection the property is readonly when some side has it
    readonly, optional when every side that has it has it optional, and its
    type is the intersection of the sides' types. *)
Fixpoint get_prop (t : ty) (k : string) : option (prop ty) :=
  match t with
  | TObject ps => assoc k ps
  | TInter a b =>
      match get_prop a k, get_prop b k with
      | Some p, Some q =>
          Some (make_prop (p_readonly p || p_readonly q)
                          (p_optional p && p_optional q)
                          (inter (prop_read p) (prop_read q)))
      | Some p, None => Some p
      | None, Some q => Some q
      | None, None => None
      end
  | _ => None
  end.

Fixpoint keys_of (t : ty) : list string :=
  match t with
  | TObject ps => map fst ps
  | TInter a b => keys_of a ++ keys_of b
  | _ => []
  end.

(** [keyof T] for object types and their intersections: the union of the
    literal types of the property names. *)
Definition keyof (T : ty) : ty := mk_union (map TKey (keys_of T)).

(** The element type of an array, also through an intersection. *)
Fixpoint elem_of (t : ty) : option ty :=
  match t with
  | TArray e | TReadonlyArray e => Some e
  | TInter a b =>
      match elem_of a with
      | Some e => Some e
      | None => elem_of b
      end
  | _ => None
  end.

(** [T[m]] for one constituent [T] and one constituent [m] of the index. *)
Definition index_atom (T m : ty) : ty :=
  match m with
  | TLit (LStr k) =>
      match get_prop T k with
      | Some p => prop_read p
      | None => TNever
      end
  | TPrim PNumber =>
      match elem_of T with
      | Some e => e
      | None => TNever
      end
  | _ => TNever
  end.

(** Indexed access [T[K]]: the union of the accesses at every constituent. *)
Definition index (T K : ty) : ty :=
  mk_union (flat_map (fun t => map (index_atom t) (members K)) (members T)).

(** Modifiers of a mapped type: absent, [readonly]/[?], [-readonly]/[-?]. *)
Inductive modifier : Type := Keep | Add | Remove.

Definition apply_mod (m : modifier) (b : bool) : bool :=
  match m with Keep => b | Add => true | Remove => false end.

Definition is_remove (m : modifier) : bool :=
  match m with Remove => true | _ => false end.

(** The string-literal constituents of a key type. *)
Definition key_names (K : ty) : list string :=
  flat_map (fun m => match m with TLit (LStr k) => [k] | _ => [] end) (members K).

(** The property that a mapped type homomorphic in [T] produces for key [k]
    when its template evaluates to [t].  Removing [?] from a property that
    was optional also removes [undefined] from its type. *)
Definition mapped_entry (ro opt : modifier) (T : ty) (k : string) (t : ty)
  : string * prop ty :=
  let was_ro := match get_prop T k with Some p => p_readonly p | None => false end in
  let was_opt := match get_prop T k with Some p => p_optional p | None => false end in
  (k, make_prop (apply_mod ro was_ro) (apply_mod opt was_opt)
                (if is_remove opt && was_opt then strip_undefined t else t)).

(** The mapped type [{ ro [P in K] opt : F<P> }] whose modifiers come from the
    properties of [T]: one property per string-literal constituent of [K]. *)
Definition mapped (ro opt : modifier) (T K : ty) (F : string -> ty) : ty :=
  TObject (map (fun k => mapped_entry ro opt T k (F k)) (key_names K)).

(** Built-in [Pick<T, K> = { [P in K]: T[P] }]. *)
Definition Pick (T K : ty) : ty :=
  mapped Keep Keep T K (fun k => index T (TKey k)).

(** Built-in [Partial<T> = { [P in keyof T]?: T[P] }]. *)
Definition Partial (T : ty) : ty :=
  mapped Keep Add T (keyof T) (fun k => index T (TKey k)).

(** Built-in [Extract<T, U> = T extends U ? T : never]. *)
Definition Extract (T U : ty) : ty :=
  cond_dist (fun t => if extends t U then t else TNever) T.

(** Built-in [NonNullable<T> = T extends null | undefined ? never : T]. *)
Definition NonNullable (T : ty) : ty :=
  cond_dist (fun t => if extends t (TUnion [TNull; TUndefined]) then TNever else t) T.

(** ** The aliases of [mapped-types.ts] *)

(** [Primitive = number | bigint | boolean | string | symbol] *)
Definition Primitive : ty := mk_union [TNumber; TBigint; TBoolean; TString; TSymbol].

(** [Falsey = null | undefined | false | 0 | ''] *)
Definition Falsey : ty :=
  mk_union [TNull; TUndefined; TFalse; TLit (LNum 0); TLit (LStr EmptyString)].

(** [SetIntersection<A, B> = A extends B ? A : never] *)
Definition SetIntersection (A B : ty) : ty :=
  cond_dist (fun a => if extends a B then a else TNever) A.

(** [SetDifference<A, B> = A extends B ? never : A] *)
Definition SetDifference (A B : ty) : ty :=
  cond_dist (fun a => if extends a B then TNever else a) A.

(** [SetComplement<A, A1 extends A> = SetDifference<A, A1>] *)
Definition SetComplement (A A1 : ty) : ty := SetDifference A A1.

(** [SymmetricDifference<A, B> = SetDifference<A | B, A & B>] *)
Definition SymmetricDifference (A B : ty) : ty :=
  SetDifference (union2 A B) (inter A B).

(** [NonUndefined<A> = A extends undefined ? never : A] *)
Definition NonUndefined (A : ty) : ty :=
  cond_dist (fun a => if extends a TUndefined then TNever else a) A.

(** [FunctionKeys<T> =
      { [K in keyof T]-?: NonUndefined<T[K]> extends Function ? K : never }[keyof T]] *)
Definition FunctionKeys (T : ty) : ty :=
  index
    (mapped Keep Remove T (keyof T)
       (fun k => if extends (NonUndefined (index T (TKey k))) TFunction
                 then TKey k else TNever))
    (keyof T).

(** [NonFunctionKeys<T> =
      { [K in keyof T]-?: NonUndefined<T[K]> extends Function ? never : K }[keyof T]] *)
Definition NonFunctionKeys (T : ty) : ty :=
  index
    (mapped Keep Remove T (keyof T)
       (fun k => if extends (NonUndefined (index T (TKey k))) TFunction
                 then TNever else TKey k))
    (keyof T).

(** [IfEquals<X, Y, A = X, B = never>]: the two generic signatures are
    related exactly when the checker finds [X] and [Y] identical, modifiers
    included. *)
Definition IfEquals (X Y A B : ty) : ty :=
  if ty_eqb X Y then A else B.

(** [{ [Q in P]: T[P] }] and [{ -readonly [Q in P]: T[P] }] for one key [P]
    of [T]. *)
Definition single_prop (ro : modifier) (T : ty) (k : string) : ty :=
  mapped ro Keep T (TKey k) (fun _ => index T (TKey k)).

(** [WritableKeys<T> = { [P in keyof T]-?:
      IfEquals<{ [Q in P]: T[P] }, { -readonly [Q in P]: T[P] }, P> }[keyof T]] *)
Definition WritableKeys (T : ty) : ty :=
  index
    (mapped Keep Remove T (keyof T)
       (fun k => IfEquals (single_prop Keep T k) (single_prop Remove T k) (TKey k) TNever))
    (keyof T).

(** [ReadonlyKeys<T> = { [P in keyof T]-?:
      IfEquals<{ [Q in P]: T[P] }, { -readonly [Q in P]: T[P] }, never, P> }[keyof T]] *)
Definition ReadonlyKeys (T : ty) : ty :=
  index
    (mapped Keep Remove T (keyof T)
       (fun k => IfEquals (single_prop Keep T k) (single_prop Remove T k) TNever (TKey k)))
    (keyof T).

(** [RequiredKeys<T> = { [K in keyof T]-?: {} extends Pick<T, K> ? never : K }[keyof T]] *)
Definition RequiredKeys (T : ty) : ty :=
  index
    (mapped Keep Remove T (keyof T)
       (fun k => if extends (TObject []) (Pick T (TKey k)) then TNever else TKey k))
    (keyof T).

(** [OptionalKeys<T> = { [K in keyof T]-?: {} extends Pick<T, K> ? K : never }[keyof T]] *)
Definition OptionalKeys (T : ty) : ty :=
  index
    (mapped Keep Remove T (keyof T)
       (fun k => if extends (TObject []) (Pick T (TKey k)) then TKey k else TNever))
    (keyof T).

(** [PickByValue<T, ValueType> =
      Pick<T, { [Key in keyof T]: T[Key] extends ValueType ? Key : never }[keyof T]>] *)
Definition PickByValue (T ValueType : ty) : ty :=
  Pick T
    (index
       (mapped Keep Keep T (keyof T)
          (fun k => if extends (index T (TKey k)) ValueType then TKey k else TNever))
       (keyof T)).

(** [PickByValueExact<T, ValueType> = Pick<T, { [Key in keyof T]:
      [ValueType] extends [T[Key]] ? [T[Key]] extends [ValueType] ? Key : never : never
    }[keyof T]>]; one-element tuples are related as their elements are. *)
Definition PickByValueExact (T ValueType : ty) : ty :=
  Pick T
    (index
       (mapped Keep Keep T (keyof T)
          (fun k => if extends ValueType (index T (TKey k))
                    then if extends (index T (TKey k)) ValueType then TKey k else TNever
                    else TNever))
       (keyof T)).

(** [Omit<T, K extends keyof any> = Pick<T, SetDifference<keyof T, K>>] *)
Definition Omit (T K : ty) : ty := Pick T (SetDifference (keyof T) K).

(** [OmitByValue<T, ValueType> =
      Pick<T, { [Key in keyof T]: T[Key] extends ValueType ? never : Key }[keyof T]>] *)
Definition OmitByValue (T ValueType : ty) : ty :=
  Pick T
    (index
       (mapped Keep Keep T (keyof T)
          (fun k => if extends (index T (TKey k)) ValueType then TNever else TKey k))
       (keyof T)).

(** [OmitByValueExact<T, ValueType> = Pick<T, { [Key in keyof T]:
      [ValueType] extends [T[Key]] ? [T[Key]] extends [ValueType] ? never : Key : Key
    }[keyof T]>] *)
Definition OmitByValueExact (T ValueType : ty) : ty :=
  Pick T
    (index
       (mapped Keep Keep T (keyof T)
          (fun k => if extends ValueType (index T (TKey k))
                    then if extends (index T (TKey k)) ValueType then TNever else TKey k
                    else TKey k))
       (keyof T)).

(** [Intersection<T, U> = Pick<T, Extract<keyof T, keyof U> & Extract<keyof U, keyof T>>] *)
Definition Intersection (T U : ty) : ty :=
  Pick T (inter (Extract (keyof T) (keyof U)) (Extract (keyof U) (keyof T))).

(** [Diff<T, U> = Pick<T, SetDifference<keyof T, keyof U>>] *)
Definition Diff (T U : ty) : ty := Pick T (SetDifference (keyof T) (keyof U)).

(** [Subtract<T extends T1, T1> = Pick<T, SetComplement<keyof T, keyof T1>>] *)
Definition Subtract (T T1 : ty) : ty := Pick T (SetComplement (keyof T) (keyof T1)).

(** [Overwrite<T, U, I = Diff<T, U> & Intersection<U, T>> = Pick<I, keyof I>];
    [Overwrite3] takes the third parameter, [Overwrite] supplies its
    default. *)
Definition Overwrite3 (T U I : ty) : ty := Pick I (keyof I).
Definition Overwrite (T U : ty) : ty :=
  Overwrite3 T U (inter (Diff T U) (Intersection U T)).

(** [Assign<T, U, I = Diff<T, U> & Intersection<U, T> & Diff<U, T>> = Pick<I, keyof I>] *)
Definition Assign3 (T U I : ty) : ty := Pick I (keyof I).
Definition Assign (T U : ty) : ty :=
  Assign3 T U (inter (inter (Diff T U) (Intersection U T)) (Diff U T)).

(** [Exact<A> = A & { __brand: keyof A }] *)
Definition Exact (A : ty) : ty :=
  inter A (TObject [("__brand", mkProp false false (keyof A))]).

(** [Unionize<T> = { [P in keyof T]: { [Q in P]: T[P] } }[keyof T]] *)
Definition Unionize (T : ty) : ty :=
  index (mapped Keep Keep T (keyof T) (fun k => single_prop Keep T k)) (keyof T).

(** One constituent against [Promise<infer U>]: the inferred [U], if the
    constituent is a promise.  An intersection is matched through the first
    of its sides that is one. *)
Fixpoint infer_promise (t : ty) : option ty :=
  match t with
  | TPromise r => Some r
  | TInter a b =>
      match infer_promise a with
      | Some u => Some u
      | None => infer_promise b
      end
  | _ => None
  end.

(** The declared constraint [T extends Promise<any>]: every constituent of
    [T] is assignable to a promise of anything. *)
Fixpoint extends_Promise_any_atom (t : ty) : bool :=
  match t with
  | TPromise _ => true
  | TInter a b => extends_Promise_any_atom a || extends_Promise_any_atom b
  | _ => false
  end.

Definition extends_Promise_any (T : ty) : bool :=
  forallb extends_Promise_any_atom (members T).

(** [PromiseType<T extends Promise<any>> = T extends Promise<infer U> ? U : never] *)
Definition PromiseType (T : ty) : ty :=
  cond_dist (fun t => match infer_promise t with Some U => U | None => TNever end) T.

(** [Brand<T, U> = T & { __brand: U }] *)
Definition Brand (T U : ty) : ty :=
  inter T (TObject [("__brand", mkProp false false U)]).

(** [Optional<T, K extends keyof T = keyof T> = Omit<T, K> & Partial<Pick<T, K>>] *)
Definition Optional2 (T K : ty) : ty := inter (Omit T K) (Partial (Pick T K)).
Definition Optional (T : ty) : ty := Optional2 T (keyof T).

(** ** The recursive aliases *)

(** A recursive alias is unfolded by the checker one reference at a time.
    Each alias is written as a step that receives the evaluation of its own
    recursive references ([rec]), and is then iterated ([unfold]); an
    evaluation that would need more unfoldings than it is given has no
    result ([None]). *)

Fixpoint mapM (A B : Type) (f : A -> option B) (l : list A) : option (list B) :=
  match l with
  | [] => Some []
  | x :: r =>
      match f x, mapM f r with
      | Some y, Some ys => Some (y :: ys)
      | _, _ => None
      end
  end.

Definition cond_dist_opt (branch : ty -> option ty) (T : ty) : option ty :=
  option_map mk_union (mapM branch (members T)).

Definition mapped_opt (ro opt : modifier) (T K : ty) (F : string -> option ty)
  : option ty :=
  option_map (@TObject)
    (mapM (fun k => option_map (mapped_entry ro opt T k) (F k)) (key_names K)).

(** A mapped type homomorphic in an array type is the array of the mapped
    element type; [?] adds [undefined] to the element and [-?] removes it. *)
Definition mapped_array (ro opt : modifier) (was_ro : bool) (t : ty) : ty :=
  let e := match opt with
           | Keep => t
           | Add => union2 t TUndefined
           | Remove => strip_undefined t
           end in
  if apply_mod ro was_ro then TReadonlyArray e else TArray e.

(** [{ ro [P in keyof T] opt : F<P> }] for one constituent [T]: property by
    property for object types and for intersections, interfaces among them
    (the result lists the properties that the universe lists), element-wise
    for the global [Array] and [ReadonlyArray].  The remaining object types
    of the universe (promises, [Function]) only have members from the
    standard library, which the universe does not list; they are left as
    they are. *)
Definition mapped_keyof_opt (ro opt : modifier) (T : ty) (F : ty -> option ty)
  : option ty :=
  match T with
  | TArray _ => option_map (mapped_array ro opt false) (F TNumber)
  | TReadonlyArray _ => option_map (mapped_array ro opt true) (F TNumber)
  | TObject _ | TInter _ _ => mapped_opt ro opt T (keyof T) (fun k => F (TKey k))
  | _ => Some T
  end.

(** [T extends (...args: any[]) => any], for one constituent; the interface
    [Function] declares no call signature and does not pass. *)
Fixpoint extends_any_function (t : ty) : bool :=
  match t with
  | TFunc _ _ => true
  | TInter a b => extends_any_function a || extends_any_function b
  | _ => false
  end.

(** [T extends any[]], for one constituent: mutable arrays only. *)
Fixpoint extends_any_array (t : ty) : bool :=
  match t with
  | TArray _ => true
  | TInter a b => extends_any_array a || extends_any_array b
  | _ => false
  end.

(** [T extends Array<infer U>], for one constituent. *)
Fixpoint infer_array (t : ty) : option ty :=
  match t with
  | TArray e => Some e
  | TInter a b =>
      match infer_array a with
      | Some e => Some e
      | None => infer_array b
      end
  | _ => None
  end.

(** [T extends object], for one constituent: everything but primitives,
    literals, [undefined] and [null]. *)
Fixpoint extends_object (t : ty) : bool :=
  match t with
  | TFunction | TFunc _ _ | TArray _ | TReadonlyArray _ | TPromise _ | TObject _ => true
  | TInter a b => extends_object a || extends_object b
  | _ => false
  end.

Section DeepReadonly.
Variable rec : ty -> option ty.

(** [interface _DeepReadonlyArray<T> extends ReadonlyArray<DeepReadonly<T>> {}].
    An interface has the members of the type it extends and those of its own
    body, here none: it is the intersection of that readonly array with the
    empty object type.  It is assignable to and from the readonly array and
    has its elements, but it is not the global [ReadonlyArray]: it is not
    assignable to [any[]], and a mapped type over it maps its members, not
    its elements. *)
Definition _DeepReadonlyArray (T : ty) : option ty :=
  option_map (fun e => TInter (TReadonlyArray e) (TObject [])) (rec T).

(** [_DeepReadonlyObject<T> = { readonly [P in keyof T]: DeepReadonly<T[P]> }] *)
Definition _DeepReadonlyObject (T : ty) : option ty :=
  mapped_keyof_opt Add Keep T (fun P => rec (index T P)).

(** [DeepReadonly<T> = T extends (...args: any[]) => any ? T
      : T extends any[] ? _DeepReadonlyArray<T[number]>
      : T extends object ? _DeepReadonlyObject<T> : T],
    at one constituent of [T] and, distributed, at [T]. *)
Definition DeepReadonly_at (t : ty) : option ty :=
  if extends_any_function t then Some t
  else if extends_any_array t then _DeepReadonlyArray (index t TNumber)
  else if extends_object t then _DeepReadonlyObject t
  else Some t.

Definition DeepReadonly_step (T : ty) : option ty :=
  cond_dist_opt DeepReadonly_at T.
End DeepReadonly.

Section DeepRequired.
Variable rec : ty -> option ty.

(** [interface _DeepRequiredArray<T> extends Array<DeepRequired<NonUndefined<T>>> {}].
    This interface is assignable to [any[]]: the recursive aliases, which
    test for an array before they map, take their array branch at it as they
    do at the array it extends, and it is written as that array. *)
Definition _DeepRequiredArray (T : ty) : option ty :=
  option_map TArray (rec (NonUndefined T)).

(** [_DeepRequiredObject<T> = { [P in keyof T]-?: DeepRequired<NonUndefined<T[P]>> }] *)
Definition _DeepRequiredObject (T : ty) : option ty :=
  mapped_keyof_opt Keep Remove T (fun P => rec (NonUndefined (index T P))).

(** [DeepRequired<T> = T extends (...args: any[]) => any ? T
      : T extends any[] ? _DeepRequiredArray<T[number]>
      : T extends object ? _DeepRequiredObject<T> : T] *)
Definition DeepRequired_step (T : ty) : option ty :=
  cond_dist_opt
    (fun t =>
       if extends_any_function t then Some t
       else if extends_any_array t then _DeepRequiredArray (index t TNumber)
       else if extends_object t then _DeepRequiredObject t
       else Some t)
    T.
End DeepRequired.

Section DeepNonNullable.
Variable rec : ty -> option ty.

(** [interface _DeepNonNullableArray<T> extends Array<DeepNonNullable<NonNullable<T>>> {}],
    written as the array it extends, like [_DeepRequiredArray]. *)
Definition _DeepNonNullableArray (T : ty) : option ty :=
  option_map TArray (rec (NonNullable T)).

(** [_DeepNonNullableObject<T> = { [P in keyof T]-?: DeepNonNullable<NonNullable<T[P]>> }] *)
Definition _DeepNonNullableObject (T : ty) : option ty :=
  mapped_keyof_opt Keep Remove T (fun P => rec (NonNullable (index T P))).

(** [DeepNonNullable<T> = T extends (...args: any[]) => any ? T
      : T extends any[] ? _DeepNonNullableArray<T[number]>
      : T extends object ? _DeepNonNullableObject<T> : T] *)
Definition DeepNonNullable_step (T : ty) : option ty :=
  cond_dist_opt
    (fun t =>
       if extends_any_function t then Some t
       else if extends_any_array t then _DeepNonNullableArray (index t TNumber)
       else if extends_object t then _DeepNonNullableObject t
       else Some t)
    T.
End DeepNonNullable.

Section DeepPartial.
Variable rec : ty -> option ty.

(** [interface _DeepPartialArray<T> extends Array<DeepPartial<T>> {}], written
    as the array it extends, like [_DeepRequiredArray]. *)
Definition _DeepPartialArray (T : ty) : option ty :=
  option_map TArray (rec T).

(** [_DeepPartialObject<T> = { [P in keyof T]?: DeepPartial<T[P]> }] *)
Definition _DeepPartialObject (T : ty) : option ty :=
  mapped_keyof_opt Keep Add T (fun P => rec (index T P)).

(** [DeepPartial<T> = T extends Function ? T
      : T extends Array<infer U> ? _DeepPartialArray<U>
      : T extends object ? _DeepPartialObject<T> : T | undefined] *)
Definition DeepPartial_step (T : ty) : option ty :=
  cond_dist_opt
    (fun t =>
       if extends t TFunction then Some t
       else match infer_array t with
            | Some U => _DeepPartialArray U
            | None =>
                if extends_object t then _DeepPartialObject t
                else Some (union2 t TUndefined)
            end)
    T.
End DeepPartial.

(** The number of array and object layers the recursive aliases have to
    descend through.  Function types are leaves for them. *)
Fixpoint rank (t : ty) : nat :=
  match t with
  | TArray e | TReadonlyArray e => S (rank e)
  | TObject ps => S (list_max (map (fun kp => rank (p_type (snd kp))) ps))
  | TUnion ms => list_max (map rank ms)
  | TInter a b => S (Nat.max (rank a) (rank b))
  | _ => 0
  end.

(** Iterated unfolding of a recursive alias. *)
Fixpoint unfold (step : (ty -> option ty) -> ty -> option ty) (n : nat) (T : ty)
  : option ty :=
  match n with
  | O => None
  | S n' => step (unfold step n') T
  end.

Definition DeepReadonly_f : nat -> ty -> option ty := unfold DeepReadonly_step.
Definition DeepRequired_f : nat -> ty -> option ty := unfold DeepRequired_step.
Definition DeepNonNullable_f : nat -> ty -> option ty := unfold DeepNonNullable_step.
Definition DeepPartial_f : nat -> ty -> option ty := unfold DeepPartial_step.

(** The result of a recursive alias: the one an unfolding deep enough for
    [T] gives. *)
Definition unfolded (step : (ty -> option ty) -> ty -> option ty) (T : ty) : ty :=
  match unfold step (S (rank T)) T with
  | Some R => R
  | None => TNever
  end.

Definition DeepReadonly : ty -> ty := unfolded DeepReadonly_step.
Definition DeepRequired : ty -> ty := unfolded DeepRequired_step.
Definition DeepNonNullable : ty -> ty := unfolded DeepNonNullable_step.
Definition DeepPartial : ty -> ty := unfolded DeepPartial_step.

(** ** Normal forms *)

Definition is_union (t : ty) : bool :=
  match t with TUnion _ => true | _ => false end.

Fixpoint nodupb (l : list ty) : bool :=
  match l with
  | [] => true
  | x :: r => negb (existsb (ty_eqb x) r) && nodupb r
  end.

(** A type is normal when union construction leaves it alone: a union lists
    at least two constituents, none a union, none repeated, none absorbed.
    The checker only ever holds normal types. *)
Definition normal (t : ty) : bool :=
  match t with
  | TUnion ms =>
      forallb (fun m => negb (is_union m)) ms
      && nodupb ms
      && forallb (fun m => negb (absorbed ms m)) ms
      && negb (List.length ms =? 1)%nat
  | _ => true
  end.

(** A list of constituents none of which is absorbed by another. *)
Definition reduced_list (l : list ty) : Prop :=
  forall m, In m l -> absorbed l m = false.

(** A property as the checker stores it: its type is normal and, when the
    property is optional, does not list [undefined]. *)
Definition wf_prop (p : prop ty) : bool :=
  normal (p_type p)
  && (negb (p_optional p) || negb (existsb is_undefined (members (p_type p)))).

Definition wf_props (ps : list (string * prop ty)) : bool :=
  forallb (fun kp => wf_prop (snd kp)) ps.

(** The properties of an object type or intersection are stored
    well-formed. *)
Definition wf_object (T : ty) : Prop :=
  forall k p, get_prop T k = Some p -> wf_prop p = true.

(** ** Structural equality up to order *)

(** Two types with the same constituents, in any order. *)
Definition same_type (X Y : ty) : Prop :=
  forall m, In m (members X) <-> In m (members Y).

(** Two object types with the same properties, in any order. *)
Definition same_props (X Y : ty) : Prop :=
  forall k, get_prop X k = get_prop Y k.

(** ** Unions read as sets *)

(** Unit types: types with a single value, for which assignability is
    equality. *)
Definition is_unit (t : ty) : bool :=
  match t with TLit _ | TUndefined | TNull => true | _ => false end.

Definition unit_union (T : ty) : bool := forallb is_unit (members T).

(** The union [A1 | A2] keeps every constituent of [A1] and of [A2]: no
    literal of one is absorbed by a primitive of the other. *)
Definition union_keeps (A1 A2 : ty) : bool :=
  forallb (fun m => negb (absorbed (members A1 ++ members A2) m))
          (members A1 ++ members A2).

Definition is_set_intersection (X A B : ty) : Prop :=
  forall m, In m (members X) <-> In m (members A) /\ In m (members B).

Definition is_set_difference (X A B : ty) : Prop :=
  forall m, In m (members X) <-> In m (members A) /\ ~ In m (members B).

Definition is_symmetric_difference (X A B : ty) : Prop :=
  forall m, In m (members X) <->
            (In m (members A) /\ ~ In m (members B))
            \/ (In m (members B) /\ ~ In m (members A)).

(** [NonUndefined<T[K]> extends Function], the test that [FunctionKeys] and
    [NonFunctionKeys] apply to a key. *)
Definition function_valued (T : ty) (k : string) : bool :=
  extends (NonUndefined (index T (TKey k))) TFunction.

(** ** Evaluation orders on unfoldings *)

(** [y] has the result of [x] whenever [x] has one. *)
Definition le_opt (A : Type) (x y : option A) : Prop :=
  forall a, x = Some a -> y = Some a.

Definition le_rec (rec rec' : ty -> option ty) : Prop :=
  forall T, le_opt (rec T) (rec' T).

(** A step keeps the results it has when its recursive references answer
    more often. *)
Definition step_monotone (step : (ty -> option ty) -> ty -> option ty) : Prop :=
  forall rec rec', le_rec rec rec' -> le_rec (step rec) (step rec').

(** A step has a result at nesting depth [r] once its recursive references
    have one below [r]. *)
Definition step_productive (step : (ty -> option ty) -> ty -> option ty) : Prop :=
  forall rec r,
    (forall T, rank T < r -> rec T <> None) ->
    forall T, rank T <= r -> step rec T <> None.

(** The recursive references of [DeepReadonly], answered by its result. *)
Definition DeepReadonly_rec (X : ty) : option ty := Some (DeepReadonly X).

(** A constituent that [DeepReadonly] leaves as it is. *)
Definition DeepReadonly_fixed (m : ty) : Prop :=
  DeepReadonly_at DeepReadonly_rec m = Some m.

(** An entry of an object type that [DeepReadonly] has built. *)
Definition DeepReadonly_entry (e : string * prop ty) : Prop :=
  p_readonly (snd e) = true
  /\ wf_prop (snd e) = true
  /\ (forall m, In m (members (p_type (snd e))) -> DeepReadonly_fixed m).

(** ** The examples of the documentation comments *)

(** [() => void]; the universe has no [void], [undefined] stands for it. *)
Definition fn_void : ty := TFunc [] TUndefined.

(** ['1' | '2' | '3'] and ['2' | '3' | '4'] *)
Definition keys_123 : ty := mk_union [TKey "1"; TKey "2"; TKey "3"].
Definition keys_234 : ty := mk_union [TKey "2"; TKey "3"; TKey "4"].

(** [string | number | (() => void)] *)
Definition string_number_fn : ty := mk_union [TString; TNumber; fn_void].

(** [string | (() => void) | Function] and ['a' | Function] *)
Definition string_fn_Function : ty := mk_union [TString; fn_void; TFunction].
Definition a_Function : ty := mk_union [TKey "a"; TFunction].

(** [Props = { name: string; age: number; visible: boolean }] *)
Definition Props_list : list (string * prop ty) :=
  [("name", mkProp false false TString);
   ("age", mkProp false false TNumber);
   ("visible", mkProp false false TBoolean)].

Definition Props : ty := TObject Props_list.

(** [NewProps = { age: string; other: string }] *)
Definition NewProps_list : list (string * prop ty) :=
  [("age", mkProp false false TString);
   ("other", mkProp false false TString)].

Definition NewProps : ty := TObject NewProps_list.

(** The type that the comment at [Assign] expects:
    [{ name: string; age: number; visible: boolean; other: string; }] *)
Definition Assign_documented : ty :=
  TObject [("name", mkProp false false TString);
           ("age", mkProp false false TNumber);
           ("visible", mkProp false false TBoolean);
           ("other", mkProp false false TString)].

(** The same with [age] as [NewProps] has it. *)
Definition Assign_evaluated : ty :=
  TObject [("name", mkProp false false TString);
           ("age", mkProp false false TString);
           ("visible", mkProp false false TBoolean);
           ("other", mkProp false false TString)].

(** [Promise<string> | Promise<number>] *)
Definition promises_string_number : ty := mk_union [TPromise TString; TPromise TNumber].

(** [NestedProps = { first: { second: { name: string } } }] and what the
    comment at [DeepReadonly] expects for it. *)
Definition NestedProps : ty :=
  TObject
    [("first",
      mkProp false false
        (TObject
           [("second",
             mkProp false false (TObject [("name", mkProp false false TString)]))]))].

Definition ReadonlyNestedProps : ty :=
  TObject
    [("first",
      mkProp true false
        (TObject
           [("second",
             mkProp true false (TObject [("name", mkProp true false TString)]))]))].

(** [MixedProps = { name: string; setName: (name: string) => void;
      someKeys?: string; someFn?: (...args: any) => any }]; the last signature
    is written without [any]. *)
Definition MixedProps : ty :=
  TObject [("name", mkProp false false TString);
           ("setName", mkProp false false (TFunc [TString] TUndefined));
           ("someKeys", mkProp false true TString);
           ("someFn", mkProp false true (TFunc [] TString))].

(** [{ readonly foo: string; bar: number }] *)
Definition ReadonlyProps : ty :=
  TObject [("foo", mkProp true false TString); ("bar", mkProp false false TNumber)].

(** [{ req: number; reqUndef: number | undefined; opt?: string;
      optUndef?: number | undefined }] *)
Definition RequiredProps : ty :=
  TObject [("req", mkProp false false TNumber);
           ("reqUndef", mkProp false false (mk_union [TNumber; TUndefined]));
           ("opt", mkProp false true TString);
           ("optUndef", mkProp false true TNumber)].

(** [{ req: number; reqUndef: number | undefined; opt?: string }] *)
Definition ValueProps : ty :=
  TObject [("req", mkProp false false TNumber);
           ("reqUndef", mkProp false false (mk_union [TNumber; TUndefined]));
           ("opt", mkProp false true TString)].

(** [DefaultProps = { age: number }] *)
Definition DefaultProps : ty := TObject [("age", mkProp false false TNumber)].

(** [{ first?: { second?: { name?: string } } }] *)
Definition OptionalNestedProps : ty :=
  TObject
    [("first",
      mkProp false true
        (TObject
           [("second",
             mkProp false true (TObject [("name", mkProp false true TString)]))]))].

(** [{ first?: null | { second?: null | { name?: string | null | undefined } } }] *)
Definition NullableNestedProps : ty :=
  TObject
    [("first",
      mkProp false true
        (mk_union
           [TNull;
            TObject
              [("second",
                mkProp false true
                  (mk_union
                     [TNull;
                      TObject [("name", mkProp false true (mk_union [TString; TNull]))]]))]]))].

(** ** Modifiers of a key *)

(** Whether [T] has the key [k] with [?], and with [readonly]. *)
Definition optional_key (T : ty) (k : string) : bool :=
  match get_prop T k with Some p => p_optional p | None => false end.

Definition readonly_key (T : ty) (k : string) : bool :=
  match get_prop T k with Some p => p_readonly p | None => false end.

(** A property with [?] added. *)
Definition optional_prop (p : prop ty) : prop ty :=
  make_prop (p_readonly p) true (p_type p).

(** ** Tests on the value of a property *)

(** [T[K] extends ValueType], the test of [PickByValue] and [OmitByValue],
    and the two-sided test of their exact variants. *)
Definition value_extends (T V : ty) (k : string) : bool :=
  extends (index T (TKey k)) V.

Definition value_exact (T V : ty) (k : string) : bool :=
  extends V (index T (TKey k)) && extends (index T (TKey k)) V.

(** ** Modifiers at every depth *)

(** The predicates below follow a type through its object properties, its
    array elements and the constituents of its unions.  Function types,
    [Function], promises and intersections other than the interface
    [_DeepReadonlyArray] are leaves, as they are for the recursive
    aliases. *)

Definition is_nullish (t : ty) : bool :=
  match t with TUndefined | TNull => true | _ => false end.

Definition lists_undefined (t : ty) : bool := existsb is_undefined (members t).

Definition lists_nullish (t : ty) : bool := existsb is_nullish (members t).

(** Every property is [readonly] and no array is mutable; the interface
    [_DeepReadonlyArray] is followed to its elements. *)
Fixpoint deep_readonly (t : ty) : bool :=
  match t with
  | TArray _ => false
  | TReadonlyArray e => deep_readonly e
  | TInter (TReadonlyArray e) (TObject []) => deep_readonly e
  | TObject ps =>
      forallb (fun kp => p_readonly (snd kp) && deep_readonly (p_type (snd kp))) ps
  | TUnion ms => forallb deep_readonly ms
  | _ => true
  end.

(** No property is optional, and no property or element type lists
    [undefined]. *)
Fixpoint deep_required (t : ty) : bool :=
  match t with
  | TArray e | TReadonlyArray e => negb (lists_undefined e) && deep_required e
  | TObject ps =>
      forallb (fun kp => negb (p_optional (snd kp))
                         && negb (lists_undefined (p_type (snd kp)))
                         && deep_required (p_type (snd kp))) ps
  | TUnion ms => forallb deep_required ms
  | _ => true
  end.

(** No property is optional, and no property or element type lists [null]
    or [undefined]. *)
Fixpoint deep_non_nullable (t : ty) : bool :=
  match t with
  | TArray e | TReadonlyArray e => negb (lists_nullish e) && deep_non_nullable e
  | TObject ps =>
      forallb (fun kp => negb (p_optional (snd kp))
                         && negb (lists_nullish (p_type (snd kp)))
                         && deep_non_nullable (p_type (snd kp))) ps
  | TUnion ms => forallb deep_non_nullable ms
  | _ => true
  end.

(** Every property is optional. *)
Fixpoint deep_partial (t : ty) : bool :=
  match t with
  | TArray e | TReadonlyArray e => deep_partial e
  | TObject ps =>
      forallb (fun kp => p_optional (snd kp) && deep_partial (p_type (snd kp))) ps
  | TUnion ms => forallb deep_partial ms
  | _ => true
  end.

(** ** Constituents that [DeepRequired] and [DeepNonNullable] leave alone *)

(** The recursive references of [DeepRequired], answered by its result. *)
Definition DeepRequired_rec (X : ty) : option ty := Some (DeepRequired X).

(** A constituent that [DeepRequired] leaves as it is. *)
Definition DeepRequired_fixed (m : ty) : Prop :=
  (if extends_any_function m then Some m
   else if extends_any_array m then _DeepRequiredArray DeepRequired_rec (index m TNumber)
   else if extends_object m then _DeepRequiredObject DeepRequired_rec m
   else Some m) = Some m.

(** A constituent that [DeepRequired] leaves as it is and that [NonUndefined] keeps. *)
Definition DeepRequired_kept (m : ty) : Prop :=
  DeepRequired_fixed m /\ extends m TUndefined = false.

(** An entry of an object type that [DeepRequired] has built. *)
Definition DeepRequired_entry (e : string * prop ty) : Prop :=
  p_optional (snd e) = false
  /\ normal (p_type (snd e)) = true
  /\ (forall m, In m (members (p_type (snd e))) -> DeepRequired_kept m).

(** The recursive references of [DeepNonNullable], answered by its result. *)
Definition DeepNonNullable_rec (X : ty) : option ty := Some (DeepNonNullable X).

(** A constituent that [DeepNonNullable] leaves as it is. *)
Definition DeepNonNullable_fixed (m : ty) : Prop :=
  (if extends_any_function m then Some m
   else if extends_any_array m then _DeepNonNullableArray DeepNonNullable_rec (index m TNumber)
   else if extends_object m then _DeepNonNullableObject DeepNonNullable_rec m
   else Some m) = Some m.

(** A constituent that [DeepNonNullable] leaves as it is and that [NonNullable] keeps. *)
Definition DeepNonNullable_kept (m : ty) : Prop :=
  DeepNonNullable_fixed m /\ extends m (TUnion [TNull; TUndefined]) = false.

(** An entry of an object type that [DeepNonNullable] has built. *)
Definition DeepNonNullable_entry (e : string * prop ty) : Prop :=
  p_optional (snd e) = false
  /\ normal (p_type (snd e)) = true
  /\ (forall m, In m (members (p_type (snd e))) -> DeepNonNullable_kept m).

(** ** Types without mutable arrays *)

(** No mutable array is met where [DeepReadonly] descends: at the
    properties of object types, the elements of readonly arrays and the
    constituents of unions.  Function types, [Function] and promises are
    leaves, and of the intersections only function types are admitted. *)
Fixpoint no_mutable_array (t : ty) : bool :=
  match t with
  | TArray _ => false
  | TReadonlyArray e => no_mutable_array e
  | TObject ps => forallb (fun kp => no_mutable_array (p_type (snd kp))) ps
  | TUnion ms => forallb no_mutable_array ms
  | TInter a b => extends_any_function a || extends_any_function b
  | _ => true
  end.

(** ** Constituents of a result *)

(** [m] is accounted for in [X]: it is a constituent of [X], or a literal
    that a primitive constituent of [X] absorbs. *)
Definition covered (m X : ty) : Prop :=
  In m (members X) \/ absorbed (members X) m = true.

(** ** Equality up to order, and structural equality *)

(** [T'] is the object type [T] with its properties in another order. *)
Definition reordered (T T' : ty) : Prop :=
  exists ps ps',
    T = TObject ps /\ T' = TObject ps'
    /\ wf_props ps = true /\ NoDup (map fst ps) /\ Permutation ps ps'.

(** Two properties with the same modifiers whose types have the same
    constituents. *)
Definition prop_alike (p q : prop ty) : Prop :=
  p_readonly p = p_readonly q /\ p_optional p = p_optional q
  /\ same_type (p_type p) (p_type q).

(** Two object types with the same keys and alike properties. *)
Definition props_alike (X Y : ty) : Prop :=
  forall k, match get_prop X k, get_prop Y k with
            | Some p, Some q => prop_alike p q
            | None, None => True
            | _, _ => False
            end.

(** An alias of unions gives the same constituents when the constituents
    of its arguments are given in another order. *)
Definition order_blind1 (F : ty -> ty) : Prop :=
  forall X X', same_type X X' -> same_type (F X) (F X').

Definition order_blind2 (F : ty -> ty -> ty) : Prop :=
  forall X X' Y Y',
    same_type X X' -> same_type Y Y' -> same_type (F X Y) (F X' Y').

(** An alias of object types gives the same keys, or the same properties,
    when the properties of its arguments are given in another order. *)
Definition keys_order_blind (F : ty -> ty) : Prop :=
  forall T T', reordered T T' -> same_type (F T) (F T').

Definition props_order_blind1 (F : ty -> ty) : Prop :=
  forall T T', reordered T T' -> same_props (F T) (F T').

Definition props_order_blind2 (F : ty -> ty -> ty) : Prop :=
  forall T T' U U', reordered T T' -> reordered U U' -> same_props (F T U) (F T' U').

(** The same with a union as second argument. *)
Definition props_order_blind_union (F : ty -> ty -> ty) : Prop :=
  forall T T' V V', reordered T T' -> same_type V V' -> same_props (F T V) (F T' V').

(** The structure of a type: an interface with an empty body, an
    intersection with the empty object type, has the members of the type
    it extends and no other. *)
Fixpoint structure (t : ty) : ty :=
  match t with
  | TFunc ps r => TFunc (map structure ps) (structure r)
  | TArray e => TArray (structure e)
  | TReadonlyArray e => TReadonlyArray (structure e)
  | TPromise r => TPromise (structure r)
  | TObject ps =>
      TObject (map (fun kp => (fst kp,
                               mkProp (p_readonly (snd kp)) (p_optional (snd kp))
                                      (structure (p_type (snd kp))))) ps)
  | TUnion ms => TUnion (map structure ms)
  | TInter a (TObject []) => structure a
  | TInter a b => TInter (structure a) (structure b)
  | _ => t
  end.

Definition structurally_equal (X Y : ty) : Prop := structure X = structure Y.

(** ** Structural equality up to order, at every depth *)

(** The types that intersection reduces on its own: an intersection of two
    of them is one of them or [never]. *)
Definition is_primitive (t : ty) : bool :=
  match t with
  | TUndefined | TNull | TPrim _ | TLit _ => true
  | _ => false
  end.

(** [alike X Y]: [X] and [Y] are equal up to the order of constituents and
    of properties, at every depth.  Every constituent of one is
    [alike_atom] a constituent of the other; two function types are alike
    when their parameters and results are, two arrays, readonly arrays or
    promises when their elements or results are, two object types when
    they have the same keys and, at every key, the same modifiers and
    alike types; two intersections are alike when their sides are, and an
    intersection of two types alike [c] is alike [c] (as [c & c] is [c]).
    An interface is an intersection with its body and is not alike the
    type it extends. *)
Inductive alike_atom : ty -> ty -> Prop :=
| alike_undefined : alike_atom TUndefined TUndefined
| alike_null : alike_atom TNull TNull
| alike_prim p : alike_atom (TPrim p) (TPrim p)
| alike_lit l : alike_atom (TLit l) (TLit l)
| alike_Function : alike_atom TFunction TFunction
| alike_func ps ps' r r' :
    Forall2 alike ps ps' -> alike r r' -> alike_atom (TFunc ps r) (TFunc ps' r')
| alike_array e e' : alike e e' -> alike_atom (TArray e) (TArray e')
| alike_readonly_array e e' :
    alike e e' -> alike_atom (TReadonlyArray e) (TReadonlyArray e')
| alike_promise r r' : alike r r' -> alike_atom (TPromise r) (TPromise r')
| alike_object ps ps' :
    (forall k, alike_prop (assoc k ps) (assoc k ps')) ->
    alike_atom (TObject ps) (TObject ps')
| alike_inter a b a' b' :
    alike_atom a a' -> alike_atom b b' -> alike_atom (TInter a b) (TInter a' b')
| alike_inter_l a b c :
    is_primitive c = false ->
    alike_atom a c -> alike_atom b c -> alike_atom (TInter a b) c
| alike_inter_r a b c :
    is_primitive c = false ->
    alike_atom c a -> alike_atom c b -> alike_atom c (TInter a b)
with alike : ty -> ty -> Prop :=
| alike_members X Y :
    (forall m, In m (members X) -> exists m', In m' (members Y) /\ alike_atom m m') ->
    (forall m', In m' (members Y) -> exists m, In m (members X) /\ alike_atom m m') ->
    alike X Y
with alike_prop : option (prop ty) -> option (prop ty) -> Prop :=
| alike_none : alike_prop None None
| alike_some p q :
    p_readonly p = p_readonly q -> p_optional p = p_optional q ->
    alike (p_type p) (p_type q) -> alike_prop (Some p) (Some q).

(** Two lists of types in which every element of one is related to an
    element of the other. *)
Definition corr (R : ty -> ty -> Prop) (l l' : list ty) : Prop :=
  (forall m, In m l -> exists m', In m' l' /\ R m m')
  /\ (forall m', In m' l' -> exists m, In m l /\ R m m').

(** Two object types or intersections with the same keys and alike
    properties. *)
Definition alike_props (X Y : ty) : Prop :=
  forall k, alike_prop (get_prop X k) (get_prop Y k).

Fixpoint distinct (l : list string) : bool :=
  match l with
  | [] => true
  | k :: r => negb (existsb (String.eqb k) r) && distinct r
  end.

(** Every object type in [t] lists each of its keys once. *)
Fixpoint tidy (t : ty) : bool :=
  match t with
  | TFunc ps r => forallb tidy ps && tidy r
  | TArray e | TReadonlyArray e | TPromise e => tidy e
  | TObject ps =>
      distinct (map fst ps) && forallb (fun kp => tidy (p_type (snd kp))) ps
  | TUnion ms => forallb tidy ms
  | TInter a b => tidy a && tidy b
  | _ => true
  end.

(** No intersection occurs in [t]. *)
Fixpoint no_inter (t : ty) : bool :=
  match t with
  | TFunc ps r => forallb no_inter ps && no_inter r
  | TArray e | TReadonlyArray e | TPromise e => no_inter e
  | TObject ps => forallb (fun kp => no_inter (p_type (snd kp))) ps
  | TUnion ms => forallb no_inter ms
  | TInter _ _ => false
  | _ => true
  end.

(** The types built from primitives, literals, function types, arrays,
    promises, object types and unions. *)
Definition plain (t : ty) : bool := tidy t && no_inter t.

(** Two alike object types of the plain universe, stored well-formed. *)
Definition alike_objects (T T' : ty) : Prop :=
  exists ps ps',
    T = TObject ps /\ T' = TObject ps'
    /\ wf_props ps = true /\ wf_props ps' = true
    /\ plain T = true /\ plain T' = true /\ alike T T'.

(** ** Tests that assignability makes *)

Definition is_inter (t : ty) : bool :=
  match t with TInter _ _ => true | _ => false end.

(** The test that assignability to an object type makes at one property
    [kq] of the target, against the properties [ps] of the source. *)
Definition object_check (ps : list (string * prop ty)) (kq : string * prop ty) : bool :=
  match assoc (fst kq) ps with
  | Some p =>
      (negb (p_optional p) || p_optional (snd kq))
      && extends (prop_read p) (prop_read (snd kq))
  | None => p_optional (snd kq)
  end.

(** The types of the properties of [T] are tidy. *)
Definition props_tidy (T : ty) : Prop :=
  forall k p, get_prop T k = Some p -> tidy (p_type p) = true.

(** One constituent of the result of a recursive alias whose step
    distributes [branch] over the constituents of its argument. *)
Definition unfolded_branch
  (step branch : (ty -> option ty) -> ty -> option ty) (t : ty) : ty :=
  match branch (fun X => Some (unfolded step X)) t with
  | Some r => r
  | None => TNever
  end.

(** Function types and the interface [Function]. *)
Definition is_function (t : ty) : bool :=
  match t with TFunction | TFunc _ _ => true | _ => false end.

(** An alias respects structure: on alike arguments of the plain universe
    its results are alike. *)
Definition respects_alike1 (F : ty -> ty) : Prop :=
  forall X X',
    plain X = true -> plain X' = true -> alike X X' -> alike (F X) (F X').

Definition respects_alike2 (F : ty -> ty -> ty) : Prop :=
  forall X X' Y Y',
    plain X = true -> plain X' = true -> plain Y = true -> plain Y' = true ->
    alike X X' -> alike Y Y' -> alike (F X Y) (F X' Y').

(** A key alias returns the same keys on alike object types. *)
Definition keys_respect_alike (F : ty -> ty) : Prop :=
  forall T T', alike_objects T T' -> same_type (F T) (F T').

(** An alias of object types returns alike properties on alike object
    types. *)
Definition props_respect_alike1 (F : ty -> ty) : Prop :=
  forall T T', alike_objects T T' -> alike_props (F T) (F T').

Definition props_respect_alike2 (F : ty -> ty -> ty) : Prop :=
  forall T T' U U',
    alike_objects T T' -> alike_objects U U' -> alike_props (F T U) (F T' U').

(** The same with any type as second argument. *)
Definition props_respect_alike_union (F : ty -> ty -> ty) : Prop :=
  forall T T' V V',
    alike_objects T T' -> plain V = true -> plain V' = true -> alike V V' ->
    alike_props (F T V) (F T' V').

(** [{ first: { a: string; b: number | null }; z: boolean }] and the same
    type written in another order at both depths. *)
Definition NestedOrder : ty :=
  TObject [("first", mkProp false false
                       (TObject [("a", mkProp false false TString);
                                 ("b", mkProp false false (TUnion [TNumber; TNull]))]));
           ("z", mkProp false false TBoolean)].

Definition NestedOrder' : ty :=
  TObject [("z", mkProp false false (TUnion [TFalse; TTrue]));
           ("first", mkProp false false
                       (TObject [("b", mkProp false false (TUnion [TNull; TNumber]));
                                 ("a", mkProp false false TString)]))].

(** * Properties *)

(** ** [ty_eqb] decides equality *)

Lemma prim_eqb_eq p q : prim_eqb p q = true <-> p = q.
Proof. destruct p, q; simpl; split; congruence. Qed.

Lemma lit_eqb_eq a b : lit_eqb a b = true <-> a = b.
Proof.
  destruct a, b; simpl; split; try congruence; intros H.
  - apply String.eqb_eq in H; congruence.
  - inversion H; apply String.eqb_refl.
  - apply Z.eqb_eq in H; congruence.
  - inversion H; apply Z.eqb_refl.
  - apply Bool.eqb_prop in H; congruence.
  - inversion H; apply Bool.eqb_reflx.
Qed.

Lemma list_eqb_eq (A : Type) (eqb : A -> A -> bool) (l : list A) :
  Forall (fun x => forall y, eqb x y = true <-> x = y) l ->
  forall l', list_eqb eqb l l' = true <-> l = l'.
Proof.
  induction 1 as [|x r Hx _ IH]; intros [|y r']; simpl; split; try congruence.
  - intros H. apply andb_true_iff in H as [H1 H2].
    apply Hx in H1. apply IH in H2. congruence.
  - intros H. inversion H; subst. apply andb_true_iff; split.
    + now apply Hx.
    + now apply IH.
Qed.

Lemma ty_eqb_eq t : forall u, ty_eqb t u = true <-> t = u.
Proof.
  induction t using ty_nested_ind; intros u; destruct u; simpl;
    try (split; congruence).
  - rewrite prim_eqb_eq. split; congruence.
  - rewrite lit_eqb_eq. split; congruence.
  - rewrite andb_true_iff, (list_eqb_eq ty_eqb H), IHt. split.
    + intros [-> ->]; reflexivity.
    + intros E; inversion E; auto.
  - rewrite IHt. split; congruence.
  - rewrite IHt. split; congruence.
  - rewrite IHt. split; congruence.
  - match goal with |- list_eqb ?f _ _ = true <-> _ => rewrite (@list_eqb_eq _ f props) end.
    + split; congruence.
    + eapply Forall_impl; [|exact H]. intros [k [ro op t]] IH [k' [ro' op' t']]; simpl in *.
      rewrite !andb_true_iff, String.eqb_eq, IH. split.
      * intros [[[-> Hr] Ho] ->]. apply Bool.eqb_prop in Hr, Ho. congruence.
      * intros E; inversion E; subst. rewrite !Bool.eqb_reflx. auto.
  - rewrite (list_eqb_eq ty_eqb H). split; congruence.
  - rewrite andb_true_iff, IHt1, IHt2. split.
    + intros [-> ->]; reflexivity.
    + intros E; inversion E; auto.
Qed.

Lemma ty_eqb_refl t : ty_eqb t t = true.
Proof. now apply ty_eqb_eq. Qed.

(** ** The documented examples, evaluated *)

Example SetIntersection_documented :
  SetIntersection keys_123 keys_234 = mk_union [TKey "2"; TKey "3"]
  /\ SetIntersection string_number_fn TFunction = fn_void.
Proof. split; vm_compute; reflexivity. Qed.

Example SetDifference_documented :
  SetDifference keys_123 keys_234 = TKey "1"
  /\ SetDifference string_number_fn TFunction = mk_union [TString; TNumber].
Proof. split; vm_compute; reflexivity. Qed.

Example SetComplement_documented :
  SetComplement keys_123 (mk_union [TKey "2"; TKey "3"]) = TKey "1".
Proof. vm_compute; reflexivity. Qed.

Example SymmetricDifference_documented :
  SymmetricDifference keys_123 keys_234 = mk_union [TKey "1"; TKey "4"].
Proof. vm_compute; reflexivity. Qed.

Example NonUndefined_documented :
  NonUndefined (mk_union [TString; TNull; TUndefined]) = mk_union [TString; TNull].
Proof. vm_compute; reflexivity. Qed.

Example FunctionKeys_documented :
  FunctionKeys MixedProps = mk_union [TKey "setName"; TKey "someFn"]
  /\ NonFunctionKeys MixedProps = mk_union [TKey "name"; TKey "someKeys"].
Proof. split; vm_compute; reflexivity. Qed.

Example WritableKeys_documented :
  WritableKeys ReadonlyProps = TKey "bar" /\ ReadonlyKeys ReadonlyProps = TKey "foo".
Proof. split; vm_compute; reflexivity. Qed.

Example RequiredKeys_documented :
  RequiredKeys RequiredProps = mk_union [TKey "req"; TKey "reqUndef"]
  /\ OptionalKeys RequiredProps = mk_union [TKey "opt"; TKey "optUndef"].
Proof. split; vm_compute; reflexivity. Qed.

Example PickByValue_documented :
  PickByValue ValueProps TNumber = TObject [("req", mkProp false false TNumber)]
  /\ PickByValue ValueProps (mk_union [TNumber; TUndefined])
     = TObject [("req", mkProp false false TNumber);
                ("reqUndef", mkProp false false (mk_union [TNumber; TUndefined]))]
  /\ PickByValueExact ValueProps TNumber = TObject [("req", mkProp false false TNumber)]
  /\ PickByValueExact ValueProps (mk_union [TNumber; TUndefined])
     = TObject [("reqUndef", mkProp false false (mk_union [TNumber; TUndefined]))].
Proof. repeat split; vm_compute; reflexivity. Qed.

Example OmitByValue_documented :
  OmitByValue ValueProps TNumber
  = TObject [("reqUndef", mkProp false false (mk_union [TNumber; TUndefined]));
             ("opt", mkProp false true TString)]
  /\ OmitByValue ValueProps (mk_union [TNumber; TUndefined])
     = TObject [("opt", mkProp false true TString)]
  /\ OmitByValueExact ValueProps TNumber
     = TObject [("reqUndef", mkProp false false (mk_union [TNumber; TUndefined]));
                ("opt", mkProp false true TString)]
  /\ OmitByValueExact ValueProps (mk_union [TNumber; TUndefined])
     = TObject [("req", mkProp false false TNumber);
                ("opt", mkProp false true TString)].
Proof. repeat split; vm_compute; reflexivity. Qed.

Example Omit_documented :
  Omit Props (TKey "age")
  = TObject [("name", mkProp false false TString);
             ("visible", mkProp false false TBoolean)].
Proof. vm_compute; reflexivity. Qed.

Example Intersection_documented :
  Intersection Props DefaultProps = TObject [("age", mkProp false false TNumber)]
  /\ Diff Props DefaultProps
     = TObject [("name", mkProp false false TString);
                ("visible", mkProp false false TBoolean)]
  /\ Subtract Props DefaultProps
     = TObject [("name", mkProp false false TString);
                ("visible", mkProp false false TBoolean)].
Proof. repeat split; vm_compute; reflexivity. Qed.

(** The documented properties of [Overwrite<Props, NewProps>], in the order
    in which the intersection lists them. *)
Example Overwrite_documented :
  Overwrite Props NewProps
  = TObject [("name", mkProp false false TString);
             ("visible", mkProp false false TBoolean);
             ("age", mkProp false false TString)].
Proof. vm_compute; reflexivity. Qed.

Example Unionize_documented :
  Unionize Props
  = mk_union [TObject [("name", mkProp false false TString)];
              TObject [("age", mkProp false false TNumber)];
              TObject [("visible", mkProp false false TBoolean)]].
Proof. vm_compute; reflexivity. Qed.

Example PromiseType_documented : PromiseType (TPromise TString) = TString.
Proof. vm_compute; reflexivity. Qed.

Example DeepReadonly_documented : DeepReadonly NestedProps = ReadonlyNestedProps.
Proof. vm_compute; reflexivity. Qed.

Example DeepRequired_documented : DeepRequired OptionalNestedProps = NestedProps.
Proof. vm_compute; reflexivity. Qed.

Example DeepNonNullable_documented : DeepNonNullable NullableNestedProps = NestedProps.
Proof. vm_compute; reflexivity. Qed.

Example DeepPartial_documented : DeepPartial NestedProps = OptionalNestedProps.
Proof. vm_compute; reflexivity. Qed.

(** [Optional<Props>] and [Optional<Props, 'age' | 'visible'>], as the
    intersections the alias builds. *)
Example Optional_documented :
  Optional Props
  = TInter (TObject [])
           (TObject [("name", mkProp false true TString);
                     ("age", mkProp false true TNumber);
                     ("visible", mkProp false true TBoolean)])
  /\ Optional2 Props (mk_union [TKey "age"; TKey "visible"])
     = TInter (TObject [("name", mkProp false false TString)])
              (TObject [("age", mkProp false true TNumber);
                        ("visible", mkProp false true TBoolean)]).
Proof. split; vm_compute; reflexivity. Qed.

(** ** Facts about unions *)

Lemma members_not_union t m : In m (members t) -> is_union m = false.
Proof.
  revert m. induction t using ty_nested_ind; simpl; intros m Hm;
    try (destruct Hm as [<-|[]]; reflexivity).
  apply in_flat_map in Hm as (x & Hx & Hm).
  rewrite Forall_forall in H. eauto.
Qed.

Lemma members_atom t : is_union t = false -> members t = [t].
Proof. destruct t; simpl; congruence. Qed.

Lemma flat_map_members_atoms l :
  (forall m, In m l -> is_union m = false) -> flat_map members l = l.
Proof.
  induction l as [|x r IH]; simpl; intros H; [reflexivity|].
  rewrite (members_atom x) by auto. simpl. f_equal. auto.
Qed.

Lemma existsb_ty_eqb x l : existsb (ty_eqb x) l = true <-> In x l.
Proof.
  rewrite existsb_exists. split.
  - intros (y & Hy & E). apply ty_eqb_eq in E. congruence.
  - intros H. exists x. split; [assumption|apply ty_eqb_refl].
Qed.

Lemma absorbed_ext l l' m :
  (forall x, In x l <-> In x l') -> absorbed l m = absorbed l' m.
Proof.
  intros H. destruct m as [| | |[s|n|b]| | | | | | | |]; unfold absorbed; try reflexivity.
  - apply eq_true_iff_eq. rewrite !existsb_ty_eqb. apply H.
  - apply eq_true_iff_eq. rewrite !existsb_ty_eqb. apply H.
Qed.

Lemma dedup_In l x : In x (dedup l) <-> In x l.
Proof.
  induction l as [|y r IH]; cbn [dedup]; [reflexivity|].
  destruct (existsb (ty_eqb y) r) eqn:E.
  - rewrite IH. split; [now right|]. intros [<-|H]; [|assumption].
    now apply existsb_ty_eqb.
  - cbn [In]. rewrite IH. reflexivity.
Qed.

Lemma NoDup_dedup l : NoDup (dedup l).
Proof.
  induction l as [|y r IH]; cbn [dedup]; [constructor|].
  destruct (existsb (ty_eqb y) r) eqn:E; [assumption|].
  constructor; [|assumption]. rewrite dedup_In. intros H.
  apply existsb_ty_eqb in H. congruence.
Qed.

Lemma dedup_fixed l : NoDup l -> dedup l = l.
Proof.
  induction 1 as [|y r Hy _ IH]; cbn [dedup]; [reflexivity|].
  destruct (existsb (ty_eqb y) r) eqn:E.
  - apply existsb_ty_eqb in E. contradiction.
  - now rewrite IH.
Qed.

Lemma In_reduce l m : In m (reduce l) <-> In m l /\ absorbed l m = false.
Proof.
  unfold reduce. rewrite filter_In, negb_true_iff. reflexivity.
Qed.

Lemma In_constituents l m :
  In m (constituents l) <->
  In m (flat_map members l) /\ absorbed (flat_map members l) m = false.
Proof.
  unfold constituents. rewrite In_reduce, dedup_In.
  rewrite (absorbed_ext _ (flat_map members l)); [reflexivity|].
  intros x. apply dedup_In.
Qed.

Lemma constituents_not_union l m : In m (constituents l) -> is_union m = false.
Proof.
  rewrite In_constituents. intros [H _].
  apply in_flat_map in H as (x & _ & H). eapply members_not_union; eauto.
Qed.

Lemma members_mk_union l : members (mk_union l) = constituents l.
Proof.
  unfold mk_union.
  pose proof (constituents_not_union l) as H.
  destruct (constituents l) as [|x [|y r]]; simpl.
  - reflexivity.
  - apply members_atom. apply H. now left.
  - change (flat_map members (x :: y :: r) = x :: y :: r).
    apply flat_map_members_atoms. assumption.
Qed.

Lemma In_members_mk_union l m :
  In m (members (mk_union l)) <->
  In m (flat_map members l) /\ absorbed (flat_map members l) m = false.
Proof. rewrite members_mk_union. apply In_constituents. Qed.

Lemma members_cond_dist f T m :
  In m (members (cond_dist f T)) <->
  In m (flat_map members (map f (members T)))
  /\ absorbed (flat_map members (map f (members T))) m = false.
Proof. unfold cond_dist. apply In_members_mk_union. Qed.

Lemma NoDup_nodupb l : nodupb l = true <-> NoDup l.
Proof.
  induction l as [|x r IH]; simpl.
  - split; [constructor|reflexivity].
  - rewrite andb_true_iff, negb_true_iff, IH. split.
    + intros [H1 H2]. constructor; [|assumption].
      intros Hin. apply existsb_ty_eqb in Hin. congruence.
    + intros H. inversion H; subst. split; [|assumption].
      destruct (existsb (ty_eqb x) r) eqn:E; [|reflexivity].
      apply existsb_ty_eqb in E. contradiction.
Qed.

Lemma reduce_id l :
  (forall m, In m l -> absorbed l m = false) -> reduce l = l.
Proof.
  intros H. unfold reduce.
  assert (G : forall l0, (forall m, In m l0 -> absorbed l m = false) ->
                         filter (fun m => negb (absorbed l m)) l0 = l0).
  { induction l0 as [|x r IH]; simpl; intros H0; [reflexivity|].
    rewrite H0 by now left. simpl. f_equal. apply IH. intros; apply H0; now right. }
  now apply G.
Qed.

(** Union construction leaves a list of distinct, unabsorbed non-unions as
    it is. *)
Lemma constituents_id l :
  (forall m, In m l -> is_union m = false) ->
  NoDup l ->
  (forall m, In m l -> absorbed l m = false) ->
  constituents l = l.
Proof.
  intros Ha Hn Hr. unfold constituents.
  rewrite flat_map_members_atoms by assumption.
  rewrite dedup_fixed by assumption.
  now apply reduce_id.
Qed.

Lemma mk_union_atom t : is_union t = false -> mk_union [t] = t.
Proof.
  intros H. unfold mk_union. cbn [flat_map].
  replace (constituents [t]) with [t]; [reflexivity|].
  unfold constituents. cbn [flat_map]. rewrite app_nil_r, (members_atom t H).
  rewrite dedup_fixed by (constructor; [intros []|constructor]).
  symmetry. apply reduce_id. intros m [<-|[]].
  destruct t as [| | |[s|n|b]| | | | | | | |]; reflexivity.
Qed.

Lemma normal_mk_union t : normal t = true -> mk_union [t] = t.
Proof.
  destruct t as [| | | | | | | | | |ms|];
    try (intros _; apply mk_union_atom; reflexivity).
  simpl; intros H.
  assert (E : constituents [TUnion ms] = constituents ms).
  { unfold constituents. cbn [flat_map members]. now rewrite app_nil_r. }
  unfold mk_union. rewrite E. clear E.
  apply andb_true_iff in H as [H Hlen].
  apply andb_true_iff in H as [H Habs].
  apply andb_true_iff in H as [Hat Hnd].
  rewrite forallb_forall in Hat, Habs.
  rewrite constituents_id.
  - destruct ms as [|x [|y r]]; try reflexivity. discriminate.
  - intros m Hm. specialize (Hat m Hm). now apply negb_true_iff in Hat.
  - now apply NoDup_nodupb.
  - intros m Hm. specialize (Habs m Hm). now apply negb_true_iff in Habs.
Qed.

(** ** Selecting constituents *)

Lemma absorbed_incl l l' m :
  incl l l' -> absorbed l m = true -> absorbed l' m = true.
Proof.
  intros H. destruct m as [| | |[s|n|b]| | | | | | | |]; unfold absorbed; try discriminate.
  - rewrite !existsb_ty_eqb. apply H.
  - rewrite !existsb_ty_eqb. apply H.
Qed.

Lemma absorbed_incl_false l l' m :
  incl l l' -> absorbed l' m = false -> absorbed l m = false.
Proof.
  intros H E. destruct (absorbed l m) eqn:E'; [|reflexivity].
  rewrite (absorbed_incl _ H E') in E. discriminate.
Qed.

Lemma absorbed_units l m :
  (forall x, In x l -> is_unit x = true) -> absorbed l m = false.
Proof.
  intros H. destruct m as [| | |[s|n|b]| | | | | | | |]; unfold absorbed; try reflexivity.
  - destruct (existsb _ l) eqn:E; [|reflexivity].
    apply existsb_ty_eqb in E. apply H in E. discriminate.
  - destruct (existsb _ l) eqn:E; [|reflexivity].
    apply existsb_ty_eqb in E. apply H in E. discriminate.
Qed.

(** Selecting constituents by a test: the shape of [A extends B ? A : never]
    and of [A extends B ? never : A] at one constituent. *)
Lemma flat_members_select (c : ty -> bool) l :
  (forall m, In m l -> is_union m = false) ->
  flat_map members (map (fun a => if c a then a else TNever) l) = filter c l.
Proof.
  induction l as [|x r IH]; simpl; intros H; [reflexivity|].
  rewrite IH by auto. destruct (c x); simpl; [|reflexivity].
  rewrite (members_atom x) by auto. reflexivity.
Qed.

Lemma members_select (c : ty -> bool) A m :
  In m (members (cond_dist (fun a => if c a then a else TNever) A)) <->
  In m (filter c (members A)) /\ absorbed (filter c (members A)) m = false.
Proof.
  rewrite members_cond_dist, flat_members_select; [reflexivity|].
  intros x. apply members_not_union.
Qed.

Lemma normal_reduced A m :
  normal A = true -> In m (members A) -> absorbed (members A) m = false.
Proof.
  destruct A as [| | | | | | | | | |ms|];
    try (intros _ [<-|[]]; reflexivity).
  - intros _ [<-|[]]. destruct l; reflexivity.
  - simpl. intros H Hm.
    apply andb_true_iff in H as [H _]. apply andb_true_iff in H as [H Habs].
    apply andb_true_iff in H as [Hat _]. rewrite forallb_forall in Hat, Habs.
    rewrite flat_map_members_atoms in *
      by (intros x Hx; specialize (Hat x Hx); now apply negb_true_iff in Hat).
    specialize (Habs m Hm). now apply negb_true_iff in Habs.
Qed.

(** The constituents of [SetIntersection<A, B>] and [SetDifference<A, B>]. *)
Lemma members_SetIntersection A B m :
  normal A = true ->
  In m (members (SetIntersection A B)) <-> In m (members A) /\ extends m B = true.
Proof.
  intros HA. unfold SetIntersection. rewrite members_select, filter_In. split.
  - intros [H _]. exact H.
  - intros H. split; [exact H|].
    apply absorbed_incl_false with (l' := members A).
    + intros x Hx. apply filter_In in Hx. tauto.
    + apply normal_reduced; tauto.
Qed.

Lemma SetDifference_select A B :
  SetDifference A B = cond_dist (fun a => if negb (extends a B) then a else TNever) A.
Proof.
  unfold SetDifference, cond_dist. f_equal. apply map_ext.
  intros a. now destruct (extends a B).
Qed.

Lemma members_SetDifference A B m :
  normal A = true ->
  In m (members (SetDifference A B)) <-> In m (members A) /\ extends m B = false.
Proof.
  intros HA. rewrite SetDifference_select, members_select, filter_In, negb_true_iff.
  split.
  - intros [H _]. exact H.
  - intros H. split; [exact H|].
    apply absorbed_incl_false with (l' := members A).
    + intros x Hx. apply filter_In in Hx. tauto.
    + apply normal_reduced; tauto.
Qed.

Lemma members_select_reduced (c : ty -> bool) A m :
  reduced_list (members A) ->
  In m (members (cond_dist (fun a => if c a then a else TNever) A)) <->
  In m (members A) /\ c m = true.
Proof.
  intros HA. rewrite members_select, filter_In. split.
  - intros [H _]. exact H.
  - intros H. split; [exact H|].
    apply absorbed_incl_false with (l' := members A).
    + intros x Hx. apply filter_In in Hx. tauto.
    + apply HA; tauto.
Qed.

Lemma reduced_list_incl l l' :
  incl l l' -> reduced_list l' -> reduced_list l.
Proof.
  intros Hi H m Hm. apply absorbed_incl_false with (l' := l'); auto.
Qed.

Lemma union_keeps_reduced A1 A2 :
  union_keeps A1 A2 = true -> reduced_list (members A1 ++ members A2).
Proof.
  unfold union_keeps. rewrite forallb_forall. intros H m Hm.
  apply negb_true_iff. auto.
Qed.

Lemma members_union2 A1 A2 m :
  In m (members (union2 A1 A2)) <->
  In m (members A1 ++ members A2) /\ absorbed (members A1 ++ members A2) m = false.
Proof.
  unfold union2. rewrite In_members_mk_union. cbn [flat_map].
  rewrite app_nil_r. reflexivity.
Qed.

Lemma mk_union_normal l : normal (mk_union l) = true.
Proof.
  unfold mk_union.
  pose proof (constituents_not_union l) as Hat.
  assert (Hnd : NoDup (constituents l)).
  { unfold constituents, reduce. apply NoDup_filter, NoDup_dedup. }
  assert (Hred : reduced_list (constituents l)).
  { intros m Hm. unfold constituents in *. apply In_reduce in Hm as [Hm Ha].
    eapply absorbed_incl_false; [|exact Ha].
    intros x Hx. apply In_reduce in Hx. tauto. }
  destruct (constituents l) as [|x [|y r]] eqn:E.
  - reflexivity.
  - specialize (Hat x (or_introl eq_refl)). destruct x; try reflexivity; discriminate.
  - set (L := x :: y :: r) in *.
    unfold normal. rewrite !andb_true_iff. repeat split.
    + apply forallb_forall. intros m Hm. apply negb_true_iff. auto.
    + now apply NoDup_nodupb.
    + apply forallb_forall. intros m Hm. apply negb_true_iff. auto.
Qed.

Lemma select_distributes (c : ty -> bool) A1 A2 :
  union_keeps A1 A2 = true ->
  same_type (cond_dist (fun a => if c a then a else TNever) (union2 A1 A2))
            (union2 (cond_dist (fun a => if c a then a else TNever) A1)
                    (cond_dist (fun a => if c a then a else TNever) A2)).
Proof.
  intros Hk. apply union_keeps_reduced in Hk.
  assert (H1 : reduced_list (members A1))
    by (eapply reduced_list_incl; [|exact Hk]; apply incl_appl, incl_refl).
  assert (H2 : reduced_list (members A2))
    by (eapply reduced_list_incl; [|exact Hk]; apply incl_appr, incl_refl).
  intros m.
  rewrite members_select_reduced.
  2:{ intros x Hx. apply normal_reduced; [apply mk_union_normal|exact Hx]. }
  rewrite !members_union2, !in_app_iff.
  rewrite !members_select_reduced by assumption.
  split.
  - intros [[Hm _] Hc]. split; [tauto|].
    apply absorbed_incl_false with (l' := members A1 ++ members A2).
    + intros x Hx. apply in_app_iff in Hx.
      rewrite !members_select_reduced in Hx by assumption.
      apply in_app_iff. tauto.
    + apply Hk. apply in_app_iff. tauto.
  - intros [Hm _]. repeat split; try tauto.
    apply Hk. apply in_app_iff. tauto.
Qed.

(** ** Assignability between unit types *)

Lemma size_unit a : is_unit a = true -> size a = 1.
Proof. destruct a; simpl; congruence. Qed.

Lemma extends_f_units n a b :
  is_unit a = true -> is_unit b = true -> extends_f (S n) a b = ty_eqb a b.
Proof.
  destruct a as [| | |[s|z|x]| | | | | | | |]; try discriminate;
    destruct b as [| | |[s'|z'|x']| | | | | | | |]; try discriminate; reflexivity.
Qed.

Lemma extends_f_unit_union n a ms :
  is_unit a = true ->
  extends_f (S n) a (TUnion ms) = existsb (extends_f n a) ms.
Proof.
  destruct a as [| | |[s|z|x]| | | | | | | |]; try discriminate; reflexivity.
Qed.

Lemma extends_unit_normal a B :
  is_unit a = true -> normal B = true -> unit_union B = true ->
  (extends a B = true <-> In a (members B)).
Proof.
  intros Ha HB HU. unfold unit_union in HU. rewrite forallb_forall in HU.
  unfold extends. rewrite (size_unit a Ha).
  destruct (is_union B) eqn:EB.
  - destruct B as [| | | | | | | | | |ms|]; try discriminate.
    simpl in HB.
    apply andb_true_iff in HB as [HB _]. apply andb_true_iff in HB as [HB _].
    apply andb_true_iff in HB as [Hat _]. rewrite forallb_forall in Hat.
    assert (E : members (TUnion ms) = ms).
    { simpl. apply flat_map_members_atoms. intros x Hx.
      specialize (Hat x Hx). now apply negb_true_iff in Hat. }
    rewrite E in *.
    change (1 + size (TUnion ms) + 4) with (S (S (list_sum (map size ms) + 4))).
    rewrite extends_f_unit_union by assumption.
    rewrite existsb_exists. split.
    + intros (x & Hx & Hex). rewrite extends_f_units in Hex by auto.
      apply ty_eqb_eq in Hex. congruence.
    + intros Hin. exists a. split; [assumption|].
      rewrite extends_f_units by auto. apply ty_eqb_refl.
  - rewrite (members_atom B EB) in *.
    assert (HuB : is_unit B = true) by (apply HU; now left).
    rewrite (size_unit B HuB). simpl Nat.add.
    rewrite extends_f_units by assumption.
    rewrite ty_eqb_eq. simpl. intuition congruence.
Qed.

(** ** Association lists *)

Lemma assoc_In (A : Type) k (l : list (string * A)) v :
  assoc k l = Some v -> In (k, v) l.
Proof.
  induction l as [|[k' v'] r IH]; simpl; [discriminate|].
  destruct (String.eqb_spec k k') as [->|_].
  - intros E. inversion E. now left.
  - intros E. right. auto.
Qed.

Lemma assoc_None (A : Type) k (l : list (string * A)) :
  assoc k l = None <-> ~ In k (map fst l).
Proof.
  induction l as [|[k' v'] r IH]; simpl; [tauto|].
  destruct (String.eqb_spec k k') as [->|Hne].
  - split; [discriminate|]. intros H. exfalso. apply H. now left.
  - rewrite IH. split; [|tauto]. intros H [E|Hin]; [congruence|tauto].
Qed.

(** ** [extends] has enough fuel *)

Lemma list_sum_cons x l : list_sum (x :: l) = x + list_sum l.
Proof. reflexivity. Qed.

Lemma size_pos t : 1 <= size t.
Proof. destruct t; cbn [size]; lia. Qed.

Lemma size_In ms m : In m ms -> size m <= list_sum (map size ms).
Proof.
  induction ms as [|x r IH]; intros H; [destruct H|].
  cbn [map]. rewrite list_sum_cons.
  destruct H as [<-|H]; [lia|]. specialize (IH H). lia.
Qed.

Lemma list_sum_app_map (A : Type) (f : A -> nat) l l' :
  list_sum (map f (l ++ l')) = list_sum (map f l) + list_sum (map f l').
Proof. now rewrite map_app, list_sum_app. Qed.

Lemma size_members t : list_sum (map size (members t)) <= size t.
Proof.
  induction t using ty_nested_ind;
    try (cbn [members map]; rewrite list_sum_cons; cbn; lia).
  cbn [members size]. induction H as [|x r Hx _ IH]; [cbn; lia|].
  cbn [flat_map map]. rewrite list_sum_app_map, list_sum_cons. lia.
Qed.

Lemma size_flat_members l :
  list_sum (map size (flat_map members l)) <= list_sum (map size l).
Proof.
  induction l as [|x r IH]; [cbn; lia|].
  cbn [flat_map map]. rewrite list_sum_app_map, list_sum_cons.
  pose proof (size_members x). lia.
Qed.

Lemma size_filter (f : ty -> bool) l :
  list_sum (map size (filter f l)) <= list_sum (map size l).
Proof.
  induction l as [|x r IH]; [cbn; lia|].
  cbn [filter]. destruct (f x); cbn [map]; rewrite ?list_sum_cons; lia.
Qed.

Lemma size_dedup l : list_sum (map size (dedup l)) <= list_sum (map size l).
Proof.
  induction l as [|x r IH]; [cbn; lia|].
  cbn [dedup]. destruct (existsb _ r); cbn [map]; rewrite ?list_sum_cons; lia.
Qed.

Lemma size_mk_union l : size (mk_union l) <= S (list_sum (map size l)).
Proof.
  assert (H : list_sum (map size (constituents l)) <= list_sum (map size l)).
  { unfold constituents, reduce.
    pose proof (size_filter (fun m => negb (absorbed (dedup (flat_map members l)) m))
                  (dedup (flat_map members l))).
    pose proof (size_dedup (flat_map members l)).
    pose proof (size_flat_members l). lia. }
  unfold mk_union. destruct (constituents l) as [|x [|y r]].
  - cbn. lia.
  - cbn [map] in H. rewrite list_sum_cons in H. cbn in H. lia.
  - cbn [size]. lia.
Qed.

Lemma size_prop_read p : size (prop_read p) <= size (p_type p) + 2.
Proof.
  unfold prop_read. destruct (p_optional p); [|lia].
  pose proof (size_mk_union [p_type p; TUndefined]) as H.
  unfold union2. cbn [map] in H. rewrite !list_sum_cons in H. cbn in H. lia.
Qed.

Lemma size_entry kp (ps : list (string * prop ty)) :
  In kp ps ->
  S (S (size (p_type (snd kp))))
  <= list_sum (map (fun kp => S (S (size (p_type (snd kp))))) ps).
Proof.
  induction ps as [|x r IH]; intros H; [destruct H|].
  cbn [map]. rewrite list_sum_cons.
  destruct H as [<-|H]; [lia|]. specialize (IH H). lia.
Qed.

Lemma forallb_ext_in (A : Type) (f g : A -> bool) l :
  (forall x, In x l -> f x = g x) -> forallb f l = forallb g l.
Proof.
  induction l as [|x r IH]; intros H; [reflexivity|].
  cbn [forallb]. rewrite (H x (or_introl eq_refl)), IH; [reflexivity|].
  intros y Hy. apply H. now right.
Qed.

Lemma existsb_ext_in (A : Type) (f g : A -> bool) l :
  (forall x, In x l -> f x = g x) -> existsb f l = existsb g l.
Proof.
  induction l as [|x r IH]; intros H; [reflexivity|].
  cbn [existsb]. rewrite (H x (or_introl eq_refl)), IH; [reflexivity|].
  intros y Hy. apply H. now right.
Qed.

Lemma forallb2_ext_in (A B : Type) (f g : A -> B -> bool) l l' :
  (forall x y, In x l -> In y l' -> f x y = g x y) ->
  forallb2 f l l' = forallb2 g l l'.
Proof.
  revert l'. induction l as [|x r IH]; intros [|y r'] H; try reflexivity.
  cbn [forallb2]. rewrite (H x y (or_introl eq_refl) (or_introl eq_refl)), IH;
    [reflexivity|].
  intros a b Ha Hb. apply H; now right.
Qed.

(** Once the fuel exceeds the sizes of the two types, more fuel does not
    change the answer. *)
Lemma extends_f_stable k :
  forall s t, size s + size t <= k ->
  forall n m, k < n -> k < m -> extends_f n s t = extends_f m s t.
Proof.
  induction k as [|k IH]; intros s t H n m Hn Hm.
  { pose proof (size_pos s). pose proof (size_pos t). lia. }
  destruct n as [|n]; [lia|]. destruct m as [|m]; [lia|].
  assert (IH' : forall s' t', size s' + size t' < size s + size t ->
                              extends_f n s' t' = extends_f m s' t').
  { intros s' t' Hlt. apply IH; lia. }
  clear IH.
  assert (Hun : forall ms, s = TUnion ms ->
                  forallb (fun x => extends_f n x t) ms
                  = forallb (fun x => extends_f m x t) ms).
  { intros ms ->. apply forallb_ext_in. intros x Hx. apply IH'.
    pose proof (size_In ms x Hx). cbn [size]. lia. }
  assert (Hex : forall ms, t = TUnion ms ->
                  existsb (extends_f n s) ms = existsb (extends_f m s) ms).
  { intros ms ->. apply existsb_ext_in. intros x Hx. apply IH'.
    pose proof (size_In ms x Hx). cbn [size]. lia. }
  assert (Hti : forall a b, t = TInter a b ->
                  extends_f n s a && extends_f n s b
                  = extends_f m s a && extends_f m s b).
  { intros a b ->. cbn [size] in IH'. f_equal; apply IH'; lia. }
  assert (Hsi : forall a b, s = TInter a b ->
                  extends_f n a t || extends_f n b t
                  = extends_f m a t || extends_f m b t).
  { intros a b ->. cbn [size] in IH'. f_equal; apply IH'; cbn [size]; lia. }
  destruct s as [| |p|[sl|zl|bl]| |ps r|e|e|e|ps|ms|a b];
    destruct t as [| |p'|l'| |ps' r'|e'|e'|e'|ps'|ms'|a' b'];
    cbn [extends_f];
    try reflexivity;
    try (apply Hun; reflexivity);
    try (apply Hex; reflexivity);
    try (apply Hti; reflexivity);
    try (apply Hsi; reflexivity);
    try (apply IH'; cbn [size]; lia).
  - f_equal; [f_equal|].
    + apply forallb2_ext_in. intros x y Hx Hy. apply IH'.
      pose proof (size_In ps x Hx). pose proof (size_In ps' y Hy).
      cbn [size]. lia.
    + apply IH'. cbn [size]. lia.
  - apply forallb_ext_in. intros kp' Hin.
    destruct (assoc (fst kp') ps) as [q|] eqn:E; [|reflexivity].
    f_equal. apply IH'.
    pose proof (size_prop_read q). pose proof (size_prop_read (snd kp')).
    pose proof (@size_entry (fst kp', q) ps (assoc_In _ _ E)).
    pose proof (size_entry kp' ps' Hin).
    cbn [size snd] in *. lia.
Qed.

Lemma extends_f_enough n s t :
  size s + size t + 4 <= n -> extends_f n s t = extends s t.
Proof.
  intros H. unfold extends.
  apply (extends_f_stable (k := size s + size t)); lia.
Qed.

(** ** C4: SetIntersection and SetDifference *)

(** C4, as amended.  Conditional types distribute over the constituents of
    the union [A1 | A2], so [SetIntersection] and [SetDifference] distribute
    over it whenever that union keeps every constituent of [A1] and [A2];
    [SetIntersection<A, B>] consists of the constituents of [A] that are
    assignable to [B] and [SetDifference<A, B>] of those that are not; for
    unions [L], [R] of unit types these are the set intersection and the set
    difference of the two unions. *)
Theorem SetIntersection_SetDifference_distribute
  (A1 A2 A B L R : ty)
  (Hkeep : union_keeps A1 A2 = true)
  (HA : normal A = true)
  (HL : normal L = true) (HR : normal R = true)
  (HLu : unit_union L = true) (HRu : unit_union R = true) :
  same_type (SetIntersection (union2 A1 A2) B)
            (union2 (SetIntersection A1 B) (SetIntersection A2 B))
  /\ same_type (SetDifference (union2 A1 A2) B)
               (union2 (SetDifference A1 B) (SetDifference A2 B))
  /\ (forall m, In m (members (SetIntersection A B)) <->
                In m (members A) /\ extends m B = true)
  /\ (forall m, In m (members (SetDifference A B)) <->
                In m (members A) /\ extends m B = false)
  /\ is_set_intersection (SetIntersection L R) L R
  /\ is_set_difference (SetDifference L R) L R.
Proof.
  assert (Hunit : forall m, In m (members L) -> is_unit m = true).
  { unfold unit_union in HLu. now rewrite forallb_forall in HLu. }
  split; [exact (select_distributes (fun a => extends a B) A1 A2 Hkeep)|].
  split.
  { rewrite !SetDifference_select.
    exact (select_distributes (fun a => negb (extends a B)) A1 A2 Hkeep). }
  split; [intros m; now apply members_SetIntersection|].
  split; [intros m; now apply members_SetDifference|].
  split.
  - intros m. rewrite members_SetIntersection by assumption. split.
    + intros [Hm He]. split; [assumption|].
      apply extends_unit_normal in He; auto.
    + intros [H1 H2]. split; [assumption|]. apply extends_unit_normal; auto.
  - intros m. rewrite members_SetDifference by assumption. split.
    + intros [Hm He]. split; [assumption|]. intros Hin.
      apply extends_unit_normal in Hin; auto. congruence.
    + intros [H1 H2]. split; [assumption|].
      destruct (extends m R) eqn:E; [|reflexivity].
      apply extends_unit_normal in E; auto. contradiction.
Qed.

Lemma SetIntersection_SetDifference_distribute_witness :
  same_type (SetIntersection (union2 keys_123 keys_234) TFunction)
            (union2 (SetIntersection keys_123 TFunction)
                    (SetIntersection keys_234 TFunction))
  /\ same_type (SetDifference (union2 keys_123 keys_234) TFunction)
               (union2 (SetDifference keys_123 TFunction)
                       (SetDifference keys_234 TFunction))
  /\ (forall m, In m (members (SetIntersection string_number_fn TFunction)) <->
                In m (members string_number_fn) /\ extends m TFunction = true)
  /\ (forall m, In m (members (SetDifference string_number_fn TFunction)) <->
                In m (members string_number_fn) /\ extends m TFunction = false)
  /\ is_set_intersection (SetIntersection keys_123 keys_234) keys_123 keys_234
  /\ is_set_difference (SetDifference keys_123 keys_234) keys_123 keys_234.
Proof.
  exact (SetIntersection_SetDifference_distribute
           keys_123 keys_234 string_number_fn TFunction keys_123 keys_234
           eq_refl eq_refl eq_refl eq_refl eq_refl eq_refl).
Defined.

(** C4, as stated, fails at the documented example:
    [SetIntersection<string | number | (() => void), Function>] is
    [() => void], which is a constituent of the first union and not of the
    second, so the result is not the set intersection of the two unions. *)
Lemma SetIntersection_not_set_intersection :
  SetIntersection string_number_fn TFunction = fn_void
  /\ ~ is_set_intersection (SetIntersection string_number_fn TFunction)
                           string_number_fn TFunction.
Proof.
  split; [vm_compute; reflexivity|].
  intros H. specialize (H fn_void).
  assert (Hin : In fn_void (members (SetIntersection string_number_fn TFunction)))
    by (vm_compute; auto).
  apply H in Hin as [_ Hin]. vm_compute in Hin.
  destruct Hin as [E|[]]. discriminate.
Qed.

(** Why distribution needs the union [A1 | A2] to keep its constituents:
    ['a' | string] is [string], so [SetIntersection<'a' | string, 'a'>] is
    [never], while [SetIntersection<'a', 'a'> | SetIntersection<string, 'a'>]
    is ['a']. *)
Lemma SetIntersection_absorbed_literal :
  union2 (TKey "a") TString = TString
  /\ SetIntersection (union2 (TKey "a") TString) (TKey "a") = TNever
  /\ union2 (SetIntersection (TKey "a") (TKey "a"))
            (SetIntersection TString (TKey "a")) = TKey "a".
Proof. repeat split; vm_compute; reflexivity. Qed.

(** ** C3: SymmetricDifference *)

Lemma inter_atom_units a b :
  is_unit a = true -> is_unit b = true ->
  inter_atom a b = if ty_eqb a b then a else TNever.
Proof.
  intros Ha Hb. unfold inter_atom. destruct (ty_eqb a b); [reflexivity|].
  destruct a as [| | |[s|z|x]| | | | | | | |]; try discriminate;
    destruct b as [| | |[s'|z'|x']| | | | | | | |]; try discriminate; reflexivity.
Qed.

Lemma members_inter_units L R m :
  unit_union L = true -> unit_union R = true ->
  In m (members (inter L R)) <-> In m (members L) /\ In m (members R).
Proof.
  unfold unit_union. rewrite !forallb_forall. intros HL HR.
  unfold inter. rewrite In_members_mk_union.
  assert (G : In m (flat_map members
                      (flat_map (fun a => map (inter_atom a) (members R)) (members L)))
              <-> In m (members L) /\ In m (members R)).
  { rewrite in_flat_map. split.
    - intros (x & Hx & Hm). apply in_flat_map in Hx as (a & Ha & Hx).
      apply in_map_iff in Hx as (b & <- & Hb).
      rewrite inter_atom_units in Hm by auto.
      destruct (ty_eqb a b) eqn:E; [|destruct Hm].
      apply ty_eqb_eq in E. subst b.
      rewrite (members_atom a) in Hm by (eapply members_not_union; eauto).
      destruct Hm as [<-|[]]. auto.
    - intros [H1 H2]. exists m. split.
      + apply in_flat_map. exists m. split; [assumption|].
        apply in_map_iff. exists m. split; [|assumption].
        rewrite inter_atom_units by auto. now rewrite ty_eqb_refl.
      + rewrite (members_atom m) by (eapply members_not_union; eauto). now left. }
  rewrite G. split; [tauto|]. intros H. split; [assumption|].
  apply absorbed_units. intros x Hx.
  apply in_flat_map in Hx as (y & Hy & Hx).
  apply in_flat_map in Hy as (a & Ha & Hy).
  apply in_map_iff in Hy as (b & <- & Hb).
  rewrite inter_atom_units in Hx by auto.
  destruct (ty_eqb a b); [|destruct Hx].
  rewrite (members_atom a) in Hx by (eapply members_not_union; eauto).
  destruct Hx as [<-|[]]. auto.
Qed.

(** C3, as amended.  [SymmetricDifference<A, B>] consists of the
    constituents of [A | B] that are not assignable to [A & B]; for unions
    [L], [R] of unit types (such as string literals) it is the set-theoretic
    symmetric difference of the two unions. *)
Theorem SymmetricDifference_units
  (A B L R : ty)
  (HL : unit_union L = true) (HR : unit_union R = true) :
  (forall m, In m (members (SymmetricDifference A B)) <->
             In m (members (union2 A B)) /\ extends m (inter A B) = false)
  /\ is_symmetric_difference (SymmetricDifference L R) L R.
Proof.
  assert (Gen : forall X Y m,
             In m (members (SymmetricDifference X Y)) <->
             In m (members (union2 X Y)) /\ extends m (inter X Y) = false).
  { intros X Y m. unfold SymmetricDifference.
    apply members_SetDifference. apply mk_union_normal. }
  split; [apply Gen|].
  intros m. rewrite Gen, members_union2, in_app_iff.
  assert (HLu := HL). assert (HRu := HR).
  unfold unit_union in HLu, HRu. rewrite forallb_forall in HLu, HRu.
  assert (Hi : forall x, In x (members L) \/ In x (members R) ->
                         (extends x (inter L R) = true <->
                          In x (members L) /\ In x (members R))).
  { intros x Hx. rewrite <- members_inter_units by assumption.
    apply extends_unit_normal.
    - destruct Hx; auto.
    - apply mk_union_normal.
    - unfold unit_union. apply forallb_forall. intros y Hy.
      apply members_inter_units in Hy; auto. apply HLu. tauto. }
  split.
  - intros [[Hm _] He].
    assert (Hn : ~ (In m (members L) /\ In m (members R))).
    { intros Hb. apply Hi in Hb; [congruence|tauto]. }
    tauto.
  - intros Hm.
    assert (Ho : In m (members L) \/ In m (members R)) by tauto.
    split; [split; [assumption|]|].
    + apply absorbed_units. intros x Hx. apply in_app_iff in Hx.
      destruct Hx; auto.
    + destruct (extends m (inter L R)) eqn:E; [|reflexivity].
      apply Hi in E; tauto.
Qed.

Lemma SymmetricDifference_units_witness :
  (forall m, In m (members (SymmetricDifference string_fn_Function a_Function)) <->
             In m (members (union2 string_fn_Function a_Function))
             /\ extends m (inter string_fn_Function a_Function) = false)
  /\ is_symmetric_difference (SymmetricDifference keys_123 keys_234) keys_123 keys_234.
Proof.
  exact (SymmetricDifference_units string_fn_Function a_Function keys_123 keys_234
           eq_refl eq_refl).
Defined.

(** C3, as stated, fails at [A = string | (() => void) | Function] and
    [B = 'a' | Function]: [SymmetricDifference<A, B>] is [string].  It lacks
    [() => void], a constituent of [A] and not of [B], and it still covers
    ['a'], a constituent of [B] that inhabits [A] as well. *)
Lemma SymmetricDifference_not_symmetric_difference :
  SymmetricDifference string_fn_Function a_Function = TString
  /\ ~ is_symmetric_difference (SymmetricDifference string_fn_Function a_Function)
                               string_fn_Function a_Function.
Proof.
  split; [vm_compute; reflexivity|].
  intros H. specialize (H fn_void).
  assert (Hin : In fn_void (members string_fn_Function)
                /\ ~ In fn_void (members a_Function)).
  { split; [vm_compute; auto|].
    vm_compute. intros [E|[E|[]]]; discriminate. }
  apply (fun x => proj2 H (or_introl x)) in Hin.
  vm_compute in Hin. destruct Hin as [E|[]]. discriminate.
Qed.

(** ** Facts about object types, [keyof], [Pick] *)

Lemma normal_members t :
  normal t = true ->
  NoDup (members t) /\ reduced_list (members t) /\ mk_union (members t) = t.
Proof.
  intros H. destruct (is_union t) eqn:Eu.
  - destruct t as [| | | | | | | | | |ms|]; try discriminate.
    pose proof (fun m => @normal_reduced (TUnion ms) m H) as Hred.
    pose proof (@normal_mk_union (TUnion ms) H) as Hmk.
    simpl in H.
    apply andb_true_iff in H as [H Hlen]. apply andb_true_iff in H as [H _].
    apply andb_true_iff in H as [Hat Hnd]. rewrite forallb_forall in Hat.
    assert (E : members (TUnion ms) = ms).
    { simpl. apply flat_map_members_atoms. intros x Hx.
      specialize (Hat x Hx). now apply negb_true_iff in Hat. }
    rewrite E in *. repeat split.
    + now apply NoDup_nodupb.
    + intros m Hm. now apply Hred.
    + transitivity (mk_union [TUnion ms]); [|exact Hmk].
      unfold mk_union, constituents.
      cbn [flat_map members]. now rewrite app_nil_r.
  - rewrite (members_atom t Eu). repeat split.
    + constructor; [intros []|constructor].
    + intros m [<-|[]]. destruct t as [| | |[s|n|b]| | | | | | | |]; reflexivity.
    + now apply mk_union_atom.
Qed.

Lemma In_key_names K k : In k (key_names K) <-> In (TKey k) (members K).
Proof.
  unfold key_names. rewrite in_flat_map. split.
  - intros (m & Hm & Hk).
    destruct m as [| | |[s|n|b]| | | | | | | |]; try destruct Hk.
    + subst. exact Hm.
    + destruct H.
  - intros H. exists (TKey k). split; [assumption|now left].
Qed.

Lemma members_keyof T m :
  In m (members (keyof T)) <-> exists k, m = TKey k /\ In k (keys_of T).
Proof.
  unfold keyof. rewrite In_members_mk_union.
  rewrite flat_map_members_atoms
    by (intros x Hx; apply in_map_iff in Hx as (k & <- & _); reflexivity).
  rewrite in_map_iff. split.
  - intros [(k & <- & Hk) _]. eauto.
  - intros (k & -> & Hk). split; [eauto|].
    apply absorbed_units. intros x Hx. apply in_map_iff in Hx as (k' & <- & _).
    reflexivity.
Qed.

Lemma key_names_keyof T k : In k (key_names (keyof T)) <-> In k (keys_of T).
Proof.
  rewrite In_key_names, members_keyof. split.
  - intros (k' & E & Hk). unfold TKey in E. congruence.
  - eauto.
Qed.

Lemma unit_union_keyof T : unit_union (keyof T) = true.
Proof.
  unfold unit_union. apply forallb_forall. intros m Hm.
  apply members_keyof in Hm as (k & -> & _). reflexivity.
Qed.

Lemma extends_key_keyof k T : extends (TKey k) (keyof T) = true <-> In k (keys_of T).
Proof.
  rewrite extends_unit_normal.
  - rewrite <- In_key_names. apply key_names_keyof.
  - reflexivity.
  - apply mk_union_normal.
  - apply unit_union_keyof.
Qed.

Lemma assoc_map_entry (A : Type) (e : string -> A) l k :
  assoc k (map (fun k' => (k', e k')) l) = if in_dec string_dec k l then Some (e k) else None.
Proof.
  induction l as [|x r IH]; simpl; [reflexivity|].
  destruct (String.eqb_spec k x) as [->|Hne].
  - destruct (string_dec x x); [reflexivity|congruence].
  - rewrite IH. destruct (string_dec x k); [congruence|].
    destruct (in_dec string_dec k r); reflexivity.
Qed.

Lemma get_prop_mapped ro opt T K F k :
  get_prop (mapped ro opt T K F) k =
  if in_dec string_dec k (key_names K)
  then Some (snd (mapped_entry ro opt T k (F k)))
  else None.
Proof.
  unfold mapped. cbn [get_prop].
  change (fun k0 => mapped_entry ro opt T k0 (F k0))
    with (fun k0 => (k0, snd (mapped_entry ro opt T k0 (F k0)))).
  apply assoc_map_entry.
Qed.

Lemma index_key T k :
  is_union T = false ->
  index T (TKey k) =
  mk_union [match get_prop T k with Some p => prop_read p | None => TNever end].
Proof.
  intros H. unfold index. rewrite (members_atom T H). reflexivity.
Qed.

(** Reading a stored property and storing it again gives it back. *)
Lemma wf_prop_restore p :
  wf_prop p = true ->
  make_prop (p_readonly p) (p_optional p) (mk_union [prop_read p]) = p.
Proof.
  destruct p as [ro opt t]. unfold wf_prop, make_prop, prop_read. simpl.
  intros H. apply andb_true_iff in H as [Hn Hu].
  destruct opt; simpl in *.
  - f_equal. unfold union2. rewrite (@normal_mk_union _ (mk_union_normal _)).
    unfold strip_undefined. rewrite members_mk_union.
    destruct (normal_members t Hn) as (Hnd & Hred & Hmk).
    assert (Hnu : forall m, In m (members t) -> is_undefined m = false).
    { intros m Hm. destruct (is_undefined m) eqn:E; [|reflexivity].
      assert (existsb is_undefined (members t) = true)
        by (apply existsb_exists; eauto).
      rewrite H in Hu. discriminate. }
    assert (E : constituents [t; TUndefined] = members t ++ [TUndefined]).
    { unfold constituents. cbn [flat_map members].
      change (members t ++ [TUndefined] ++ []) with (members t ++ [TUndefined]).
      rewrite dedup_fixed.
      - apply reduce_id. intros m Hm.
        apply in_app_iff in Hm as [Hm|[<-|[]]]; [|reflexivity].
        specialize (Hred m Hm).
        destruct m as [| | |[s|n|b]| | | | | | | |]; unfold absorbed in *;
          try reflexivity;
          rewrite existsb_app, Hred; reflexivity.
      - apply NoDup_app; [assumption|constructor; [intros []|constructor]|].
        intros x Hx [<-|[]]. apply Hnu in Hx. discriminate. }
    rewrite E, filter_app. simpl. rewrite app_nil_r.
    rewrite forallb_filter_id; [assumption|].
    apply forallb_forall. intros m Hm. rewrite (Hnu m Hm). reflexivity.
  - f_equal. now apply normal_mk_union.
Qed.

Lemma wf_props_object ps : wf_props ps = true -> wf_object (TObject ps).
Proof.
  unfold wf_props. rewrite forallb_forall. intros H k p Hp. simpl in Hp.
  apply assoc_In in Hp. apply (H (k, p) Hp).
Qed.

Lemma get_prop_keys T k : get_prop T k <> None <-> In k (keys_of T).
Proof.
  induction T using ty_nested_ind; simpl; try (split; [congruence|tauto]).
  - clear H. destruct (assoc k props) eqn:E.
    + split; [intros _|congruence].
      apply assoc_In in E. apply (in_map fst) in E. exact E.
    + split; [congruence|]. intros Hin. apply assoc_None in E. contradiction.
  - rewrite in_app_iff, <- IHT1, <- IHT2.
    destruct (get_prop T1 k), (get_prop T2 k); intuition congruence.
Qed.

Lemma get_prop_Pick T K k :
  is_union T = false ->
  wf_object T ->
  (forall k', In k' (key_names K) -> In k' (keys_of T)) ->
  get_prop (Pick T K) k =
  if in_dec string_dec k (key_names K) then get_prop T k else None.
Proof.
  intros Hat Hwf Hsub. unfold Pick. rewrite get_prop_mapped.
  destruct (in_dec string_dec k (key_names K)) as [Hin|Hout]; [|reflexivity].
  apply Hsub, get_prop_keys in Hin.
  unfold mapped_entry. cbn [snd is_remove andb apply_mod].
  rewrite index_key by assumption.
  destruct (get_prop T k) as [p|] eqn:E; [|congruence].
  f_equal. apply wf_prop_restore. eauto.
Qed.

Lemma key_names_SetDifference_keyof T K k :
  In k (key_names (SetDifference (keyof T) K)) <->
  In k (keys_of T) /\ extends (TKey k) K = false.
Proof.
  rewrite In_key_names, members_SetDifference by apply mk_union_normal.
  rewrite <- In_key_names, key_names_keyof. reflexivity.
Qed.

Lemma get_prop_Omit T K k :
  is_union T = false -> wf_object T ->
  get_prop (Omit T K) k = if extends (TKey k) K then None else get_prop T k.
Proof.
  intros Hat Hwf. unfold Omit. rewrite get_prop_Pick; try assumption.
  - destruct (in_dec string_dec k _) as [Hin|Hout].
    + apply key_names_SetDifference_keyof in Hin as [_ ->]. reflexivity.
    + destruct (extends (TKey k) K) eqn:E; [reflexivity|].
      destruct (get_prop T k) eqn:G; [|reflexivity].
      exfalso. apply Hout, key_names_SetDifference_keyof. split; [|assumption].
      apply get_prop_keys. congruence.
  - intros k' Hk'. now apply key_names_SetDifference_keyof in Hk'.
Qed.

(** C6.  For an object type [T] and a key set [K], [Omit<T, K>] has exactly
    the properties of [T] whose key is not in [K], each as it is in [T]
    (type and modifiers).  A key is in [K] when its literal type is
    assignable to [K]; for a union [Kl] of key literals that is being one of
    its constituents. *)
Theorem Omit_properties
  (ps : list (string * prop ty)) (K Kl : ty)
  (Hwf : wf_props ps = true)
  (HKn : normal Kl = true) (HKu : unit_union Kl = true) :
  (forall k, get_prop (Omit (TObject ps) K) k =
             if extends (TKey k) K then None else assoc k ps)
  /\ (forall k, get_prop (Omit (TObject ps) Kl) k =
                if existsb (ty_eqb (TKey k)) (members Kl) then None else assoc k ps).
Proof.
  assert (G : forall K0 k, get_prop (Omit (TObject ps) K0) k =
                           if extends (TKey k) K0 then None else assoc k ps).
  { intros K0 k. apply get_prop_Omit; [reflexivity|now apply wf_props_object]. }
  split; [apply G|].
  intros k. rewrite G.
  destruct (existsb (ty_eqb (TKey k)) (members Kl)) eqn:Hin.
  - apply existsb_ty_eqb, extends_unit_normal in Hin; auto. now rewrite Hin.
  - destruct (extends (TKey k) Kl) eqn:E; [|reflexivity].
    apply extends_unit_normal, existsb_ty_eqb in E; auto. congruence.
Qed.

Lemma Omit_properties_witness :
  (forall k, get_prop (Omit Props TString) k =
             if extends (TKey k) TString then None else assoc k Props_list)
  /\ (forall k, get_prop (Omit Props (TKey "age")) k =
                if existsb (ty_eqb (TKey k)) (members (TKey "age")) then None
                else assoc k Props_list).
Proof.
  exact (Omit_properties Props_list TString (TKey "age") eq_refl eq_refl eq_refl).
Defined.

(** ** C9: Overwrite *)

Lemma get_prop_Diff T U k :
  is_union T = false -> wf_object T ->
  get_prop (Diff T U) k =
  if in_dec string_dec k (keys_of U) then None else get_prop T k.
Proof.
  intros Hat Hwf. change (Diff T U) with (Omit T (keyof U)).
  rewrite get_prop_Omit by assumption.
  destruct (in_dec string_dec k (keys_of U)) as [Hin|Hout].
  - apply extends_key_keyof in Hin. now rewrite Hin.
  - destruct (extends (TKey k) (keyof U)) eqn:E; [|reflexivity].
    apply extends_key_keyof in E. contradiction.
Qed.

Lemma key_names_Intersection T U k :
  In k (key_names (inter (Extract (keyof T) (keyof U)) (Extract (keyof U) (keyof T))))
  <-> In k (keys_of T) /\ In k (keys_of U).
Proof.
  change Extract with SetIntersection.
  assert (Hu : forall X Y, unit_union (SetIntersection (keyof X) Y) = true).
  { intros X Y. unfold unit_union. apply forallb_forall. intros m Hm.
    apply members_SetIntersection in Hm as [Hm _]; [|apply mk_union_normal].
    apply members_keyof in Hm as (k' & -> & _). reflexivity. }
  rewrite In_key_names, members_inter_units by apply Hu.
  rewrite !members_SetIntersection by apply mk_union_normal.
  rewrite !extends_key_keyof, <- !In_key_names, !key_names_keyof. tauto.
Qed.

Lemma get_prop_Intersection T U k :
  is_union T = false -> wf_object T ->
  get_prop (Intersection T U) k =
  if in_dec string_dec k (keys_of U) then get_prop T k else None.
Proof.
  intros Hat Hwf. unfold Intersection. rewrite get_prop_Pick; try assumption.
  - destruct (in_dec string_dec k (key_names _)) as [Hin|Hout];
      destruct (in_dec string_dec k (keys_of U)) as [Hin'|Hout']; try reflexivity.
    + apply key_names_Intersection in Hin. tauto.
    + destruct (get_prop T k) eqn:G; [|reflexivity].
      exfalso. apply Hout, key_names_Intersection. split; [|assumption].
      apply get_prop_keys. congruence.
  - intros k' Hk'. apply key_names_Intersection in Hk'. tauto.
Qed.

Lemma inter_objects a b :
  inter (TObject a) (TObject b) =
  if ty_eqb (TObject a) (TObject b) then TObject a
  else TInter (TObject a) (TObject b).
Proof.
  unfold inter. cbn [members flat_map map app]. unfold inter_atom.
  destruct (ty_eqb (TObject a) (TObject b)); now apply mk_union_atom.
Qed.

(** The properties of the intersection of two object types that share no
    key. *)
Lemma get_prop_inter_disjoint a b k :
  (forall k', get_prop (TObject a) k' <> None -> get_prop (TObject b) k' = None) ->
  get_prop (inter (TObject a) (TObject b)) k =
  match get_prop (TObject a) k with
  | Some p => Some p
  | None => get_prop (TObject b) k
  end.
Proof.
  intros Hd. rewrite inter_objects.
  destruct (ty_eqb (TObject a) (TObject b)) eqn:E.
  - apply ty_eqb_eq in E. rewrite <- E.
    now destruct (get_prop (TObject a) k).
  - cbn [get_prop]. specialize (Hd k). cbn [get_prop] in Hd.
    destruct (assoc k a) eqn:Ea; [|now destruct (assoc k b)].
    rewrite Hd by congruence. reflexivity.
Qed.

Lemma is_union_inter_objects a b : is_union (inter (TObject a) (TObject b)) = false.
Proof. rewrite inter_objects. now destruct (ty_eqb _ _). Qed.

(** [Pick<I, keyof I>] lists the properties of [I]. *)
Lemma get_prop_Pick_keyof I k :
  is_union I = false -> wf_object I ->
  get_prop (Pick I (keyof I)) k = get_prop I k.
Proof.
  intros Hat Hwf. rewrite get_prop_Pick; try assumption.
  - destruct (in_dec string_dec k (key_names (keyof I))) as [Hin|Hout]; [reflexivity|].
    destruct (get_prop I k) eqn:G; [|reflexivity].
    exfalso. apply Hout, key_names_keyof, get_prop_keys. congruence.
  - intros k'. apply key_names_keyof.
Qed.

Lemma Pick_is_object T K : exists ps, Pick T K = TObject ps.
Proof. unfold Pick, mapped. eauto. Qed.

Lemma get_prop_Overwrite T U k :
  is_union T = false -> is_union U = false -> wf_object T -> wf_object U ->
  get_prop (Overwrite T U) k =
  if in_dec string_dec k (keys_of T)
  then if in_dec string_dec k (keys_of U) then get_prop U k else get_prop T k
  else None.
Proof.
  intros HT HU HwT HwU. unfold Overwrite, Overwrite3.
  destruct (Pick_is_object T (SetDifference (keyof T) (keyof U))) as (d & Ed).
  destruct (Pick_is_object U (inter (Extract (keyof U) (keyof T))
                                    (Extract (keyof T) (keyof U)))) as (i & Ei).
  assert (Gd : forall k', get_prop (TObject d) k' =
                          if in_dec string_dec k' (keys_of U) then None
                          else get_prop T k').
  { intros k'. rewrite <- Ed. now apply get_prop_Diff. }
  assert (Gi : forall k', get_prop (TObject i) k' =
                          if in_dec string_dec k' (keys_of T) then get_prop U k'
                          else None).
  { intros k'. rewrite <- Ei. now apply get_prop_Intersection. }
  unfold Diff, Intersection. rewrite Ed, Ei.
  assert (Hdis : forall k', get_prop (TObject d) k' <> None ->
                            get_prop (TObject i) k' = None).
  { intros k'. rewrite Gd, Gi.
    destruct (in_dec string_dec k' (keys_of U)) as [Hin|Hout]; [congruence|].
    intros _. destruct (in_dec string_dec k' (keys_of T)); [|reflexivity].
    destruct (get_prop U k') eqn:G; [|reflexivity].
    exfalso. apply Hout, get_prop_keys. congruence. }
  rewrite get_prop_Pick_keyof.
  - rewrite get_prop_inter_disjoint by assumption. rewrite Gd, Gi.
    destruct (in_dec string_dec k (keys_of U)) as [HinU|HoutU];
      destruct (in_dec string_dec k (keys_of T)) as [HinT|HoutT]; try reflexivity.
    + destruct (get_prop T k) eqn:G; [reflexivity|].
      apply get_prop_keys in HinT. congruence.
    + destruct (get_prop T k) eqn:G; [|reflexivity].
      exfalso. apply HoutT, get_prop_keys. congruence.
  - apply is_union_inter_objects.
  - intros k' p. rewrite get_prop_inter_disjoint by assumption. rewrite Gd, Gi.
    destruct (in_dec string_dec k' (keys_of U)).
    + destruct (in_dec string_dec k' (keys_of T)); [apply HwU|discriminate].
    + destruct (get_prop T k') eqn:G.
      * intros E. inversion E; subst. eapply HwT; eauto.
      * destruct (in_dec string_dec k' (keys_of T)); [apply HwU|discriminate].
Qed.

(** C9.  For object types [T] and [U], [Overwrite<T, U>] has exactly the keys
    of [T]; a property whose key does not occur in [U] is the property of
    [T], a property whose key occurs in [U] is the property of [U], and the
    keys that only [U] has are not added. *)
Theorem Overwrite_properties
  (pT pU : list (string * prop ty))
  (HT : wf_props pT = true) (HU : wf_props pU = true) :
  (forall k, In k (keys_of (Overwrite (TObject pT) (TObject pU))) <-> In k (map fst pT))
  /\ (forall k p, assoc k pT = Some p -> assoc k pU = None ->
                  get_prop (Overwrite (TObject pT) (TObject pU)) k = Some p)
  /\ (forall k p q, assoc k pT = Some p -> assoc k pU = Some q ->
                    get_prop (Overwrite (TObject pT) (TObject pU)) k = Some q)
  /\ (forall k, assoc k pT = None ->
                get_prop (Overwrite (TObject pT) (TObject pU)) k = None).
Proof.
  assert (G : forall k, get_prop (Overwrite (TObject pT) (TObject pU)) k =
                        if in_dec string_dec k (map fst pT)
                        then if in_dec string_dec k (map fst pU)
                             then assoc k pU else assoc k pT
                        else None).
  { intros k.
    exact (@get_prop_Overwrite (TObject pT) (TObject pU) k eq_refl eq_refl
             (wf_props_object pT HT) (wf_props_object pU HU)). }
  split; [|split; [|split]].
  - intros k. split.
    + intros Hk. apply get_prop_keys in Hk. rewrite G in Hk.
      destruct (in_dec string_dec k (map fst pT)); [assumption|congruence].
    + intros Hk. apply get_prop_keys. rewrite G.
      destruct (in_dec string_dec k (map fst pT)); [|contradiction].
      destruct (in_dec string_dec k (map fst pU)) as [Hu|Hu].
      * intros E. apply assoc_None in E. contradiction.
      * intros E. apply assoc_None in E. contradiction.
  - intros k p Hp Hq. rewrite G.
    destruct (in_dec string_dec k (map fst pT)) as [_|Hn].
    + destruct (in_dec string_dec k (map fst pU)) as [Hu|_]; [|assumption].
      apply assoc_None in Hq. contradiction.
    + exfalso. apply Hn. apply assoc_In in Hp. now apply (in_map fst) in Hp.
  - intros k p q Hp Hq. rewrite G.
    destruct (in_dec string_dec k (map fst pT)) as [_|Hn].
    + destruct (in_dec string_dec k (map fst pU)) as [_|Hu]; [assumption|].
      exfalso. apply Hu. apply assoc_In in Hq. now apply (in_map fst) in Hq.
    + exfalso. apply Hn. apply assoc_In in Hp. now apply (in_map fst) in Hp.
  - intros k Hp. rewrite G.
    destruct (in_dec string_dec k (map fst pT)) as [Hin|_]; [|reflexivity].
    apply assoc_None in Hp. contradiction.
Qed.

Lemma Overwrite_properties_witness :
  (forall k, In k (keys_of (Overwrite Props NewProps)) <-> In k (map fst Props_list))
  /\ (forall k p, assoc k Props_list = Some p -> assoc k NewProps_list = None ->
                  get_prop (Overwrite Props NewProps) k = Some p)
  /\ (forall k p q, assoc k Props_list = Some p -> assoc k NewProps_list = Some q ->
                    get_prop (Overwrite Props NewProps) k = Some q)
  /\ (forall k, assoc k Props_list = None ->
                get_prop (Overwrite Props NewProps) k = None).
Proof.
  exact (Overwrite_properties Props_list NewProps_list eq_refl eq_refl).
Defined.

(** ** C2: the documented example of Assign *)

(** C2, as amended.  [Assign<Props, NewProps>] has the properties
    [name: string], [age: string], [visible: boolean], [other: string]: the
    shared key [age] takes its type from [NewProps], as in [Overwrite]. *)
Theorem Assign_example : same_props (Assign Props NewProps) Assign_evaluated.
Proof.
  assert (E : Assign Props NewProps =
              TObject [("name", mkProp false false TString);
                       ("visible", mkProp false false TBoolean);
                       ("age", mkProp false false TString);
                       ("other", mkProp false false TString)])
    by (vm_compute; reflexivity).
  rewrite E. intros k. unfold Assign_evaluated. cbn [get_prop assoc].
  destruct (String.eqb_spec k "name") as [->|_]; [reflexivity|].
  destruct (String.eqb_spec k "visible") as [->|_]; [reflexivity|].
  destruct (String.eqb_spec k "age") as [->|_]; reflexivity.
Qed.

(** C2, as stated, fails: the documented type has [age: number], the
    evaluated one [age: string]. *)
Lemma Assign_example_not_documented :
  ~ same_props (Assign Props NewProps) Assign_documented.
Proof.
  intros H. specialize (H "age"). vm_compute in H. discriminate.
Qed.

(** ** C8: FunctionKeys and NonFunctionKeys *)

Lemma strip_undefined_select (c : bool) k :
  strip_undefined (if c then TKey k else TNever) = if c then TKey k else TNever.
Proof. destruct c; [apply mk_union_atom|]; reflexivity. Qed.

(** The keys selected by [{ [K in keyof T]-?: C<K> ? K : never }[keyof T]]. *)
Lemma members_key_select T (c : string -> bool) m :
  In m (members (index (mapped Keep Remove T (keyof T)
                          (fun k => if c k then TKey k else TNever))
                       (keyof T)))
  <-> exists k, m = TKey k /\ In k (keys_of T) /\ c k = true.
Proof.
  set (M := mapped Keep Remove T (keyof T) (fun k => if c k then TKey k else TNever)).
  assert (Hat : forall k, In k (keys_of T) ->
                          index_atom M (TKey k) = if c k then TKey k else TNever).
  { intros k Hk. unfold index_atom, TKey. fold (TKey k). unfold M.
    rewrite get_prop_mapped.
    destruct (in_dec string_dec k (key_names (keyof T))) as [_|Hn];
      [|exfalso; apply Hn; now apply key_names_keyof].
    unfold mapped_entry, make_prop, prop_read. cbn [snd apply_mod p_optional p_type].
    destruct (is_remove Remove && _); [apply strip_undefined_select|reflexivity]. }
  unfold index. replace (members M) with [M] by reflexivity.
  cbn [flat_map]. rewrite app_nil_r, In_members_mk_union.
  assert (G : In m (flat_map members (map (index_atom M) (members (keyof T))))
              <-> exists k, m = TKey k /\ In k (keys_of T) /\ c k = true).
  { rewrite in_flat_map. split.
    - intros (x & Hx & Hm). apply in_map_iff in Hx as (y & <- & Hy).
      apply members_keyof in Hy as (k & -> & Hk).
      rewrite Hat in Hm by assumption.
      destruct (c k) eqn:E; [|destruct Hm].
      destruct Hm as [<-|[]]. exists k. auto.
    - intros (k & -> & Hk & Hc). exists (TKey k). split; [|now left].
      apply in_map_iff. exists (TKey k). split.
      + rewrite Hat by assumption. now rewrite Hc.
      + apply members_keyof. eauto. }
  rewrite G. split; [tauto|]. intros H. split; [assumption|].
  apply absorbed_units. intros x Hx. apply in_flat_map in Hx as (y & Hy & Hx).
  apply in_map_iff in Hy as (z & <- & Hz).
  apply members_keyof in Hz as (k & -> & Hk).
  rewrite Hat in Hx by assumption.
  destruct (c k); [|destruct Hx]. destruct Hx as [<-|[]]. reflexivity.
Qed.

Lemma NonFunctionKeys_select T :
  NonFunctionKeys T =
  index (mapped Keep Remove T (keyof T)
           (fun k => if negb (function_valued T k) then TKey k else TNever))
        (keyof T).
Proof.
  unfold NonFunctionKeys, mapped, function_valued. do 2 f_equal.
  apply map_ext. intros k. now destruct (extends _ TFunction).
Qed.

(** C8.  [FunctionKeys<T>] and [NonFunctionKeys<T>] partition [keyof T]: a
    key of [T] is in [FunctionKeys<T>] exactly when [NonUndefined<T[K]>] is
    assignable to [Function], in [NonFunctionKeys<T>] exactly when it is
    not; together they are [keyof T], and no key is in both. *)
Theorem FunctionKeys_partition (T : ty) :
  (forall k, In (TKey k) (members (FunctionKeys T)) <->
             In k (keys_of T) /\ function_valued T k = true)
  /\ (forall k, In (TKey k) (members (NonFunctionKeys T)) <->
                In k (keys_of T) /\ function_valued T k = false)
  /\ (forall m, In m (members (keyof T)) <->
                In m (members (FunctionKeys T)) \/ In m (members (NonFunctionKeys T)))
  /\ (forall m, ~ (In m (members (FunctionKeys T))
                   /\ In m (members (NonFunctionKeys T)))).
Proof.
  assert (F : forall m, In m (members (FunctionKeys T)) <->
                        exists k, m = TKey k /\ In k (keys_of T)
                                  /\ function_valued T k = true).
  { intros m. apply (members_key_select T (function_valued T)). }
  assert (N : forall m, In m (members (NonFunctionKeys T)) <->
                        exists k, m = TKey k /\ In k (keys_of T)
                                  /\ negb (function_valued T k) = true).
  { intros m. rewrite NonFunctionKeys_select. apply members_key_select. }
  split; [|split; [|split]].
  - intros k. rewrite F. split.
    + intros (k' & E & H). inversion E; subst. exact H.
    + eauto.
  - intros k. rewrite N. split.
    + intros (k' & E & H1 & H2). inversion E; subst.
      apply negb_true_iff in H2. auto.
    + intros [H1 H2]. exists k. rewrite H2. auto.
  - intros m. rewrite F, N, members_keyof. split.
    + intros (k & -> & Hk). destruct (function_valued T k) eqn:E.
      * left. eauto.
      * right. exists k. rewrite E. auto.
    + intros [(k & -> & Hk & _)|(k & -> & Hk & _)]; eauto.
  - intros m. rewrite F, N.
    intros [(k & -> & _ & H1) (k' & E & _ & H2)].
    inversion E; subst. rewrite H1 in H2. discriminate.
Qed.

(** ** Constituents that match [Promise<infer U>] *)

Lemma extends_Promise_any_infers t :
  extends_Promise_any_atom t = true -> infer_promise t <> None.
Proof.
  induction t using ty_nested_ind; simpl; try discriminate.
  intros H. apply orb_true_iff in H.
  destruct (infer_promise t1); [discriminate|].
  destruct H as [H|H]; [now apply IHt1 in H|now apply IHt2].
Qed.

(** ** Nesting depth *)

Lemma list_max_In l x : In x l -> x <= list_max l.
Proof.
  intros H. assert (G : list_max l <= list_max l) by lia.
  apply list_max_le in G. rewrite Forall_forall in G. auto.
Qed.

Lemma list_max_bound l n : (forall x, In x l -> x <= n) -> list_max l <= n.
Proof. intros H. apply list_max_le. now apply Forall_forall. Qed.

Lemma rank_members t m : In m (members t) -> rank m <= rank t.
Proof.
  revert m. induction t using ty_nested_ind; intros m Hm;
    try (destruct Hm as [<-|[]]; lia).
  cbn [members] in Hm. apply in_flat_map in Hm as (x & Hx & Hm).
  rewrite Forall_forall in H. specialize (H x Hx m Hm).
  cbn [rank]. pose proof (list_max_In (map rank ms) (rank x) (in_map rank ms x Hx)).
  lia.
Qed.

Lemma rank_mk_union l n :
  (forall x, In x l -> rank x <= n) -> rank (mk_union l) <= n.
Proof.
  intros H.
  assert (G : forall m, In m (constituents l) -> rank m <= n).
  { intros m Hm. apply In_constituents in Hm as [Hm _].
    apply in_flat_map in Hm as (x & Hx & Hm).
    pose proof (rank_members x m Hm). specialize (H x Hx). lia. }
  unfold mk_union. destruct (constituents l) as [|x [|y r]] eqn:E.
  - cbn. lia.
  - apply G. now left.
  - cbn [rank]. apply list_max_bound. intros k Hk.
    apply in_map_iff in Hk as (m & <- & Hm). now apply G.
Qed.

Lemma rank_union2 a b : rank (union2 a b) <= Nat.max (rank a) (rank b).
Proof.
  apply rank_mk_union. intros x [<-|[<-|[]]]; lia.
Qed.

Lemma rank_cond_dist f T n :
  (forall a, In a (members T) -> rank (f a) <= n) -> rank (cond_dist f T) <= n.
Proof.
  intros H. apply rank_mk_union. intros x Hx.
  apply in_map_iff in Hx as (a & <- & Ha). auto.
Qed.

Lemma rank_NonUndefined T : rank (NonUndefined T) <= rank T.
Proof.
  apply rank_cond_dist. intros a Ha. apply rank_members in Ha.
  destruct (extends a TUndefined); simpl; lia.
Qed.

Lemma rank_NonNullable T : rank (NonNullable T) <= rank T.
Proof.
  apply rank_cond_dist. intros a Ha. apply rank_members in Ha.
  destruct (extends a _); simpl; lia.
Qed.

Lemma rank_strip_undefined T : rank (strip_undefined T) <= rank T.
Proof.
  apply rank_mk_union. intros x Hx. apply filter_In in Hx as [Hx _].
  now apply rank_members.
Qed.

Lemma rank_inter_atom a b : rank (inter_atom a b) <= S (Nat.max (rank a) (rank b)).
Proof.
  unfold inter_atom. destruct (ty_eqb a b); [lia|].
  destruct a as [| |[]|[]| | | | | | | |], b as [| |[]|[]| | | | | | | |];
    cbn -[Nat.max]; lia.
Qed.

Lemma rank_inter A B : rank (inter A B) <= S (Nat.max (rank A) (rank B)).
Proof.
  apply rank_mk_union. intros x Hx.
  apply in_flat_map in Hx as (a & Ha & Hx).
  apply in_map_iff in Hx as (b & <- & Hb).
  pose proof (rank_inter_atom a b).
  apply rank_members in Ha, Hb. lia.
Qed.

Lemma rank_prop_read_make ro opt t : rank (prop_read (make_prop ro opt t)) <= rank t.
Proof.
  unfold prop_read, make_prop. cbn [p_optional p_type]. destruct opt; [|lia].
  pose proof (rank_union2 (strip_undefined t) TUndefined).
  pose proof (rank_strip_undefined t). cbn [rank] in *. lia.
Qed.

Lemma rank_prop_read p : rank (prop_read p) <= rank (p_type p).
Proof.
  unfold prop_read. destruct (p_optional p); [|lia].
  pose proof (rank_union2 (p_type p) TUndefined). cbn [rank] in *. lia.
Qed.

Lemma rank_get_prop t k q : get_prop t k = Some q -> rank (prop_read q) < rank t.
Proof.
  revert q. induction t using ty_nested_ind; intros q Hq; try discriminate.
  - clear H. cbn [get_prop] in Hq. apply assoc_In in Hq.
    pose proof (rank_prop_read q). cbn [rank].
    pose proof (list_max_In _ _
                  (in_map (fun kp => rank (p_type (snd kp))) props (k, q) Hq)).
    cbn [snd] in *. lia.
  - cbn [get_prop] in Hq. cbn [rank].
    destruct (get_prop t1 k) as [p1|] eqn:E1, (get_prop t2 k) as [p2|] eqn:E2;
      try discriminate.
    + inversion Hq; subst q.
      pose proof (rank_prop_read_make (p_readonly p1 || p_readonly p2)
                    (p_optional p1 && p_optional p2)
                    (inter (prop_read p1) (prop_read p2))).
      pose proof (rank_inter (prop_read p1) (prop_read p2)).
      specialize (IHt1 p1 eq_refl). specialize (IHt2 p2 eq_refl). lia.
    + inversion Hq; subst q. specialize (IHt1 p1 eq_refl). lia.
    + inversion Hq; subst q. specialize (IHt2 p2 eq_refl). lia.
Qed.

Lemma rank_elem_of t e : elem_of t = Some e -> rank e < rank t.
Proof.
  revert e. induction t using ty_nested_ind; intros x Hx; try discriminate.
  - inversion Hx; subst. cbn. lia.
  - inversion Hx; subst. cbn. lia.
  - cbn [elem_of] in Hx. cbn [rank].
    destruct (elem_of t1) as [e1|].
    + inversion Hx; subst. specialize (IHt1 x eq_refl). lia.
    + specialize (IHt2 x Hx). lia.
Qed.

Lemma rank_infer_array t e : infer_array t = Some e -> rank e < rank t.
Proof.
  revert e. induction t using ty_nested_ind; intros x Hx; try discriminate.
  - inversion Hx; subst. cbn. lia.
  - cbn [infer_array] in Hx. cbn [rank].
    destruct (infer_array t1) as [e1|].
    + inversion Hx; subst. specialize (IHt1 x eq_refl). lia.
    + specialize (IHt2 x Hx). lia.
Qed.

Lemma rank_index_key t k :
  is_union t = false -> In k (keys_of t) -> rank (index t (TKey k)) < rank t.
Proof.
  intros Hat Hk. rewrite index_key by assumption.
  apply get_prop_keys in Hk. destruct (get_prop t k) as [p|] eqn:E; [|congruence].
  pose proof (rank_get_prop t k E).
  pose proof (@rank_mk_union [prop_read p] (rank (prop_read p))).
  assert (rank (mk_union [prop_read p]) <= rank (prop_read p)).
  { apply H0. intros x [<-|[]]. lia. }
  lia.
Qed.

Lemma rank_index_number t :
  is_union t = false -> elem_of t <> None -> rank (index t TNumber) < rank t.
Proof.
  intros Hat He. unfold index. rewrite (members_atom t Hat).
  cbn [members flat_map map app TNumber index_atom].
  destruct (elem_of t) as [e|] eqn:E; [|congruence].
  pose proof (rank_elem_of t E).
  assert (rank (mk_union [e]) <= rank e).
  { apply rank_mk_union. intros x [<-|[]]. lia. }
  lia.
Qed.

(** ** Unfolding recursive aliases: more unfoldings never change a result *)

Lemma le_opt_refl (A : Type) (x : option A) : le_opt x x.
Proof. intros a H. exact H. Qed.

Lemma option_map_le (A B : Type) (f : A -> B) x y :
  le_opt x y -> le_opt (option_map f x) (option_map f y).
Proof.
  intros H b Hb. destruct x as [a|]; [|discriminate].
  rewrite (H a eq_refl). exact Hb.
Qed.

Lemma mapM_le (A B : Type) (f g : A -> option B) l :
  (forall x, le_opt (f x) (g x)) -> le_opt (mapM f l) (mapM g l).
Proof.
  intros H. induction l as [|x r IH]; intros ys Hys; [exact Hys|].
  cbn [mapM] in *.
  destruct (f x) as [y|] eqn:Ef; [|discriminate].
  destruct (mapM f r) as [ys'|] eqn:Er; [|discriminate].
  rewrite (H x y Ef), (IH ys' eq_refl). exact Hys.
Qed.

Lemma mapM_some (A B : Type) (f : A -> option B) l :
  (forall x, In x l -> f x <> None) -> mapM f l <> None.
Proof.
  induction l as [|x r IH]; intros H; cbn [mapM]; [discriminate|].
  specialize (IH (fun y Hy => H y (or_intror Hy))).
  specialize (H x (or_introl eq_refl)).
  destruct (f x); [|congruence].
  destruct (mapM f r); [discriminate|congruence].
Qed.

Lemma option_map_some (A B : Type) (f : A -> B) x :
  x <> None -> option_map f x <> None.
Proof. destruct x; [discriminate|congruence]. Qed.

Lemma cond_dist_opt_le f g T :
  (forall t, le_opt (f t) (g t)) -> le_opt (cond_dist_opt f T) (cond_dist_opt g T).
Proof. intros H. apply option_map_le, mapM_le, H. Qed.

Lemma cond_dist_opt_some f T :
  (forall t, In t (members T) -> f t <> None) -> cond_dist_opt f T <> None.
Proof. intros H. apply option_map_some, mapM_some, H. Qed.

Lemma mapped_opt_le ro opt T K F G :
  (forall k, le_opt (F k) (G k)) ->
  le_opt (mapped_opt ro opt T K F) (mapped_opt ro opt T K G).
Proof.
  intros H. apply option_map_le, mapM_le. intros k. apply option_map_le, H.
Qed.

Lemma mapped_opt_some ro opt T K F :
  (forall k, In k (key_names K) -> F k <> None) -> mapped_opt ro opt T K F <> None.
Proof.
  intros H. apply option_map_some, mapM_some. intros k Hk.
  apply option_map_some. auto.
Qed.

Lemma mapped_keyof_opt_le ro opt T F G :
  (forall P, le_opt (F P) (G P)) ->
  le_opt (mapped_keyof_opt ro opt T F) (mapped_keyof_opt ro opt T G).
Proof.
  intros H. destruct T; cbn [mapped_keyof_opt]; try apply le_opt_refl.
  - apply option_map_le, H.
  - apply option_map_le, H.
  - apply mapped_opt_le. intros k. apply H.
  - apply mapped_opt_le. intros k. apply H.
Qed.

Lemma mapped_keyof_opt_some ro opt T F :
  (elem_of T <> None -> F TNumber <> None) ->
  (forall k, In k (keys_of T) -> F (TKey k) <> None) ->
  mapped_keyof_opt ro opt T F <> None.
Proof.
  intros He Hk. destruct T; cbn [mapped_keyof_opt]; try discriminate.
  - apply option_map_some, He. discriminate.
  - apply option_map_some, He. discriminate.
  - apply mapped_opt_some. intros k Hin. apply Hk. now apply key_names_keyof.
  - apply mapped_opt_some. intros k Hin. apply Hk. now apply key_names_keyof.
Qed.

Section unfold_theory.
Variable step : (ty -> option ty) -> ty -> option ty.
Hypothesis Hmono : step_monotone step.
Hypothesis Hprod : step_productive step.

Lemma unfold_le_S n : le_rec (unfold step n) (unfold step (S n)).
Proof.
  induction n as [|n IH]; intros T R H; [discriminate|].
  exact (Hmono IH H).
Qed.

Lemma unfold_le n m : n <= m -> le_rec (unfold step n) (unfold step m).
Proof.
  induction 1 as [|m _ IH]; intros T R H; [exact H|].
  apply unfold_le_S. now apply IH.
Qed.

Lemma unfold_some n T : rank T < n -> unfold step n T <> None.
Proof.
  revert T. induction n as [|n IH]; intros T Hr; [lia|].
  cbn [unfold]. apply (@Hprod (unfold step n) n IH). lia.
Qed.

(** Every type has a result: the one every sufficiently long unfolding
    gives and the only one any unfolding gives. *)
Lemma unfold_result T :
  exists R, (forall n, rank T < n -> unfold step n T = Some R)
            /\ (forall n R', unfold step n T = Some R' -> R' = R).
Proof.
  destruct (unfold step (S (rank T)) T) as [R|] eqn:E;
    [|exfalso; apply (@unfold_some (S (rank T)) T); [lia|assumption]].
  exists R. split.
  - intros n Hn. apply (@unfold_le (S (rank T)) n); [lia|assumption].
  - intros n R' H.
    pose proof (@unfold_le n (Nat.max n (S (rank T))) (Nat.le_max_l _ _) T R' H) as H1.
    pose proof (@unfold_le (S (rank T)) (Nat.max n (S (rank T)))
                  (Nat.le_max_r _ _) T R E) as H2.
    congruence.
Qed.
End unfold_theory.

(** ** The four recursive aliases are monotone and productive *)

Lemma extends_any_array_elem t : extends_any_array t = true -> elem_of t <> None.
Proof.
  induction t using ty_nested_ind; cbn; try discriminate.
  intros H. apply orb_true_iff in H.
  destruct (elem_of t1); [discriminate|].
  destruct H as [H|H]; [now apply IHt1 in H|now apply IHt2].
Qed.

Lemma DeepReadonly_step_monotone : step_monotone DeepReadonly_step.
Proof.
  intros rec rec' H T. apply cond_dist_opt_le. intros t. unfold DeepReadonly_at.
  destruct (extends_any_function t); [apply le_opt_refl|].
  destruct (extends_any_array t); [apply option_map_le, H|].
  destruct (extends_object t); [|apply le_opt_refl].
  apply mapped_keyof_opt_le. intros P. apply H.
Qed.

Lemma DeepReadonly_step_productive : step_productive DeepReadonly_step.
Proof.
  intros rec r H T Hr. apply cond_dist_opt_some. intros t Ht.
  unfold DeepReadonly_at.
  pose proof (@members_not_union T t Ht) as Hat.
  pose proof (@rank_members T t Ht) as Hrt.
  destruct (extends_any_function t); [discriminate|].
  destruct (extends_any_array t) eqn:Ea.
  { apply option_map_some, H.
    pose proof (@rank_index_number t Hat (@extends_any_array_elem t Ea)). lia. }
  destruct (extends_object t); [|discriminate].
  apply mapped_keyof_opt_some.
  - intros He. apply H. pose proof (@rank_index_number t Hat He). lia.
  - intros k Hk. apply H. pose proof (@rank_index_key t k Hat Hk). lia.
Qed.

Lemma DeepRequired_step_monotone : step_monotone DeepRequired_step.
Proof.
  intros rec rec' H T. apply cond_dist_opt_le. intros t.
  destruct (extends_any_function t); [apply le_opt_refl|].
  destruct (extends_any_array t); [apply option_map_le, H|].
  destruct (extends_object t); [|apply le_opt_refl].
  apply mapped_keyof_opt_le. intros P. apply H.
Qed.

Lemma DeepRequired_step_productive : step_productive DeepRequired_step.
Proof.
  intros rec r H T Hr. apply cond_dist_opt_some. intros t Ht.
  pose proof (@members_not_union T t Ht) as Hat.
  pose proof (@rank_members T t Ht) as Hrt.
  destruct (extends_any_function t); [discriminate|].
  destruct (extends_any_array t) eqn:Ea.
  { apply option_map_some, H.
    pose proof (@rank_index_number t Hat (@extends_any_array_elem t Ea)).
    pose proof (rank_NonUndefined (index t TNumber)). lia. }
  destruct (extends_object t); [|discriminate].
  apply mapped_keyof_opt_some.
  - intros He. apply H. pose proof (@rank_index_number t Hat He).
    pose proof (rank_NonUndefined (index t TNumber)). lia.
  - intros k Hk. apply H. pose proof (@rank_index_key t k Hat Hk).
    pose proof (rank_NonUndefined (index t (TKey k))). lia.
Qed.

Lemma DeepNonNullable_step_monotone : step_monotone DeepNonNullable_step.
Proof.
  intros rec rec' H T. apply cond_dist_opt_le. intros t.
  destruct (extends_any_function t); [apply le_opt_refl|].
  destruct (extends_any_array t); [apply option_map_le, H|].
  destruct (extends_object t); [|apply le_opt_refl].
  apply mapped_keyof_opt_le. intros P. apply H.
Qed.

Lemma DeepNonNullable_step_productive : step_productive DeepNonNullable_step.
Proof.
  intros rec r H T Hr. apply cond_dist_opt_some. intros t Ht.
  pose proof (@members_not_union T t Ht) as Hat.
  pose proof (@rank_members T t Ht) as Hrt.
  destruct (extends_any_function t); [discriminate|].
  destruct (extends_any_array t) eqn:Ea.
  { apply option_map_some, H.
    pose proof (@rank_index_number t Hat (@extends_any_array_elem t Ea)).
    pose proof (rank_NonNullable (index t TNumber)). lia. }
  destruct (extends_object t); [|discriminate].
  apply mapped_keyof_opt_some.
  - intros He. apply H. pose proof (@rank_index_number t Hat He).
    pose proof (rank_NonNullable (index t TNumber)). lia.
  - intros k Hk. apply H. pose proof (@rank_index_key t k Hat Hk).
    pose proof (rank_NonNullable (index t (TKey k))). lia.
Qed.

Lemma DeepPartial_step_monotone : step_monotone DeepPartial_step.
Proof.
  intros rec rec' H T. apply cond_dist_opt_le. intros t.
  destruct (extends t TFunction); [apply le_opt_refl|].
  destruct (infer_array t); [apply option_map_le, H|].
  destruct (extends_object t); [|apply le_opt_refl].
  apply mapped_keyof_opt_le. intros P. apply H.
Qed.

Lemma DeepPartial_step_productive : step_productive DeepPartial_step.
Proof.
  intros rec r H T Hr. apply cond_dist_opt_some. intros t Ht.
  pose proof (@members_not_union T t Ht) as Hat.
  pose proof (@rank_members T t Ht) as Hrt.
  destruct (extends t TFunction); [discriminate|].
  destruct (infer_array t) as [U|] eqn:Ea.
  { apply option_map_some, H. pose proof (@rank_infer_array t U Ea). lia. }
  destruct (extends_object t); [|discriminate].
  apply mapped_keyof_opt_some.
  - intros He. apply H. pose proof (@rank_index_number t Hat He). lia.
  - intros k Hk. apply H. pose proof (@rank_index_key t k Hat Hk). lia.
Qed.

(** C1.  For every type [T] of the universe (primitives, literals, functions,
    arrays, promises, finitely nested object types, their unions and
    intersections), each of the four recursive aliases has a result: every
    unfolding deeper than the nesting depth of [T] returns it, and no
    unfolding returns anything else. *)
Theorem Deep_aliases_total (T : ty) :
  (exists R, (forall n, rank T < n -> DeepReadonly_f n T = Some R)
             /\ (forall n R', DeepReadonly_f n T = Some R' -> R' = R))
  /\ (exists R, (forall n, rank T < n -> DeepRequired_f n T = Some R)
                /\ (forall n R', DeepRequired_f n T = Some R' -> R' = R))
  /\ (exists R, (forall n, rank T < n -> DeepNonNullable_f n T = Some R)
                /\ (forall n R', DeepNonNullable_f n T = Some R' -> R' = R))
  /\ (exists R, (forall n, rank T < n -> DeepPartial_f n T = Some R)
                /\ (forall n R', DeepPartial_f n T = Some R' -> R' = R)).
Proof.
  split; [|split; [|split]].
  - apply (unfold_result DeepReadonly_step_monotone DeepReadonly_step_productive).
  - apply (unfold_result DeepRequired_step_monotone DeepRequired_step_productive).
  - apply (unfold_result DeepNonNullable_step_monotone DeepNonNullable_step_productive).
  - apply (unfold_result DeepPartial_step_monotone DeepPartial_step_productive).
Qed.

(** ** The result of a recursive alias satisfies the alias' own equation *)

Section unfolded_theory.
Variable step : (ty -> option ty) -> ty -> option ty.
Hypothesis Hmono : step_monotone step.
Hypothesis Hprod : step_productive step.

Lemma unfold_unfolded n T :
  rank T < n -> unfold step n T = Some (unfolded step T).
Proof.
  intros Hn. destruct (unfold_result Hmono Hprod T) as (R & Hall & _).
  unfold unfolded. rewrite (Hall (S (rank T))) by lia. now apply Hall.
Qed.

Lemma unfolded_spec n T R : unfold step n T = Some R -> unfolded step T = R.
Proof.
  intros H. destruct (unfold_result Hmono Hprod T) as (R0 & Hall & Huniq).
  unfold unfolded. rewrite (Hall (S (rank T))) by lia.
  symmetry. eapply Huniq. exact H.
Qed.

Lemma unfolded_unfold T :
  step (fun X => Some (unfolded step X)) T = Some (unfolded step T).
Proof.
  assert (Hle : le_rec (unfold step (S (rank T))) (fun X => Some (unfolded step X))).
  { intros X R H. f_equal. eapply unfolded_spec. exact H. }
  apply (Hmono Hle).
  change (unfold step (S (S (rank T))) T = Some (unfolded step T)).
  apply unfold_unfolded. lia.
Qed.
End unfolded_theory.

Lemma mapM_Forall2 (A B : Type) (f : A -> option B) l ys :
  mapM f l = Some ys -> Forall2 (fun x y => f x = Some y) l ys.
Proof.
  revert ys. induction l as [|x r IH]; intros ys H; cbn [mapM] in H.
  - inversion H. constructor.
  - destruct (f x) as [y|] eqn:Ef; [|discriminate].
    destruct (mapM f r) as [ys'|]; [|discriminate].
    inversion H; subst. constructor; auto.
Qed.

Lemma mapM_id (A : Type) (f : A -> option A) l :
  (forall x, In x l -> f x = Some x) -> mapM f l = Some l.
Proof.
  induction l as [|x r IH]; intros H; cbn [mapM]; [reflexivity|].
  rewrite (H x (or_introl eq_refl)), IH; [reflexivity|].
  intros y Hy. apply H. now right.
Qed.

Lemma mapM_Some (A B : Type) (g : A -> B) l :
  mapM (fun x => Some (g x)) l = Some (map g l).
Proof.
  induction l as [|x r IH]; cbn [mapM map]; [reflexivity|]. now rewrite IH.
Qed.

Lemma Forall2_In_r (A B : Type) (P : A -> B -> Prop) l ys y :
  Forall2 P l ys -> In y ys -> exists x, In x l /\ P x y.
Proof.
  induction 1 as [|x y' l' ys' Hxy _ IH]; intros Hin; [destruct Hin|].
  destruct Hin as [<-|Hin].
  - exists x. split; [now left|assumption].
  - destruct (IH Hin) as (x' & Hx' & Hp). exists x'. split; [now right|assumption].
Qed.

Lemma mapped_opt_Some ro opt T K F :
  mapped_opt ro opt T K (fun k => Some (F k)) = Some (mapped ro opt T K F).
Proof.
  unfold mapped_opt, mapped.
  change (fun k => option_map (mapped_entry ro opt T k) (Some (F k)))
    with (fun k => Some (mapped_entry ro opt T k (F k))).
  now rewrite mapM_Some.
Qed.

(** ** Keys of the object types that mapped types build *)

Lemma key_names_map_TKey ks :
  flat_map (fun m => match m with TLit (LStr k) => [k] | _ => [] end) (map TKey ks) = ks.
Proof. induction ks as [|k r IH]; cbn; [reflexivity|]. now rewrite IH. Qed.

Lemma NoDup_map_TKey ks : NoDup ks -> NoDup (map TKey ks).
Proof.
  induction 1 as [|k r Hk _ IH]; cbn [map]; constructor; [|exact IH].
  intros Hin. apply in_map_iff in Hin as (k' & E & Hk').
  unfold TKey in E. inversion E; subst. contradiction.
Qed.

Lemma key_names_keyof_object es :
  NoDup (map fst es) -> key_names (keyof (TObject es)) = map fst es.
Proof.
  intros Hnd. unfold key_names, keyof. rewrite members_mk_union. cbn [keys_of].
  rewrite constituents_id.
  - apply key_names_map_TKey.
  - intros m Hm. apply in_map_iff in Hm as (k & <- & _). reflexivity.
  - now apply NoDup_map_TKey.
  - intros m Hm. apply absorbed_units. intros x Hx.
    apply in_map_iff in Hx as (k & <- & _). reflexivity.
Qed.

Lemma NoDup_constituents l : NoDup (constituents l).
Proof. unfold constituents, reduce. apply NoDup_filter, NoDup_dedup. Qed.

Lemma NoDup_key_names_list l :
  NoDup l ->
  NoDup (flat_map (fun m => match m with TLit (LStr k) => [k] | _ => [] end) l).
Proof.
  induction 1 as [|x r Hx _ IH]; cbn [flat_map]; [constructor|].
  destruct x as [| | |[s|n|b]| | | | | | | |]; try exact IH.
  cbn [app]. constructor; [|exact IH].
  intros Hin. apply Hx. apply in_flat_map in Hin as (m & Hm & Hk).
  destruct m as [| | |[s'|n'|b']| | | | | | | |]; try destruct Hk.
  - subst. exact Hm.
  - destruct H.
Qed.

Lemma NoDup_key_names_keyof T : NoDup (key_names (keyof T)).
Proof.
  unfold key_names, keyof. rewrite members_mk_union.
  apply NoDup_key_names_list, NoDup_constituents.
Qed.

Lemma assoc_NoDup (A : Type) k (v : A) es :
  NoDup (map fst es) -> In (k, v) es -> assoc k es = Some v.
Proof.
  induction es as [|[k' v'] r IH]; cbn [map fst assoc]; intros Hnd Hin; [destruct Hin|].
  inversion Hnd as [|? ? Hk Hr]; subst.
  destruct Hin as [E|Hin].
  - inversion E; subst. now rewrite String.eqb_refl.
  - destruct (String.eqb_spec k k') as [->|_]; [|auto].
    exfalso. apply Hk. apply (in_map fst) in Hin. exact Hin.
Qed.

Lemma wf_make_prop ro o v : normal v = true -> wf_prop (make_prop ro o v) = true.
Proof.
  intros Hv. unfold wf_prop, make_prop. cbn [p_type p_optional].
  destruct o; cbn [negb orb].
  - unfold strip_undefined. rewrite mk_union_normal. cbn [andb].
    apply negb_true_iff.
    destruct (existsb is_undefined _) eqn:E; [|reflexivity].
    apply existsb_exists in E as (m & Hm & Hu).
    apply In_members_mk_union in Hm as [Hm _].
    rewrite flat_map_members_atoms in Hm
      by (intros x Hx; apply filter_In in Hx as [Hx _];
          eapply members_not_union; eauto).
    apply filter_In in Hm as [_ Hm]. rewrite Hu in Hm. discriminate.
  - now rewrite Hv.
Qed.

Lemma members_strip_undefined v m :
  In m (members (strip_undefined v)) -> In m (members v).
Proof.
  unfold strip_undefined. intros H. apply In_members_mk_union in H as [H _].
  rewrite flat_map_members_atoms in H
    by (intros x Hx; apply filter_In in Hx as [Hx _];
        eapply members_not_union; eauto).
  apply filter_In in H. tauto.
Qed.

Lemma members_make_prop ro o v m :
  In m (members (p_type (make_prop ro o v))) -> In m (members v).
Proof.
  unfold make_prop. cbn [p_type]. destruct o; [apply members_strip_undefined|auto].
Qed.

Lemma members_index_read p m :
  In m (members (mk_union [prop_read p])) ->
  In m (members (p_type p)) \/ m = TUndefined.
Proof.
  intros H. apply In_members_mk_union in H as [H _]. cbn [flat_map] in H.
  rewrite app_nil_r in H. unfold prop_read in H.
  destruct (p_optional p); [|now left].
  apply members_union2 in H as [H _]. apply in_app_iff in H as [H|[<-|[]]]; auto.
Qed.

(** ** Types that [DeepReadonly] leaves alone *)

Lemma DeepReadonly_unfold T :
  DeepReadonly_step DeepReadonly_rec T = Some (DeepReadonly T).
Proof.
  exact (unfolded_unfold DeepReadonly_step_monotone DeepReadonly_step_productive T).
Qed.

Lemma DeepReadonly_f_result n T R : DeepReadonly_f n T = Some R -> DeepReadonly T = R.
Proof.
  exact (@unfolded_spec _ DeepReadonly_step_monotone DeepReadonly_step_productive n T R).
Qed.

Lemma DeepReadonly_f_normal n T R : DeepReadonly_f n T = Some R -> normal R = true.
Proof.
  destruct n as [|n]; [discriminate|].
  unfold DeepReadonly_f. cbn [unfold]. unfold DeepReadonly_step, cond_dist_opt.
  destruct (mapM _ _); [|discriminate].
  intros H. inversion H. apply mk_union_normal.
Qed.

Lemma DeepReadonly_of_fixed X :
  normal X = true ->
  (forall m, In m (members X) -> DeepReadonly_fixed m) ->
  DeepReadonly X = X.
Proof.
  intros Hn Hf. pose proof (DeepReadonly_unfold X) as H.
  unfold DeepReadonly_step, cond_dist_opt in H.
  rewrite (mapM_id _ _ Hf) in H. cbn [option_map] in H.
  destruct (normal_members X Hn) as (_ & _ & E). congruence.
Qed.

Lemma DeepReadonly_fixed_array e :
  normal e = true ->
  (forall m, In m (members e) -> DeepReadonly_fixed m) ->
  DeepReadonly_fixed (TReadonlyArray e).
Proof.
  intros Hn Hf. unfold DeepReadonly_fixed, DeepReadonly_at.
  cbn [extends_any_function extends_any_array extends_object].
  unfold _DeepReadonlyObject. cbn [mapped_keyof_opt].
  unfold DeepReadonly_rec at 1. cbn [option_map].
  assert (E : index (TReadonlyArray e) TNumber = e).
  { unfold index. cbn. now apply normal_mk_union. }
  rewrite E, (DeepReadonly_of_fixed e Hn Hf). reflexivity.
Qed.

Lemma DeepReadonly_fixed_undefined : DeepReadonly_fixed TUndefined.
Proof. reflexivity. Qed.

Lemma DeepReadonly_fixed_object es :
  NoDup (map fst es) ->
  Forall DeepReadonly_entry es ->
  DeepReadonly_fixed (TObject es).
Proof.
  intros Hnd Hes. unfold DeepReadonly_fixed, DeepReadonly_at.
  cbn [extends_any_function extends_any_array extends_object].
  unfold _DeepReadonlyObject. cbn [mapped_keyof_opt].
  unfold DeepReadonly_rec.
  rewrite (mapped_opt_Some Add Keep (TObject es) (keyof (TObject es))
             (fun k => DeepReadonly (index (TObject es) (TKey k)))).
  f_equal. unfold mapped. f_equal.
  rewrite key_names_keyof_object by assumption.
  rewrite map_map. transitivity (map (fun e => e) es); [|apply map_id].
  apply map_ext_in. intros [k p] Hin. cbn [fst].
  rewrite Forall_forall in Hes. destruct (Hes _ Hin) as (Hro & Hwf & Hf).
  cbn [snd] in Hro, Hwf, Hf.
  unfold mapped_entry. cbn [get_prop]. rewrite (assoc_NoDup k p es Hnd Hin).
  cbn [apply_mod is_remove andb]. rewrite index_key by reflexivity.
  cbn [get_prop]. rewrite (assoc_NoDup k p es Hnd Hin).
  rewrite DeepReadonly_of_fixed.
  - f_equal. rewrite <- Hro at 1. now apply wf_prop_restore.
  - apply mk_union_normal.
  - intros m Hm. apply members_index_read in Hm as [Hm| ->]; [auto|].
    apply DeepReadonly_fixed_undefined.
Qed.

(** ** Witnesses *)

Lemma Deep_aliases_total_witness :
  (exists R, DeepReadonly_f 4 NestedProps = Some R)
  /\ (exists R, DeepRequired_f 4 NestedProps = Some R)
  /\ (exists R, DeepNonNullable_f 4 NestedProps = Some R)
  /\ (exists R, DeepPartial_f 4 NestedProps = Some R).
Proof.
  destruct (Deep_aliases_total NestedProps)
    as ((R1 & H1 & _) & (R2 & H2 & _) & (R3 & H3 & _) & (R4 & H4 & _)).
  split; [|split; [|split]].
  - exists R1. exact (H1 4 (Nat.lt_succ_diag_r 3)).
  - exists R2. exact (H2 4 (Nat.lt_succ_diag_r 3)).
  - exists R3. exact (H3 4 (Nat.lt_succ_diag_r 3)).
  - exists R4. exact (H4 4 (Nat.lt_succ_diag_r 3)).
Defined.

(** ** Keys selected by a modifier *)

Lemma key_select_negb T (c : string -> bool) (A : string -> ty) :
  (forall k, A k = if c k then TNever else TKey k) ->
  index (mapped Keep Remove T (keyof T) A) (keyof T) =
  index (mapped Keep Remove T (keyof T)
           (fun k => if negb (c k) then TKey k else TNever)) (keyof T).
Proof.
  intros H. unfold mapped. do 2 f_equal. apply map_ext. intros k.
  rewrite H. now destruct (c k).
Qed.

(** A partition of [keyof T] by a test on keys. *)
Lemma key_select_partition T (c : string -> bool) (Y N : ty) :
  (forall m, In m (members Y) <->
             exists k, m = TKey k /\ In k (keys_of T) /\ c k = true) ->
  (forall m, In m (members N) <->
             exists k, m = TKey k /\ In k (keys_of T) /\ negb (c k) = true) ->
  (forall k, In (TKey k) (members Y) <-> In k (keys_of T) /\ c k = true)
  /\ (forall k, In (TKey k) (members N) <-> In k (keys_of T) /\ c k = false)
  /\ (forall m, In m (members (keyof T)) <-> In m (members Y) \/ In m (members N))
  /\ (forall m, ~ (In m (members Y) /\ In m (members N))).
Proof.
  intros F N'. split; [|split; [|split]].
  - intros k. rewrite F. split.
    + intros (k' & E & H). inversion E; subst. exact H.
    + eauto.
  - intros k. rewrite N'. split.
    + intros (k' & E & H1 & H2). inversion E; subst.
      apply negb_true_iff in H2. auto.
    + intros [H1 H2]. exists k. rewrite H2. auto.
  - intros m. rewrite F, N', members_keyof. split.
    + intros (k & -> & Hk). destruct (c k) eqn:E.
      * left. eauto.
      * right. exists k. rewrite E. auto.
    + intros [(k & -> & Hk & _)|(k & -> & Hk & _)]; eauto.
  - intros m. rewrite F, N'.
    intros [(k & -> & _ & H1) (k' & E & _ & H2)].
    inversion E; subst. rewrite H1 in H2. discriminate.
Qed.

(** [{} extends Pick<T, K>] holds exactly when the property [K] of [T] is
    optional. *)
Lemma extends_empty_Pick T k :
  extends (TObject []) (Pick T (TKey k)) = optional_key T k.
Proof.
  unfold Pick, mapped, extends. cbn [key_names members flat_map app map TKey].
  rewrite Nat.add_succ_r. cbn [size Nat.add extends_f forallb assoc fst snd].
  unfold mapped_entry. cbn [snd make_prop p_optional apply_mod].
  unfold optional_key. apply andb_true_r.
Qed.

(** X1.  [RequiredKeys<T>] and [OptionalKeys<T>] partition [keyof T] by the
    [?] modifier: a key of [T] is in [OptionalKeys<T>] exactly when its
    property is optional, in [RequiredKeys<T>] exactly when it is not;
    together they are [keyof T] and no key is in both. *)
Theorem RequiredKeys_OptionalKeys_partition (T : ty) :
  (forall k, In (TKey k) (members (OptionalKeys T)) <->
             In k (keys_of T) /\ optional_key T k = true)
  /\ (forall k, In (TKey k) (members (RequiredKeys T)) <->
                In k (keys_of T) /\ optional_key T k = false)
  /\ (forall m, In m (members (keyof T)) <->
                In m (members (OptionalKeys T)) \/ In m (members (RequiredKeys T)))
  /\ (forall m, ~ (In m (members (OptionalKeys T))
                   /\ In m (members (RequiredKeys T)))).
Proof.
  apply key_select_partition.
  - intros m. unfold OptionalKeys.
    rewrite (members_key_select T (fun k => extends (TObject []) (Pick T (TKey k)))).
    split; intros (k & E & Hk & Hc); exists k;
      [rewrite <- extends_empty_Pick|rewrite extends_empty_Pick]; auto.
  - intros m. unfold RequiredKeys.
    rewrite (@key_select_negb T (fun k => extends (TObject []) (Pick T (TKey k))))
      by reflexivity.
    rewrite (members_key_select T
               (fun k => negb (extends (TObject []) (Pick T (TKey k))))).
    split; intros (k & E & Hk & Hc); exists k;
      [rewrite <- extends_empty_Pick|rewrite extends_empty_Pick]; auto.
Qed.

(** The two single-property types that [WritableKeys] and [ReadonlyKeys]
    compare are identical exactly when the property is not readonly. *)
Lemma single_prop_eqb T k :
  ty_eqb (single_prop Keep T k) (single_prop Remove T k) = negb (readonly_key T k).
Proof.
  unfold single_prop, mapped. cbn [key_names members flat_map app map TKey].
  unfold mapped_entry. cbn [ty_eqb list_eqb fst snd make_prop p_readonly p_optional
                              p_type apply_mod is_remove andb].
  rewrite String.eqb_refl, Bool.eqb_reflx, ty_eqb_refl. unfold readonly_key.
  destruct (get_prop T k) as [[[] ? ?]|]; reflexivity.
Qed.

(** X2.  [WritableKeys<T>] and [ReadonlyKeys<T>] partition [keyof T] by the
    [readonly] modifier. *)
Theorem WritableKeys_ReadonlyKeys_partition (T : ty) :
  (forall k, In (TKey k) (members (ReadonlyKeys T)) <->
             In k (keys_of T) /\ readonly_key T k = true)
  /\ (forall k, In (TKey k) (members (WritableKeys T)) <->
                In k (keys_of T) /\ readonly_key T k = false)
  /\ (forall m, In m (members (keyof T)) <->
                In m (members (ReadonlyKeys T)) \/ In m (members (WritableKeys T)))
  /\ (forall m, ~ (In m (members (ReadonlyKeys T))
                   /\ In m (members (WritableKeys T)))).
Proof.
  apply key_select_partition.
  - intros m. unfold ReadonlyKeys.
    rewrite (@key_select_negb T
               (fun k => ty_eqb (single_prop Keep T k) (single_prop Remove T k)))
      by reflexivity.
    rewrite (members_key_select T
               (fun k => negb (ty_eqb (single_prop Keep T k) (single_prop Remove T k)))).
    split; intros (k & E & Hk & Hc); exists k;
      rewrite single_prop_eqb, ?negb_involutive in *; auto.
  - intros m. unfold WritableKeys.
    change (fun k => IfEquals (single_prop Keep T k) (single_prop Remove T k) (TKey k) TNever)
      with (fun k => if ty_eqb (single_prop Keep T k) (single_prop Remove T k)
                     then TKey k else TNever).
    rewrite (members_key_select T
               (fun k => ty_eqb (single_prop Keep T k) (single_prop Remove T k))).
    split; intros (k & E & Hk & Hc); exists k;
      rewrite single_prop_eqb in *; auto.
Qed.

(** ** Diff, Intersection and Assign *)

(** X3.  [Diff<T, U>] and [Intersection<T, U>] split the properties of [T]:
    a property whose key occurs in [U] is in [Intersection<T, U>] and not in
    [Diff<T, U>], any other is in [Diff<T, U>] and not in
    [Intersection<T, U>], each as it is in [T]; [Subtract<T, U>] is
    [Diff<T, U>]. *)
Theorem Diff_Intersection_split
  (pT : list (string * prop ty)) (U : ty) (HT : wf_props pT = true) :
  (forall k, In k (keys_of U) ->
             get_prop (Intersection (TObject pT) U) k = assoc k pT
             /\ get_prop (Diff (TObject pT) U) k = None)
  /\ (forall k, ~ In k (keys_of U) ->
                get_prop (Diff (TObject pT) U) k = assoc k pT
                /\ get_prop (Intersection (TObject pT) U) k = None)
  /\ Subtract (TObject pT) U = Diff (TObject pT) U.
Proof.
  pose proof (wf_props_object pT HT) as Hwf.
  split; [|split; [|reflexivity]]; intros k Hk.
  - rewrite get_prop_Intersection, get_prop_Diff by (reflexivity || assumption).
    destruct (in_dec string_dec k (keys_of U)); [now split|contradiction].
  - rewrite get_prop_Intersection, get_prop_Diff by (reflexivity || assumption).
    destruct (in_dec string_dec k (keys_of U)); [contradiction|now split].
Qed.

Lemma Diff_Intersection_split_witness :
  (forall k, In k (keys_of NewProps) ->
             get_prop (Intersection Props NewProps) k = assoc k Props_list
             /\ get_prop (Diff Props NewProps) k = None)
  /\ (forall k, ~ In k (keys_of NewProps) ->
                get_prop (Diff Props NewProps) k = assoc k Props_list
                /\ get_prop (Intersection Props NewProps) k = None)
  /\ Subtract Props NewProps = Diff Props NewProps.
Proof.
  exact (Diff_Intersection_split Props_list NewProps eq_refl).
Defined.

(** An object type or an intersection of them. *)
Lemma inter_object_r X b :
  match X with TObject _ | TInter _ _ => True | _ => False end ->
  inter X (TObject b) = if ty_eqb X (TObject b) then X else TInter X (TObject b).
Proof.
  intros HX. unfold inter.
  replace (members X) with [X] by (destruct X; try destruct HX; reflexivity).
  cbn [members flat_map map app]. unfold inter_atom.
  destruct (ty_eqb X (TObject b)).
  - apply mk_union_atom. destruct X; try destruct HX; reflexivity.
  - destruct X; try destruct HX; reflexivity.
Qed.

Lemma get_prop_inter_disjoint_r X b k :
  match X with TObject _ | TInter _ _ => True | _ => False end ->
  (forall k', get_prop X k' <> None -> get_prop (TObject b) k' = None) ->
  get_prop (inter X (TObject b)) k =
  match get_prop X k with
  | Some p => Some p
  | None => get_prop (TObject b) k
  end.
Proof.
  intros HX Hd. rewrite inter_object_r by assumption.
  destruct (ty_eqb X (TObject b)) eqn:E.
  - apply ty_eqb_eq in E. rewrite <- E. now destruct (get_prop X k).
  - specialize (Hd k). cbn [get_prop] in *.
    destruct (get_prop X k) eqn:Ea; [|now destruct (assoc k b)].
    rewrite Hd by congruence. reflexivity.
Qed.

Lemma get_prop_Assign T U k :
  is_union T = false -> is_union U = false -> wf_object T -> wf_object U ->
  get_prop (Assign T U) k =
  match get_prop U k with
  | Some q => Some q
  | None => get_prop T k
  end.
Proof.
  intros HT HU HwT HwU. unfold Assign, Assign3.
  destruct (Pick_is_object T (SetDifference (keyof T) (keyof U))) as (d & Ed).
  destruct (Pick_is_object U (inter (Extract (keyof U) (keyof T))
                                    (Extract (keyof T) (keyof U)))) as (i & Ei).
  destruct (Pick_is_object U (SetDifference (keyof U) (keyof T))) as (e & Ee).
  assert (Gd : forall k', get_prop (TObject d) k' =
                          if in_dec string_dec k' (keys_of U) then None
                          else get_prop T k').
  { intros k'. rewrite <- Ed. now apply get_prop_Diff. }
  assert (Gi : forall k', get_prop (TObject i) k' =
                          if in_dec string_dec k' (keys_of T) then get_prop U k'
                          else None).
  { intros k'. rewrite <- Ei. now apply get_prop_Intersection. }
  assert (Ge : forall k', get_prop (TObject e) k' =
                          if in_dec string_dec k' (keys_of T) then None
                          else get_prop U k').
  { intros k'. rewrite <- Ee. now apply get_prop_Diff. }
  unfold Diff, Intersection. rewrite Ed, Ei, Ee.
  assert (Hdis : forall k', get_prop (TObject d) k' <> None ->
                            get_prop (TObject i) k' = None).
  { intros k'. rewrite Gd, Gi.
    destruct (in_dec string_dec k' (keys_of U)) as [Hin|Hout]; [congruence|].
    intros _. destruct (in_dec string_dec k' (keys_of T)); [|reflexivity].
    destruct (get_prop U k') eqn:G; [|reflexivity].
    exfalso. apply Hout, get_prop_keys. congruence. }
  set (DI := inter (TObject d) (TObject i)).
  assert (Gdi : forall k', get_prop DI k' =
                           if in_dec string_dec k' (keys_of T)
                           then match get_prop U k' with
                                | Some q => Some q
                                | None => get_prop T k'
                                end
                           else None).
  { intros k'. unfold DI. rewrite get_prop_inter_disjoint by assumption.
    rewrite Gd, Gi.
    destruct (in_dec string_dec k' (keys_of U)) as [HinU|HoutU];
      destruct (in_dec string_dec k' (keys_of T)) as [HinT|HoutT].
    - apply get_prop_keys in HinU. now destruct (get_prop U k').
    - reflexivity.
    - assert (get_prop U k' = None) as ->.
      { destruct (get_prop U k') eqn:G; [|reflexivity].
        exfalso. apply HoutU, get_prop_keys. congruence. }
      now destruct (get_prop T k').
    - destruct (get_prop T k') eqn:G; [|reflexivity].
      exfalso. apply HoutT, get_prop_keys. congruence. }
  assert (HDI : match DI with TObject _ | TInter _ _ => True | _ => False end).
  { unfold DI. rewrite inter_objects. now destruct (ty_eqb _ _). }
  assert (Hdis2 : forall k', get_prop DI k' <> None -> get_prop (TObject e) k' = None).
  { intros k'. rewrite Gdi, Ge.
    destruct (in_dec string_dec k' (keys_of T)); [reflexivity|congruence]. }
  assert (G : forall k', get_prop (inter DI (TObject e)) k' =
                         match get_prop U k' with
                         | Some q => Some q
                         | None => get_prop T k'
                         end).
  { intros k'. rewrite get_prop_inter_disjoint_r by assumption.
    rewrite Gdi, Ge.
    destruct (in_dec string_dec k' (keys_of T)) as [HinT|HoutT].
    - now destruct (get_prop U k'), (get_prop T k').
    - assert (get_prop T k' = None) as ->.
      { destruct (get_prop T k') eqn:G; [|reflexivity].
        exfalso. apply HoutT, get_prop_keys. congruence. }
      now destruct (get_prop U k'). }
  rewrite get_prop_Pick_keyof.
  - apply G.
  - rewrite inter_object_r by assumption.
    destruct (ty_eqb DI (TObject e)); [|reflexivity].
    destruct DI; try destruct HDI; reflexivity.
  - intros k' p. rewrite G.
    destruct (get_prop U k') eqn:E.
    + intros E'. inversion E'; subst. eapply HwU; eauto.
    + apply HwT.
Qed.

(** X4.  [Assign<T, U>] is object assignment: a key that [U] has takes its
    property from [U], any other key of [T] keeps its property, and the keys
    of the result are those of [T] together with those of [U]. *)
Theorem Assign_properties
  (pT pU : list (string * prop ty))
  (HT : wf_props pT = true) (HU : wf_props pU = true) :
  (forall k, get_prop (Assign (TObject pT) (TObject pU)) k =
             match assoc k pU with
             | Some q => Some q
             | None => assoc k pT
             end)
  /\ (forall k, In k (keys_of (Assign (TObject pT) (TObject pU))) <->
                In k (map fst pT) \/ In k (map fst pU)).
Proof.
  assert (G : forall k, get_prop (Assign (TObject pT) (TObject pU)) k =
                        match assoc k pU with
                        | Some q => Some q
                        | None => assoc k pT
                        end).
  { intros k.
    exact (@get_prop_Assign (TObject pT) (TObject pU) k eq_refl eq_refl
             (wf_props_object pT HT) (wf_props_object pU HU)). }
  split; [exact G|].
  intros k. rewrite <- get_prop_keys, G.
  destruct (assoc k pU) eqn:EU.
  - split; [intros _|congruence]. right.
    apply assoc_In in EU. now apply (in_map fst) in EU.
  - apply assoc_None in EU. rewrite assoc_None. split.
    + intros H. left. destruct (in_dec string_dec k (map fst pT)); tauto.
    + intros [H|H]; tauto.
Qed.

Lemma Assign_properties_witness :
  (forall k, get_prop (Assign Props NewProps) k =
             match assoc k NewProps_list with
             | Some q => Some q
             | None => assoc k Props_list
             end)
  /\ (forall k, In k (keys_of (Assign Props NewProps)) <->
                In k (map fst Props_list) \/ In k (map fst NewProps_list)).
Proof.
  exact (Assign_properties Props_list NewProps_list eq_refl eq_refl).
Defined.

(** X5.  [Overwrite<T, U>] is [Assign<T, U>] restricted to the keys of [T]:
    it has the properties of [Intersection<Assign<T, U>, T>]; and when
    every key of [U] is a key of [T] the two aliases have the same
    properties. *)
Theorem Overwrite_restricts_Assign
  (pT pU : list (string * prop ty))
  (HT : wf_props pT = true) (HU : wf_props pU = true) :
  same_props (Overwrite (TObject pT) (TObject pU))
             (Intersection (Assign (TObject pT) (TObject pU)) (TObject pT))
  /\ ((forall k, In k (map fst pU) -> In k (map fst pT)) ->
      same_props (Overwrite (TObject pT) (TObject pU))
                 (Assign (TObject pT) (TObject pU))).
Proof.
  pose proof (wf_props_object pT HT) as HwT.
  pose proof (wf_props_object pU HU) as HwU.
  assert (GA : forall k, get_prop (Assign (TObject pT) (TObject pU)) k =
                         match get_prop (TObject pU) k with
                         | Some q => Some q
                         | None => get_prop (TObject pT) k
                         end).
  { intros k.
    exact (@get_prop_Assign (TObject pT) (TObject pU) k eq_refl eq_refl HwT HwU). }
  assert (GO : forall k, get_prop (Overwrite (TObject pT) (TObject pU)) k =
                         if in_dec string_dec k (keys_of (TObject pT))
                         then if in_dec string_dec k (keys_of (TObject pU))
                              then get_prop (TObject pU) k
                              else get_prop (TObject pT) k
                         else None).
  { intros k.
    exact (@get_prop_Overwrite (TObject pT) (TObject pU) k eq_refl eq_refl HwT HwU). }
  assert (E : forall k, get_prop (Overwrite (TObject pT) (TObject pU)) k =
                        if in_dec string_dec k (keys_of (TObject pT))
                        then get_prop (Assign (TObject pT) (TObject pU)) k
                        else None).
  { intros k. rewrite GO, GA.
    destruct (in_dec string_dec k (keys_of (TObject pT))); [|reflexivity].
    destruct (in_dec string_dec k (keys_of (TObject pU))) as [Hin|Hout].
    - apply get_prop_keys in Hin. now destruct (get_prop (TObject pU) k).
    - destruct (get_prop (TObject pU) k) eqn:G; [|reflexivity].
      exfalso. apply Hout, get_prop_keys. congruence. }
  split.
  - intros k. rewrite E. symmetry.
    destruct (Pick_is_object (inter (inter (Diff (TObject pT) (TObject pU))
                                           (Intersection (TObject pU) (TObject pT)))
                                    (Diff (TObject pU) (TObject pT)))
                (keyof (inter (inter (Diff (TObject pT) (TObject pU))
                                     (Intersection (TObject pU) (TObject pT)))
                              (Diff (TObject pU) (TObject pT))))) as (a & Ea).
    change (Assign (TObject pT) (TObject pU) = TObject a) in Ea.
    apply get_prop_Intersection.
    + rewrite Ea. reflexivity.
    + intros k' p. rewrite GA. destruct (get_prop (TObject pU) k') eqn:G.
      * intros E'. inversion E'; subst. eapply HwU; eauto.
      * apply HwT.
  - intros Hsub k. rewrite E.
    destruct (in_dec string_dec k (keys_of (TObject pT))) as [Hin|Hout];
      [reflexivity|].
    rewrite GA. cbn [get_prop keys_of] in *.
    destruct (assoc k pU) eqn:G.
    + exfalso. apply Hout, Hsub. apply assoc_In in G. now apply (in_map fst) in G.
    + symmetry. now apply assoc_None.
Qed.

Lemma Overwrite_restricts_Assign_witness :
  same_props (Overwrite Props DefaultProps) (Intersection (Assign Props DefaultProps) Props)
  /\ same_props (Overwrite Props DefaultProps) (Assign Props DefaultProps).
Proof.
  destruct (Overwrite_restricts_Assign
              Props_list [("age", mkProp false false TNumber)] eq_refl eq_refl)
    as [H1 H2].
  split; [exact H1|]. apply H2. intros k [<-|[]]. simpl. auto.
Defined.

(** ** Omit and Optional *)

Lemma keys_of_mapped ro opt T K F : keys_of (mapped ro opt T K F) = key_names K.
Proof.
  unfold mapped. cbn [keys_of]. rewrite map_map. cbn [mapped_entry fst].
  apply map_id.
Qed.

Lemma wf_object_Pick T K :
  is_union T = false -> wf_object T ->
  (forall k', In k' (key_names K) -> In k' (keys_of T)) ->
  wf_object (Pick T K).
Proof.
  intros Hat Hwf Hsub k p. rewrite get_prop_Pick by assumption.
  destruct (in_dec string_dec k (key_names K)); [apply Hwf|discriminate].
Qed.

Lemma wf_object_Omit T K :
  is_union T = false -> wf_object T -> wf_object (Omit T K).
Proof.
  intros Hat Hwf k p. rewrite get_prop_Omit by assumption.
  destruct (extends (TKey k) K); [discriminate|apply Hwf].
Qed.

Lemma extends_key_units k K :
  normal K = true -> unit_union K = true ->
  extends (TKey k) K = existsb (ty_eqb (TKey k)) (members K).
Proof.
  intros Hn Hu. destruct (existsb (ty_eqb (TKey k)) (members K)) eqn:E.
  - apply existsb_ty_eqb in E. now apply extends_unit_normal.
  - destruct (extends (TKey k) K) eqn:E'; [|reflexivity].
    apply extends_unit_normal in E'; auto.
    apply existsb_ty_eqb in E'. congruence.
Qed.

Lemma unit_union_union2 K1 K2 :
  unit_union K1 = true -> unit_union K2 = true ->
  unit_union (union2 K1 K2) = true
  /\ forall m, In m (members (union2 K1 K2)) <-> In m (members K1) \/ In m (members K2).
Proof.
  intros H1 H2. unfold unit_union in *. rewrite forallb_forall in H1, H2.
  assert (H : forall x, In x (members K1 ++ members K2) -> is_unit x = true).
  { intros x Hx. apply in_app_iff in Hx as [Hx|Hx]; auto. }
  split.
  - apply forallb_forall. intros m Hm. apply members_union2 in Hm as [Hm _]. auto.
  - intros m. rewrite members_union2, in_app_iff. split; [tauto|].
    intros Hm. split; [assumption|]. now apply absorbed_units.
Qed.

(** X6.  Omitting keys in two steps is omitting their union, omitting no key
    changes nothing, and omitting every key leaves no property. *)
Theorem Omit_compose
  (ps : list (string * prop ty)) (K1 K2 : ty)
  (Hwf : wf_props ps = true)
  (HK1 : unit_union K1 = true) (HK2 : unit_union K2 = true)
  (HN1 : normal K1 = true) (HN2 : normal K2 = true) :
  same_props (Omit (Omit (TObject ps) K1) K2) (Omit (TObject ps) (union2 K1 K2))
  /\ same_props (Omit (TObject ps) TNever) (TObject ps)
  /\ same_props (Omit (TObject ps) (keyof (TObject ps))) (TObject []).
Proof.
  pose proof (wf_props_object ps Hwf) as Hw.
  split; [|split]; intros k.
  - destruct (Pick_is_object (TObject ps) (SetDifference (keyof (TObject ps)) K1))
      as (o & Eo).
    change (Omit (TObject ps) K1 = TObject o) in Eo.
    rewrite get_prop_Omit.
    + rewrite !get_prop_Omit by (reflexivity || assumption).
      destruct (unit_union_union2 K1 K2 HK1 HK2) as [Hu Hm].
      rewrite (@extends_key_units k (union2 K1 K2)) by (apply mk_union_normal || assumption).
      rewrite !extends_key_units by assumption.
      destruct (existsb (ty_eqb (TKey k)) (members (union2 K1 K2))) eqn:E.
      * apply existsb_ty_eqb, Hm in E.
        destruct E as [E|E]; apply existsb_ty_eqb in E; rewrite E;
          [now destruct (existsb _ (members K2))|reflexivity].
      * assert (E1 : existsb (ty_eqb (TKey k)) (members K1) = false).
        { destruct (existsb (ty_eqb (TKey k)) (members K1)) eqn:E1; [|reflexivity].
          apply existsb_ty_eqb in E1.
          assert (In (TKey k) (members (union2 K1 K2))) by (apply Hm; auto).
          apply existsb_ty_eqb in H. congruence. }
        assert (E2 : existsb (ty_eqb (TKey k)) (members K2) = false).
        { destruct (existsb (ty_eqb (TKey k)) (members K2)) eqn:E2; [|reflexivity].
          apply existsb_ty_eqb in E2.
          assert (In (TKey k) (members (union2 K1 K2))) by (apply Hm; auto).
          apply existsb_ty_eqb in H. congruence. }
        rewrite E1, E2. reflexivity.
    + rewrite Eo. reflexivity.
    + apply wf_object_Omit; [reflexivity|assumption].
  - rewrite get_prop_Omit by (reflexivity || assumption).
    rewrite extends_key_units by reflexivity. reflexivity.
  - rewrite get_prop_Omit by (reflexivity || assumption).
    destruct (extends (TKey k) (keyof (TObject ps))) eqn:E; [reflexivity|].
    cbn [get_prop]. destruct (assoc k ps) eqn:G; [|reflexivity].
    assert (In k (keys_of (TObject ps))).
    { apply assoc_In in G. now apply (in_map fst) in G. }
    apply extends_key_keyof in H. congruence.
Qed.

Lemma Omit_compose_witness :
  same_props (Omit (Omit Props (TKey "age")) (TKey "name"))
             (Omit Props (union2 (TKey "age") (TKey "name")))
  /\ same_props (Omit Props TNever) Props
  /\ same_props (Omit Props (keyof Props)) (TObject []).
Proof.
  exact (Omit_compose Props_list (TKey "age") (TKey "name")
           eq_refl eq_refl eq_refl eq_refl eq_refl).
Defined.

Lemma strip_undefined_id t :
  normal t = true -> existsb is_undefined (members t) = false ->
  strip_undefined t = t.
Proof.
  intros Hn Hu. unfold strip_undefined.
  rewrite forallb_filter_id.
  - now apply normal_members.
  - apply forallb_forall. intros m Hm.
    destruct (is_undefined m) eqn:E; [|reflexivity].
    assert (existsb is_undefined (members t) = true)
      by (apply existsb_exists; eauto).
    congruence.
Qed.

(** Reading a stored property and storing it as optional stores the
    property with [?] added. *)
Lemma optional_prop_restore p :
  wf_prop p = true ->
  make_prop (p_readonly p) true (mk_union [prop_read p]) = optional_prop p.
Proof.
  intros Hwf. unfold optional_prop.
  destruct (p_optional p) eqn:Eo.
  - pose proof (wf_prop_restore p Hwf) as H. rewrite Eo in H.
    rewrite H. destruct p as [ro o t]. simpl in *. subst o.
    unfold make_prop. f_equal.
    unfold wf_prop in Hwf. simpl in Hwf. apply andb_true_iff in Hwf as [Hn Hu].
    apply negb_true_iff in Hu. symmetry. now apply strip_undefined_id.
  - unfold prop_read. rewrite Eo. unfold make_prop. f_equal. f_equal.
    apply normal_mk_union. unfold wf_prop in Hwf.
    now apply andb_true_iff in Hwf as [Hn _].
Qed.

Lemma get_prop_Partial_Pick T K k :
  is_union T = false -> wf_object T ->
  (forall k', In k' (key_names K) -> In k' (keys_of T)) ->
  get_prop (Partial (Pick T K)) k =
  if in_dec string_dec k (key_names K)
  then option_map optional_prop (get_prop T k)
  else None.
Proof.
  intros Hat Hwf Hsub. unfold Partial. rewrite get_prop_mapped.
  assert (Hk : forall k', In k' (key_names (keyof (Pick T K))) <-> In k' (key_names K)).
  { intros k'. rewrite key_names_keyof. unfold Pick. now rewrite keys_of_mapped. }
  destruct (in_dec string_dec k (key_names (keyof (Pick T K)))) as [Hin|Hout];
    destruct (in_dec string_dec k (key_names K)) as [Hin'|Hout'];
    try reflexivity; try (apply Hk in Hin; contradiction);
    try (apply Hk in Hin'; contradiction).
  unfold mapped_entry. cbn [snd is_remove andb apply_mod].
  rewrite index_key by reflexivity.
  rewrite get_prop_Pick by assumption.
  destruct (in_dec string_dec k (key_names K)); [|contradiction].
  apply Hsub, get_prop_keys in Hin'.
  destruct (get_prop T k) as [p|] eqn:E; [|congruence].
  cbn [option_map]. f_equal. apply optional_prop_restore. eauto.
Qed.

Lemma get_prop_Optional2 T K k :
  is_union T = false -> wf_object T ->
  normal K = true -> unit_union K = true ->
  (forall k', In k' (key_names K) -> In k' (keys_of T)) ->
  get_prop (Optional2 T K) k =
  if in_dec string_dec k (key_names K)
  then option_map optional_prop (get_prop T k)
  else get_prop T k.
Proof.
  intros Hat Hwf Hn Hu Hsub. unfold Optional2.
  destruct (Pick_is_object T (SetDifference (keyof T) K)) as (o & Eo).
  change (Omit T K = TObject o) in Eo.
  assert (Ep : exists q, Partial (Pick T K) = TObject q)
    by (unfold Partial, mapped; eauto).
  destruct Ep as (q & Eq).
  assert (Go : forall k', get_prop (TObject o) k' =
                          if in_dec string_dec k' (key_names K) then None
                          else get_prop T k').
  { intros k'. rewrite <- Eo, get_prop_Omit by assumption.
    rewrite extends_key_units by assumption.
    destruct (in_dec string_dec k' (key_names K)) as [Hin|Hout].
    - apply In_key_names, existsb_ty_eqb in Hin. now rewrite Hin.
    - destruct (existsb (ty_eqb (TKey k')) (members K)) eqn:E; [|reflexivity].
      apply existsb_ty_eqb, In_key_names in E. contradiction. }
  assert (Gq : forall k', get_prop (TObject q) k' =
                          if in_dec string_dec k' (key_names K)
                          then option_map optional_prop (get_prop T k')
                          else None).
  { intros k'. rewrite <- Eq. now apply get_prop_Partial_Pick. }
  rewrite Eo, Eq. rewrite get_prop_inter_disjoint.
  - rewrite Go, Gq. destruct (in_dec string_dec k (key_names K)); [reflexivity|].
    now destruct (get_prop T k).
  - intros k'. rewrite Go, Gq.
    destruct (in_dec string_dec k' (key_names K)); [congruence|reflexivity].
Qed.

(** X7.  [Optional<T, K>] adds [?] to the properties of [T] whose key is in
    [K] and leaves the others as they are; with [K] left out, every
    property of [T] becomes optional.  Adding [?] keeps the [readonly]
    modifier and stores the type without [undefined]. *)
Theorem Optional_properties
  (ps : list (string * prop ty)) (K : ty)
  (Hwf : wf_props ps = true)
  (HN : normal K = true) (HK : unit_union K = true)
  (Hsub : forall k, In (TKey k) (members K) -> In k (map fst ps)) :
  (forall k, get_prop (Optional2 (TObject ps) K) k =
             if existsb (ty_eqb (TKey k)) (members K)
             then option_map optional_prop (assoc k ps)
             else assoc k ps)
  /\ (forall k, get_prop (Optional (TObject ps)) k =
                option_map optional_prop (assoc k ps)).
Proof.
  pose proof (wf_props_object ps Hwf) as Hw.
  split; intros k.
  - rewrite get_prop_Optional2; try assumption; try reflexivity.
    + cbn [get_prop].
      destruct (in_dec string_dec k (key_names K)) as [Hin|Hout].
      * apply In_key_names, existsb_ty_eqb in Hin. now rewrite Hin.
      * destruct (existsb (ty_eqb (TKey k)) (members K)) eqn:E; [|reflexivity].
        apply existsb_ty_eqb, In_key_names in E. contradiction.
    + intros k' Hk'. apply In_key_names in Hk'. cbn [keys_of]. auto.
  - unfold Optional. rewrite get_prop_Optional2; try assumption; try reflexivity.
    + cbn [get_prop].
      destruct (in_dec string_dec k (key_names (keyof (TObject ps)))) as [Hin|Hout];
        [reflexivity|].
      destruct (assoc k ps) eqn:G; [|reflexivity].
      exfalso. apply Hout, key_names_keyof. cbn [keys_of].
      apply assoc_In in G. now apply (in_map fst) in G.
    + apply mk_union_normal.
    + apply unit_union_keyof.
    + intros k'. apply key_names_keyof.
Qed.

Lemma Optional_properties_witness :
  (forall k, get_prop (Optional2 Props (TKey "age")) k =
             if existsb (ty_eqb (TKey k)) (members (TKey "age"))
             then option_map optional_prop (assoc k Props_list)
             else assoc k Props_list)
  /\ (forall k, get_prop (Optional Props) k =
                option_map optional_prop (assoc k Props_list)).
Proof.
  apply (Optional_properties Props_list (TKey "age") eq_refl eq_refl eq_refl).
  intros k [E|[]]. inversion E. simpl. auto.
Defined.

(** ** Properties selected by their value *)

(** Reading the property that a mapped type stores for a template that
    selects the key or [never]. *)
Lemma members_read_select (r o b c : bool) k m :
  In m (members (prop_read
                   (make_prop r o (if b then strip_undefined (if c then TKey k else TNever)
                                   else if c then TKey k else TNever))))
  <-> (c = true /\ m = TKey k) \/ (o = true /\ m = TUndefined).
Proof.
  rewrite strip_undefined_select. replace (if b then _ else _)
    with (if c then TKey k else TNever) by (now destruct b).
  unfold make_prop, prop_read. cbn [p_optional p_type].
  destruct o.
  - rewrite strip_undefined_select. destruct c; cbn.
    + intuition (try congruence; auto).
    + intuition (try congruence; auto).
  - destruct c; cbn; intuition (try congruence; auto).
Qed.

(** The keys selected by [{ [K in keyof T]: C<K> ? K : never }[keyof T]],
    whatever the modifiers of the mapped type. *)
Lemma key_names_key_select ro opt T (c : string -> bool) k :
  In k (key_names (index (mapped ro opt T (keyof T)
                            (fun k => if c k then TKey k else TNever))
                         (keyof T)))
  <-> In k (keys_of T) /\ c k = true.
Proof.
  rewrite In_key_names.
  set (M := mapped ro opt T (keyof T) (fun k => if c k then TKey k else TNever)).
  assert (Hat : forall k' m, In k' (keys_of T) ->
            (In m (members (index_atom M (TKey k'))) <->
             (c k' = true /\ m = TKey k')
             \/ (apply_mod opt (optional_key T k') = true /\ m = TUndefined))).
  { intros k' m Hk. unfold index_atom, TKey. fold (TKey k'). unfold M.
    rewrite get_prop_mapped.
    destruct (in_dec string_dec k' (key_names (keyof T))) as [_|Hn];
      [|exfalso; apply Hn; now apply key_names_keyof].
    unfold mapped_entry. cbn [snd]. rewrite members_read_select.
    unfold optional_key. reflexivity. }
  unfold index. replace (members M) with [M] by reflexivity.
  cbn [flat_map]. rewrite app_nil_r, In_members_mk_union.
  assert (G : In (TKey k) (flat_map members (map (index_atom M) (members (keyof T))))
              <-> In k (keys_of T) /\ c k = true).
  { rewrite in_flat_map. split.
    - intros (x & Hx & Hm). apply in_map_iff in Hx as (y & <- & Hy).
      apply members_keyof in Hy as (k' & -> & Hk).
      apply Hat in Hm; [|assumption].
      destruct Hm as [[Hc E]|[_ E]]; [|discriminate].
      inversion E; subst. auto.
    - intros [Hk Hc]. exists (index_atom M (TKey k)). split.
      + apply in_map. apply members_keyof. eauto.
      + apply Hat; auto. }
  rewrite G. split; [tauto|]. intros H. split; [assumption|].
  apply absorbed_units. intros x Hx. apply in_flat_map in Hx as (y & Hy & Hx).
  apply in_map_iff in Hy as (z & <- & Hz).
  apply members_keyof in Hz as (k' & -> & Hk).
  apply Hat in Hx; [|assumption].
  destruct Hx as [[_ ->]|[_ ->]]; reflexivity.
Qed.

(** The properties that [Pick] keeps for such a selection of keys. *)
Lemma get_prop_Pick_select T (c : string -> bool) k :
  is_union T = false -> wf_object T ->
  get_prop (Pick T (index (mapped Keep Keep T (keyof T)
                             (fun k => if c k then TKey k else TNever))
                          (keyof T))) k =
  if c k then get_prop T k else None.
Proof.
  intros Hat Hwf. rewrite get_prop_Pick; try assumption.
  - destruct (in_dec string_dec k _) as [Hin|Hout].
    + apply key_names_key_select in Hin as [_ ->]. reflexivity.
    + destruct (c k) eqn:E; [|reflexivity].
      destruct (get_prop T k) eqn:G; [|reflexivity].
      exfalso. apply Hout, key_names_key_select. split; [|assumption].
      apply get_prop_keys. congruence.
  - intros k' Hk'. now apply key_names_key_select in Hk'.
Qed.

Lemma Pick_select_ext T (c : string -> bool) (A : string -> ty) :
  (forall k, A k = if c k then TKey k else TNever) ->
  Pick T (index (mapped Keep Keep T (keyof T) A) (keyof T)) =
  Pick T (index (mapped Keep Keep T (keyof T)
                   (fun k => if c k then TKey k else TNever)) (keyof T)).
Proof.
  intros H. f_equal. unfold mapped. do 2 f_equal. apply map_ext. intros k. now rewrite H.
Qed.

Lemma get_prop_PickByValue T V k :
  is_union T = false -> wf_object T ->
  get_prop (PickByValue T V) k = if value_extends T V k then get_prop T k else None.
Proof. intros Hat Hwf. now apply (get_prop_Pick_select (value_extends T V)). Qed.

Lemma get_prop_OmitByValue T V k :
  is_union T = false -> wf_object T ->
  get_prop (OmitByValue T V) k = if value_extends T V k then None else get_prop T k.
Proof.
  intros Hat Hwf. unfold OmitByValue.
  rewrite (@Pick_select_ext T (fun k => negb (value_extends T V k)))
    by (intros k'; unfold value_extends; now destruct (extends _ V)).
  rewrite get_prop_Pick_select by assumption.
  now destruct (value_extends T V k).
Qed.

Lemma get_prop_PickByValueExact T V k :
  is_union T = false -> wf_object T ->
  get_prop (PickByValueExact T V) k = if value_exact T V k then get_prop T k else None.
Proof.
  intros Hat Hwf. unfold PickByValueExact.
  rewrite (@Pick_select_ext T (value_exact T V))
    by (intros k'; unfold value_exact;
        now destruct (extends V _), (extends _ V)).
  now apply get_prop_Pick_select.
Qed.

Lemma get_prop_OmitByValueExact T V k :
  is_union T = false -> wf_object T ->
  get_prop (OmitByValueExact T V) k = if value_exact T V k then None else get_prop T k.
Proof.
  intros Hat Hwf. unfold OmitByValueExact.
  rewrite (@Pick_select_ext T (fun k => negb (value_exact T V k)))
    by (intros k'; unfold value_exact;
        now destruct (extends V _), (extends _ V)).
  rewrite get_prop_Pick_select by assumption.
  now destruct (value_exact T V k).
Qed.

(** X8.  [PickByValue<T, V>] and [OmitByValue<T, V>] split the properties of
    [T] by the test [T[K] extends V]: a property that passes is in
    [PickByValue] only, one that fails is in [OmitByValue] only, each as it
    is in [T].  The test reads the property, so an optional property is
    tested with [undefined] in its type. *)
Theorem PickByValue_OmitByValue_split
  (ps : list (string * prop ty)) (V : ty) (Hwf : wf_props ps = true) :
  (forall k, get_prop (PickByValue (TObject ps) V) k =
             if extends (index (TObject ps) (TKey k)) V then assoc k ps else None)
  /\ (forall k, get_prop (OmitByValue (TObject ps) V) k =
                if extends (index (TObject ps) (TKey k)) V then None else assoc k ps)
  /\ (forall k p, assoc k ps = Some p ->
                  index (TObject ps) (TKey k) = prop_read p).
Proof.
  pose proof (wf_props_object ps Hwf) as Hw.
  split; [|split].
  - intros k. now apply get_prop_PickByValue.
  - intros k. now apply get_prop_OmitByValue.
  - intros k p Hp. rewrite index_key by reflexivity. cbn [get_prop]. rewrite Hp.
    apply normal_mk_union.
    assert (Hp' : wf_prop p = true) by (apply (Hw k); exact Hp).
    unfold wf_prop in Hp'. apply andb_true_iff in Hp' as [Hn _].
    unfold prop_read. destruct (p_optional p); [apply mk_union_normal|assumption].
Qed.

Lemma PickByValue_OmitByValue_split_witness :
  (forall k, get_prop (PickByValue ValueProps TNumber) k =
             if extends (index ValueProps (TKey k)) TNumber
             then get_prop ValueProps k else None)
  /\ (forall k, get_prop (OmitByValue ValueProps TNumber) k =
                if extends (index ValueProps (TKey k)) TNumber
                then None else get_prop ValueProps k)
  /\ (forall k p, get_prop ValueProps k = Some p ->
                  index ValueProps (TKey k) = prop_read p).
Proof.
  exact (PickByValue_OmitByValue_split
           [("req", mkProp false false TNumber);
            ("reqUndef", mkProp false false (mk_union [TNumber; TUndefined]));
            ("opt", mkProp false true TString)] TNumber eq_refl).
Defined.

(** X9.  The exact variants test both directions, [V extends T[K]] and
    [T[K] extends V]: they split the properties of [T] as the plain variants
    do, every property that [PickByValueExact] keeps is one that
    [PickByValue] keeps, and every property that [OmitByValue] keeps is one
    that [OmitByValueExact] keeps. *)
Theorem PickByValueExact_OmitByValueExact_split
  (ps : list (string * prop ty)) (V : ty) (Hwf : wf_props ps = true) :
  (forall k, get_prop (PickByValueExact (TObject ps) V) k =
             if extends V (index (TObject ps) (TKey k))
                && extends (index (TObject ps) (TKey k)) V
             then assoc k ps else None)
  /\ (forall k, get_prop (OmitByValueExact (TObject ps) V) k =
                if extends V (index (TObject ps) (TKey k))
                   && extends (index (TObject ps) (TKey k)) V
                then None else assoc k ps)
  /\ (forall k p, get_prop (PickByValueExact (TObject ps) V) k = Some p ->
                  get_prop (PickByValue (TObject ps) V) k = Some p)
  /\ (forall k p, get_prop (OmitByValue (TObject ps) V) k = Some p ->
                  get_prop (OmitByValueExact (TObject ps) V) k = Some p).
Proof.
  pose proof (wf_props_object ps Hwf) as Hw.
  split; [|split; [|split]].
  - intros k. now apply get_prop_PickByValueExact.
  - intros k. now apply get_prop_OmitByValueExact.
  - intros k p. rewrite get_prop_PickByValueExact, get_prop_PickByValue
      by (reflexivity || assumption).
    unfold value_exact, value_extends.
    destruct (extends V _); [|discriminate]. now destruct (extends _ V).
  - intros k p. rewrite get_prop_OmitByValueExact, get_prop_OmitByValue
      by (reflexivity || assumption).
    unfold value_exact, value_extends.
    destruct (extends _ V); [discriminate|]. now rewrite andb_false_r.
Qed.

Lemma PickByValueExact_OmitByValueExact_split_witness :
  (forall k, get_prop (PickByValueExact ValueProps TNumber) k =
             if extends TNumber (index ValueProps (TKey k))
                && extends (index ValueProps (TKey k)) TNumber
             then get_prop ValueProps k else None)
  /\ (forall k, get_prop (OmitByValueExact ValueProps TNumber) k =
                if extends TNumber (index ValueProps (TKey k))
                   && extends (index ValueProps (TKey k)) TNumber
                then None else get_prop ValueProps k)
  /\ (forall k p, get_prop (PickByValueExact ValueProps TNumber) k = Some p ->
                  get_prop (PickByValue ValueProps TNumber) k = Some p)
  /\ (forall k p, get_prop (OmitByValue ValueProps TNumber) k = Some p ->
                  get_prop (OmitByValueExact ValueProps TNumber) k = Some p).
Proof.
  exact (PickByValueExact_OmitByValueExact_split
           [("req", mkProp false false TNumber);
            ("reqUndef", mkProp false false (mk_union [TNumber; TUndefined]));
            ("opt", mkProp false true TString)] TNumber eq_refl).
Defined.

(** ** Unionize, SetComplement, NonUndefined and Brand *)

Lemma single_prop_object T k p :
  is_union T = false -> wf_object T -> get_prop T k = Some p ->
  single_prop Keep T k = TObject [(k, p)].
Proof.
  intros Hat Hwf Hp. unfold single_prop, mapped.
  cbn [key_names members flat_map app map TKey]. fold (TKey k).
  unfold mapped_entry. rewrite Hp. cbn [is_remove andb apply_mod].
  rewrite index_key, Hp by assumption.
  rewrite wf_prop_restore by eauto. reflexivity.
Qed.

Lemma members_read_object r o ps m :
  In m (members (prop_read (make_prop r o (TObject ps))))
  <-> m = TObject ps \/ (o = true /\ m = TUndefined).
Proof.
  unfold make_prop, prop_read. cbn [p_optional p_type].
  destruct o.
  - replace (strip_undefined (TObject ps)) with (TObject ps) by reflexivity.
    rewrite members_union2. cbn [members app In]. split.
    + intros [[<-|[<-|[]]] _]; auto.
    + intros [->|[_ ->]]; auto.
  - cbn. intuition congruence.
Qed.

(** The constituents of [Unionize<T>]. *)
Lemma members_Unionize
  (ps : list (string * prop ty)) (Hwf : wf_props ps = true) :
  forall m,
    In m (members (Unionize (TObject ps))) <->
    (exists k p, assoc k ps = Some p /\ m = TObject [(k, p)])
    \/ (m = TUndefined /\ exists k p, assoc k ps = Some p /\ p_optional p = true).
Proof.
  pose proof (wf_props_object ps Hwf) as Hw. set (T := TObject ps) in *.
  set (M := mapped Keep Keep T (keyof T) (fun k => single_prop Keep T k)).
  assert (Hat : forall k p x, get_prop T k = Some p ->
            (In x (members (index_atom M (TKey k))) <->
             x = TObject [(k, p)] \/ (p_optional p = true /\ x = TUndefined))).
  { intros k p x Hp. unfold index_atom, TKey. fold (TKey k). unfold M.
    rewrite get_prop_mapped.
    destruct (in_dec string_dec k (key_names (keyof T))) as [_|Hn].
    - unfold mapped_entry. cbn [snd is_remove andb apply_mod]. rewrite Hp.
      rewrite (@single_prop_object T k p eq_refl Hw Hp).
      apply members_read_object.
    - exfalso. apply Hn, key_names_keyof, get_prop_keys. congruence. }
  intros m. unfold Unionize. fold T. fold M.
  unfold index. replace (members M) with [M] by reflexivity.
  cbn [flat_map]. rewrite app_nil_r, In_members_mk_union.
  assert (G : In m (flat_map members (map (index_atom M) (members (keyof T))))
              <-> (exists k p, assoc k ps = Some p /\ m = TObject [(k, p)])
                  \/ (m = TUndefined
                      /\ exists k p, assoc k ps = Some p /\ p_optional p = true)).
  { rewrite in_flat_map. split.
    - intros (x & Hx & Hm). apply in_map_iff in Hx as (y & <- & Hy).
      apply members_keyof in Hy as (k & -> & Hk).
      apply get_prop_keys in Hk. destruct (get_prop T k) as [p|] eqn:Hp; [|congruence].
      apply (Hat k p) in Hm; [|assumption].
      unfold T in Hp. cbn [get_prop] in Hp.
      destruct Hm as [->|[Ho ->]]; [left|right]; eauto.
    - intros [(k & p & Hp & ->)|(-> & k & p & Hp & Ho)];
        exists (index_atom M (TKey k)); (split;
          [apply in_map, members_keyof; exists k; split; [reflexivity|];
           apply get_prop_keys; unfold T; cbn [get_prop]; congruence
          |apply (Hat k p); auto]). }
  rewrite G. split; [tauto|]. intros H. split; [assumption|].
  destruct H as [(k & p & _ & ->)|[-> _]]; reflexivity.
Qed.

(** X10.  [Unionize<T>] is the union of the single-property object types of
    [T], one per key, each holding the property as it is in [T]; when some
    property of [T] is optional, reading it adds [undefined] to the
    union. *)
Theorem Unionize_constituents
  (ps : list (string * prop ty)) (Hwf : wf_props ps = true) :
  forall m,
    In m (members (Unionize (TObject ps))) <->
    (exists k p, assoc k ps = Some p /\ m = TObject [(k, p)])
    \/ (m = TUndefined /\ exists k p, assoc k ps = Some p /\ p_optional p = true).
Proof. exact (members_Unionize ps Hwf). Qed.

Lemma Unionize_constituents_witness :
  In TUndefined (members (Unionize ValueProps)) <->
  (exists k p, get_prop ValueProps k = Some p /\ TUndefined = TObject [(k, p)])
  \/ (TUndefined = TUndefined
      /\ exists k p, get_prop ValueProps k = Some p /\ p_optional p = true).
Proof.
  exact (Unionize_constituents
           [("req", mkProp false false TNumber);
            ("reqUndef", mkProp false false (mk_union [TNumber; TUndefined]));
            ("opt", mkProp false true TString)] eq_refl TUndefined).
Defined.

(** A selection that keeps every constituent, or none. *)
Lemma cond_dist_select_all (c : ty -> bool) A :
  normal A = true -> (forall m, In m (members A) -> c m = true) ->
  cond_dist (fun a => if c a then a else TNever) A = A.
Proof.
  intros Hn Hc. unfold cond_dist.
  rewrite (map_ext_in _ (fun a => a)), map_id.
  - now apply normal_members.
  - intros a Ha. now rewrite Hc.
Qed.

Lemma cond_dist_select_none (c : ty -> bool) A :
  (forall m, In m (members A) -> c m = false) ->
  cond_dist (fun a => if c a then a else TNever) A = TNever.
Proof.
  intros Hc.
  pose proof (normal_members _ (mk_union_normal
                (map (fun a => if c a then a else TNever) (members A)))) as (_ & _ & E).
  fold (cond_dist (fun a => if c a then a else TNever) A) in E.
  rewrite <- E.
  destruct (members (cond_dist (fun a => if c a then a else TNever) A)) as [|m r] eqn:Em;
    [reflexivity|].
  assert (Hm : In m (members (cond_dist (fun a => if c a then a else TNever) A)))
    by (rewrite Em; now left).
  apply members_select in Hm as [Hm _]. apply filter_In in Hm as [Hm Hcm].
  rewrite Hc in Hcm by assumption. discriminate.
Qed.

(** A selection applied twice selects the same constituents. *)
Lemma cond_dist_select_idem (c : ty -> bool) A :
  cond_dist (fun a => if c a then a else TNever)
            (cond_dist (fun a => if c a then a else TNever) A)
  = cond_dist (fun a => if c a then a else TNever) A.
Proof.
  apply cond_dist_select_all.
  - apply mk_union_normal.
  - intros m Hm. apply members_select in Hm as [Hm _].
    now apply filter_In in Hm.
Qed.

Lemma extends_unit_refl m : is_unit m = true -> extends m m = true.
Proof. destruct m as [| | |[s|n|b]| | | | | | | |]; try discriminate; intros _; cbn;
  try reflexivity; [apply String.eqb_refl|apply Z.eqb_refl|now destruct b]. Qed.

(** X11.  For unions of unit types with [A1] inside [A], [SetComplement<A, A1>]
    is the complement of [A1] in [A]: joined with [A1] it gives back [A], it
    shares no constituent with [A1], the complement of [A] is [never] and
    the complement of [never] is [A]. *)
Theorem SetComplement_complement
  (A A1 : ty)
  (HA : normal A = true) (HA1 : normal A1 = true)
  (HAu : unit_union A = true) (HA1u : unit_union A1 = true)
  (Hsub : forall m, In m (members A1) -> In m (members A)) :
  same_type (union2 (SetComplement A A1) A1) A
  /\ (forall m, ~ (In m (members (SetComplement A A1)) /\ In m (members A1)))
  /\ SetComplement A A = TNever
  /\ SetComplement A TNever = A.
Proof.
  assert (Hu : forall m, In m (members A) -> is_unit m = true).
  { unfold unit_union in HAu. now rewrite forallb_forall in HAu. }
  assert (D : forall m, In m (members (SetComplement A A1)) <->
                        In m (members A) /\ ~ In m (members A1)).
  { intros m. unfold SetComplement. rewrite members_SetDifference by assumption.
    split; intros [Hm He]; (split; [assumption|]).
    - intros Hin. apply extends_unit_normal in Hin; auto. congruence.
    - destruct (extends m A1) eqn:E; [|reflexivity].
      apply extends_unit_normal in E; auto. contradiction. }
  split; [|split; [|split]].
  - intros m. rewrite members_union2, in_app_iff, D. split.
    + intros [[[Hm _]|Hm] _]; auto.
    + intros Hm. split.
      * destruct (existsb (ty_eqb m) (members A1)) eqn:E.
        -- right. now apply existsb_ty_eqb.
        -- left. split; [assumption|]. intros Hin.
           apply existsb_ty_eqb in Hin. congruence.
      * apply absorbed_units. intros x Hx.
        apply in_app_iff in Hx as [Hx|Hx]; [apply D in Hx as [Hx _]|]; auto.
  - intros m [Hm Hin]. apply D in Hm. tauto.
  - unfold SetComplement. rewrite SetDifference_select.
    apply cond_dist_select_none. intros m Hm. apply negb_false_iff.
    apply extends_unit_normal; auto.
  - unfold SetComplement. rewrite SetDifference_select.
    apply cond_dist_select_all; [assumption|]. intros m Hm.
    apply negb_true_iff.
    destruct (extends m TNever) eqn:E; [|reflexivity].
    apply extends_unit_normal in E; auto. destruct E.
Qed.

Lemma SetComplement_complement_witness :
  same_type (union2 (SetComplement keys_123 (TKey "1")) (TKey "1")) keys_123
  /\ (forall m, ~ (In m (members (SetComplement keys_123 (TKey "1")))
                   /\ In m (members (TKey "1"))))
  /\ SetComplement keys_123 keys_123 = TNever
  /\ SetComplement keys_123 TNever = keys_123.
Proof.
  apply (@SetComplement_complement keys_123 (TKey "1") eq_refl eq_refl eq_refl eq_refl).
  intros m [<-|[]]. simpl. auto.
Defined.

Lemma NonUndefined_select A :
  NonUndefined A =
  cond_dist (fun a => if negb (extends a TUndefined) then a else TNever) A.
Proof.
  unfold NonUndefined, cond_dist. f_equal. apply map_ext. intros a.
  now destruct (extends a TUndefined).
Qed.

Lemma NonUndefined_no_undefined A : ~ In TUndefined (members (NonUndefined A)).
Proof.
  rewrite NonUndefined_select. intros H.
  apply members_select in H as [H _]. apply filter_In in H as [_ H].
  discriminate.
Qed.

Lemma members_NonUndefined A m :
  normal A = true ->
  In m (members (NonUndefined A)) <-> In m (members A) /\ extends m TUndefined = false.
Proof.
  intros Hn. rewrite NonUndefined_select, members_select_reduced.
  - now rewrite negb_true_iff.
  - now apply normal_members.
Qed.

(** X12.  [NonUndefined<A>] keeps the constituents of [A] that are not
    assignable to [undefined]: its result never lists [undefined], applying
    it twice changes nothing more, and it undoes the addition of
    [undefined] to a type. *)
Theorem NonUndefined_removes_undefined (A : ty) (HA : normal A = true) :
  (forall m, In m (members (NonUndefined A)) <->
             In m (members A) /\ extends m TUndefined = false)
  /\ ~ In TUndefined (members (NonUndefined A))
  /\ NonUndefined (NonUndefined A) = NonUndefined A
  /\ same_type (NonUndefined (union2 A TUndefined)) (NonUndefined A).
Proof.
  split; [|split; [|split]].
  - intros m. now apply members_NonUndefined.
  - apply NonUndefined_no_undefined.
  - rewrite !NonUndefined_select. apply cond_dist_select_idem.
  - intros m. rewrite !members_NonUndefined by (apply mk_union_normal || assumption).
    rewrite members_union2, in_app_iff. split.
    + intros [[[Hm|[<-|[]]] _] He]; [auto|discriminate].
    + intros [Hm He]. split; [split; [auto|]|assumption].
      unfold absorbed. destruct m as [| | |[s|n|b]| | | | | | | |]; try reflexivity;
        rewrite existsb_app, orb_false_r;
        apply (@normal_reduced A _ HA Hm).
Qed.

Lemma NonUndefined_removes_undefined_witness :
  (forall m, In m (members (NonUndefined (union2 TString TUndefined))) <->
             In m (members (union2 TString TUndefined)) /\ extends m TUndefined = false)
  /\ ~ In TUndefined (members (NonUndefined (union2 TString TUndefined)))
  /\ NonUndefined (NonUndefined (union2 TString TUndefined))
     = NonUndefined (union2 TString TUndefined)
  /\ same_type (NonUndefined (union2 (union2 TString TUndefined) TUndefined))
               (NonUndefined (union2 TString TUndefined)).
Proof.
  exact (@NonUndefined_removes_undefined (union2 TString TUndefined) eq_refl).
Defined.

(** X13.  [Brand<T, U>] over a primitive [T] is nominal: a branded value is
    still a [T], a plain [T] is not branded, and two brands of [T] are
    assignable to each other exactly when their tags are the same
    literal. *)
Theorem Brand_nominal (p : prim) (u v : string) :
  extends (Brand (TPrim p) (TKey u)) (TPrim p) = true
  /\ extends (TPrim p) (Brand (TPrim p) (TKey u)) = false
  /\ extends (Brand (TPrim p) (TKey u)) (Brand (TPrim p) (TKey v)) = String.eqb u v.
Proof.
  assert (E : forall w, Brand (TPrim p) (TKey w) =
                        TInter (TPrim p) (TObject [("__brand", mkProp false false (TKey w))])).
  { intros w. destruct p; reflexivity. }
  rewrite !E. split; [|split].
  - destruct p; reflexivity.
  - destruct p; reflexivity.
  - destruct p; cbn; rewrite ?andb_true_r; reflexivity.
Qed.

(** ** Modifiers at every depth *)

(** A predicate that holds of a union when it holds of its constituents is
    kept by union construction and by the removal of constituents. *)
Section union_closed.
Variable Q : ty -> bool.
Hypothesis Q_union : forall ms, Q (TUnion ms) = forallb Q ms.

Lemma closed_members t : Q t = forallb Q (members t).
Proof.
  induction t using ty_nested_ind; try (cbn [members forallb]; now rewrite andb_true_r).
  rewrite Q_union. cbn [members].
  induction ms as [|x r IH]; [reflexivity|].
  inversion H as [|? ? Hx Hr]; subst.
  cbn [flat_map forallb]. rewrite forallb_app, <- Hx, IH by assumption. reflexivity.
Qed.

Lemma closed_subset t t' :
  (forall m, In m (members t') -> In m (members t)) -> Q t = true -> Q t' = true.
Proof.
  intros Hsub. rewrite (closed_members t), (closed_members t'), !forallb_forall.
  auto.
Qed.

Lemma closed_mk_union l : (forall x, In x l -> Q x = true) -> Q (mk_union l) = true.
Proof.
  intros H. rewrite closed_members, forallb_forall. intros m Hm.
  apply In_members_mk_union in Hm as [Hm _].
  apply in_flat_map in Hm as (x & Hx & Hm).
  specialize (H x Hx). rewrite closed_members, forallb_forall in H. auto.
Qed.

Lemma closed_strip_undefined t : Q t = true -> Q (strip_undefined t) = true.
Proof. apply closed_subset. apply members_strip_undefined. Qed.

Lemma closed_cond_dist_opt branch T R :
  cond_dist_opt branch T = Some R ->
  (forall t r, In t (members T) -> branch t = Some r -> Q r = true) ->
  Q R = true.
Proof.
  unfold cond_dist_opt. intros E H.
  destruct (mapM branch (members T)) as [rs|] eqn:Em; [|discriminate].
  injection E as <-. apply closed_mk_union. intros r Hr.
  apply mapM_Forall2 in Em.
  destruct (@Forall2_In_r _ _ _ _ _ r Em Hr) as (t & Ht & Hb). eauto.
Qed.
End union_closed.

(** The constituents that a distributed conditional produces come from the
    constituents of its branches. *)
Lemma members_cond_dist_opt branch T R m :
  cond_dist_opt branch T = Some R -> In m (members R) ->
  exists t r, In t (members T) /\ branch t = Some r /\ In m (members r).
Proof.
  unfold cond_dist_opt. intros E Hm.
  destruct (mapM branch (members T)) as [rs|] eqn:Em; [|discriminate].
  injection E as <-. apply In_members_mk_union in Hm as [Hm _].
  apply in_flat_map in Hm as (r & Hr & Hm).
  apply mapM_Forall2 in Em.
  destruct (@Forall2_In_r _ _ _ _ _ r Em Hr) as (t & Ht & Hb). eauto.
Qed.

(** The results of a homomorphic mapped type over one constituent. *)
Lemma mapped_keyof_opt_cases ro opt T F R :
  mapped_keyof_opt ro opt T F = Some R ->
  (exists r, F TNumber = Some r
             /\ (R = mapped_array ro opt false r \/ R = mapped_array ro opt true r))
  \/ (exists es, R = TObject es
                 /\ forall e, In e es ->
                      exists k r, F (TKey k) = Some r /\ e = mapped_entry ro opt T k r)
  \/ (R = T /\ match T with
               | TArray _ | TReadonlyArray _ | TObject _ | TInter _ _ => False
               | _ => True
               end).
Proof.
  assert (Hm : mapped_opt ro opt T (keyof T) (fun k => F (TKey k)) = Some R ->
               exists es, R = TObject es
                 /\ forall e, In e es ->
                      exists k r, F (TKey k) = Some r /\ e = mapped_entry ro opt T k r).
  { unfold mapped_opt. intros E.
    destruct (mapM _ (key_names (keyof T))) as [es|] eqn:Em; [|discriminate].
    injection E as <-. exists es. split; [reflexivity|]. intros e He.
    apply mapM_Forall2 in Em.
    destruct (@Forall2_In_r _ _ _ _ _ e Em He) as (k & _ & Hk).
    destruct (F (TKey k)) as [r|] eqn:EF; [|discriminate].
    injection Hk as <-. eauto. }
  destruct T; cbn [mapped_keyof_opt]; intros E;
    try (right; right; injection E as <-; now split).
  - left. destruct (F TNumber) as [r|]; [|discriminate]. injection E as <-.
    exists r. split; [reflexivity|]. now left.
  - left. destruct (F TNumber) as [r|]; [|discriminate]. injection E as <-.
    exists r. split; [reflexivity|]. now right.
  - right. left. auto.
  - right. left. auto.
Qed.

Lemma mapped_array_cases ro opt b t :
  exists e, (mapped_array ro opt b t = TArray e \/ mapped_array ro opt b t = TReadonlyArray e)
            /\ e = match opt with
                   | Keep => t
                   | Add => union2 t TUndefined
                   | Remove => strip_undefined t
                   end.
Proof.
  unfold mapped_array. destruct (apply_mod ro b); eauto.
Qed.

(** An intersection other than the interface [_DeepReadonlyArray] is a
    leaf. *)
Lemma deep_readonly_inter a b :
  extends_any_function (TInter a b) = true \/ extends_object (TInter a b) = false ->
  deep_readonly (TInter a b) = true.
Proof.
  intros H. destruct a; try reflexivity.
  destruct b as [| | | | | | | | |[|kp ps]| |]; try reflexivity.
  destruct H as [H|H]; discriminate.
Qed.

Lemma deep_readonly_at rec t r :
  (forall X R, rec X = Some R -> deep_readonly R = true) ->
  is_union t = false ->
  DeepReadonly_at rec t = Some r -> deep_readonly r = true.
Proof.
  intros IH Hat. unfold DeepReadonly_at.
  destruct (extends_any_function t) eqn:Ef.
  { intros E. injection E as <-.
    destruct t; try discriminate; try reflexivity.
    apply deep_readonly_inter. now left. }
  destruct (extends_any_array t) eqn:Ea.
  { unfold _DeepReadonlyArray. intros E.
    destruct (rec (index t TNumber)) as [r'|] eqn:Er; [|discriminate].
    injection E as <-. cbn. eauto. }
  destruct (extends_object t) eqn:Eo.
  - unfold _DeepReadonlyObject. intros E.
    apply mapped_keyof_opt_cases in E
      as [(r' & Hr & [->| ->])|[(es & -> & Hes)|[-> Ht]]].
    + cbn. eauto.
    + cbn. eauto.
    + cbn [deep_readonly]. apply forallb_forall. intros e He.
      destruct (Hes e He) as (k & r' & Hr & ->).
      unfold mapped_entry. cbn [snd make_prop p_readonly p_type apply_mod is_remove andb].
      apply IH in Hr.
      destruct (match get_prop t k with Some p => p_optional p | None => false end);
        [now apply closed_strip_undefined|assumption].
    + destruct t; try destruct Ht; try discriminate; reflexivity.
  - intros E. injection E as <-.
    destruct t; try discriminate; try reflexivity.
    apply deep_readonly_inter. now right.
Qed.

Lemma deep_readonly_unfold n :
  forall T R, DeepReadonly_f n T = Some R -> deep_readonly R = true.
Proof.
  induction n as [|n IH]; intros T R E; [discriminate|].
  apply (closed_cond_dist_opt deep_readonly (fun _ => eq_refl) _ _ E).
  intros t r Ht. apply deep_readonly_at; [exact IH|].
  exact (members_not_union _ _ Ht).
Qed.

(** X14.  In [DeepReadonly<T>] every property is [readonly] and no array is
    mutable (an array has become the interface [_DeepReadonlyArray]), at
    every depth (function types, promises and other intersections are not
    entered). *)
Theorem DeepReadonly_deep (T : ty) : deep_readonly (DeepReadonly T) = true.
Proof.
  apply (@deep_readonly_unfold (S (rank T)) T).
  apply (unfold_unfolded DeepReadonly_step_monotone DeepReadonly_step_productive).
  lia.
Qed.

Lemma existsb_false (A : Type) (f : A -> bool) l :
  existsb f l = false <-> forall x, In x l -> f x = false.
Proof.
  split.
  - intros H x Hx. destruct (f x) eqn:E; [|reflexivity].
    assert (existsb f l = true) by (apply existsb_exists; eauto). congruence.
  - intros H. destruct (existsb f l) eqn:E; [|reflexivity].
    apply existsb_exists in E as (x & Hx & Hf). rewrite H in Hf by assumption.
    discriminate.
Qed.

Lemma lists_undefined_strip t : lists_undefined (strip_undefined t) = false.
Proof.
  apply existsb_false. intros m Hm. unfold strip_undefined in Hm.
  apply In_members_mk_union in Hm as [Hm _].
  apply in_flat_map in Hm as (x & Hx & Hm). apply filter_In in Hx as [Hx Hn].
  rewrite (members_atom x (members_not_union _ _ Hx)) in Hm.
  destruct Hm as [<-|[]]. now apply negb_true_iff.
Qed.

Lemma lists_nullish_strip t :
  lists_nullish t = false -> lists_nullish (strip_undefined t) = false.
Proof.
  unfold lists_nullish. rewrite !existsb_false. intros H m Hm.
  apply H. now apply members_strip_undefined.
Qed.

Lemma lists_undefined_NonUndefined A : lists_undefined (NonUndefined A) = false.
Proof.
  apply existsb_false. intros m Hm. destruct m; try reflexivity.
  now apply NonUndefined_no_undefined in Hm.
Qed.

Lemma lists_nullish_NonNullable A : lists_nullish (NonNullable A) = false.
Proof.
  apply existsb_false. intros m Hm. unfold NonNullable in Hm.
  apply members_cond_dist in Hm as [Hm _].
  apply in_flat_map in Hm as (x & Hx & Hm).
  apply in_map_iff in Hx as (t & <- & Ht).
  destruct (extends t (TUnion [TNull; TUndefined])) eqn:E; [destruct Hm|].
  rewrite (members_atom t (members_not_union _ _ Ht)) in Hm.
  destruct Hm as [<-|[]]. destruct t; try reflexivity; discriminate.
Qed.

Lemma deep_required_at rec t r :
  (forall X R, rec X = Some R ->
               deep_required R = true
               /\ (lists_undefined X = false -> lists_undefined R = false)) ->
  is_union t = false ->
  (if extends_any_function t then Some t
   else if extends_any_array t then _DeepRequiredArray rec (index t TNumber)
   else if extends_object t then _DeepRequiredObject rec t
   else Some t) = Some r ->
  deep_required r = true
  /\ (is_undefined t = false -> forall m, In m (members r) -> is_undefined m = false).
Proof.
  intros IH Hat.
  assert (IH' : forall X R, rec (NonUndefined X) = Some R ->
                            deep_required R = true /\ lists_undefined R = false).
  { intros X R E. destruct (IH _ _ E) as [H1 H2]. split; [assumption|].
    apply H2, lists_undefined_NonUndefined. }
  destruct (extends_any_function t) eqn:Ef.
  { intros E. injection E as <-. split.
    - destruct t; try discriminate; reflexivity.
    - intros Hu m Hm. rewrite (members_atom t Hat) in Hm. now destruct Hm as [<-|[]]. }
  destruct (extends_any_array t) eqn:Ea.
  { unfold _DeepRequiredArray. intros E.
    destruct (rec (NonUndefined (index t TNumber))) as [r'|] eqn:Er; [|discriminate].
    injection E as <-. destruct (IH' _ _ Er) as [H1 H2]. split.
    - cbn [deep_required]. now rewrite H1, H2.
    - intros _ m [<-|[]]. reflexivity. }
  destruct (extends_object t) eqn:Eo.
  - unfold _DeepRequiredObject. intros E.
    apply mapped_keyof_opt_cases in E
      as [(r' & Hr & Hcase)|[(es & -> & Hes)|[-> Ht]]].
    + destruct (IH' _ _ Hr) as [H1 H2].
      assert (Hs : deep_required (TArray (strip_undefined r')) = true
                   /\ deep_required (TReadonlyArray (strip_undefined r')) = true).
      { cbn [deep_required]. rewrite lists_undefined_strip.
        rewrite (closed_strip_undefined deep_required (fun _ => eq_refl) _ H1).
        now split. }
      destruct Hcase as [-> | ->]; (split; [apply Hs|intros _ m [<-|[]]; reflexivity]).
    + split; [|intros _ m [<-|[]]; reflexivity].
      cbn [deep_required]. apply forallb_forall. intros e He.
      destruct (Hes e He) as (k & r' & Hr & ->).
      destruct (IH' _ _ Hr) as [H1 H2].
      unfold mapped_entry. cbn [snd make_prop p_optional p_type apply_mod is_remove andb negb].
      destruct (match get_prop t k with Some p => p_optional p | None => false end).
      * rewrite lists_undefined_strip.
        now rewrite (closed_strip_undefined deep_required (fun _ => eq_refl) _ H1).
      * now rewrite H1, H2.
    + split.
      * destruct t; try destruct Ht; try discriminate; reflexivity.
      * intros Hu m Hm. rewrite (members_atom t Hat) in Hm. now destruct Hm as [<-|[]].
  - intros E. injection E as <-. split.
    + destruct t; try discriminate; reflexivity.
    + intros Hu m Hm. rewrite (members_atom t Hat) in Hm. now destruct Hm as [<-|[]].
Qed.

Lemma deep_required_unfold n :
  forall T R, DeepRequired_f n T = Some R ->
              deep_required R = true
              /\ (lists_undefined T = false -> lists_undefined R = false).
Proof.
  induction n as [|n IH]; intros T R E; [discriminate|].
  change (DeepRequired_step (DeepRequired_f n) T = Some R) in E.
  unfold DeepRequired_step in E. split.
  - apply (closed_cond_dist_opt deep_required (fun _ => eq_refl) _ _ E).
    intros t r Ht Hr.
    exact (proj1 (deep_required_at _ _ IH (members_not_union _ _ Ht) Hr)).
  - intros Hc. apply existsb_false. intros m Hm.
    destruct (members_cond_dist_opt _ _ _ E Hm) as (t & r & Ht & Hr & Hmr).
    apply (proj2 (deep_required_at _ _ IH (members_not_union _ _ Ht) Hr)); [|assumption].
    unfold lists_undefined in Hc. rewrite existsb_false in Hc. auto.
Qed.

(** X15.  In [DeepRequired<T>] no property is optional and no property or
    array element type lists [undefined], at every depth (function types,
    promises and intersections are not entered); and when [T] itself does
    not list [undefined], neither does the result. *)
Theorem DeepRequired_deep (T : ty) :
  deep_required (DeepRequired T) = true
  /\ lists_undefined (DeepRequired (NonUndefined T)) = false.
Proof.
  split.
  - apply (@deep_required_unfold (S (rank T)) T).
    apply (unfold_unfolded DeepRequired_step_monotone DeepRequired_step_productive).
    lia.
  - apply (@deep_required_unfold (S (rank (NonUndefined T))) (NonUndefined T)).
    + apply (unfold_unfolded DeepRequired_step_monotone DeepRequired_step_productive).
      lia.
    + apply lists_undefined_NonUndefined.
Qed.

Lemma deep_non_nullable_at rec t r :
  (forall X R, rec X = Some R ->
               deep_non_nullable R = true
               /\ (lists_nullish X = false -> lists_nullish R = false)) ->
  is_union t = false ->
  (if extends_any_function t then Some t
   else if extends_any_array t then _DeepNonNullableArray rec (index t TNumber)
   else if extends_object t then _DeepNonNullableObject rec t
   else Some t) = Some r ->
  deep_non_nullable r = true
  /\ (is_nullish t = false -> forall m, In m (members r) -> is_nullish m = false).
Proof.
  intros IH Hat.
  assert (IH' : forall X R, rec (NonNullable X) = Some R ->
                            deep_non_nullable R = true /\ lists_nullish R = false).
  { intros X R E. destruct (IH _ _ E) as [H1 H2]. split; [assumption|].
    apply H2, lists_nullish_NonNullable. }
  destruct (extends_any_function t) eqn:Ef.
  { intros E. injection E as <-. split.
    - destruct t; try discriminate; reflexivity.
    - intros Hu m Hm. rewrite (members_atom t Hat) in Hm. now destruct Hm as [<-|[]]. }
  destruct (extends_any_array t) eqn:Ea.
  { unfold _DeepNonNullableArray. intros E.
    destruct (rec (NonNullable (index t TNumber))) as [r'|] eqn:Er; [|discriminate].
    injection E as <-. destruct (IH' _ _ Er) as [H1 H2]. split.
    - cbn [deep_non_nullable]. now rewrite H1, H2.
    - intros _ m [<-|[]]. reflexivity. }
  destruct (extends_object t) eqn:Eo.
  - unfold _DeepNonNullableObject. intros E.
    apply mapped_keyof_opt_cases in E
      as [(r' & Hr & Hcase)|[(es & -> & Hes)|[-> Ht]]].
    + destruct (IH' _ _ Hr) as [H1 H2].
      assert (Hs : deep_non_nullable (TArray (strip_undefined r')) = true
                   /\ deep_non_nullable (TReadonlyArray (strip_undefined r')) = true).
      { cbn [deep_non_nullable]. rewrite (lists_nullish_strip _ H2).
        rewrite (closed_strip_undefined deep_non_nullable (fun _ => eq_refl) _ H1).
        now split. }
      destruct Hcase as [-> | ->]; (split; [apply Hs|intros _ m [<-|[]]; reflexivity]).
    + split; [|intros _ m [<-|[]]; reflexivity].
      cbn [deep_non_nullable]. apply forallb_forall. intros e He.
      destruct (Hes e He) as (k & r' & Hr & ->).
      destruct (IH' _ _ Hr) as [H1 H2].
      unfold mapped_entry. cbn [snd make_prop p_optional p_type apply_mod is_remove andb negb].
      destruct (match get_prop t k with Some p => p_optional p | None => false end).
      * rewrite (lists_nullish_strip _ H2).
        now rewrite (closed_strip_undefined deep_non_nullable (fun _ => eq_refl) _ H1).
      * now rewrite H1, H2.
    + split.
      * destruct t; try destruct Ht; try discriminate; reflexivity.
      * intros Hu m Hm. rewrite (members_atom t Hat) in Hm. now destruct Hm as [<-|[]].
  - intros E. injection E as <-. split.
    + destruct t; try discriminate; reflexivity.
    + intros Hu m Hm. rewrite (members_atom t Hat) in Hm. now destruct Hm as [<-|[]].
Qed.

Lemma deep_non_nullable_unfold n :
  forall T R, DeepNonNullable_f n T = Some R ->
              deep_non_nullable R = true
              /\ (lists_nullish T = false -> lists_nullish R = false).
Proof.
  induction n as [|n IH]; intros T R E; [discriminate|].
  change (DeepNonNullable_step (DeepNonNullable_f n) T = Some R) in E.
  unfold DeepNonNullable_step in E. split.
  - apply (closed_cond_dist_opt deep_non_nullable (fun _ => eq_refl) _ _ E).
    intros t r Ht Hr.
    exact (proj1 (deep_non_nullable_at _ _ IH (members_not_union _ _ Ht) Hr)).
  - intros Hc. apply existsb_false. intros m Hm.
    destruct (members_cond_dist_opt _ _ _ E Hm) as (t & r & Ht & Hr & Hmr).
    apply (proj2 (deep_non_nullable_at _ _ IH (members_not_union _ _ Ht) Hr));
      [|assumption].
    unfold lists_nullish in Hc. rewrite existsb_false in Hc. auto.
Qed.

(** X16.  In [DeepNonNullable<T>] no property is optional and no property or
    array element type lists [null] or [undefined], at every depth; and
    when [T] itself lists neither, neither does the result. *)
Theorem DeepNonNullable_deep (T : ty) :
  deep_non_nullable (DeepNonNullable T) = true
  /\ lists_nullish (DeepNonNullable (NonNullable T)) = false.
Proof.
  split.
  - apply (@deep_non_nullable_unfold (S (rank T)) T).
    apply (unfold_unfolded DeepNonNullable_step_monotone DeepNonNullable_step_productive).
    lia.
  - apply (@deep_non_nullable_unfold (S (rank (NonNullable T))) (NonNullable T)).
    + apply (unfold_unfolded DeepNonNullable_step_monotone
               DeepNonNullable_step_productive).
      lia.
    + apply lists_nullish_NonNullable.
Qed.

(** What is assignable to [Function] is a function type, [Function] or an
    intersection. *)
Lemma extends_Function_leaf t :
  is_union t = false -> extends t TFunction = true ->
  match t with TFunction | TFunc _ _ | TInter _ _ => True | _ => False end.
Proof.
  intros Hat. destruct t as [| |p|[s|z|b]| | | | | | | |]; try discriminate; cbn; auto;
    discriminate.
Qed.

Lemma deep_partial_at rec t r :
  (forall X R, rec X = Some R -> deep_partial R = true) ->
  is_union t = false ->
  (if extends t TFunction then Some t
   else match infer_array t with
        | Some U => _DeepPartialArray rec U
        | None =>
            if extends_object t then _DeepPartialObject rec t
            else Some (union2 t TUndefined)
        end) = Some r ->
  deep_partial r = true.
Proof.
  intros IH Hat.
  destruct (extends t TFunction) eqn:Ef.
  { intros E. injection E as <-. apply extends_Function_leaf in Ef; [|assumption].
    destruct t; try destruct Ef; reflexivity. }
  destruct (infer_array t) as [U|] eqn:Ea.
  { unfold _DeepPartialArray. intros E.
    destruct (rec U) as [r'|] eqn:Er; [|discriminate].
    injection E as <-. cbn. eauto. }
  destruct (extends_object t) eqn:Eo.
  - unfold _DeepPartialObject. intros E.
    apply mapped_keyof_opt_cases in E
      as [(r' & Hr & Hcase)|[(es & -> & Hes)|[-> Ht]]].
    + apply IH in Hr.
      assert (Hs : deep_partial (union2 r' TUndefined) = true).
      { apply (closed_mk_union deep_partial (fun _ => eq_refl)).
        intros x [<-|[<-|[]]]; [assumption|reflexivity]. }
      destruct Hcase as [-> | ->]; exact Hs.
    + cbn [deep_partial]. apply forallb_forall. intros e He.
      destruct (Hes e He) as (k & r' & Hr & ->). apply IH in Hr.
      unfold mapped_entry. cbn [snd make_prop p_optional p_type apply_mod is_remove andb].
      now apply (closed_strip_undefined deep_partial (fun _ => eq_refl)).
    + destruct t; try destruct Ht; try discriminate; reflexivity.
  - intros E. injection E as <-.
    apply (closed_mk_union deep_partial (fun _ => eq_refl)).
    intros x [<-|[<-|[]]]; [|reflexivity].
    destruct t; try discriminate; reflexivity.
Qed.

Lemma deep_partial_unfold n :
  forall T R, DeepPartial_f n T = Some R -> deep_partial R = true.
Proof.
  induction n as [|n IH]; intros T R E; [discriminate|].
  change (DeepPartial_step (DeepPartial_f n) T = Some R) in E.
  unfold DeepPartial_step in E.
  apply (closed_cond_dist_opt deep_partial (fun _ => eq_refl) _ _ E).
  intros t r Ht. apply deep_partial_at; [exact IH|].
  exact (members_not_union _ _ Ht).
Qed.

(** X17.  In [DeepPartial<T>] every property is optional, at every depth
    (function types, promises and intersections are not entered). *)
Theorem DeepPartial_deep (T : ty) : deep_partial (DeepPartial T) = true.
Proof.
  apply (@deep_partial_unfold (S (rank T)) T).
  apply (unfold_unfolded DeepPartial_step_monotone DeepPartial_step_productive).
  lia.
Qed.

(** ** Keys and modifiers that the aliases keep *)

(** X18.  After [Optional<T>] every key of [T] is an optional key and none is
    a required key. *)
Theorem Optional_OptionalKeys
  (ps : list (string * prop ty)) (Hwf : wf_props ps = true) :
  (forall k, In (TKey k) (members (OptionalKeys (Optional (TObject ps)))) <->
             In k (map fst ps))
  /\ (forall m, ~ In m (members (RequiredKeys (Optional (TObject ps))))).
Proof.
  pose proof (wf_props_object ps Hwf) as Hw.
  assert (G : forall k, get_prop (Optional (TObject ps)) k =
                        option_map optional_prop (assoc k ps)).
  { intros k. unfold Optional. rewrite get_prop_Optional2; try assumption; try reflexivity.
    - cbn [get_prop].
      destruct (in_dec string_dec k (key_names (keyof (TObject ps)))) as [Hin|Hout];
        [reflexivity|].
      destruct (assoc k ps) eqn:E; [|reflexivity].
      exfalso. apply Hout, key_names_keyof. cbn [keys_of].
      apply assoc_In in E. now apply (in_map fst) in E.
    - apply mk_union_normal.
    - apply unit_union_keyof.
    - intros k'. apply key_names_keyof. }
  assert (K : forall k, In k (keys_of (Optional (TObject ps))) <-> In k (map fst ps)).
  { intros k. split; intros Hk.
    - apply get_prop_keys in Hk. rewrite G in Hk.
      destruct (assoc k ps) eqn:E; [|cbn in Hk; congruence].
      apply assoc_In in E. now apply (in_map fst) in E.
    - apply get_prop_keys. rewrite G.
      destruct (assoc k ps) eqn:E; [cbn; congruence|].
      apply assoc_None in E. contradiction. }
  assert (O : forall k, In k (keys_of (Optional (TObject ps))) ->
                        optional_key (Optional (TObject ps)) k = true).
  { intros k Hk. unfold optional_key. rewrite G.
    apply K in Hk. destruct (assoc k ps) eqn:E; [reflexivity|].
    apply assoc_None in E. contradiction. }
  split.
  - intros k. unfold OptionalKeys.
    rewrite (members_key_select (Optional (TObject ps))
               (fun k => extends (TObject []) (Pick (Optional (TObject ps)) (TKey k)))).
    rewrite <- K. split.
    + intros (k' & E & Hk & _). inversion E; subst. exact Hk.
    + intros Hk. exists k. rewrite extends_empty_Pick. auto.
  - intros m. unfold RequiredKeys.
    rewrite (@key_select_negb (Optional (TObject ps))
               (fun k => extends (TObject []) (Pick (Optional (TObject ps)) (TKey k))))
      by reflexivity.
    rewrite (members_key_select (Optional (TObject ps))
               (fun k => negb (extends (TObject [])
                                 (Pick (Optional (TObject ps)) (TKey k))))).
    intros (k & _ & Hk & Hc). rewrite extends_empty_Pick, (O k Hk) in Hc.
    discriminate.
Qed.

Lemma Optional_OptionalKeys_witness :
  (forall k, In (TKey k) (members (OptionalKeys (Optional Props))) <->
             In k (map fst Props_list))
  /\ (forall m, ~ In m (members (RequiredKeys (Optional Props)))).
Proof.
  exact (Optional_OptionalKeys Props_list eq_refl).
Defined.

(** The modifiers that a mapped type homomorphic in [T] leaves alone. *)
Lemma modifiers_mapped ro opt T F k :
  (In k (keys_of (mapped ro opt T (keyof T) F)) <-> In k (keys_of T))
  /\ (ro = Keep ->
      readonly_key (mapped ro opt T (keyof T) F) k = readonly_key T k)
  /\ (opt = Keep ->
      optional_key (mapped ro opt T (keyof T) F) k = optional_key T k).
Proof.
  split; [rewrite keys_of_mapped; apply key_names_keyof|].
  unfold readonly_key, optional_key. rewrite get_prop_mapped.
  destruct (in_dec string_dec k (key_names (keyof T))) as [Hin|Hout].
  - unfold mapped_entry. cbn [snd make_prop p_readonly p_optional].
    split; intros ->; reflexivity.
  - assert (E : get_prop T k = None).
    { destruct (get_prop T k) eqn:E; [|reflexivity].
      exfalso. apply Hout, key_names_keyof, get_prop_keys. congruence. }
    rewrite E. now split.
Qed.

(** The recursive aliases at an object type: the mapped type of their own
    body. *)
Lemma DeepReadonly_object ps :
  DeepReadonly (TObject ps) =
  mapped Add Keep (TObject ps) (keyof (TObject ps))
    (fun k => DeepReadonly (index (TObject ps) (TKey k))).
Proof.
  assert (H : DeepReadonly_step (fun X => Some (DeepReadonly X)) (TObject ps)
              = Some (DeepReadonly (TObject ps)))
    by exact (unfolded_unfold DeepReadonly_step_monotone DeepReadonly_step_productive (TObject ps)).
  unfold DeepReadonly_step, cond_dist_opt, DeepReadonly_at in H.
  cbn [members mapM extends_any_function extends_any_array extends_object] in H.
  unfold _DeepReadonlyObject in H. cbn [mapped_keyof_opt] in H.
  rewrite mapped_opt_Some in H. cbn [option_map] in H.
  rewrite mk_union_atom in H by reflexivity. now injection H as <-.
Qed.

Lemma DeepRequired_object ps :
  DeepRequired (TObject ps) =
  mapped Keep Remove (TObject ps) (keyof (TObject ps))
    (fun k => DeepRequired (NonUndefined (index (TObject ps) (TKey k)))).
Proof.
  assert (H : DeepRequired_step (fun X => Some (DeepRequired X)) (TObject ps)
              = Some (DeepRequired (TObject ps)))
    by exact (unfolded_unfold DeepRequired_step_monotone DeepRequired_step_productive (TObject ps)).
  unfold DeepRequired_step, cond_dist_opt in H.
  cbn [members mapM extends_any_function extends_any_array extends_object] in H.
  unfold _DeepRequiredObject in H. cbn [mapped_keyof_opt] in H.
  rewrite mapped_opt_Some in H. cbn [option_map] in H.
  rewrite mk_union_atom in H by reflexivity. now injection H as <-.
Qed.

Lemma DeepNonNullable_object ps :
  DeepNonNullable (TObject ps) =
  mapped Keep Remove (TObject ps) (keyof (TObject ps))
    (fun k => DeepNonNullable (NonNullable (index (TObject ps) (TKey k)))).
Proof.
  assert (H : DeepNonNullable_step (fun X => Some (DeepNonNullable X)) (TObject ps)
              = Some (DeepNonNullable (TObject ps)))
    by exact (unfolded_unfold DeepNonNullable_step_monotone DeepNonNullable_step_productive (TObject ps)).
  unfold DeepNonNullable_step, cond_dist_opt in H.
  cbn [members mapM extends_any_function extends_any_array extends_object] in H.
  unfold _DeepNonNullableObject in H. cbn [mapped_keyof_opt] in H.
  rewrite mapped_opt_Some in H. cbn [option_map] in H.
  rewrite mk_union_atom in H by reflexivity. now injection H as <-.
Qed.

Lemma DeepPartial_object ps :
  DeepPartial (TObject ps) =
  mapped Keep Add (TObject ps) (keyof (TObject ps))
    (fun k => DeepPartial (index (TObject ps) (TKey k))).
Proof.
  assert (H : DeepPartial_step (fun X => Some (DeepPartial X)) (TObject ps)
              = Some (DeepPartial (TObject ps)))
    by exact (unfolded_unfold DeepPartial_step_monotone DeepPartial_step_productive (TObject ps)).
  unfold DeepPartial_step, cond_dist_opt in H.
  cbn [members mapM infer_array extends_object] in H.
  replace (extends (TObject ps) TFunction) with false in H by reflexivity.
  unfold _DeepPartialObject in H. cbn [mapped_keyof_opt] in H.
  rewrite mapped_opt_Some in H. cbn [option_map] in H.
  rewrite mk_union_atom in H by reflexivity. now injection H as <-.
Qed.

(** X19.  At an object type the recursive aliases keep the keys, and each
    changes one modifier only: [DeepReadonly] leaves [?] as it is,
    [DeepRequired], [DeepNonNullable] and [DeepPartial] leave [readonly]
    as it is. *)
Theorem Deep_aliases_keep_keys (ps : list (string * prop ty)) (k : string) :
  ((In k (keys_of (DeepReadonly (TObject ps))) <-> In k (map fst ps))
   /\ optional_key (DeepReadonly (TObject ps)) k = optional_key (TObject ps) k)
  /\ ((In k (keys_of (DeepRequired (TObject ps))) <-> In k (map fst ps))
      /\ readonly_key (DeepRequired (TObject ps)) k = readonly_key (TObject ps) k)
  /\ ((In k (keys_of (DeepNonNullable (TObject ps))) <-> In k (map fst ps))
      /\ readonly_key (DeepNonNullable (TObject ps)) k = readonly_key (TObject ps) k)
  /\ ((In k (keys_of (DeepPartial (TObject ps))) <-> In k (map fst ps))
      /\ readonly_key (DeepPartial (TObject ps)) k = readonly_key (TObject ps) k).
Proof.
  rewrite DeepReadonly_object, DeepRequired_object, DeepNonNullable_object,
    DeepPartial_object.
  repeat match goal with
         | |- context [mapped ?ro ?opt ?T (keyof ?T) ?F] =>
             let H := fresh "H" in
             pose proof (modifiers_mapped ro opt T F k) as H;
             generalize dependent (mapped ro opt T (keyof T) F)
         end.
  intros M1 (K1 & R1 & O1) M2 (K2 & R2 & O2) M3 (K3 & R3 & O3) M4 (K4 & R4 & O4).
  cbn [keys_of] in *. auto 10.
Qed.

(** ** DeepRequired is idempotent *)

Lemma DeepRequired_unfold T :
  DeepRequired_step DeepRequired_rec T = Some (DeepRequired T).
Proof.
  exact (unfolded_unfold DeepRequired_step_monotone DeepRequired_step_productive T).
Qed.

Lemma DeepRequired_f_normal n T R : DeepRequired_f n T = Some R -> normal R = true.
Proof.
  destruct n as [|n]; [discriminate|].
  unfold DeepRequired_f. cbn [unfold]. unfold DeepRequired_step, cond_dist_opt.
  destruct (mapM _ _); [|discriminate].
  intros H. inversion H. apply mk_union_normal.
Qed.

Lemma DeepRequired_of_fixed X :
  normal X = true ->
  (forall m, In m (members X) -> DeepRequired_fixed m) ->
  DeepRequired X = X.
Proof.
  intros Hn Hf. pose proof (DeepRequired_unfold X) as H.
  unfold DeepRequired_step, cond_dist_opt in H.
  rewrite (mapM_id _ _ Hf) in H. cbn [option_map] in H.
  destruct (normal_members X Hn) as (_ & _ & E). congruence.
Qed.

Lemma NonUndefined_kept_id e :
  normal e = true ->
  (forall m, In m (members e) -> extends m TUndefined = false) ->
  NonUndefined e = e.
Proof.
  intros Hn He.
  transitivity (cond_dist (fun a => if negb (extends a TUndefined) then a else TNever) e).
  - unfold NonUndefined, cond_dist. f_equal. apply map_ext. intros a.
    now destruct (extends a TUndefined).
  - apply cond_dist_select_all; [assumption|].
    intros m Hm. now rewrite He.
Qed.

Lemma members_NonUndefined_kept A m :
  In m (members (NonUndefined A)) -> extends m TUndefined = false.
Proof.
  intros Hm. unfold NonUndefined in Hm.
  apply members_cond_dist in Hm as [Hm _].
  apply in_flat_map in Hm as (x & Hx & Hm).
  apply in_map_iff in Hx as (t & <- & Ht).
  destruct (extends t TUndefined) eqn:E; [destruct Hm|].
  rewrite (members_atom t (members_not_union _ _ Ht)) in Hm.
  now destruct Hm as [<-|[]].
Qed.

Lemma DeepRequired_built_kept r :
  match r with TArray _ | TReadonlyArray _ | TObject _ => True | _ => False end ->
  extends r TUndefined = false.
Proof.
  intros Hr. unfold extends.
  replace (size r + size TUndefined + 4) with (S (S (size r + size TUndefined + 2))) by lia.
  destruct r; try destruct Hr; reflexivity.
Qed.

Lemma DeepRequired_kept_no_undefined e :
  (forall m, In m (members e) -> extends m TUndefined = false) ->
  existsb is_undefined (members e) = false.
Proof.
  intros He. apply existsb_false. intros m Hm. specialize (He m Hm).
  destruct m; try reflexivity. discriminate.
Qed.

Lemma DeepRequired_of_kept e :
  normal e = true ->
  (forall m, In m (members e) -> DeepRequired_kept m) ->
  DeepRequired (NonUndefined e) = e.
Proof.
  intros Hn He. rewrite NonUndefined_kept_id; [|assumption|intros m Hm; now apply He].
  apply DeepRequired_of_fixed; [assumption|]. intros m Hm. now apply He.
Qed.

Lemma DeepRequired_fixed_array e :
  normal e = true ->
  (forall m, In m (members e) -> DeepRequired_kept m) ->
  DeepRequired_fixed (TArray e) /\ DeepRequired_fixed (TReadonlyArray e).
Proof.
  intros Hn Hf.
  assert (E : forall b : bool, index (if b then TArray e else TReadonlyArray e) TNumber = e).
  { intros b. unfold index. destruct b; cbn; now apply normal_mk_union. }
  unfold DeepRequired_fixed. split.
  - cbn [extends_any_function extends_any_array].
    unfold _DeepRequiredArray. rewrite (E true). unfold DeepRequired_rec.
    rewrite DeepRequired_of_kept by assumption. reflexivity.
  - cbn [extends_any_function extends_any_array extends_object].
    unfold _DeepRequiredObject. cbn [mapped_keyof_opt]. rewrite (E false).
    unfold DeepRequired_rec. rewrite DeepRequired_of_kept by assumption.
    cbn [option_map mapped_array apply_mod]. do 2 f_equal.
    apply strip_undefined_id; [assumption|].
    apply DeepRequired_kept_no_undefined. intros m Hm. now apply Hf.
Qed.

Lemma DeepRequired_fixed_object es :
  NoDup (map fst es) ->
  Forall DeepRequired_entry es ->
  DeepRequired_fixed (TObject es).
Proof.
  intros Hnd Hes. unfold DeepRequired_fixed.
  cbn [extends_any_function extends_any_array extends_object].
  unfold _DeepRequiredObject. cbn [mapped_keyof_opt].
  unfold DeepRequired_rec.
  rewrite (mapped_opt_Some Keep Remove (TObject es) (keyof (TObject es))
             (fun k => DeepRequired (NonUndefined (index (TObject es) (TKey k))))).
  f_equal. unfold mapped. f_equal.
  rewrite key_names_keyof_object by assumption.
  rewrite map_map. transitivity (map (fun e => e) es); [|apply map_id].
  apply map_ext_in. intros [k p] Hin. cbn [fst].
  rewrite Forall_forall in Hes. destruct (Hes _ Hin) as (Hopt & Hn & Hf).
  cbn [snd] in Hopt, Hn, Hf.
  unfold mapped_entry. cbn [get_prop]. rewrite (assoc_NoDup k p es Hnd Hin).
  rewrite Hopt. cbn [apply_mod is_remove andb]. rewrite index_key by reflexivity.
  cbn [get_prop]. rewrite (assoc_NoDup k p es Hnd Hin).
  unfold prop_read. rewrite Hopt. rewrite (normal_mk_union _ Hn).
  rewrite DeepRequired_of_kept by assumption.
  destruct p as [ro o t]. cbn in *. subst o. reflexivity.
Qed.

Lemma DeepRequired_entries n t ks es :
  (forall X R, DeepRequired_f n (NonUndefined X) = Some R ->
               forall m, In m (members R) -> DeepRequired_kept m) ->
  Forall2 (fun k e => option_map (mapped_entry Keep Remove t k)
                                 (DeepRequired_f n (NonUndefined (index t (TKey k)))) = Some e)
          ks es ->
  map fst es = ks /\ Forall DeepRequired_entry es.
Proof.
  intros IH. induction 1 as [|k e ks' es' He Hrest IHrest].
  - split; [reflexivity|constructor].
  - destruct IHrest as [IHk IHe].
    destruct (DeepRequired_f n (NonUndefined (index t (TKey k)))) as [v|] eqn:Ev; [|discriminate].
    cbn [option_map] in He. injection He as E. subst e.
    split.
    + cbn [map]. rewrite IHk. reflexivity.
    + constructor; [|exact IHe].
      unfold DeepRequired_entry, mapped_entry.
      cbn [snd apply_mod is_remove andb make_prop p_optional p_type].
      split; [reflexivity|]. split.
      * destruct (match get_prop t k with Some p => p_optional p | None => false end);
          [apply mk_union_normal|eapply DeepRequired_f_normal; eauto].
      * intros m Hm. apply (IH _ _ Ev).
        destruct (match get_prop t k with Some p => p_optional p | None => false end);
          [now apply members_strip_undefined|assumption].
Qed.

Lemma DeepRequired_fixed_mapped n t r :
  (forall X R, DeepRequired_f n (NonUndefined X) = Some R ->
               forall m, In m (members R) -> DeepRequired_kept m) ->
  mapped_opt Keep Remove t (keyof t)
    (fun k => DeepRequired_f n (NonUndefined (index t (TKey k)))) = Some r ->
  is_union r = false /\ DeepRequired_kept r.
Proof.
  intros IH H. unfold mapped_opt in H.
  destruct (mapM _ _) as [es|] eqn:E; [|discriminate].
  cbn [option_map] in H. inversion H; subst r. clear H.
  apply mapM_Forall2 in E.
  destruct (@DeepRequired_entries n t _ es IH E) as [Hk He].
  split; [reflexivity|]. split; [|now apply DeepRequired_built_kept].
  apply DeepRequired_fixed_object; [|assumption].
  rewrite Hk. apply NoDup_key_names_keyof.
Qed.

Lemma DeepRequired_fixed_elem n X e :
  (forall X R, DeepRequired_f n (NonUndefined X) = Some R ->
               forall m, In m (members R) -> DeepRequired_kept m) ->
  DeepRequired_f n (NonUndefined X) = Some e ->
  DeepRequired_fixed (TArray e) /\ DeepRequired_fixed (TReadonlyArray (strip_undefined e)).
Proof.
  intros IH H.
  assert (Hn : normal e = true) by (eapply DeepRequired_f_normal; eauto).
  assert (Hk : forall m, In m (members e) -> DeepRequired_kept m) by (eapply IH; eauto).
  rewrite strip_undefined_id; [exact (@DeepRequired_fixed_array e Hn Hk)|assumption|].
  apply DeepRequired_kept_no_undefined. intros m Hm. now apply Hk.
Qed.

(** What [DeepRequired] returns at one constituent is a single constituent that
    it leaves as it is, and one that [NonUndefined] keeps when it keeps the
    constituent. *)
Lemma DeepRequired_at_fixed n t r :
  (forall X R, DeepRequired_f n (NonUndefined X) = Some R ->
               forall m, In m (members R) -> DeepRequired_kept m) ->
  is_union t = false ->
  (if extends_any_function t then Some t
   else if extends_any_array t then _DeepRequiredArray (DeepRequired_f n) (index t TNumber)
   else if extends_object t then _DeepRequiredObject (DeepRequired_f n) t
   else Some t) = Some r ->
  is_union r = false
  /\ DeepRequired_fixed r
  /\ (extends t TUndefined = false -> extends r TUndefined = false).
Proof.
  intros IH Hat H.
  destruct (extends_any_function t) eqn:E1.
  { inversion H; subst r. split; [assumption|]. split; [|auto].
    unfold DeepRequired_fixed. now rewrite E1. }
  destruct (extends_any_array t) eqn:E2.
  { unfold _DeepRequiredArray in H.
    destruct (DeepRequired_f n (NonUndefined (index t TNumber))) as [e|] eqn:Ee; [|discriminate].
    inversion H; subst r. split; [reflexivity|].
    split; [|intros _; now apply DeepRequired_built_kept].
    exact (proj1 (@DeepRequired_fixed_elem n _ e IH Ee)). }
  destruct (extends_object t) eqn:E3.
  2:{ inversion H; subst r. split; [assumption|]. split; [|auto].
      unfold DeepRequired_fixed. now rewrite E1, E2, E3. }
  unfold _DeepRequiredObject in H.
  destruct t; cbn in E1, E2, E3; try discriminate; cbn [mapped_keyof_opt] in H.
  - inversion H. split; [reflexivity|]. split; [reflexivity|auto].
  - destruct (DeepRequired_f n (NonUndefined (index (TReadonlyArray t) TNumber))) as [e|] eqn:Ee;
      [|discriminate].
    inversion H; subst r. split; [reflexivity|].
    split; [|intros _; now apply DeepRequired_built_kept].
    exact (proj2 (@DeepRequired_fixed_elem n _ e IH Ee)).
  - inversion H. split; [reflexivity|]. split; [reflexivity|auto].
  - destruct (@DeepRequired_fixed_mapped n _ r IH H) as (Hu & Hf & He). auto.
  - destruct (@DeepRequired_fixed_mapped n _ r IH H) as (Hu & Hf & He). auto.
Qed.

Lemma DeepRequired_f_fixed n :
  forall T R, DeepRequired_f n T = Some R ->
              forall m, In m (members R) ->
                        DeepRequired_fixed m
                        /\ ((forall t, In t (members T) -> extends t TUndefined = false) ->
                            extends m TUndefined = false).
Proof.
  induction n as [|n IH]; intros T R H m Hm; [discriminate|].
  assert (IH' : forall X R, DeepRequired_f n (NonUndefined X) = Some R ->
                            forall m, In m (members R) -> DeepRequired_kept m).
  { intros X R0 E m0 Hm0. destruct (IH _ _ E m0 Hm0) as [H1 H2]. split; [assumption|].
    apply H2. intros t. apply members_NonUndefined_kept. }
  unfold DeepRequired_f in H. cbn [unfold] in H.
  unfold DeepRequired_step, cond_dist_opt in H.
  destruct (mapM _ _) as [rs|] eqn:E; [|discriminate].
  cbn [option_map] in H. inversion H; subst R. clear H.
  apply mapM_Forall2 in E.
  apply In_members_mk_union in Hm as [Hm _].
  apply in_flat_map in Hm as (r & Hr & Hm).
  destruct (@Forall2_In_r _ _ _ _ _ r E Hr) as (t & Ht & Hrt).
  destruct (@DeepRequired_at_fixed n t r IH' (@members_not_union T t Ht) Hrt)
    as (Hu & Hf & He).
  rewrite (members_atom r Hu) in Hm. destruct Hm as [<-|[]]. split; [exact Hf|].
  intros Hall. apply He, Hall, Ht.
Qed.

(** X20.  [DeepRequired<DeepRequired<T>>] is [DeepRequired<T>]: the result [R] of any
    unfolding of [DeepRequired<T>] is its own [DeepRequired] result, and every
    unfolding of [DeepRequired<R>] deeper than the nesting depth of [R] returns
    [R]. *)
Theorem DeepRequired_idempotent (T : ty) :
  DeepRequired (DeepRequired T) = DeepRequired T
  /\ (forall n R, DeepRequired_f n T = Some R ->
                  forall m, rank R < m -> DeepRequired_f m R = Some R).
Proof.
  assert (G : forall n R, DeepRequired_f n T = Some R -> DeepRequired R = R).
  { intros n R H. apply DeepRequired_of_fixed.
    - eapply DeepRequired_f_normal; eauto.
    - intros m Hm. eapply DeepRequired_f_fixed; eauto. }
  pose proof (@unfold_unfolded _ DeepRequired_step_monotone DeepRequired_step_productive
                (S (rank T)) T (Nat.lt_succ_diag_r _)) as HT.
  split.
  - apply (G (S (rank T))). exact HT.
  - intros n R H m Hm.
    pose proof (@unfold_unfolded _ DeepRequired_step_monotone DeepRequired_step_productive
                  m R Hm) as HR.
    unfold DeepRequired_f. rewrite HR. f_equal. apply (G n R H).
Qed.

Lemma DeepRequired_idempotent_witness :
  DeepRequired (DeepRequired OptionalNestedProps) = DeepRequired OptionalNestedProps
  /\ DeepRequired_f 4 NestedProps = Some NestedProps.
Proof.
  destruct (DeepRequired_idempotent OptionalNestedProps) as [H1 H2].
  split; [exact H1|].
  exact (H2 4 NestedProps eq_refl 4 (Nat.lt_succ_diag_r 3)).
Defined.

(** ** DeepNonNullable is idempotent *)

Lemma DeepNonNullable_unfold T :
  DeepNonNullable_step DeepNonNullable_rec T = Some (DeepNonNullable T).
Proof.
  exact (unfolded_unfold DeepNonNullable_step_monotone DeepNonNullable_step_productive T).
Qed.

Lemma DeepNonNullable_f_normal n T R : DeepNonNullable_f n T = Some R -> normal R = true.
Proof.
  destruct n as [|n]; [discriminate|].
  unfold DeepNonNullable_f. cbn [unfold]. unfold DeepNonNullable_step, cond_dist_opt.
  destruct (mapM _ _); [|discriminate].
  intros H. inversion H. apply mk_union_normal.
Qed.

Lemma DeepNonNullable_of_fixed X :
  normal X = true ->
  (forall m, In m (members X) -> DeepNonNullable_fixed m) ->
  DeepNonNullable X = X.
Proof.
  intros Hn Hf. pose proof (DeepNonNullable_unfold X) as H.
  unfold DeepNonNullable_step, cond_dist_opt in H.
  rewrite (mapM_id _ _ Hf) in H. cbn [option_map] in H.
  destruct (normal_members X Hn) as (_ & _ & E). congruence.
Qed.

Lemma NonNullable_kept_id e :
  normal e = true ->
  (forall m, In m (members e) -> extends m (TUnion [TNull; TUndefined]) = false) ->
  NonNullable e = e.
Proof.
  intros Hn He.
  transitivity (cond_dist (fun a => if negb (extends a (TUnion [TNull; TUndefined])) then a else TNever) e).
  - unfold NonNullable, cond_dist. f_equal. apply map_ext. intros a.
    now destruct (extends a (TUnion [TNull; TUndefined])).
  - apply cond_dist_select_all; [assumption|].
    intros m Hm. now rewrite He.
Qed.

Lemma members_NonNullable_kept A m :
  In m (members (NonNullable A)) -> extends m (TUnion [TNull; TUndefined]) = false.
Proof.
  intros Hm. unfold NonNullable in Hm.
  apply members_cond_dist in Hm as [Hm _].
  apply in_flat_map in Hm as (x & Hx & Hm).
  apply in_map_iff in Hx as (t & <- & Ht).
  destruct (extends t (TUnion [TNull; TUndefined])) eqn:E; [destruct Hm|].
  rewrite (members_atom t (members_not_union _ _ Ht)) in Hm.
  now destruct Hm as [<-|[]].
Qed.

Lemma DeepNonNullable_built_kept r :
  match r with TArray _ | TReadonlyArray _ | TObject _ => True | _ => False end ->
  extends r (TUnion [TNull; TUndefined]) = false.
Proof.
  intros Hr. unfold extends.
  replace (size r + size (TUnion [TNull; TUndefined]) + 4) with (S (S (size r + size (TUnion [TNull; TUndefined]) + 2))) by lia.
  destruct r; try destruct Hr; reflexivity.
Qed.

Lemma DeepNonNullable_kept_no_undefined e :
  (forall m, In m (members e) -> extends m (TUnion [TNull; TUndefined]) = false) ->
  existsb is_undefined (members e) = false.
Proof.
  intros He. apply existsb_false. intros m Hm. specialize (He m Hm).
  destruct m; try reflexivity. discriminate.
Qed.

Lemma DeepNonNullable_of_kept e :
  normal e = true ->
  (forall m, In m (members e) -> DeepNonNullable_kept m) ->
  DeepNonNullable (NonNullable e) = e.
Proof.
  intros Hn He. rewrite NonNullable_kept_id; [|assumption|intros m Hm; now apply He].
  apply DeepNonNullable_of_fixed; [assumption|]. intros m Hm. now apply He.
Qed.

Lemma DeepNonNullable_fixed_array e :
  normal e = true ->
  (forall m, In m (members e) -> DeepNonNullable_kept m) ->
  DeepNonNullable_fixed (TArray e) /\ DeepNonNullable_fixed (TReadonlyArray e).
Proof.
  intros Hn Hf.
  assert (E : forall b : bool, index (if b then TArray e else TReadonlyArray e) TNumber = e).
  { intros b. unfold index. destruct b; cbn; now apply normal_mk_union. }
  unfold DeepNonNullable_fixed. split.
  - cbn [extends_any_function extends_any_array].
    unfold _DeepNonNullableArray. rewrite (E true). unfold DeepNonNullable_rec.
    rewrite DeepNonNullable_of_kept by assumption. reflexivity.
  - cbn [extends_any_function extends_any_array extends_object].
    unfold _DeepNonNullableObject. cbn [mapped_keyof_opt]. rewrite (E false).
    unfold DeepNonNullable_rec. rewrite DeepNonNullable_of_kept by assumption.
    cbn [option_map mapped_array apply_mod]. do 2 f_equal.
    apply strip_undefined_id; [assumption|].
    apply DeepNonNullable_kept_no_undefined. intros m Hm. now apply Hf.
Qed.

Lemma DeepNonNullable_fixed_object es :
  NoDup (map fst es) ->
  Forall DeepNonNullable_entry es ->
  DeepNonNullable_fixed (TObject es).
Proof.
  intros Hnd Hes. unfold DeepNonNullable_fixed.
  cbn [extends_any_function extends_any_array extends_object].
  unfold _DeepNonNullableObject. cbn [mapped_keyof_opt].
  unfold DeepNonNullable_rec.
  rewrite (mapped_opt_Some Keep Remove (TObject es) (keyof (TObject es))
             (fun k => DeepNonNullable (NonNullable (index (TObject es) (TKey k))))).
  f_equal. unfold mapped. f_equal.
  rewrite key_names_keyof_object by assumption.
  rewrite map_map. transitivity (map (fun e => e) es); [|apply map_id].
  apply map_ext_in. intros [k p] Hin. cbn [fst].
  rewrite Forall_forall in Hes. destruct (Hes _ Hin) as (Hopt & Hn & Hf).
  cbn [snd] in Hopt, Hn, Hf.
  unfold mapped_entry. cbn [get_prop]. rewrite (assoc_NoDup k p es Hnd Hin).
  rewrite Hopt. cbn [apply_mod is_remove andb]. rewrite index_key by reflexivity.
  cbn [get_prop]. rewrite (assoc_NoDup k p es Hnd Hin).
  unfold prop_read. rewrite Hopt. rewrite (normal_mk_union _ Hn).
  rewrite DeepNonNullable_of_kept by assumption.
  destruct p as [ro o t]. cbn in *. subst o. reflexivity.
Qed.

Lemma DeepNonNullable_entries n t ks es :
  (forall X R, DeepNonNullable_f n (NonNullable X) = Some R ->
               forall m, In m (members R) -> DeepNonNullable_kept m) ->
  Forall2 (fun k e => option_map (mapped_entry Keep Remove t k)
                                 (DeepNonNullable_f n (NonNullable (index t (TKey k)))) = Some e)
          ks es ->
  map fst es = ks /\ Forall DeepNonNullable_entry es.
Proof.
  intros IH. induction 1 as [|k e ks' es' He Hrest IHrest].
  - split; [reflexivity|constructor].
  - destruct IHrest as [IHk IHe].
    destruct (DeepNonNullable_f n (NonNullable (index t (TKey k)))) as [v|] eqn:Ev; [|discriminate].
    cbn [option_map] in He. injection He as E. subst e.
    split.
    + cbn [map]. rewrite IHk. reflexivity.
    + constructor; [|exact IHe].
      unfold DeepNonNullable_entry, mapped_entry.
      cbn [snd apply_mod is_remove andb make_prop p_optional p_type].
      split; [reflexivity|]. split.
      * destruct (match get_prop t k with Some p => p_optional p | None => false end);
          [apply mk_union_normal|eapply DeepNonNullable_f_normal; eauto].
      * intros m Hm. apply (IH _ _ Ev).
        destruct (match get_prop t k with Some p => p_optional p | None => false end);
          [now apply members_strip_undefined|assumption].
Qed.

Lemma DeepNonNullable_fixed_mapped n t r :
  (forall X R, DeepNonNullable_f n (NonNullable X) = Some R ->
               forall m, In m (members R) -> DeepNonNullable_kept m) ->
  mapped_opt Keep Remove t (keyof t)
    (fun k => DeepNonNullable_f n (NonNullable (index t (TKey k)))) = Some r ->
  is_union r = false /\ DeepNonNullable_kept r.
Proof.
  intros IH H. unfold mapped_opt in H.
  destruct (mapM _ _) as [es|] eqn:E; [|discriminate].
  cbn [option_map] in H. inversion H; subst r. clear H.
  apply mapM_Forall2 in E.
  destruct (@DeepNonNullable_entries n t _ es IH E) as [Hk He].
  split; [reflexivity|]. split; [|now apply DeepNonNullable_built_kept].
  apply DeepNonNullable_fixed_object; [|assumption].
  rewrite Hk. apply NoDup_key_names_keyof.
Qed.

Lemma DeepNonNullable_fixed_elem n X e :
  (forall X R, DeepNonNullable_f n (NonNullable X) = Some R ->
               forall m, In m (members R) -> DeepNonNullable_kept m) ->
  DeepNonNullable_f n (NonNullable X) = Some e ->
  DeepNonNullable_fixed (TArray e) /\ DeepNonNullable_fixed (TReadonlyArray (strip_undefined e)).
Proof.
  intros IH H.
  assert (Hn : normal e = true) by (eapply DeepNonNullable_f_normal; eauto).
  assert (Hk : forall m, In m (members e) -> DeepNonNullable_kept m) by (eapply IH; eauto).
  rewrite strip_undefined_id; [exact (@DeepNonNullable_fixed_array e Hn Hk)|assumption|].
  apply DeepNonNullable_kept_no_undefined. intros m Hm. now apply Hk.
Qed.

(** What [DeepNonNullable] returns at one constituent is a single constituent that
    it leaves as it is, and one that [NonNullable] keeps when it keeps the
    constituent. *)
Lemma DeepNonNullable_at_fixed n t r :
  (forall X R, DeepNonNullable_f n (NonNullable X) = Some R ->
               forall m, In m (members R) -> DeepNonNullable_kept m) ->
  is_union t = false ->
  (if extends_any_function t then Some t
   else if extends_any_array t then _DeepNonNullableArray (DeepNonNullable_f n) (index t TNumber)
   else if extends_object t then _DeepNonNullableObject (DeepNonNullable_f n) t
   else Some t) = Some r ->
  is_union r = false
  /\ DeepNonNullable_fixed r
  /\ (extends t (TUnion [TNull; TUndefined]) = false -> extends r (TUnion [TNull; TUndefined]) = false).
Proof.
  intros IH Hat H.
  destruct (extends_any_function t) eqn:E1.
  { inversion H; subst r. split; [assumption|]. split; [|auto].
    unfold DeepNonNullable_fixed. now rewrite E1. }
  destruct (extends_any_array t) eqn:E2.
  { unfold _DeepNonNullableArray in H.
    destruct (DeepNonNullable_f n (NonNullable (index t TNumber))) as [e|] eqn:Ee; [|discriminate].
    inversion H; subst r. split; [reflexivity|].
    split; [|intros _; now apply DeepNonNullable_built_kept].
    exact (proj1 (@DeepNonNullable_fixed_elem n _ e IH Ee)). }
  destruct (extends_object t) eqn:E3.
  2:{ inversion H; subst r. split; [assumption|]. split; [|auto].
      unfold DeepNonNullable_fixed. now rewrite E1, E2, E3. }
  unfold _DeepNonNullableObject in H.
  destruct t; cbn in E1, E2, E3; try discriminate; cbn [mapped_keyof_opt] in H.
  - inversion H. split; [reflexivity|]. split; [reflexivity|auto].
  - destruct (DeepNonNullable_f n (NonNullable (index (TReadonlyArray t) TNumber))) as [e|] eqn:Ee;
      [|discriminate].
    inversion H; subst r. split; [reflexivity|].
    split; [|intros _; now apply DeepNonNullable_built_kept].
    exact (proj2 (@DeepNonNullable_fixed_elem n _ e IH Ee)).
  - inversion H. split; [reflexivity|]. split; [reflexivity|auto].
  - destruct (@DeepNonNullable_fixed_mapped n _ r IH H) as (Hu & Hf & He). auto.
  - destruct (@DeepNonNullable_fixed_mapped n _ r IH H) as (Hu & Hf & He). auto.
Qed.

Lemma DeepNonNullable_f_fixed n :
  forall T R, DeepNonNullable_f n T = Some R ->
              forall m, In m (members R) ->
                        DeepNonNullable_fixed m
                        /\ ((forall t, In t (members T) -> extends t (TUnion [TNull; TUndefined]) = false) ->
                            extends m (TUnion [TNull; TUndefined]) = false).
Proof.
  induction n as [|n IH]; intros T R H m Hm; [discriminate|].
  assert (IH' : forall X R, DeepNonNullable_f n (NonNullable X) = Some R ->
                            forall m, In m (members R) -> DeepNonNullable_kept m).
  { intros X R0 E m0 Hm0. destruct (IH _ _ E m0 Hm0) as [H1 H2]. split; [assumption|].
    apply H2. intros t. apply members_NonNullable_kept. }
  unfold DeepNonNullable_f in H. cbn [unfold] in H.
  unfold DeepNonNullable_step, cond_dist_opt in H.
  destruct (mapM _ _) as [rs|] eqn:E; [|discriminate].
  cbn [option_map] in H. inversion H; subst R. clear H.
  apply mapM_Forall2 in E.
  apply In_members_mk_union in Hm as [Hm _].
  apply in_flat_map in Hm as (r & Hr & Hm).
  destruct (@Forall2_In_r _ _ _ _ _ r E Hr) as (t & Ht & Hrt).
  destruct (@DeepNonNullable_at_fixed n t r IH' (@members_not_union T t Ht) Hrt)
    as (Hu & Hf & He).
  rewrite (members_atom r Hu) in Hm. destruct Hm as [<-|[]]. split; [exact Hf|].
  intros Hall. apply He, Hall, Ht.
Qed.

(** X21.  [DeepNonNullable<DeepNonNullable<T>>] is [DeepNonNullable<T>]: the result [R] of any
    unfolding of [DeepNonNullable<T>] is its own [DeepNonNullable] result, and every
    unfolding of [DeepNonNullable<R>] deeper than the nesting depth of [R] returns
    [R]. *)
Theorem DeepNonNullable_idempotent (T : ty) :
  DeepNonNullable (DeepNonNullable T) = DeepNonNullable T
  /\ (forall n R, DeepNonNullable_f n T = Some R ->
                  forall m, rank R < m -> DeepNonNullable_f m R = Some R).
Proof.
  assert (G : forall n R, DeepNonNullable_f n T = Some R -> DeepNonNullable R = R).
  { intros n R H. apply DeepNonNullable_of_fixed.
    - eapply DeepNonNullable_f_normal; eauto.
    - intros m Hm. eapply DeepNonNullable_f_fixed; eauto. }
  pose proof (@unfold_unfolded _ DeepNonNullable_step_monotone DeepNonNullable_step_productive
                (S (rank T)) T (Nat.lt_succ_diag_r _)) as HT.
  split.
  - apply (G (S (rank T))). exact HT.
  - intros n R H m Hm.
    pose proof (@unfold_unfolded _ DeepNonNullable_step_monotone DeepNonNullable_step_productive
                  m R Hm) as HR.
    unfold DeepNonNullable_f. rewrite HR. f_equal. apply (G n R H).
Qed.

Lemma DeepNonNullable_idempotent_witness :
  DeepNonNullable (DeepNonNullable NullableNestedProps) = DeepNonNullable NullableNestedProps
  /\ DeepNonNullable_f 4 NestedProps = Some NestedProps.
Proof.
  destruct (DeepNonNullable_idempotent NullableNestedProps) as [H1 H2].
  split; [exact H1|].
  exact (H2 4 NestedProps eq_refl 4 (Nat.lt_succ_diag_r 3)).
Defined.

(** ** The recursive aliases distribute over unions *)

Lemma absorbed_prims l l' m :
  (forall p, In (TPrim p) l -> In (TPrim p) l') ->
  absorbed l m = true -> absorbed l' m = true.
Proof.
  intros H. unfold absorbed.
  destruct m as [| | |[s|n|b]| | | | | | | |]; try discriminate;
    rewrite !existsb_ty_eqb; apply H.
Qed.

(** A distributed conditional type over a union that keeps its
    constituents is the union of the conditional at both sides. *)
Lemma cond_dist_distributes g A1 A2 :
  union_keeps A1 A2 = true ->
  same_type (cond_dist g (union2 A1 A2)) (union2 (cond_dist g A1) (cond_dist g A2)).
Proof.
  intros Hk. apply union_keeps_reduced in Hk.
  set (F := fun X => flat_map members (map g (members X))).
  assert (HU : forall m, In m (F (union2 A1 A2)) <-> In m (F A1) \/ In m (F A2)).
  { intros m. unfold F. rewrite !in_flat_map. split.
    - intros (r & Hr & Hm). apply in_map_iff in Hr as (x & <- & Hx).
      apply members_union2 in Hx as [Hx _]. apply in_app_iff in Hx as [Hx|Hx];
        [left|right]; exists (g x); (split; [now apply in_map|assumption]).
    - intros [(r & Hr & Hm)|(r & Hr & Hm)];
        apply in_map_iff in Hr as (x & <- & Hx);
        exists (g x); (split; [|assumption]); apply in_map, members_union2;
        (split; [apply in_app_iff; auto|apply Hk, in_app_iff; auto]). }
  assert (HC : forall X m, In m (members (cond_dist g X)) <->
                           In m (F X) /\ absorbed (F X) m = false).
  { intros X m. apply members_cond_dist. }
  intros m. rewrite members_union2, in_app_iff, !HC, HU. split.
  - intros [Hm Ha].
    assert (H1 : absorbed (F A1) m = false).
    { apply absorbed_incl_false with (l' := F (union2 A1 A2)); [|assumption].
      intros x Hx. apply HU. auto. }
    assert (H2 : absorbed (F A2) m = false).
    { apply absorbed_incl_false with (l' := F (union2 A1 A2)); [|assumption].
      intros x Hx. apply HU. auto. }
    split; [tauto|].
    apply absorbed_incl_false with (l' := F (union2 A1 A2)); [|assumption].
    intros x Hx. apply HU. apply in_app_iff in Hx as [Hx|Hx]; apply HC in Hx; tauto.
  - intros [Hm Ha]. split; [tauto|].
    destruct (absorbed (F (union2 A1 A2)) m) eqn:E; [|reflexivity].
    rewrite <- Ha. symmetry. revert E. apply absorbed_prims.
    intros p Hp. apply HU in Hp. apply in_app_iff.
    destruct Hp as [Hp|Hp]; [left|right]; apply HC; (split; [assumption|reflexivity]).
Qed.

Lemma mapM_map_default (A : Type) (f : A -> option ty) l rs :
  mapM f l = Some rs ->
  rs = map (fun x => match f x with Some r => r | None => TNever end) l.
Proof.
  revert rs. induction l as [|x l IH]; cbn [mapM map]; intros rs E.
  - now injection E as <-.
  - destruct (f x) as [r|]; [|discriminate].
    destruct (mapM f l) as [rs'|]; [|discriminate].
    injection E as <-. f_equal. now apply IH.
Qed.

(** A recursive alias whose body is a distributive conditional type is that
    conditional type, distributed, with its own result at the recursive
    references. *)
Lemma unfolded_cond_dist step (branch : (ty -> option ty) -> ty -> option ty) :
  step_monotone step -> step_productive step ->
  (forall rec T, step rec T = cond_dist_opt (branch rec) T) ->
  exists g, forall T, unfolded step T = cond_dist g T.
Proof.
  intros Hm Hp Hs.
  exists (fun t => match branch (fun X => Some (unfolded step X)) t with
                   | Some r => r
                   | None => TNever
                   end).
  intros T. pose proof (unfolded_unfold Hm Hp T) as H.
  rewrite Hs in H. unfold cond_dist_opt in H.
  destruct (mapM _ (members T)) as [rs|] eqn:E; [|discriminate].
  injection H as <-. unfold cond_dist. f_equal. now apply mapM_map_default.
Qed.

(** X22.  The recursive aliases distribute over a union [A1 | A2] that keeps
    the constituents of both sides: the result at the union has the
    constituents of the union of the results. *)
Theorem Deep_aliases_distribute (A1 A2 : ty) (Hkeep : union_keeps A1 A2 = true) :
  same_type (DeepReadonly (union2 A1 A2)) (union2 (DeepReadonly A1) (DeepReadonly A2))
  /\ same_type (DeepRequired (union2 A1 A2)) (union2 (DeepRequired A1) (DeepRequired A2))
  /\ same_type (DeepNonNullable (union2 A1 A2))
               (union2 (DeepNonNullable A1) (DeepNonNullable A2))
  /\ same_type (DeepPartial (union2 A1 A2)) (union2 (DeepPartial A1) (DeepPartial A2)).
Proof.
  split; [|split; [|split]].
  - destruct (@unfolded_cond_dist DeepReadonly_step DeepReadonly_at
                DeepReadonly_step_monotone DeepReadonly_step_productive
                (fun _ _ => eq_refl)) as (g & Hg).
    unfold DeepReadonly. rewrite !Hg. now apply cond_dist_distributes.
  - destruct (@unfolded_cond_dist DeepRequired_step _
                DeepRequired_step_monotone DeepRequired_step_productive
                (fun _ _ => eq_refl)) as (g & Hg).
    unfold DeepRequired. rewrite !Hg. now apply cond_dist_distributes.
  - destruct (@unfolded_cond_dist DeepNonNullable_step _
                DeepNonNullable_step_monotone DeepNonNullable_step_productive
                (fun _ _ => eq_refl)) as (g & Hg).
    unfold DeepNonNullable. rewrite !Hg. now apply cond_dist_distributes.
  - destruct (@unfolded_cond_dist DeepPartial_step _
                DeepPartial_step_monotone DeepPartial_step_productive
                (fun _ _ => eq_refl)) as (g & Hg).
    unfold DeepPartial. rewrite !Hg. now apply cond_dist_distributes.
Qed.

Lemma Deep_aliases_distribute_witness :
  same_type (DeepReadonly (union2 NestedProps (TArray TString)))
            (union2 (DeepReadonly NestedProps) (DeepReadonly (TArray TString)))
  /\ same_type (DeepRequired (union2 NestedProps (TArray TString)))
               (union2 (DeepRequired NestedProps) (DeepRequired (TArray TString)))
  /\ same_type (DeepNonNullable (union2 NestedProps (TArray TString)))
               (union2 (DeepNonNullable NestedProps) (DeepNonNullable (TArray TString)))
  /\ same_type (DeepPartial (union2 NestedProps (TArray TString)))
               (union2 (DeepPartial NestedProps) (DeepPartial (TArray TString))).
Proof.
  exact (@Deep_aliases_distribute NestedProps (TArray TString) eq_refl).
Defined.

(** ** C5: PromiseType *)

(** A constituent of one of the types of a union is accounted for in the
    union. *)
Lemma covered_mk_union l x m :
  In x l -> In m (members x) -> covered m (mk_union l).
Proof.
  intros Hx Hm. unfold covered. rewrite members_mk_union.
  assert (Hf : In m (flat_map members l)) by (apply in_flat_map; eauto).
  destruct (absorbed (flat_map members l) m) eqn:E.
  - right. revert E. apply absorbed_prims. intros p Hp.
    apply In_constituents. split; [assumption|reflexivity].
  - left. apply In_constituents. now split.
Qed.

Lemma members_map_TPromise Us m :
  In m (members (mk_union (map TPromise Us))) <-> exists u, m = TPromise u /\ In u Us.
Proof.
  rewrite In_members_mk_union.
  rewrite flat_map_members_atoms
    by (intros x Hx; apply in_map_iff in Hx as (u & <- & _); reflexivity).
  rewrite in_map_iff. split.
  - intros [(u & <- & Hu) _]. eauto.
  - intros (u & -> & Hu). split; [eauto|reflexivity].
Qed.

(** C5.  When [T] meets the constraint [T extends Promise<any>], the
    conditional takes its inferred branch at every constituent of [T]:
    each constituent is a promise, the type it promises is accounted for
    in [PromiseType<T>], and [PromiseType<T>] has no other constituent, so
    nothing comes from the [never] branch.  In particular
    [PromiseType<Promise<U1> | ... | Promise<Un>>] has the constituents of
    [U1 | ... | Un], and [PromiseType<Promise<U>>] is [U]. *)
Theorem PromiseType_infers
  (T U : ty)
  (HT : extends_Promise_any T = true) (HU : normal U = true) :
  (forall t, In t (members T) ->
             exists u, infer_promise t = Some u
                       /\ forall m, In m (members u) -> covered m (PromiseType T))
  /\ (forall m, In m (members (PromiseType T)) ->
                exists t u, In t (members T) /\ infer_promise t = Some u
                            /\ In m (members u))
  /\ (forall Us, same_type (PromiseType (mk_union (map TPromise Us))) (mk_union Us))
  /\ PromiseType (TPromise U) = U.
Proof.
  unfold extends_Promise_any in HT. rewrite forallb_forall in HT.
  split; [|split; [|split]].
  - intros t Ht.
    destruct (infer_promise t) as [u|] eqn:E;
      [|exfalso; apply (extends_Promise_any_infers t); auto].
    exists u. split; [reflexivity|]. intros m Hm.
    unfold PromiseType, cond_dist.
    apply covered_mk_union with (x := u); [|assumption].
    apply in_map_iff. exists t. rewrite E. auto.
  - intros m Hm. unfold PromiseType in Hm.
    apply members_cond_dist in Hm as [Hm _].
    apply in_flat_map in Hm as (x & Hx & Hm).
    apply in_map_iff in Hx as (t & <- & Ht).
    destruct (infer_promise t) as [u|] eqn:E.
    + eauto.
    + exfalso. apply (extends_Promise_any_infers t); auto.
  - intros Us.
    assert (F : forall x, In x (flat_map members
                                  (map (fun t => match infer_promise t with
                                                 | Some U0 => U0
                                                 | None => TNever
                                                 end)
                                       (members (mk_union (map TPromise Us)))))
                          <-> In x (flat_map members Us)).
    { intros x. rewrite !in_flat_map. split.
      - intros (r & Hr & Hx). apply in_map_iff in Hr as (t & <- & Ht).
        apply members_map_TPromise in Ht as (u & -> & Hu). cbn in Hx. eauto.
      - intros (u & Hu & Hx). exists u. split; [|assumption].
        apply in_map_iff. exists (TPromise u). split; [reflexivity|].
        apply members_map_TPromise. eauto. }
    intros m. unfold PromiseType. rewrite members_cond_dist, In_members_mk_union.
    rewrite (absorbed_ext _ _ m F), F. reflexivity.
  - unfold PromiseType, cond_dist. cbn [members map infer_promise].
    now apply normal_mk_union.
Qed.

Lemma PromiseType_infers_witness :
  (forall t, In t (members promises_string_number) ->
             exists u, infer_promise t = Some u
                       /\ forall m, In m (members u) ->
                                    covered m (PromiseType promises_string_number))
  /\ (forall m, In m (members (PromiseType promises_string_number)) ->
                exists t u, In t (members promises_string_number)
                            /\ infer_promise t = Some u /\ In m (members u))
  /\ (forall Us, same_type (PromiseType (mk_union (map TPromise Us))) (mk_union Us))
  /\ PromiseType (TPromise TString) = TString.
Proof.
  exact (PromiseType_infers promises_string_number TString eq_refl eq_refl).
Defined.

(** ** C10: DeepReadonly is idempotent where it meets no mutable array *)

Lemma no_mutable_array_index_key ps k :
  no_mutable_array (TObject ps) = true ->
  no_mutable_array (index (TObject ps) (TKey k)) = true.
Proof.
  intros Ht. rewrite index_key by reflexivity.
  apply (closed_mk_union no_mutable_array (fun _ => eq_refl)).
  intros x [<-|[]]. cbn [get_prop].
  destruct (assoc k ps) as [p|] eqn:E; [|reflexivity].
  assert (Hp : no_mutable_array (p_type p) = true).
  { apply assoc_In in E. cbn [no_mutable_array] in Ht.
    rewrite forallb_forall in Ht. exact (Ht _ E). }
  unfold prop_read. destruct (p_optional p); [|assumption].
  apply (closed_mk_union no_mutable_array (fun _ => eq_refl)).
  intros x [<-|[<-|[]]]; [assumption|reflexivity].
Qed.

Lemma no_mutable_array_index_number e :
  no_mutable_array (TReadonlyArray e) = true ->
  no_mutable_array (index (TReadonlyArray e) TNumber) = true.
Proof.
  intros He. unfold index. cbn [members flat_map map app index_atom elem_of TNumber].
  apply (closed_mk_union no_mutable_array (fun _ => eq_refl)).
  intros x [<-|[]]. exact He.
Qed.

Lemma DeepReadonly_entries n ps ks es :
  (forall X R, no_mutable_array X = true -> DeepReadonly_f n X = Some R ->
               forall m, In m (members R) -> DeepReadonly_fixed m) ->
  no_mutable_array (TObject ps) = true ->
  Forall2 (fun k e => option_map (mapped_entry Add Keep (TObject ps) k)
                        (DeepReadonly_f n (index (TObject ps) (TKey k))) = Some e)
          ks es ->
  map fst es = ks /\ Forall DeepReadonly_entry es.
Proof.
  intros IH Hps. induction 1 as [|k e ks' es' He Hrest IHrest].
  - split; [reflexivity|constructor].
  - destruct IHrest as [IHk IHe].
    destruct (DeepReadonly_f n (index (TObject ps) (TKey k))) as [v|] eqn:Ev;
      [|discriminate].
    cbn [option_map] in He. injection He as E. subst e.
    split.
    + cbn [map]. rewrite IHk. reflexivity.
    + constructor; [|exact IHe].
      unfold DeepReadonly_entry, mapped_entry. cbn [snd apply_mod is_remove andb].
      split; [reflexivity|]. split.
      * apply wf_make_prop. eapply DeepReadonly_f_normal; eauto.
      * intros m Hm. apply members_make_prop in Hm.
        exact (IH _ _ (no_mutable_array_index_key ps k Hps) Ev m Hm).
Qed.

(** What [DeepReadonly] returns at one constituent without mutable arrays
    is a single constituent that it leaves as it is. *)
Lemma DeepReadonly_at_fixed n t r :
  (forall X R, no_mutable_array X = true -> DeepReadonly_f n X = Some R ->
               forall m, In m (members R) -> DeepReadonly_fixed m) ->
  is_union t = false ->
  no_mutable_array t = true ->
  DeepReadonly_at (DeepReadonly_f n) t = Some r ->
  is_union r = false /\ DeepReadonly_fixed r.
Proof.
  intros IH Hat Hna H. unfold DeepReadonly_at in H.
  destruct (extends_any_function t) eqn:E1.
  { inversion H; subst r. split; [assumption|].
    unfold DeepReadonly_fixed, DeepReadonly_at. now rewrite E1. }
  destruct (extends_any_array t) eqn:E2.
  { exfalso. destruct t; try discriminate. cbn in E1, Hna. congruence. }
  destruct (extends_object t) eqn:E3.
  2:{ inversion H; subst r. split; [assumption|].
      unfold DeepReadonly_fixed, DeepReadonly_at. now rewrite E1, E2, E3. }
  unfold _DeepReadonlyObject in H.
  destruct t as [| | | | | | |e| |ps| |a b]; cbn in E1, E2, E3; try discriminate;
    cbn [mapped_keyof_opt] in H.
  - inversion H. split; reflexivity.
  - destruct (DeepReadonly_f n (index (TReadonlyArray e) TNumber)) as [e'|] eqn:Ee;
      [|discriminate].
    inversion H; subst r. split; [reflexivity|].
    apply DeepReadonly_fixed_array.
    + eapply DeepReadonly_f_normal; eauto.
    + exact (IH _ _ (no_mutable_array_index_number e Hna) Ee).
  - inversion H. split; reflexivity.
  - unfold mapped_opt in H.
    destruct (mapM _ _) as [es|] eqn:E; [|discriminate].
    cbn [option_map] in H. inversion H; subst r. clear H.
    apply mapM_Forall2 in E.
    destruct (@DeepReadonly_entries n ps _ es IH Hna E) as [Hk He].
    split; [reflexivity|].
    apply DeepReadonly_fixed_object; [|assumption].
    rewrite Hk. apply NoDup_key_names_keyof.
  - exfalso. cbn in Hna. congruence.
Qed.

Lemma DeepReadonly_f_fixed n :
  forall T R, no_mutable_array T = true -> DeepReadonly_f n T = Some R ->
              forall m, In m (members R) -> DeepReadonly_fixed m.
Proof.
  induction n as [|n IH]; intros T R HT H m Hm; [discriminate|].
  unfold DeepReadonly_f in H. cbn [unfold] in H.
  unfold DeepReadonly_step, cond_dist_opt in H.
  destruct (mapM _ _) as [rs|] eqn:E; [|discriminate].
  cbn [option_map] in H. inversion H; subst R. clear H.
  apply mapM_Forall2 in E.
  apply In_members_mk_union in Hm as [Hm _].
  apply in_flat_map in Hm as (r & Hr & Hm).
  destruct (@Forall2_In_r _ _ _ _ _ r E Hr) as (t & Ht & Hrt).
  assert (Hnt : no_mutable_array t = true).
  { rewrite (closed_members no_mutable_array (fun _ => eq_refl) T) in HT.
    rewrite forallb_forall in HT. auto. }
  destruct (@DeepReadonly_at_fixed n t r IH (@members_not_union T t Ht) Hnt Hrt)
    as [Hu Hf].
  rewrite (members_atom r Hu) in Hm. destruct Hm as [<-|[]]. exact Hf.
Qed.

(** C10, as amended.  For a type [T] in which [DeepReadonly] meets no
    mutable array, [DeepReadonly<DeepReadonly<T>>] is [DeepReadonly<T>]:
    the result [R] of any unfolding of [DeepReadonly<T>] is its own
    [DeepReadonly] result, and every unfolding of [DeepReadonly<R>] deeper
    than the nesting depth of [R] returns [R]. *)
Theorem DeepReadonly_idempotent (T : ty) (HT : no_mutable_array T = true) :
  DeepReadonly (DeepReadonly T) = DeepReadonly T
  /\ (forall n R, DeepReadonly_f n T = Some R ->
                  DeepReadonly T = R
                  /\ forall m, rank R < m -> DeepReadonly_f m R = Some R).
Proof.
  assert (G : forall n R, DeepReadonly_f n T = Some R -> DeepReadonly R = R).
  { intros n R H. apply DeepReadonly_of_fixed.
    - eapply DeepReadonly_f_normal; eauto.
    - eapply DeepReadonly_f_fixed; eauto. }
  pose proof (@unfold_unfolded _ DeepReadonly_step_monotone DeepReadonly_step_productive
                (S (rank T)) T (Nat.lt_succ_diag_r _)) as HT'.
  split.
  - apply (G (S (rank T))). exact HT'.
  - intros n R H. split; [eapply DeepReadonly_f_result; eauto|].
    intros m Hm.
    pose proof (@unfold_unfolded _ DeepReadonly_step_monotone DeepReadonly_step_productive
                  m R Hm) as HR.
    unfold DeepReadonly_f. rewrite HR. f_equal. apply (G n R H).
Qed.

Lemma DeepReadonly_idempotent_witness :
  DeepReadonly (DeepReadonly NestedProps) = DeepReadonly NestedProps
  /\ DeepReadonly NestedProps = ReadonlyNestedProps
  /\ DeepReadonly_f 4 ReadonlyNestedProps = Some ReadonlyNestedProps.
Proof.
  destruct (DeepReadonly_idempotent NestedProps eq_refl) as [H1 H2].
  destruct (H2 4 ReadonlyNestedProps eq_refl) as [H3 H4].
  split; [exact H1|]. split; [exact H3|].
  exact (H4 4 (Nat.lt_succ_diag_r 3)).
Defined.

(** C10, as stated, fails at an array: [DeepReadonly<string[]>] is the
    interface [_DeepReadonlyArray<string>]; the second application does not
    find an array but an object type, maps its members, and returns an
    object type that is not the interface.  The members are those that
    [ReadonlyArray] declares in the standard library; the universe lists
    none of them, so the object type shows no property. *)
Lemma DeepReadonly_not_idempotent_at_array :
  DeepReadonly (TArray TString) = TInter (TReadonlyArray TString) (TObject [])
  /\ DeepReadonly (DeepReadonly (TArray TString)) = TObject []
  /\ DeepReadonly (DeepReadonly (TArray TString)) <> DeepReadonly (TArray TString).
Proof.
  split; [vm_compute; reflexivity|]. split; [vm_compute; reflexivity|].
  intros H. vm_compute in H. discriminate.
Qed.

(** ** Assignability looks at the constituents *)

Lemma forallb_same (A : Type) (f : A -> bool) l l' :
  (forall x, In x l <-> In x l') -> forallb f l = forallb f l'.
Proof.
  intros H. apply eq_true_iff_eq. rewrite !forallb_forall. split.
  - intros E x Hx. apply E, H, Hx.
  - intros E x Hx. apply E, H, Hx.
Qed.

Lemma existsb_same (A : Type) (f : A -> bool) l l' :
  (forall x, In x l <-> In x l') -> existsb f l = existsb f l'.
Proof.
  intros H. apply eq_true_iff_eq. rewrite !existsb_exists. split.
  - intros (x & Hx & Hf). exists x. split; [apply H, Hx|assumption].
  - intros (x & Hx & Hf). exists x. split; [apply H, Hx|assumption].
Qed.

Lemma forallb_flat_map (A B : Type) (f : B -> bool) (g : A -> list B) l :
  forallb f (flat_map g l) = forallb (fun x => forallb f (g x)) l.
Proof.
  induction l as [|x r IH]; [reflexivity|].
  cbn [flat_map forallb]. now rewrite forallb_app, IH.
Qed.

Lemma existsb_flat_map (A B : Type) (f : B -> bool) (g : A -> list B) l :
  existsb f (flat_map g l) = existsb (fun x => existsb f (g x)) l.
Proof.
  induction l as [|x r IH]; [reflexivity|].
  cbn [flat_map existsb]. now rewrite existsb_app, IH.
Qed.

Lemma extends_union_source ms t :
  extends (TUnion ms) t = forallb (fun m => extends m t) ms.
Proof.
  unfold extends at 1. cbn [size]. cbn [Nat.add extends_f].
  apply forallb_ext_in. intros m Hm. apply extends_f_enough.
  pose proof (size_In ms m Hm). lia.
Qed.

Lemma extends_source_members S t :
  extends S t = forallb (fun m => extends m t) (members S).
Proof.
  induction S using ty_nested_ind;
    try (cbn [members forallb]; now rewrite andb_true_r).
  rewrite extends_union_source. cbn [members]. rewrite forallb_flat_map.
  apply forallb_ext_in. intros m Hm. rewrite Forall_forall in H. now apply H.
Qed.

Lemma extends_union_target s ms :
  is_union s = false ->
  extends s (TUnion ms) = existsb (extends s) ms.
Proof.
  intros Hs. unfold extends at 1. cbn [size].
  replace (size s + S (list_sum (map size ms)) + 4)
    with (S (size s + list_sum (map size ms) + 4)) by lia.
  transitivity (existsb (extends_f (size s + list_sum (map size ms) + 4) s) ms).
  - destruct s as [| | |[?|?|?]| | | | | | | |]; try discriminate; reflexivity.
  - apply existsb_ext_in. intros m Hm. apply extends_f_enough.
    pose proof (size_In ms m Hm). lia.
Qed.

Lemma extends_target_members s V :
  is_union s = false ->
  extends s V = existsb (extends s) (members V).
Proof.
  intros Hs. induction V using ty_nested_ind;
    try (cbn [members existsb]; now rewrite orb_false_r).
  rewrite extends_union_target by assumption. cbn [members].
  rewrite existsb_flat_map.
  apply existsb_ext_in. intros m Hm. rewrite Forall_forall in H. now apply H.
Qed.

(** Assignability depends on the constituents of both sides only. *)
Lemma extends_same_type S S' V V' :
  same_type S S' -> same_type V V' -> extends S V = extends S' V'.
Proof.
  intros HS HV. rewrite (extends_source_members S), (extends_source_members S').
  rewrite (forallb_same _ _ _ HS).
  apply forallb_ext_in. intros m Hm.
  assert (Hat : is_union m = false) by (eapply members_not_union; eauto).
  rewrite (@extends_target_members m V Hat), (@extends_target_members m V' Hat).
  now apply existsb_same.
Qed.

Lemma same_type_refl X : same_type X X.
Proof. intros m. reflexivity. Qed.

Lemma same_type_sym X Y : same_type X Y -> same_type Y X.
Proof. intros H m. symmetry. apply H. Qed.

Lemma same_type_trans X Y Z : same_type X Y -> same_type Y Z -> same_type X Z.
Proof. intros H1 H2 m. rewrite (H1 m). apply H2. Qed.

(** ** Unions, intersections and conditional types look at the constituents *)

Lemma flat_map_same (A B : Type) (g g' : A -> list B) l l' :
  (forall x, In x l <-> In x l') -> (forall x, In x l -> g x = g' x) ->
  forall y, In y (flat_map g l) <-> In y (flat_map g' l').
Proof.
  intros Hl Hg y. rewrite !in_flat_map. split.
  - intros (x & Hx & Hy). exists x. split; [apply Hl, Hx|]. now rewrite <- Hg.
  - intros (x & Hx & Hy). apply Hl in Hx. exists x. split; [assumption|].
    now rewrite Hg.
Qed.

Lemma mk_union_same l l' :
  (forall m, In m (flat_map members l) <-> In m (flat_map members l')) ->
  same_type (mk_union l) (mk_union l').
Proof.
  intros H m. rewrite !In_members_mk_union, (absorbed_ext _ _ m H), H.
  reflexivity.
Qed.

Lemma cond_dist_same_type g g' A A' :
  same_type A A' -> (forall a, In a (members A) -> g a = g' a) ->
  same_type (cond_dist g A) (cond_dist g' A').
Proof.
  intros HA Hg. unfold cond_dist. apply mk_union_same. intros m.
  rewrite !flat_map_concat_map, !map_map, <- !flat_map_concat_map.
  apply flat_map_same; [exact HA|]. intros a Ha. now rewrite Hg.
Qed.

Lemma union2_same_type A A' B B' :
  same_type A A' -> same_type B B' -> same_type (union2 A B) (union2 A' B').
Proof.
  intros HA HB. unfold union2. apply mk_union_same. intros m.
  cbn [flat_map]. rewrite !app_nil_r, !in_app_iff, (HA m), (HB m). reflexivity.
Qed.

Lemma inter_same_type A A' B B' :
  same_type A A' -> same_type B B' -> same_type (inter A B) (inter A' B').
Proof.
  intros HA HB. unfold inter. apply mk_union_same. intros m.
  rewrite !in_flat_map. split.
  - intros (x & Hx & Hm). exists x. split; [|assumption].
    apply in_flat_map in Hx as (a & Ha & Hx). apply in_map_iff in Hx as (b & <- & Hb).
    apply in_flat_map. exists a. split; [apply HA, Ha|].
    apply in_map, HB, Hb.
  - intros (x & Hx & Hm). exists x. split; [|assumption].
    apply in_flat_map in Hx as (a & Ha & Hx). apply in_map_iff in Hx as (b & <- & Hb).
    apply in_flat_map. exists a. split; [apply HA, Ha|].
    apply in_map, HB, Hb.
Qed.

Lemma SetIntersection_order_blind : order_blind2 SetIntersection.
Proof.
  intros A A' B B' HA HB. apply cond_dist_same_type; [assumption|].
  intros a Ha. now rewrite (extends_same_type (same_type_refl a) HB).
Qed.

Lemma SetDifference_order_blind : order_blind2 SetDifference.
Proof.
  intros A A' B B' HA HB. apply cond_dist_same_type; [assumption|].
  intros a Ha. now rewrite (extends_same_type (same_type_refl a) HB).
Qed.

Lemma SymmetricDifference_order_blind : order_blind2 SymmetricDifference.
Proof.
  intros A A' B B' HA HB. apply SetDifference_order_blind.
  - now apply union2_same_type.
  - now apply inter_same_type.
Qed.

Lemma NonUndefined_order_blind : order_blind1 NonUndefined.
Proof.
  intros A A' HA. apply cond_dist_same_type; [assumption|reflexivity].
Qed.

Lemma PromiseType_order_blind : order_blind1 PromiseType.
Proof.
  intros A A' HA. apply cond_dist_same_type; [assumption|reflexivity].
Qed.

Lemma Brand_order_blind U : order_blind1 (fun T => Brand T U).
Proof.
  intros T T' HT. apply inter_same_type; [assumption|apply same_type_refl].
Qed.

(** ** Object aliases look at the properties, not at their order *)

Lemma assoc_Permutation (A : Type) k (ps ps' : list (string * A)) :
  NoDup (map fst ps) -> Permutation ps ps' -> assoc k ps = assoc k ps'.
Proof.
  intros Hnd Hp.
  assert (Hnd' : NoDup (map fst ps'))
    by (eapply Permutation_NoDup; [apply Permutation_map, Hp|assumption]).
  destruct (assoc k ps) as [v|] eqn:E.
  - symmetry. apply assoc_NoDup; [assumption|].
    apply assoc_In in E. eapply Permutation_in; eauto.
  - symmetry. apply assoc_None. apply assoc_None in E. intros Hin. apply E.
    eapply Permutation_in; [apply Permutation_sym, Permutation_map, Hp|assumption].
Qed.

Lemma reordered_facts T T' :
  reordered T T' ->
  is_union T = false /\ is_union T' = false
  /\ wf_object T /\ wf_object T'
  /\ same_props T T'
  /\ (forall k, In k (keys_of T) <-> In k (keys_of T')).
Proof.
  intros (ps & ps' & -> & -> & Hwf & Hnd & Hp).
  assert (Hwf' : wf_props ps' = true).
  { unfold wf_props in *. rewrite forallb_forall in *. intros kp Hkp.
    apply Hwf. eapply Permutation_in; [apply Permutation_sym, Hp|assumption]. }
  assert (Hs : same_props (TObject ps) (TObject ps')).
  { intros k. cbn [get_prop]. now apply assoc_Permutation. }
  split; [reflexivity|]. split; [reflexivity|].
  split; [now apply wf_props_object|]. split; [now apply wf_props_object|].
  split; [exact Hs|].
  intros k. rewrite <- !get_prop_keys, (Hs k). reflexivity.
Qed.

Lemma in_dec_same (A : Type) k l l' (a b : A) :
  (In k l <-> In k l') ->
  (if in_dec string_dec k l then a else b) = (if in_dec string_dec k l' then a else b).
Proof.
  intros H. destruct (in_dec string_dec k l), (in_dec string_dec k l'); tauto.
Qed.

Lemma index_key_same T T' k :
  is_union T = false -> is_union T' = false -> same_props T T' ->
  index T (TKey k) = index T' (TKey k).
Proof. intros HT HT' Hs. rewrite !index_key by assumption. now rewrite Hs. Qed.

Ltac reordered_facts H :=
  let Hu := fresh "Hu" in let Hu' := fresh "Hu'" in
  let Hw := fresh "Hw" in let Hw' := fresh "Hw'" in
  let Hs := fresh "Hs" in let Hk := fresh "Hk" in
  destruct (reordered_facts H) as (Hu & Hu' & Hw & Hw' & Hs & Hk).

Lemma Omit_order_blind : props_order_blind_union Omit.
Proof.
  intros T T' K K' HT HK k. reordered_facts HT.
  rewrite !get_prop_Omit by assumption.
  now rewrite (extends_same_type (same_type_refl (TKey k)) HK), Hs.
Qed.

Lemma value_extends_same T T' V V' k :
  is_union T = false -> is_union T' = false -> same_props T T' -> same_type V V' ->
  value_extends T V k = value_extends T' V' k
  /\ value_exact T V k = value_exact T' V' k.
Proof.
  intros HT HT' Hs HV. unfold value_extends, value_exact.
  rewrite (index_key_same k HT HT' Hs).
  rewrite (extends_same_type (same_type_refl (index T' (TKey k))) HV).
  rewrite (extends_same_type HV (same_type_refl (index T' (TKey k)))).
  now split.
Qed.

Lemma PickByValue_order_blind : props_order_blind_union PickByValue.
Proof.
  intros T T' V V' HT HV k. reordered_facts HT.
  rewrite !get_prop_PickByValue by assumption.
  destruct (value_extends_same k Hu Hu' Hs HV) as [-> _]. now rewrite Hs.
Qed.

Lemma OmitByValue_order_blind : props_order_blind_union OmitByValue.
Proof.
  intros T T' V V' HT HV k. reordered_facts HT.
  rewrite !get_prop_OmitByValue by assumption.
  destruct (value_extends_same k Hu Hu' Hs HV) as [-> _]. now rewrite Hs.
Qed.

Lemma PickByValueExact_order_blind : props_order_blind_union PickByValueExact.
Proof.
  intros T T' V V' HT HV k. reordered_facts HT.
  rewrite !get_prop_PickByValueExact by assumption.
  destruct (value_extends_same k Hu Hu' Hs HV) as [_ ->]. now rewrite Hs.
Qed.

Lemma OmitByValueExact_order_blind : props_order_blind_union OmitByValueExact.
Proof.
  intros T T' V V' HT HV k. reordered_facts HT.
  rewrite !get_prop_OmitByValueExact by assumption.
  destruct (value_extends_same k Hu Hu' Hs HV) as [_ ->]. now rewrite Hs.
Qed.

Lemma Diff_order_blind : props_order_blind2 Diff.
Proof.
  intros T T' U U' HT HU k. reordered_facts HT. reordered_facts HU.
  rewrite !get_prop_Diff by assumption.
  now rewrite (@in_dec_same _ k _ _ _ _ (Hk0 k)), Hs.
Qed.

Lemma Intersection_order_blind : props_order_blind2 Intersection.
Proof.
  intros T T' U U' HT HU k. reordered_facts HT. reordered_facts HU.
  rewrite !get_prop_Intersection by assumption.
  now rewrite (@in_dec_same _ k _ _ _ _ (Hk0 k)), Hs.
Qed.

Lemma Overwrite_order_blind : props_order_blind2 Overwrite.
Proof.
  intros T T' U U' HT HU k. reordered_facts HT. reordered_facts HU.
  rewrite !get_prop_Overwrite by assumption.
  rewrite (@in_dec_same _ k _ _ _ _ (Hk k)).
  destruct (in_dec string_dec k (keys_of T')); [|reflexivity].
  now rewrite (@in_dec_same _ k _ _ _ _ (Hk0 k)), Hs, Hs0.
Qed.

Lemma Assign_order_blind : props_order_blind2 Assign.
Proof.
  intros T T' U U' HT HU k. reordered_facts HT. reordered_facts HU.
  rewrite !get_prop_Assign by assumption. now rewrite Hs, Hs0.
Qed.

Lemma Pick_keyof_order_blind :
  props_order_blind1 (fun I => Pick I (keyof I)).
Proof.
  intros I I' HI k. reordered_facts HI.
  rewrite !get_prop_Pick_keyof by assumption. apply Hs.
Qed.

Lemma Optional2_order_blind T T' K K' :
  reordered T T' -> same_type K K' ->
  normal K = true -> normal K' = true -> unit_union K = true ->
  (forall k, In (TKey k) (members K) -> In k (keys_of T)) ->
  same_props (Optional2 T K) (Optional2 T' K').
Proof.
  intros HT HK Hn Hn' Hun Hsub k. reordered_facts HT.
  assert (Hun' : unit_union K' = true).
  { unfold unit_union in *. rewrite forallb_forall in *. intros m Hm.
    apply Hun, HK, Hm. }
  assert (Hkn : forall k', In k' (key_names K) <-> In k' (key_names K')).
  { intros k'. rewrite !In_key_names. apply HK. }
  rewrite !get_prop_Optional2; try assumption.
  - now rewrite (@in_dec_same _ k _ _ _ _ (Hkn k)), Hs.
  - intros k' Hk'. apply Hk, Hsub, In_key_names, Hkn, Hk'.
  - intros k' Hk'. apply Hsub, In_key_names, Hk'.
Qed.

Lemma Optional_order_blind : props_order_blind1 Optional.
Proof.
  intros T T' HT. unfold Optional. destruct (reordered_facts HT) as (_ & _ & _ & _ & _ & Hk).
  apply Optional2_order_blind; try assumption.
  - intros m. rewrite !members_keyof. split; intros (k & -> & Hin); exists k;
      (split; [reflexivity|]); now apply Hk.
  - apply mk_union_normal.
  - apply mk_union_normal.
  - apply unit_union_keyof.
  - intros k Hin. apply members_keyof in Hin as (k' & E & Hin).
    unfold TKey in E. now inversion E.
Qed.

(** ** Key aliases look at the properties, not at their order *)

Lemma key_select_same T T' (c c' : string -> bool) :
  (forall k, In k (keys_of T) <-> In k (keys_of T')) ->
  (forall k, c k = c' k) ->
  same_type
    (index (mapped Keep Remove T (keyof T) (fun k => if c k then TKey k else TNever))
           (keyof T))
    (index (mapped Keep Remove T' (keyof T') (fun k => if c' k then TKey k else TNever))
           (keyof T')).
Proof.
  intros Hk Hc m. rewrite !members_key_select. split.
  - intros (k & -> & Hin & Hck). exists k. rewrite <- Hc. split; [reflexivity|].
    split; [now apply Hk|assumption].
  - intros (k & -> & Hin & Hck). exists k. rewrite Hc. split; [reflexivity|].
    split; [now apply Hk|assumption].
Qed.

Lemma function_valued_same T T' k :
  is_union T = false -> is_union T' = false -> same_props T T' ->
  function_valued T k = function_valued T' k.
Proof.
  intros HT HT' Hs. unfold function_valued. now rewrite (index_key_same k HT HT' Hs).
Qed.

Lemma FunctionKeys_order_blind : keys_order_blind FunctionKeys.
Proof.
  intros T T' HT. reordered_facts HT.
  apply (key_select_same T T' (function_valued T) (function_valued T')); [assumption|].
  intros k. now apply function_valued_same.
Qed.

Lemma NonFunctionKeys_order_blind : keys_order_blind NonFunctionKeys.
Proof.
  intros T T' HT. reordered_facts HT. rewrite !NonFunctionKeys_select.
  apply key_select_same; [assumption|].
  intros k. f_equal. now apply function_valued_same.
Qed.

Lemma optional_key_same T T' k :
  same_props T T' -> optional_key T k = optional_key T' k.
Proof. intros Hs. unfold optional_key. now rewrite Hs. Qed.

Lemma readonly_key_same T T' k :
  same_props T T' -> readonly_key T k = readonly_key T' k.
Proof. intros Hs. unfold readonly_key. now rewrite Hs. Qed.

Lemma OptionalKeys_order_blind : keys_order_blind OptionalKeys.
Proof.
  intros T T' HT. reordered_facts HT. unfold OptionalKeys.
  apply key_select_same; [assumption|].
  intros k. rewrite !extends_empty_Pick. now apply optional_key_same.
Qed.

Lemma RequiredKeys_order_blind : keys_order_blind RequiredKeys.
Proof.
  intros T T' HT. reordered_facts HT. unfold RequiredKeys.
  rewrite (@key_select_negb T (fun k => extends (TObject []) (Pick T (TKey k))))
    by reflexivity.
  rewrite (@key_select_negb T' (fun k => extends (TObject []) (Pick T' (TKey k))))
    by reflexivity.
  apply key_select_same; [assumption|].
  intros k. rewrite !extends_empty_Pick. f_equal. now apply optional_key_same.
Qed.

Lemma WritableKeys_order_blind : keys_order_blind WritableKeys.
Proof.
  intros T T' HT. reordered_facts HT. unfold WritableKeys.
  apply (key_select_same T T'
           (fun k => ty_eqb (single_prop Keep T k) (single_prop Remove T k))
           (fun k => ty_eqb (single_prop Keep T' k) (single_prop Remove T' k)));
    [assumption|].
  intros k. rewrite !single_prop_eqb. f_equal. now apply readonly_key_same.
Qed.

Lemma ReadonlyKeys_order_blind : keys_order_blind ReadonlyKeys.
Proof.
  intros T T' HT. reordered_facts HT. unfold ReadonlyKeys.
  rewrite (@key_select_negb T
             (fun k => ty_eqb (single_prop Keep T k) (single_prop Remove T k)))
    by reflexivity.
  rewrite (@key_select_negb T'
             (fun k => ty_eqb (single_prop Keep T' k) (single_prop Remove T' k)))
    by reflexivity.
  apply key_select_same; [assumption|].
  intros k. rewrite !single_prop_eqb. do 2 f_equal. now apply readonly_key_same.
Qed.

Lemma Unionize_order_blind : keys_order_blind Unionize.
Proof.
  intros T T' HT. pose proof (reordered_facts HT) as (_ & _ & _ & _ & Hs & _).
  destruct HT as (ps & ps' & -> & -> & Hwf & Hnd & Hp).
  assert (Hwf' : wf_props ps' = true).
  { unfold wf_props in *. rewrite forallb_forall in *. intros kp Hkp.
    apply Hwf. eapply Permutation_in; [apply Permutation_sym, Hp|assumption]. }
  assert (E : forall k, assoc k ps = assoc k ps') by (intros k; apply (Hs k)).
  intros m. rewrite (members_Unionize ps Hwf), (members_Unionize ps' Hwf').
  split; (intros [(k & p & Hk & ->)|(-> & k & p & Hk & Ho)]; [left|right];
          [exists k, p|split; [reflexivity|exists k, p]];
          rewrite ?E in *; rewrite <- ?E in *; auto).
Qed.

Lemma keyof_same_type T T' :
  (forall k, In k (keys_of T) <-> In k (keys_of T')) -> same_type (keyof T) (keyof T').
Proof.
  intros Hk m. rewrite !members_keyof.
  split; intros (k & -> & Hin); exists k; (split; [reflexivity|]); now apply Hk.
Qed.

Lemma prop_alike_refl p : prop_alike p p.
Proof. repeat split; auto. Qed.

Lemma props_alike_refl X : props_alike X X.
Proof. intros k. destruct (get_prop X k); [apply prop_alike_refl|exact I]. Qed.

(** [Exact<A>] holds [keyof A] in its [__brand] property: the keys of [A]
    in the order of its properties. *)
Lemma Exact_order_blind A A' : reordered A A' -> props_alike (Exact A) (Exact A').
Proof.
  intros HA. pose proof (reordered_facts HA) as (_ & _ & _ & _ & Hs & Hk).
  apply keyof_same_type in Hk.
  destruct HA as (ps & ps' & -> & -> & Hwf & Hnd & Hp).
  unfold Exact. rewrite !inter_objects.
  destruct (ty_eqb (TObject ps) (TObject [("__brand", mkProp false false (keyof (TObject ps)))]))
    eqn:E.
  { apply ty_eqb_eq in E. injection E as E. rewrite E in Hp.
    apply Permutation_length_1_inv in Hp. rewrite <- E in Hp. subst ps'.
    rewrite <- E, ty_eqb_refl. apply props_alike_refl. }
  destruct (ty_eqb (TObject ps') (TObject [("__brand", mkProp false false (keyof (TObject ps')))]))
    eqn:E'.
  { apply ty_eqb_eq in E'. injection E' as E'. rewrite E' in Hp.
    apply Permutation_sym, Permutation_length_1_inv in Hp. rewrite <- E' in Hp.
    subst ps'. rewrite <- E', ty_eqb_refl in E. discriminate. }
  intros k. specialize (Hs k). cbn [get_prop assoc] in *. rewrite <- Hs.
  destruct (assoc k ps) as [p|], (String.eqb k "__brand"); cbn [get_prop];
    try exact I; try apply prop_alike_refl.
  - unfold make_prop, prop_alike. cbn [p_optional p_type p_readonly].
    rewrite andb_false_r. split; [reflexivity|]. split; [reflexivity|].
    unfold prop_read at 2 4. cbn [p_optional p_type].
    apply inter_same_type; [apply same_type_refl|exact Hk].
  - unfold prop_alike. cbn [p_optional p_type p_readonly].
    split; [reflexivity|]. split; [reflexivity|]. exact Hk.
Qed.

(** ** The recursive aliases look at constituents and properties *)

Lemma mapped_same ro opt T T' (F F' : string -> ty) k :
  (forall k, In k (keys_of T) <-> In k (keys_of T')) ->
  same_props T T' -> F k = F' k ->
  get_prop (mapped ro opt T (keyof T) F) k = get_prop (mapped ro opt T' (keyof T') F') k.
Proof.
  intros Hk Hs HF. rewrite !get_prop_mapped.
  rewrite (@in_dec_same _ k (key_names (keyof T)) (key_names (keyof T')) _ _)
    by (rewrite !key_names_keyof; apply Hk).
  unfold mapped_entry. now rewrite (Hs k), HF.
Qed.

Lemma DeepReadonly_order_blind :
  order_blind1 DeepReadonly /\ props_order_blind1 DeepReadonly.
Proof.
  split.
  - destruct (@unfolded_cond_dist DeepReadonly_step DeepReadonly_at
                DeepReadonly_step_monotone DeepReadonly_step_productive
                (fun _ _ => eq_refl)) as (g & Hg).
    intros X X' HX. unfold DeepReadonly. rewrite !Hg.
    now apply cond_dist_same_type.
  - intros T T' HT. pose proof (reordered_facts HT) as (Hu & Hu' & _ & _ & Hs & Hk).
    destruct HT as (ps & ps' & -> & -> & _). intros k.
    rewrite !DeepReadonly_object. apply mapped_same; try assumption.
    now rewrite (index_key_same k Hu Hu' Hs).
Qed.

Lemma DeepRequired_order_blind :
  order_blind1 DeepRequired /\ props_order_blind1 DeepRequired.
Proof.
  split.
  - destruct (@unfolded_cond_dist DeepRequired_step _
                DeepRequired_step_monotone DeepRequired_step_productive
                (fun _ _ => eq_refl)) as (g & Hg).
    intros X X' HX. unfold DeepRequired. rewrite !Hg.
    now apply cond_dist_same_type.
  - intros T T' HT. pose proof (reordered_facts HT) as (Hu & Hu' & _ & _ & Hs & Hk).
    destruct HT as (ps & ps' & -> & -> & _). intros k.
    rewrite !DeepRequired_object. apply mapped_same; try assumption.
    now rewrite (index_key_same k Hu Hu' Hs).
Qed.

Lemma DeepNonNullable_order_blind :
  order_blind1 DeepNonNullable /\ props_order_blind1 DeepNonNullable.
Proof.
  split.
  - destruct (@unfolded_cond_dist DeepNonNullable_step _
                DeepNonNullable_step_monotone DeepNonNullable_step_productive
                (fun _ _ => eq_refl)) as (g & Hg).
    intros X X' HX. unfold DeepNonNullable. rewrite !Hg.
    now apply cond_dist_same_type.
  - intros T T' HT. pose proof (reordered_facts HT) as (Hu & Hu' & _ & _ & Hs & Hk).
    destruct HT as (ps & ps' & -> & -> & _). intros k.
    rewrite !DeepNonNullable_object. apply mapped_same; try assumption.
    now rewrite (index_key_same k Hu Hu' Hs).
Qed.

Lemma DeepPartial_order_blind :
  order_blind1 DeepPartial /\ props_order_blind1 DeepPartial.
Proof.
  split.
  - destruct (@unfolded_cond_dist DeepPartial_step _
                DeepPartial_step_monotone DeepPartial_step_productive
                (fun _ _ => eq_refl)) as (g & Hg).
    intros X X' HX. unfold DeepPartial. rewrite !Hg.
    now apply cond_dist_same_type.
  - intros T T' HT. pose proof (reordered_facts HT) as (Hu & Hu' & _ & _ & Hs & Hk).
    destruct HT as (ps & ps' & -> & -> & _). intros k.
    rewrite !DeepPartial_object. apply mapped_same; try assumption.
    now rewrite (index_key_same k Hu Hu' Hs).
Qed.

(** ** Alike types *)

Lemma alike_corr X Y : alike X Y <-> corr alike_atom (members X) (members Y).
Proof.
  split.
  - intros H. inversion H; subst. now split.
  - intros [H1 H2]. now constructor.
Qed.

Lemma alike_of_atoms m m' :
  is_union m = false -> is_union m' = false -> alike_atom m m' -> alike m m'.
Proof.
  intros Hm Hm' H. apply alike_corr. rewrite (members_atom m Hm), (members_atom m' Hm').
  split.
  - intros x [<-|[]]. exists m'. split; [now left|assumption].
  - intros x [<-|[]]. exists m. split; [now left|assumption].
Qed.

Lemma alike_atom_primitive m m' :
  alike_atom m m' -> is_primitive m = true \/ is_primitive m' = true -> m = m'.
Proof.
  intros H. destruct H; cbn [is_primitive]; intros [E|E];
    try reflexivity; try discriminate; congruence.
Qed.

Lemma alike_atom_not_union m m' :
  alike_atom m m' -> is_union m = false /\ is_union m' = false.
Proof. induction 1; split; try reflexivity; tauto. Qed.

(** Correspondences between lists. *)
Lemma corr_forallb (R : ty -> ty -> Prop) (f f' : ty -> bool) l l' :
  corr R l l' ->
  (forall m m', In m l -> In m' l' -> R m m' -> f m = f' m') ->
  forallb f l = forallb f' l'.
Proof.
  intros [H1 H2] Hf. apply eq_true_iff_eq. rewrite !forallb_forall. split.
  - intros E m' Hm'. destruct (H2 m' Hm') as (m & Hm & HR).
    rewrite <- (Hf m m' Hm Hm' HR). auto.
  - intros E m Hm. destruct (H1 m Hm) as (m' & Hm' & HR).
    rewrite (Hf m m' Hm Hm' HR). auto.
Qed.

Lemma corr_existsb (R : ty -> ty -> Prop) (f f' : ty -> bool) l l' :
  corr R l l' ->
  (forall m m', In m l -> In m' l' -> R m m' -> f m = f' m') ->
  existsb f l = existsb f' l'.
Proof.
  intros [H1 H2] Hf. apply eq_true_iff_eq. rewrite !existsb_exists. split.
  - intros (m & Hm & E). destruct (H1 m Hm) as (m' & Hm' & HR).
    exists m'. split; [assumption|]. now rewrite <- (Hf m m' Hm Hm' HR).
  - intros (m' & Hm' & E). destruct (H2 m' Hm') as (m & Hm & HR).
    exists m. split; [assumption|]. now rewrite (Hf m m' Hm Hm' HR).
Qed.

Lemma corr_flat_map (R : ty -> ty -> Prop) (g g' : ty -> list ty) l l' :
  corr R l l' ->
  (forall m m', In m l -> In m' l' -> R m m' -> corr alike_atom (g m) (g' m')) ->
  corr alike_atom (flat_map g l) (flat_map g' l').
Proof.
  intros [H1 H2] Hg. split.
  - intros x Hx. apply in_flat_map in Hx as (m & Hm & Hx).
    destruct (H1 m Hm) as (m' & Hm' & HR).
    destruct (Hg m m' Hm Hm' HR) as [G _].
    destruct (G x Hx) as (x' & Hx' & Hxx). exists x'. split; [|assumption].
    apply in_flat_map. eauto.
  - intros x' Hx'. apply in_flat_map in Hx' as (m' & Hm' & Hx').
    destruct (H2 m' Hm') as (m & Hm & HR).
    destruct (Hg m m' Hm Hm' HR) as [_ G].
    destruct (G x' Hx') as (x & Hx & Hxx). exists x. split; [|assumption].
    apply in_flat_map. eauto.
Qed.

Lemma corr_app (R : ty -> ty -> Prop) l1 l1' l2 l2' :
  corr R l1 l1' -> corr R l2 l2' -> corr R (l1 ++ l2) (l1' ++ l2').
Proof.
  intros [A1 A2] [B1 B2]. split; intros m Hm; apply in_app_iff in Hm as [Hm|Hm].
  - destruct (A1 m Hm) as (x & Hx & HR). exists x. rewrite in_app_iff. auto.
  - destruct (B1 m Hm) as (x & Hx & HR). exists x. rewrite in_app_iff. auto.
  - destruct (A2 m Hm) as (x & Hx & HR). exists x. rewrite in_app_iff. auto.
  - destruct (B2 m Hm) as (x & Hx & HR). exists x. rewrite in_app_iff. auto.
Qed.

Lemma corr_filter (f f' : ty -> bool) l l' :
  corr alike_atom l l' ->
  (forall m m', In m l -> In m' l' -> alike_atom m m' -> f m = f' m') ->
  corr alike_atom (filter f l) (filter f' l').
Proof.
  intros [H1 H2] Hf. split.
  - intros m Hm. apply filter_In in Hm as [Hm E].
    destruct (H1 m Hm) as (m' & Hm' & HR). exists m'. split; [|assumption].
    apply filter_In. split; [assumption|]. now rewrite <- (Hf m m' Hm Hm' HR).
  - intros m' Hm'. apply filter_In in Hm' as [Hm' E].
    destruct (H2 m' Hm') as (m & Hm & HR). exists m. split; [|assumption].
    apply filter_In. split; [assumption|]. now rewrite (Hf m m' Hm Hm' HR).
Qed.

(** A literal is absorbed on one side when it is on the other. *)
Lemma absorbed_alike l l' m m' :
  corr alike_atom l l' -> alike_atom m m' -> absorbed l m = absorbed l' m'.
Proof.
  intros [H1 H2] Hm.
  assert (P : forall p, In (TPrim p) l <-> In (TPrim p) l').
  { intros p. split; intros Hp.
    - destruct (H1 _ Hp) as (x & Hx & HR).
      apply alike_atom_primitive in HR; [|now left]. now subst x.
    - destruct (H2 _ Hp) as (x & Hx & HR).
      apply alike_atom_primitive in HR; [|now right]. now subst x. }
  destruct (is_primitive m) eqn:E.
  - apply alike_atom_primitive in Hm; [|now left]. subst m'.
    destruct m as [| | |[s|n|b]| | | | | | | |]; unfold absorbed; try reflexivity.
    + apply eq_true_iff_eq. rewrite !existsb_ty_eqb. apply P.
    + apply eq_true_iff_eq. rewrite !existsb_ty_eqb. apply P.
  - assert (E' : is_primitive m' = false).
    { destruct (is_primitive m') eqn:E'; [|reflexivity].
      apply alike_atom_primitive in Hm; [|now right]. congruence. }
    destruct m as [| | |[s|n|b]| | | | | | | |]; try discriminate E;
      destruct m' as [| | |[s'|n'|b']| | | | | | | |]; try discriminate E'; reflexivity.
Qed.

(** Union construction respects [alike]. *)
Lemma mk_union_alike l l' :
  corr alike_atom (flat_map members l) (flat_map members l') ->
  alike (mk_union l) (mk_union l').
Proof.
  intros H. apply alike_corr. split.
  - intros m Hm. apply In_members_mk_union in Hm as [Hm Ha].
    destruct (proj1 H m Hm) as (m' & Hm' & HR). exists m'. split; [|assumption].
    apply In_members_mk_union. split; [assumption|].
    now rewrite <- (absorbed_alike H HR).
  - intros m' Hm'. apply In_members_mk_union in Hm' as [Hm' Ha].
    destruct (proj2 H m' Hm') as (m & Hm & HR). exists m. split; [|assumption].
    apply In_members_mk_union. split; [assumption|].
    now rewrite (absorbed_alike H HR).
Qed.

Lemma cond_dist_alike g g' X X' :
  alike X X' ->
  (forall m m', In m (members X) -> In m' (members X') -> alike_atom m m' ->
                alike (g m) (g' m')) ->
  alike (cond_dist g X) (cond_dist g' X').
Proof.
  intros HX Hg. unfold cond_dist. apply mk_union_alike.
  rewrite !flat_map_concat_map, !map_map, <- !flat_map_concat_map.
  apply corr_flat_map with (R := alike_atom); [now apply alike_corr|].
  intros m m' Hm Hm' HR. apply alike_corr. auto.
Qed.

Lemma union2_alike A A' B B' :
  alike A A' -> alike B B' -> alike (union2 A B) (union2 A' B').
Proof.
  intros HA HB. unfold union2. apply mk_union_alike. cbn [flat_map].
  rewrite !app_nil_r. apply corr_app; now apply alike_corr.
Qed.

Lemma alike_never : alike TNever TNever.
Proof. apply alike_corr. split; intros m []. Qed.

Lemma alike_leaf t : is_primitive t = true -> alike t t.
Proof.
  intros H. destruct t as [| |p|l| | | | | | | |]; try discriminate;
    apply alike_of_atoms; try reflexivity; constructor.
Qed.

Lemma alike_undefined_refl : alike TUndefined TUndefined.
Proof. now apply alike_leaf. Qed.

Lemma is_undefined_alike m m' : alike_atom m m' -> is_undefined m = is_undefined m'.
Proof.
  intros H. destruct (is_primitive m) eqn:E.
  - apply alike_atom_primitive in H; [congruence|now left].
  - destruct (is_primitive m') eqn:E'.
    + apply alike_atom_primitive in H; [congruence|now right].
    + destruct m, m'; try discriminate; reflexivity.
Qed.

Lemma strip_undefined_alike t t' :
  alike t t' -> alike (strip_undefined t) (strip_undefined t').
Proof.
  intros H. unfold strip_undefined. apply mk_union_alike.
  rewrite !flat_map_members_atoms.
  - apply corr_filter; [now apply alike_corr|].
    intros m m' _ _ HR. now rewrite (is_undefined_alike HR).
  - intros m Hm. apply filter_In in Hm as [Hm _]. eapply members_not_union; eauto.
  - intros m Hm. apply filter_In in Hm as [Hm _]. eapply members_not_union; eauto.
Qed.

Lemma prop_read_alike p q :
  p_optional p = p_optional q -> alike (p_type p) (p_type q) ->
  alike (prop_read p) (prop_read q).
Proof.
  intros Ho Ht. unfold prop_read. rewrite <- Ho.
  destruct (p_optional p); [|assumption].
  apply union2_alike; [assumption|apply alike_undefined_refl].
Qed.

Lemma make_prop_alike ro opt t t' :
  alike t t' -> alike_prop (Some (make_prop ro opt t)) (Some (make_prop ro opt t')).
Proof.
  intros H. constructor; try reflexivity. unfold make_prop. cbn [p_type].
  destruct opt; [now apply strip_undefined_alike|assumption].
Qed.

(** ** Tidy types *)

Lemma distinct_NoDup l : distinct l = true <-> NoDup l.
Proof.
  induction l as [|k r IH]; cbn [distinct].
  - split; [constructor|reflexivity].
  - rewrite andb_true_iff, negb_true_iff, IH. split.
    + intros [E H]. constructor; [|assumption]. intros Hin.
      assert (X : existsb (String.eqb k) r = true)
        by (apply existsb_exists; exists k; split; [assumption|apply String.eqb_refl]).
      congruence.
    + intros H. inversion H as [|? ? Hk Hr]; subst. split; [|assumption].
      destruct (existsb (String.eqb k) r) eqn:E; [|reflexivity].
      apply existsb_exists in E as (x & Hx & E). apply String.eqb_eq in E. now subst x.
Qed.

Lemma tidy_members X m : tidy X = true -> In m (members X) -> tidy m = true.
Proof.
  intros H Hm. rewrite (closed_members tidy (fun _ => eq_refl) X) in H.
  rewrite forallb_forall in H. auto.
Qed.

Lemma tidy_object ps :
  tidy (TObject ps) = true ->
  NoDup (map fst ps) /\ forall k p, In (k, p) ps -> tidy (p_type p) = true.
Proof.
  cbn [tidy]. rewrite andb_true_iff, distinct_NoDup, forallb_forall.
  intros [H1 H2]. split; [assumption|]. intros k p Hin. exact (H2 (k, p) Hin).
Qed.

Lemma tidy_union2 a b : tidy a = true -> tidy b = true -> tidy (union2 a b) = true.
Proof.
  intros Ha Hb. apply (closed_mk_union tidy (fun _ => eq_refl)).
  intros x [<-|[<-|[]]]; assumption.
Qed.

Lemma tidy_prop_read p : tidy (p_type p) = true -> tidy (prop_read p) = true.
Proof.
  intros H. unfold prop_read. destruct (p_optional p); [|assumption].
  now apply tidy_union2.
Qed.

(** ** Assignability, one constructor at a time *)

Lemma size_member X m : In m (members X) -> size m <= size X.
Proof.
  intros H. pose proof (size_In _ _ H). pose proof (size_members X). lia.
Qed.

Lemma extends_inter_target s a b :
  is_union s = false -> extends s (TInter a b) = extends s a && extends s b.
Proof.
  intros Hs. unfold extends at 1. cbn [size].
  replace (size s + S (size a + size b) + 4)
    with (S (size s + (size a + size b) + 4)) by lia.
  transitivity (extends_f (size s + (size a + size b) + 4) s a
                && extends_f (size s + (size a + size b) + 4) s b).
  - destruct s as [| | |[?|?|?]| | | | | | | |]; try discriminate; reflexivity.
  - f_equal; apply extends_f_enough; lia.
Qed.

Lemma extends_inter_source a b t :
  is_union t = false -> is_inter t = false ->
  extends (TInter a b) t = extends a t || extends b t.
Proof.
  intros Ht Hi. unfold extends at 1. cbn [size].
  replace (S (size a + size b) + size t + 4)
    with (S (size a + size b + size t + 4)) by lia.
  transitivity (extends_f (size a + size b + size t + 4) a t
                || extends_f (size a + size b + size t + 4) b t).
  - destruct t as [| | |[?|?|?]| | | | | | | |]; try discriminate; reflexivity.
  - f_equal; apply extends_f_enough; lia.
Qed.

Lemma extends_func ps r ps' r' :
  extends (TFunc ps r) (TFunc ps' r')
  = (List.length ps <=? List.length ps')%nat
    && forallb2 (fun p p' => extends p' p) ps ps' && extends r r'.
Proof.
  unfold extends at 1. cbn [size].
  replace (S (list_sum (map size ps) + size r) + S (list_sum (map size ps') + size r') + 4)
    with (S (list_sum (map size ps) + size r + S (list_sum (map size ps') + size r') + 4))
    by lia.
  cbn [extends_f]. f_equal; [f_equal|].
  - apply forallb2_ext_in. intros p p' Hp Hp'. apply extends_f_enough.
    pose proof (size_In _ _ Hp). pose proof (size_In _ _ Hp'). lia.
  - apply extends_f_enough. lia.
Qed.

Lemma extends_array e e' : extends (TArray e) (TArray e') = extends e e'.
Proof.
  unfold extends at 1. cbn [size].
  replace (S (size e) + S (size e') + 4) with (S (size e + S (size e') + 4)) by lia.
  cbn [extends_f]. apply extends_f_enough. lia.
Qed.

Lemma extends_array_readonly e e' : extends (TArray e) (TReadonlyArray e') = extends e e'.
Proof.
  unfold extends at 1. cbn [size].
  replace (S (size e) + S (size e') + 4) with (S (size e + S (size e') + 4)) by lia.
  cbn [extends_f]. apply extends_f_enough. lia.
Qed.

Lemma extends_readonly_array e e' :
  extends (TReadonlyArray e) (TReadonlyArray e') = extends e e'.
Proof.
  unfold extends at 1. cbn [size].
  replace (S (size e) + S (size e') + 4) with (S (size e + S (size e') + 4)) by lia.
  cbn [extends_f]. apply extends_f_enough. lia.
Qed.

Lemma extends_promise e e' : extends (TPromise e) (TPromise e') = extends e e'.
Proof.
  unfold extends at 1. cbn [size].
  replace (S (size e) + S (size e') + 4) with (S (size e + S (size e') + 4)) by lia.
  cbn [extends_f]. apply extends_f_enough. lia.
Qed.

Lemma extends_objects ps qs :
  extends (TObject ps) (TObject qs) = forallb (object_check ps) qs.
Proof.
  unfold extends at 1. cbn [size].
  match goal with
  | |- extends_f (S ?a + S ?b + 4) _ _ = _ =>
      replace (S a + S b + 4) with (S (a + S b + 4)) by lia
  end.
  cbn [extends_f]. apply forallb_ext_in. intros [k q] Hq. unfold object_check.
  cbn [fst snd]. destruct (assoc k ps) as [p|] eqn:E; [|reflexivity].
  f_equal. apply extends_f_enough.
  pose proof (size_prop_read p). pose proof (size_prop_read q).
  pose proof (size_entry _ _ (assoc_In _ _ E)). pose proof (size_entry _ _ Hq).
  cbn [snd] in *. lia.
Qed.

(** ** Assignability respects [alike] *)

Lemma alike_object_inv ps ps' :
  alike_atom (TObject ps) (TObject ps') -> forall k, alike_prop (assoc k ps) (assoc k ps').
Proof. intros H. inversion H; subst. assumption. Qed.

Lemma alike_object_nil ps ps' :
  alike_atom (TObject ps) (TObject ps') -> (ps = [] <-> ps' = []).
Proof.
  intros H. pose proof (alike_object_inv H) as Hk. split; intros ->.
  - destruct ps' as [|[k q] r]; [reflexivity|].
    specialize (Hk k). cbn [assoc] in Hk. rewrite String.eqb_refl in Hk. inversion Hk.
  - destruct ps as [|[k q] r]; [reflexivity|].
    specialize (Hk k). cbn [assoc] in Hk. rewrite String.eqb_refl in Hk. inversion Hk.
Qed.

Section extends_alike_step.
Variable N : nat.
Hypothesis IH :
  forall m m' u u',
    size m + size m' + size u + size u' <= N ->
    alike_atom m m' -> alike_atom u u' ->
    tidy m = true -> tidy m' = true -> tidy u = true -> tidy u' = true ->
    extends m u = extends m' u'.

Lemma extends_alike_sets X X' Y Y' :
  size X + size X' + size Y + size Y' <= N ->
  alike X X' -> alike Y Y' ->
  tidy X = true -> tidy X' = true -> tidy Y = true -> tidy Y' = true ->
  extends X Y = extends X' Y'.
Proof.
  intros Hsz HX HY TX TX' TY TY'.
  rewrite (extends_source_members X), (extends_source_members X').
  apply corr_forallb with (R := alike_atom); [now apply alike_corr|].
  intros a a' Ha Ha' Haa.
  rewrite (@extends_target_members a Y) by (eapply members_not_union; eauto).
  rewrite (@extends_target_members a' Y') by (eapply members_not_union; eauto).
  apply corr_existsb with (R := alike_atom); [now apply alike_corr|].
  intros b b' Hb Hb' Hbb.
  pose proof (size_member _ _ Ha). pose proof (size_member _ _ Ha').
  pose proof (size_member _ _ Hb). pose proof (size_member _ _ Hb').
  apply IH; try assumption; try lia.
  - eapply tidy_members; [exact TX|exact Ha].
  - eapply tidy_members; [exact TX'|exact Ha'].
  - eapply tidy_members; [exact TY|exact Hb].
  - eapply tidy_members; [exact TY'|exact Hb'].
Qed.

Lemma object_check_alike ps ps' k q q' :
  (forall k, alike_prop (assoc k ps) (assoc k ps')) ->
  alike_prop (Some q) (Some q') ->
  tidy (TObject ps) = true -> tidy (TObject ps') = true ->
  tidy (p_type q) = true -> tidy (p_type q') = true ->
  size (TObject ps) + size (TObject ps') + size (p_type q) + size (p_type q') + 4 <= N ->
  object_check ps (k, q) = object_check ps' (k, q').
Proof.
  intros Hps Hq Tps Tps' Tq Tq' Hsz. unfold object_check. cbn [fst snd].
  inversion Hq as [|? ? Hro Hopt Hty]; subst.
  specialize (Hps k). inversion Hps as [E E'|p p' Hro' Hopt' Hty' E E'].
  - exact Hopt.
  - rewrite Hopt, Hopt'. f_equal.
    symmetry in E, E'. apply assoc_In in E, E'.
    destruct (tidy_object _ Tps) as [_ Tp]. destruct (tidy_object _ Tps') as [_ Tp'].
    pose proof (size_prop_read p). pose proof (size_prop_read p').
    pose proof (size_prop_read q). pose proof (size_prop_read q').
    pose proof (size_entry _ _ E) as S1. pose proof (size_entry _ _ E') as S2.
    cbn [snd size] in *.
    apply extends_alike_sets; try (apply tidy_prop_read; eauto);
      try (now apply prop_read_alike); try lia.
Qed.

Lemma forallb2_Forall2 (R : ty -> ty -> Prop) (f f' : ty -> ty -> bool) ps ps' qs qs' :
  Forall2 R ps ps' -> Forall2 R qs qs' ->
  (forall p p' q q', In p ps -> In p' ps' -> In q qs -> In q' qs' ->
                     R p p' -> R q q' -> f p q = f' p' q') ->
  forallb2 f ps qs = forallb2 f' ps' qs'.
Proof.
  intros Hp. revert qs qs'. induction Hp as [|p p' ps ps' Hpp Hp IHp];
    intros qs qs' Hq Hf; [reflexivity|].
  destruct Hq as [|q q' qs qs' Hqq Hq]; [reflexivity|].
  cbn [forallb2]. f_equal.
  - apply Hf; try (now left); assumption.
  - apply IHp; [assumption|]. intros a a' b b' Ha Ha' Hb Hb'.
    apply Hf; now right.
Qed.

Lemma tidy_func ps r p :
  tidy (TFunc ps r) = true -> (In p ps -> tidy p = true) /\ tidy r = true.
Proof.
  cbn [tidy]. rewrite andb_true_iff, forallb_forall. intros [H1 H2]. auto.
Qed.

Lemma extends_other_object m m' ps ps' :
  alike_atom (TObject ps) (TObject ps') ->
  (forall qs, extends m (TObject qs) = extends m' (TObject qs)) ->
  (forall kq qs, extends m (TObject (kq :: qs)) = false) ->
  (forall kq qs, extends m' (TObject (kq :: qs)) = false) ->
  extends m (TObject ps) = extends m' (TObject ps').
Proof.
  intros H Hsame Hm Hm'. pose proof (alike_object_nil H) as [E1 E2].
  destruct ps as [|kq r], ps' as [|kq' r'].
  - apply Hsame.
  - discriminate (E1 eq_refl).
  - discriminate (E2 eq_refl).
  - now rewrite Hm, Hm'.
Qed.

Lemma extends_alike_heads m m' u u' :
  size m + size m' + size u + size u' <= S N ->
  alike_atom m m' -> alike_atom u u' ->
  tidy m = true -> tidy m' = true -> tidy u = true -> tidy u' = true ->
  is_inter m = false -> is_inter m' = false ->
  is_inter u = false -> is_inter u' = false ->
  extends m u = extends m' u'.
Proof.
  intros Hsz Hm Hu Tm Tm' Tu Tu' Im Im' Iu Iu'.
  inversion Hm; subst; try discriminate;
    inversion Hu; subst; try discriminate;
    try reflexivity;
    try solve [unfold extends; cbn [size Nat.add]; cbn [extends_f]; reflexivity];
    try solve [apply extends_other_object; [assumption| | |];
               intros; unfold extends; cbn [size Nat.add]; cbn [extends_f]; reflexivity];
    cbn [size] in Hsz.
  - (* a literal against an object type *)
    apply extends_other_object; [assumption| | |];
      intros; destruct l; unfold extends; cbn [size Nat.add]; cbn [extends_f]; reflexivity.
  - (* function types *)
    rewrite !extends_func.
    match goal with
    | A : Forall2 alike ?ps ?ps', B : Forall2 alike ?qs ?qs' |- _ =>
        rewrite (Forall2_length A), (Forall2_length B);
        rewrite (@forallb2_Forall2 alike (fun p p' => extends p' p)
                   (fun p p' => extends p' p) _ _ _ _ A B)
    end.
    + f_equal. apply extends_alike_sets; try assumption; try lia;
        try (eapply tidy_func; eauto; fail).
    + intros p p' q q' Hp Hp' Hq Hq' Hpp Hqq.
      pose proof (size_In _ _ Hp). pose proof (size_In _ _ Hp').
      pose proof (size_In _ _ Hq). pose proof (size_In _ _ Hq').
      apply extends_alike_sets; try assumption; try lia.
      * exact (proj1 (@tidy_func _ _ q Tu) Hq).
      * exact (proj1 (@tidy_func _ _ q' Tu') Hq').
      * exact (proj1 (@tidy_func _ _ p Tm) Hp).
      * exact (proj1 (@tidy_func _ _ p' Tm') Hp').
  - rewrite !extends_array. apply extends_alike_sets; try assumption; lia.
  - rewrite !extends_array_readonly. apply extends_alike_sets; try assumption; lia.
  - rewrite !extends_readonly_array. apply extends_alike_sets; try assumption; lia.
  - rewrite !extends_promise. apply extends_alike_sets; try assumption; lia.
  - (* object types *)
    rewrite !extends_objects.
    match goal with
    | A : forall k, alike_prop (assoc k ?ps) (assoc k ?ps'),
      B : forall k, alike_prop (assoc k ?qs) (assoc k ?qs')
      |- forallb (object_check ?ps) ?qs = _ =>
        rename A into Hps; rename B into Hqs
    end.
    destruct (tidy_object _ Tu) as [Nu Pu]. destruct (tidy_object _ Tu') as [Nu' Pu'].
    apply eq_true_iff_eq. rewrite !forallb_forall. split.
    + intros E [k q'] Hq'.
      pose proof (assoc_NoDup _ _ _ Nu' Hq') as A'.
      pose proof (Hqs k) as Hk. rewrite A' in Hk.
      inversion Hk as [|q q0 Hro Hopt Hty Eq]; subst q0.
      symmetry in Eq. pose proof (assoc_In _ _ Eq) as Hq.
      pose proof (size_entry _ _ Hq) as S1. pose proof (size_entry _ _ Hq') as S2.
      cbn [snd] in S1, S2.
      rewrite <- (@object_check_alike _ _ k q q' Hps); eauto;
        [now constructor|cbn [size]; lia].
    + intros E [k q] Hq.
      pose proof (assoc_NoDup _ _ _ Nu Hq) as A.
      pose proof (Hqs k) as Hk. rewrite A in Hk.
      inversion Hk as [|q0 q' Hro Hopt Hty Eq Eq']; subst q0.
      symmetry in Eq'. pose proof (assoc_In _ _ Eq') as Hq'.
      pose proof (size_entry _ _ Hq) as S1. pose proof (size_entry _ _ Hq') as S2.
      cbn [snd] in S1, S2.
      rewrite (@object_check_alike _ _ k q q' Hps); eauto;
        [now constructor|cbn [size]; lia].
Qed.
End extends_alike_step.

(** Assignability does not tell alike types apart. *)
Lemma extends_alike_atoms N :
  forall m m' u u',
    size m + size m' + size u + size u' <= N ->
    alike_atom m m' -> alike_atom u u' ->
    tidy m = true -> tidy m' = true -> tidy u = true -> tidy u' = true ->
    extends m u = extends m' u'.
Proof.
  induction N as [|N IH]; intros m m' u u' Hsz Hm Hu Tm Tm' Tu Tu'.
  { pose proof (size_pos m). lia. }
  destruct (alike_atom_not_union Hm) as [Um Um'].
  destruct (alike_atom_not_union Hu) as [Uu Uu'].
  assert (G : forall a a' b b',
             size a + size a' + size b + size b' <= S N ->
             alike_atom a a' -> alike_atom b b' ->
             tidy a = true -> tidy a' = true -> tidy b = true -> tidy b' = true ->
             is_inter b = false -> is_inter b' = false ->
             extends a b = extends a' b').
  { intros a a' b b' Hs Ha Hb Ta Ta' Tb Tb' Ib Ib'.
    destruct (alike_atom_not_union Hb) as [Ub Ub'].
    destruct (is_inter a) eqn:Ia, (is_inter a') eqn:Ia'.
    - destruct a as [| | | | | | | | | | |a1 a2]; try discriminate.
      destruct a' as [| | | | | | | | | | |a1' a2']; try discriminate.
      rewrite !extends_inter_source by assumption.
      cbn [tidy] in Ta, Ta'. apply andb_true_iff in Ta as [Ta1 Ta2], Ta' as [Ta1' Ta2'].
      cbn [size] in Hs.
      inversion Ha as [| | | | | | | | | |? ? ? ? H1 H2|? ? ? Hc H1 H2|? ? ? Hc H1 H2]; subst.
      + f_equal; apply IH; try assumption; lia.
      + rewrite <- !extends_inter_source by assumption.
        rewrite extends_inter_source by assumption.
        rewrite (IH a1 (TInter a1' a2') b b'), (IH a2 (TInter a1' a2') b b');
          try assumption; cbn [size tidy]; try lia;
          try (apply andb_true_iff; now split).
        apply orb_diag.
      + rewrite <- !extends_inter_source by assumption.
        rewrite (extends_inter_source a1' a2') by assumption.
        rewrite <- (IH (TInter a1 a2) a1' b b'), <- (IH (TInter a1 a2) a2' b b');
          try assumption; cbn [size tidy]; try lia;
          try (apply andb_true_iff; now split).
        symmetry. apply orb_diag.
    - destruct a as [| | | | | | | | | | |a1 a2]; try discriminate.
      rewrite extends_inter_source by assumption.
      cbn [tidy] in Ta. apply andb_true_iff in Ta as [Ta1 Ta2]. cbn [size] in Hs.
      inversion Ha as [| | | | | | | | | |? ? ? ? H1 H2|? ? ? Hc H1 H2|? ? ? Hc H1 H2]; subst;
        try discriminate.
      rewrite (IH a1 a' b b'), (IH a2 a' b b'); try assumption; try lia.
      apply orb_diag.
    - destruct a' as [| | | | | | | | | | |a1' a2']; try discriminate.
      rewrite (extends_inter_source a1' a2') by assumption.
      cbn [tidy] in Ta'. apply andb_true_iff in Ta' as [Ta1' Ta2']. cbn [size] in Hs.
      inversion Ha as [| | | | | | | | | |? ? ? ? H1 H2|? ? ? Hc H1 H2|? ? ? Hc H1 H2]; subst;
        try discriminate.
      rewrite <- (IH a a1' b b'), <- (IH a a2' b b'); try assumption; try lia.
      symmetry. apply orb_diag.
    - now apply (extends_alike_heads IH). }
  destruct (is_inter u) eqn:Iu, (is_inter u') eqn:Iu'.
  - destruct u as [| | | | | | | | | | |u1 u2]; try discriminate.
    destruct u' as [| | | | | | | | | | |u1' u2']; try discriminate.
    rewrite !extends_inter_target by assumption.
    cbn [tidy] in Tu, Tu'. apply andb_true_iff in Tu as [Tu1 Tu2], Tu' as [Tu1' Tu2'].
    cbn [size] in Hsz.
    inversion Hu as [| | | | | | | | | |? ? ? ? H1 H2|? ? ? Hc H1 H2|? ? ? Hc H1 H2]; subst.
    + f_equal; apply IH; try assumption; lia.
    + rewrite <- !extends_inter_target by assumption.
      rewrite extends_inter_target by assumption.
      rewrite (IH m m' u1 (TInter u1' u2')), (IH m m' u2 (TInter u1' u2'));
        try assumption; cbn [size tidy]; try lia;
        try (apply andb_true_iff; now split).
      apply andb_diag.
    + rewrite <- !extends_inter_target by assumption.
      rewrite (@extends_inter_target m' u1' u2') by assumption.
      rewrite <- (IH m m' (TInter u1 u2) u1'), <- (IH m m' (TInter u1 u2) u2');
        try assumption; cbn [size tidy]; try lia;
        try (apply andb_true_iff; now split).
      symmetry. apply andb_diag.
  - destruct u as [| | | | | | | | | | |u1 u2]; try discriminate.
    rewrite extends_inter_target by assumption.
    cbn [tidy] in Tu. apply andb_true_iff in Tu as [Tu1 Tu2]. cbn [size] in Hsz.
    inversion Hu as [| | | | | | | | | |? ? ? ? H1 H2|? ? ? Hc H1 H2|? ? ? Hc H1 H2]; subst;
      try discriminate.
    rewrite (IH m m' u1 u'), (IH m m' u2 u'); try assumption; try lia.
    apply andb_diag.
  - destruct u' as [| | | | | | | | | | |u1' u2']; try discriminate.
    rewrite (@extends_inter_target m' u1' u2') by assumption.
    cbn [tidy] in Tu'. apply andb_true_iff in Tu' as [Tu1' Tu2']. cbn [size] in Hsz.
    inversion Hu as [| | | | | | | | | |? ? ? ? H1 H2|? ? ? Hc H1 H2|? ? ? Hc H1 H2]; subst;
      try discriminate.
    rewrite <- (IH m m' u u1'), <- (IH m m' u u2'); try assumption; try lia.
    symmetry. apply andb_diag.
  - now apply G.
Qed.

Lemma extends_alike X X' Y Y' :
  alike X X' -> alike Y Y' ->
  tidy X = true -> tidy X' = true -> tidy Y = true -> tidy Y' = true ->
  extends X Y = extends X' Y'.
Proof.
  intros HX HY TX TX' TY TY'.
  apply (@extends_alike_sets (size X + size X' + size Y + size Y'));
    try assumption; [|lia].
  apply extends_alike_atoms.
Qed.

(** ** Intersections of alike types *)

Lemma inter_atom_composite a b :
  is_primitive a = false \/ is_primitive b = false ->
  inter_atom a b = if ty_eqb a b then a else TInter a b.
Proof.
  intros H. unfold inter_atom. destruct (ty_eqb a b); [reflexivity|].
  destruct H as [H|H].
  - destruct a as [| | |[?|?|?]| | | | | | | |]; try discriminate H;
      destruct b as [| |[]|[?|?|?]| | | | | | | |]; reflexivity.
  - destruct b as [| | |[?|?|?]| | | | | | | |]; try discriminate H;
      destruct a as [| |[]|[?|?|?]| | | | | | | |]; reflexivity.
Qed.

Lemma inter_atom_primitive a b :
  is_primitive a = true -> is_primitive b = true ->
  inter_atom a b = TNever \/ is_primitive (inter_atom a b) = true.
Proof.
  intros Ha Hb. unfold inter_atom. destruct (ty_eqb a b); [now right|].
  destruct a as [| |[]|[?|?|?]| | | | | | | |]; try discriminate Ha;
    destruct b as [| |[]|[?|?|?]| | | | | | | |]; try discriminate Hb; auto.
Qed.

Lemma is_primitive_alike m m' : alike_atom m m' -> is_primitive m = is_primitive m'.
Proof.
  intros H. destruct (is_primitive m) eqn:E.
  - apply alike_atom_primitive in H; [congruence|now left].
  - destruct (is_primitive m') eqn:E'; [|reflexivity].
    apply alike_atom_primitive in H; [congruence|now right].
Qed.

Lemma inter_atom_alike a a' b b' :
  alike_atom a a' -> alike_atom b b' -> alike (inter_atom a b) (inter_atom a' b').
Proof.
  intros Ha Hb.
  destruct (alike_atom_not_union Ha) as [Ua Ua'].
  destruct (alike_atom_not_union Hb) as [Ub Ub'].
  pose proof (is_primitive_alike Ha) as Pa. pose proof (is_primitive_alike Hb) as Pb.
  destruct (is_primitive a) eqn:Ea, (is_primitive b) eqn:Eb.
  - apply alike_atom_primitive in Ha; [|now left].
    apply alike_atom_primitive in Hb; [|now left]. subst a' b'.
    destruct (inter_atom_primitive a b Ea Eb) as [->|H];
      [apply alike_never|now apply alike_leaf].
  - rewrite !inter_atom_composite by (right; congruence).
    assert (E : ty_eqb a b = false).
    { destruct (ty_eqb a b) eqn:E; [|reflexivity]. apply ty_eqb_eq in E. congruence. }
    assert (E' : ty_eqb a' b' = false).
    { destruct (ty_eqb a' b') eqn:E'; [|reflexivity]. apply ty_eqb_eq in E'. congruence. }
    rewrite E, E'. apply alike_of_atoms; try reflexivity. now constructor.
  - rewrite !inter_atom_composite by (left; congruence).
    assert (E : ty_eqb a b = false).
    { destruct (ty_eqb a b) eqn:E; [|reflexivity]. apply ty_eqb_eq in E. congruence. }
    assert (E' : ty_eqb a' b' = false).
    { destruct (ty_eqb a' b') eqn:E'; [|reflexivity]. apply ty_eqb_eq in E'. congruence. }
    rewrite E, E'. apply alike_of_atoms; try reflexivity. now constructor.
  - rewrite !inter_atom_composite by (left; congruence).
    destruct (ty_eqb a b) eqn:E, (ty_eqb a' b') eqn:E'.
    + now apply alike_of_atoms.
    + apply ty_eqb_eq in E. subst b. apply alike_of_atoms; try assumption; [reflexivity|].
      now apply alike_inter_r.
    + apply ty_eqb_eq in E'. subst b'. apply alike_of_atoms; try assumption; [reflexivity|].
      apply alike_inter_l; [congruence|assumption|assumption].
    + apply alike_of_atoms; try reflexivity. now constructor.
Qed.

Lemma inter_alike A A' B B' :
  alike A A' -> alike B B' -> alike (inter A B) (inter A' B').
Proof.
  intros HA HB. unfold inter. apply mk_union_alike.
  apply alike_corr in HA as [A1 A2], HB as [B1 B2]. split.
  - intros x Hx. apply in_flat_map in Hx as (y & Hy & Hx).
    apply in_flat_map in Hy as (a & Ha & Hy). apply in_map_iff in Hy as (b & <- & Hb).
    destruct (A1 a Ha) as (a' & Ha' & Haa). destruct (B1 b Hb) as (b' & Hb' & Hbb).
    pose proof (inter_atom_alike Haa Hbb) as H. apply alike_corr in H as [H _].
    destruct (H x Hx) as (x' & Hx' & Hxx). exists x'. split; [|assumption].
    apply in_flat_map. exists (inter_atom a' b'). split; [|assumption].
    apply in_flat_map. exists a'. split; [assumption|]. now apply in_map.
  - intros x' Hx'. apply in_flat_map in Hx' as (y & Hy & Hx').
    apply in_flat_map in Hy as (a' & Ha' & Hy). apply in_map_iff in Hy as (b' & <- & Hb').
    destruct (A2 a' Ha') as (a & Ha & Haa). destruct (B2 b' Hb') as (b & Hb & Hbb).
    pose proof (inter_atom_alike Haa Hbb) as H. apply alike_corr in H as [_ H].
    destruct (H x' Hx') as (x & Hx & Hxx). exists x. split; [|assumption].
    apply in_flat_map. exists (inter_atom a b). split; [|assumption].
    apply in_flat_map. exists a. split; [assumption|]. now apply in_map.
Qed.

Lemma tidy_inter_atom a b :
  tidy a = true -> tidy b = true -> tidy (inter_atom a b) = true.
Proof.
  intros Ha Hb. unfold inter_atom. destruct (ty_eqb a b); [assumption|].
  assert (H : tidy (TInter a b) = true) by (cbn [tidy]; now rewrite Ha, Hb).
  destruct a as [| |[]|[?|?|?]| | | | | | | |];
    destruct b as [| |[]|[?|?|?]| | | | | | | |]; try assumption; reflexivity.
Qed.

Lemma tidy_inter A B : tidy A = true -> tidy B = true -> tidy (inter A B) = true.
Proof.
  intros HA HB. unfold inter. apply (closed_mk_union tidy (fun _ => eq_refl)).
  intros x Hx. apply in_flat_map in Hx as (a & Ha & Hx).
  apply in_map_iff in Hx as (b & <- & Hb).
  apply tidy_inter_atom; [exact (@tidy_members A a HA Ha)|exact (@tidy_members B b HB Hb)].
Qed.

(** ** The aliases of unions respect [alike] *)

Lemma alike_members_atoms X X' m m' :
  In m (members X) -> In m' (members X') -> alike_atom m m' -> alike m m'.
Proof.
  intros Hm Hm'. apply alike_of_atoms; eapply members_not_union; eauto.
Qed.

Lemma extends_alike_member A A' B B' m m' :
  alike B B' ->
  tidy A = true -> tidy A' = true -> tidy B = true -> tidy B' = true ->
  In m (members A) -> In m' (members A') -> alike_atom m m' ->
  extends m B = extends m' B'.
Proof.
  intros HB TA TA' TB TB' Hm Hm' HR. apply extends_alike; try assumption.
  - exact (alike_members_atoms _ _ Hm Hm' HR).
  - exact (@tidy_members A m TA Hm).
  - exact (@tidy_members A' m' TA' Hm').
Qed.

Lemma SetIntersection_alike A A' B B' :
  alike A A' -> alike B B' ->
  tidy A = true -> tidy A' = true -> tidy B = true -> tidy B' = true ->
  alike (SetIntersection A B) (SetIntersection A' B').
Proof.
  intros HA HB TA TA' TB TB'. apply cond_dist_alike; [assumption|].
  intros m m' Hm Hm' HR.
  rewrite (@extends_alike_member A A' B B' m m') by assumption.
  destruct (extends m' B'); [|apply alike_never].
  exact (alike_members_atoms _ _ Hm Hm' HR).
Qed.

Lemma SetDifference_alike A A' B B' :
  alike A A' -> alike B B' ->
  tidy A = true -> tidy A' = true -> tidy B = true -> tidy B' = true ->
  alike (SetDifference A B) (SetDifference A' B').
Proof.
  intros HA HB TA TA' TB TB'. apply cond_dist_alike; [assumption|].
  intros m m' Hm Hm' HR.
  rewrite (@extends_alike_member A A' B B' m m') by assumption.
  destruct (extends m' B'); [apply alike_never|].
  exact (alike_members_atoms _ _ Hm Hm' HR).
Qed.

Lemma SymmetricDifference_alike A A' B B' :
  alike A A' -> alike B B' ->
  tidy A = true -> tidy A' = true -> tidy B = true -> tidy B' = true ->
  alike (SymmetricDifference A B) (SymmetricDifference A' B').
Proof.
  intros HA HB TA TA' TB TB'. apply SetDifference_alike.
  - now apply union2_alike.
  - now apply inter_alike.
  - now apply tidy_union2.
  - now apply tidy_union2.
  - now apply tidy_inter.
  - now apply tidy_inter.
Qed.

Lemma NonUndefined_alike A A' :
  alike A A' -> tidy A = true -> tidy A' = true ->
  alike (NonUndefined A) (NonUndefined A').
Proof.
  intros HA TA TA'. apply cond_dist_alike; [assumption|].
  intros m m' Hm Hm' HR.
  rewrite (@extends_alike_member A A' TUndefined TUndefined m m');
    try assumption; try reflexivity; try apply alike_undefined_refl.
  destruct (extends m' TUndefined); [apply alike_never|].
  exact (alike_members_atoms _ _ Hm Hm' HR).
Qed.

Lemma no_inter_members X m : no_inter X = true -> In m (members X) -> no_inter m = true.
Proof.
  intros H Hm. rewrite (closed_members no_inter (fun _ => eq_refl) X) in H.
  rewrite forallb_forall in H. auto.
Qed.

Lemma plain_tidy X : plain X = true -> tidy X = true.
Proof. unfold plain. intros H. now apply andb_true_iff in H. Qed.

Lemma plain_no_inter X : plain X = true -> no_inter X = true.
Proof. unfold plain. intros H. now apply andb_true_iff in H. Qed.

Lemma infer_promise_alike m m' :
  alike_atom m m' -> no_inter m = true -> no_inter m' = true ->
  alike (match infer_promise m with Some U => U | None => TNever end)
        (match infer_promise m' with Some U => U | None => TNever end).
Proof.
  intros H Hm Hm'. inversion H; subst; try discriminate;
    cbn [infer_promise]; try apply alike_never. assumption.
Qed.

Lemma PromiseType_alike A A' :
  alike A A' -> no_inter A = true -> no_inter A' = true ->
  alike (PromiseType A) (PromiseType A').
Proof.
  intros HA NA NA'. apply cond_dist_alike; [assumption|].
  intros m m' Hm Hm' HR. apply infer_promise_alike; [assumption| |].
  - exact (@no_inter_members A m NA Hm).
  - exact (@no_inter_members A' m' NA' Hm').
Qed.

Lemma alike_single k ro opt t t' :
  alike t t' ->
  alike (TObject [(k, mkProp ro opt t)]) (TObject [(k, mkProp ro opt t')]).
Proof.
  intros H. apply alike_of_atoms; try reflexivity. constructor. intros k'.
  cbn [assoc]. destruct (String.eqb k' k); constructor; auto.
Qed.

Lemma Brand_alike T T' U U' :
  alike T T' -> alike U U' -> alike (Brand T U) (Brand T' U').
Proof.
  intros HT HU. unfold Brand. apply inter_alike; [assumption|].
  now apply alike_single.
Qed.

(** ** The aliases of object types respect [alike] *)

Lemma alike_atom_of_alike m m' :
  is_union m = false -> is_union m' = false -> alike m m' -> alike_atom m m'.
Proof.
  intros Hm Hm' H. apply alike_corr in H as [H _].
  rewrite (members_atom m Hm), (members_atom m' Hm') in H.
  destruct (H m (or_introl eq_refl)) as (x & [<-|[]] & Hx). exact Hx.
Qed.

Lemma alike_prop_not_None o o' : alike_prop o o' -> (o <> None <-> o' <> None).
Proof. intros H. destruct H; split; intros E; congruence. Qed.

Lemma alike_objects_facts T T' :
  alike_objects T T' ->
  is_union T = false /\ is_union T' = false
  /\ wf_object T /\ wf_object T'
  /\ alike_props T T'
  /\ (forall k, In k (keys_of T) <-> In k (keys_of T'))
  /\ props_tidy T /\ props_tidy T'.
Proof.
  intros (ps & ps' & -> & -> & Hwf & Hwf' & HP & HP' & HA).
  assert (Hp : alike_props (TObject ps) (TObject ps')).
  { intros k. cbn [get_prop]. apply alike_object_inv.
    now apply alike_atom_of_alike. }
  split; [reflexivity|]. split; [reflexivity|].
  split; [now apply wf_props_object|]. split; [now apply wf_props_object|].
  split; [exact Hp|]. split.
  - intros k. rewrite <- !get_prop_keys. apply alike_prop_not_None, Hp.
  - split; intros k p Hp'; cbn [get_prop] in Hp'; apply assoc_In in Hp'.
    + destruct (tidy_object _ (plain_tidy _ HP)) as [_ H]. eauto.
    + destruct (tidy_object _ (plain_tidy _ HP')) as [_ H]. eauto.
Qed.

Ltac alike_objects_facts H :=
  let Hu := fresh "Hu" in let Hu' := fresh "Hu'" in
  let Hw := fresh "Hw" in let Hw' := fresh "Hw'" in
  let Hs := fresh "Hs" in let Hk := fresh "Hk" in
  let Ht := fresh "Ht" in let Ht' := fresh "Ht'" in
  destruct (alike_objects_facts H) as (Hu & Hu' & Hw & Hw' & Hs & Hk & Ht & Ht').

Lemma index_key_alike T T' k :
  is_union T = false -> is_union T' = false -> alike_props T T' ->
  alike (index T (TKey k)) (index T' (TKey k)).
Proof.
  intros Hu Hu' Hs. rewrite !index_key by assumption.
  apply mk_union_alike. cbn [flat_map]. rewrite !app_nil_r. apply alike_corr.
  destruct (Hs k) as [|p q Hro Hopt Hty]; [apply alike_never|].
  now apply prop_read_alike.
Qed.

Lemma tidy_index_key T k :
  is_union T = false -> props_tidy T -> tidy (index T (TKey k)) = true.
Proof.
  intros Hu Ht. rewrite index_key by assumption.
  apply (closed_mk_union tidy (fun _ => eq_refl)). intros x [<-|[]].
  destruct (get_prop T k) as [p|] eqn:E; [|reflexivity].
  apply tidy_prop_read. eauto.
Qed.

Lemma alike_props_if (c c' : bool) o o' :
  c = c' -> alike_prop o o' ->
  alike_prop (if c then o else None) (if c' then o' else None)
  /\ alike_prop (if c then None else o) (if c' then None else o').
Proof. intros <- H. destruct c; split; try assumption; constructor. Qed.

Lemma Omit_alike T T' K K' :
  alike_objects T T' -> alike K K' -> tidy K = true -> tidy K' = true ->
  alike_props (Omit T K) (Omit T' K').
Proof.
  intros HT HK TK TK' k. alike_objects_facts HT.
  rewrite !get_prop_Omit by assumption.
  apply alike_props_if; [|apply Hs].
  apply extends_alike; try assumption; try reflexivity. now apply alike_leaf.
Qed.

Lemma value_extends_alike T T' V V' k :
  alike_objects T T' -> alike V V' -> tidy V = true -> tidy V' = true ->
  value_extends T V k = value_extends T' V' k
  /\ value_exact T V k = value_exact T' V' k.
Proof.
  intros HT HV TV TV'. alike_objects_facts HT. unfold value_extends, value_exact.
  pose proof (index_key_alike k Hu Hu' Hs) as Hi.
  pose proof (tidy_index_key k Hu Ht) as Ti.
  pose proof (tidy_index_key k Hu' Ht') as Ti'.
  rewrite (@extends_alike (index T (TKey k)) (index T' (TKey k)) V V') by assumption.
  rewrite (@extends_alike V V' (index T (TKey k)) (index T' (TKey k))) by assumption.
  now split.
Qed.

Lemma PickByValue_alike T T' V V' :
  alike_objects T T' -> alike V V' -> tidy V = true -> tidy V' = true ->
  alike_props (PickByValue T V) (PickByValue T' V').
Proof.
  intros HT HV TV TV' k. destruct (value_extends_alike k HT HV TV TV') as [E _].
  alike_objects_facts HT. rewrite !get_prop_PickByValue by assumption.
  apply alike_props_if; [assumption|apply Hs].
Qed.

Lemma OmitByValue_alike T T' V V' :
  alike_objects T T' -> alike V V' -> tidy V = true -> tidy V' = true ->
  alike_props (OmitByValue T V) (OmitByValue T' V').
Proof.
  intros HT HV TV TV' k. destruct (value_extends_alike k HT HV TV TV') as [E _].
  alike_objects_facts HT. rewrite !get_prop_OmitByValue by assumption.
  apply alike_props_if; [assumption|apply Hs].
Qed.

Lemma PickByValueExact_alike T T' V V' :
  alike_objects T T' -> alike V V' -> tidy V = true -> tidy V' = true ->
  alike_props (PickByValueExact T V) (PickByValueExact T' V').
Proof.
  intros HT HV TV TV' k. destruct (value_extends_alike k HT HV TV TV') as [_ E].
  alike_objects_facts HT. rewrite !get_prop_PickByValueExact by assumption.
  apply alike_props_if; [assumption|apply Hs].
Qed.

Lemma OmitByValueExact_alike T T' V V' :
  alike_objects T T' -> alike V V' -> tidy V = true -> tidy V' = true ->
  alike_props (OmitByValueExact T V) (OmitByValueExact T' V').
Proof.
  intros HT HV TV TV' k. destruct (value_extends_alike k HT HV TV TV') as [_ E].
  alike_objects_facts HT. rewrite !get_prop_OmitByValueExact by assumption.
  apply alike_props_if; [assumption|apply Hs].
Qed.

Lemma in_dec_bool (k : string) l l' :
  (In k l <-> In k l') ->
  (if in_dec string_dec k l then true else false)
  = (if in_dec string_dec k l' then true else false).
Proof. intros H. destruct (in_dec string_dec k l), (in_dec string_dec k l'); tauto. Qed.

Lemma alike_props_in_dec (k : string) l l' o o' :
  (In k l <-> In k l') -> alike_prop o o' ->
  alike_prop (if in_dec string_dec k l then o else None)
             (if in_dec string_dec k l' then o' else None)
  /\ alike_prop (if in_dec string_dec k l then None else o)
                (if in_dec string_dec k l' then None else o').
Proof.
  intros H Ho. destruct (in_dec string_dec k l), (in_dec string_dec k l');
    try tauto; split; try assumption; constructor.
Qed.

Lemma Diff_alike T T' U U' :
  alike_objects T T' -> alike_objects U U' -> alike_props (Diff T U) (Diff T' U').
Proof.
  intros HT HU k. alike_objects_facts HT. alike_objects_facts HU.
  rewrite !get_prop_Diff by assumption.
  apply alike_props_in_dec; [apply Hk0|apply Hs].
Qed.

Lemma Intersection_alike T T' U U' :
  alike_objects T T' -> alike_objects U U' ->
  alike_props (Intersection T U) (Intersection T' U').
Proof.
  intros HT HU k. alike_objects_facts HT. alike_objects_facts HU.
  rewrite !get_prop_Intersection by assumption.
  apply alike_props_in_dec; [apply Hk0|apply Hs].
Qed.

Lemma Overwrite_alike T T' U U' :
  alike_objects T T' -> alike_objects U U' ->
  alike_props (Overwrite T U) (Overwrite T' U').
Proof.
  intros HT HU k. alike_objects_facts HT. alike_objects_facts HU.
  rewrite !get_prop_Overwrite by assumption.
  apply alike_props_in_dec; [apply Hk|].
  destruct (in_dec string_dec k (keys_of U)), (in_dec string_dec k (keys_of U'));
    try (apply Hs); try (apply Hs0); exfalso; apply Hk0 in i; tauto || (apply n; tauto).
Qed.

Lemma Assign_alike T T' U U' :
  alike_objects T T' -> alike_objects U U' ->
  alike_props (Assign T U) (Assign T' U').
Proof.
  intros HT HU k. alike_objects_facts HT. alike_objects_facts HU.
  rewrite !get_prop_Assign by assumption.
  destruct (Hs0 k) as [|p q Hro Hopt Hty]; [apply Hs|now constructor].
Qed.

Lemma Pick_keyof_alike I I' :
  alike_objects I I' -> alike_props (Pick I (keyof I)) (Pick I' (keyof I')).
Proof.
  intros HI k. alike_objects_facts HI.
  rewrite !get_prop_Pick_keyof by assumption. apply Hs.
Qed.

Lemma alike_In_primitive X X' m :
  alike X X' -> is_primitive m = true -> (In m (members X) <-> In m (members X')).
Proof.
  intros H Hm. apply alike_corr in H as [H1 H2]. split; intros Hin.
  - destruct (H1 m Hin) as (x & Hx & HR).
    apply alike_atom_primitive in HR; [now subst x|now left].
  - destruct (H2 m Hin) as (x & Hx & HR).
    apply alike_atom_primitive in HR; [now subst x|now right].
Qed.

Lemma key_names_alike K K' k :
  alike K K' -> (In k (key_names K) <-> In k (key_names K')).
Proof. intros H. rewrite !In_key_names. now apply alike_In_primitive. Qed.

Lemma optional_prop_alike o o' :
  alike_prop o o' ->
  alike_prop (option_map optional_prop o) (option_map optional_prop o').
Proof.
  intros [|p q Hro Hopt Hty]; cbn [option_map]; [constructor|].
  unfold optional_prop. rewrite Hro. now apply make_prop_alike.
Qed.

Lemma Optional2_alike T T' K K' :
  alike_objects T T' -> alike K K' ->
  normal K = true -> normal K' = true -> unit_union K = true ->
  (forall k, In (TKey k) (members K) -> In k (keys_of T)) ->
  alike_props (Optional2 T K) (Optional2 T' K').
Proof.
  intros HT HK Hn Hn' Hun Hsub k. alike_objects_facts HT.
  assert (Hun' : unit_union K' = true).
  { unfold unit_union in *. rewrite forallb_forall in *. intros m Hm.
    apply alike_corr in HK as [_ H2]. destruct (H2 m Hm) as (x & Hx & HR).
    pose proof (Hun x Hx) as Ux.
    apply alike_atom_primitive in HR; [now subst x|left].
    destruct x; try discriminate; reflexivity. }
  rewrite !get_prop_Optional2; try assumption.
  - destruct (in_dec string_dec k (key_names K)), (in_dec string_dec k (key_names K')).
    + apply optional_prop_alike, Hs.
    + exfalso. apply n. now apply (key_names_alike k HK).
    + exfalso. apply n. now apply (key_names_alike k HK).
    + apply Hs.
  - intros k' Hk'. apply Hk, Hsub, In_key_names, (key_names_alike k' HK), Hk'.
  - intros k' Hk'. apply Hsub, In_key_names, Hk'.
Qed.

Lemma keyof_alike T T' :
  (forall k, In k (keys_of T) <-> In k (keys_of T')) -> alike (keyof T) (keyof T').
Proof.
  intros Hk. apply alike_corr. split; intros m Hm;
    apply members_keyof in Hm as (k & -> & Hin); exists (TKey k);
    (split; [apply members_keyof; exists k; split; [reflexivity|now apply Hk]
            |constructor]).
Qed.

Lemma Optional_alike T T' :
  alike_objects T T' -> alike_props (Optional T) (Optional T').
Proof.
  intros HT. unfold Optional. destruct (alike_objects_facts HT) as (_ & _ & _ & _ & _ & Hk & _).
  apply Optional2_alike; try assumption.
  - now apply keyof_alike.
  - apply mk_union_normal.
  - apply mk_union_normal.
  - apply unit_union_keyof.
  - intros k Hin. apply members_keyof in Hin as (k' & E & Hin).
    unfold TKey in E. now inversion E.
Qed.

Lemma Exact_alike A A' : alike_objects A A' -> alike (Exact A) (Exact A').
Proof.
  intros HA. destruct (alike_objects_facts HA) as (_ & _ & _ & _ & _ & Hk & _).
  destruct HA as (ps & ps' & -> & -> & _ & _ & _ & _ & HA).
  unfold Exact. apply inter_alike; [assumption|].
  apply alike_single. now apply keyof_alike.
Qed.

(** ** The key aliases respect [alike] *)

Lemma function_valued_alike T T' k :
  alike_objects T T' -> function_valued T k = function_valued T' k.
Proof.
  intros HT. alike_objects_facts HT. unfold function_valued.
  pose proof (index_key_alike k Hu Hu' Hs) as Hi.
  pose proof (tidy_index_key k Hu Ht) as Ti.
  pose proof (tidy_index_key k Hu' Ht') as Ti'.
  apply extends_alike; try reflexivity.
  - now apply NonUndefined_alike.
  - apply alike_of_atoms; try reflexivity. constructor.
  - apply (closed_subset tidy (fun _ => eq_refl) (index T (TKey k))); [|assumption].
    intros m Hm. apply members_cond_dist in Hm as [Hm _].
    apply in_flat_map in Hm as (x & Hx & Hm). apply in_map_iff in Hx as (a & <- & Ha).
    destruct (extends a TUndefined); [destruct Hm|].
    rewrite (members_atom a) in Hm by (eapply members_not_union; eauto).
    destruct Hm as [<-|[]]. assumption.
  - apply (closed_subset tidy (fun _ => eq_refl) (index T' (TKey k))); [|assumption].
    intros m Hm. apply members_cond_dist in Hm as [Hm _].
    apply in_flat_map in Hm as (x & Hx & Hm). apply in_map_iff in Hx as (a & <- & Ha).
    destruct (extends a TUndefined); [destruct Hm|].
    rewrite (members_atom a) in Hm by (eapply members_not_union; eauto).
    destruct Hm as [<-|[]]. assumption.
Qed.

Lemma FunctionKeys_alike T T' :
  alike_objects T T' -> same_type (FunctionKeys T) (FunctionKeys T').
Proof.
  intros HT. alike_objects_facts HT.
  apply (key_select_same T T' (function_valued T) (function_valued T')); [assumption|].
  intros k. now apply function_valued_alike.
Qed.

Lemma NonFunctionKeys_alike T T' :
  alike_objects T T' -> same_type (NonFunctionKeys T) (NonFunctionKeys T').
Proof.
  intros HT. alike_objects_facts HT. rewrite !NonFunctionKeys_select.
  apply key_select_same; [assumption|].
  intros k. f_equal. now apply function_valued_alike.
Qed.

Lemma optional_key_alike T T' k :
  alike_props T T' -> optional_key T k = optional_key T' k.
Proof. intros H. unfold optional_key. now destruct (H k). Qed.

Lemma readonly_key_alike T T' k :
  alike_props T T' -> readonly_key T k = readonly_key T' k.
Proof. intros H. unfold readonly_key. now destruct (H k). Qed.

Lemma OptionalKeys_alike T T' :
  alike_objects T T' -> same_type (OptionalKeys T) (OptionalKeys T').
Proof.
  intros HT. alike_objects_facts HT. unfold OptionalKeys.
  apply key_select_same; [assumption|].
  intros k. rewrite !extends_empty_Pick. now apply optional_key_alike.
Qed.

Lemma RequiredKeys_alike T T' :
  alike_objects T T' -> same_type (RequiredKeys T) (RequiredKeys T').
Proof.
  intros HT. alike_objects_facts HT. unfold RequiredKeys.
  rewrite (@key_select_negb T (fun k => extends (TObject []) (Pick T (TKey k))))
    by reflexivity.
  rewrite (@key_select_negb T' (fun k => extends (TObject []) (Pick T' (TKey k))))
    by reflexivity.
  apply key_select_same; [assumption|].
  intros k. rewrite !extends_empty_Pick. f_equal. now apply optional_key_alike.
Qed.

Lemma WritableKeys_alike T T' :
  alike_objects T T' -> same_type (WritableKeys T) (WritableKeys T').
Proof.
  intros HT. alike_objects_facts HT. unfold WritableKeys.
  apply (key_select_same T T'
           (fun k => ty_eqb (single_prop Keep T k) (single_prop Remove T k))
           (fun k => ty_eqb (single_prop Keep T' k) (single_prop Remove T' k)));
    [assumption|].
  intros k. rewrite !single_prop_eqb. f_equal. now apply readonly_key_alike.
Qed.

Lemma ReadonlyKeys_alike T T' :
  alike_objects T T' -> same_type (ReadonlyKeys T) (ReadonlyKeys T').
Proof.
  intros HT. alike_objects_facts HT. unfold ReadonlyKeys.
  rewrite (@key_select_negb T
             (fun k => ty_eqb (single_prop Keep T k) (single_prop Remove T k)))
    by reflexivity.
  rewrite (@key_select_negb T'
             (fun k => ty_eqb (single_prop Keep T' k) (single_prop Remove T' k)))
    by reflexivity.
  apply key_select_same; [assumption|].
  intros k. rewrite !single_prop_eqb. do 2 f_equal. now apply readonly_key_alike.
Qed.

Lemma alike_entry k p q :
  alike_prop (Some p) (Some q) -> alike_atom (TObject [(k, p)]) (TObject [(k, q)]).
Proof.
  intros H. constructor. intros k'. cbn [assoc].
  destruct (String.eqb k' k); [assumption|constructor].
Qed.

Lemma Unionize_alike T T' :
  alike_objects T T' -> alike (Unionize T) (Unionize T').
Proof.
  intros HT. pose proof (alike_objects_facts HT) as (_ & _ & _ & _ & Hs & _).
  destruct HT as (ps & ps' & -> & -> & Hwf & Hwf' & _ & _ & _).
  cbn [get_prop] in Hs. unfold alike_props in Hs. cbn [get_prop] in Hs.
  apply alike_corr. split; intros m Hm.
  - apply (members_Unionize ps Hwf) in Hm
      as [(k & p & Hp & ->)|(-> & k & p & Hp & Ho)].
    + pose proof (Hs k) as H. rewrite Hp in H.
      inversion H as [|p0 q Hro Hopt Hty E1 E2]; subst p0.
      exists (TObject [(k, q)]). split.
      * apply (members_Unionize ps' Hwf'). left. exists k, q. now split.
      * apply alike_entry. now constructor.
    + pose proof (Hs k) as H. rewrite Hp in H.
      inversion H as [|p0 q Hro Hopt Hty E1 E2]; subst p0.
      exists TUndefined. split; [|constructor].
      apply (members_Unionize ps' Hwf'). right. split; [reflexivity|].
      exists k, q. split; [now symmetry|congruence].
  - apply (members_Unionize ps' Hwf') in Hm
      as [(k & q & Hq & ->)|(-> & k & q & Hq & Ho)].
    + pose proof (Hs k) as H. rewrite Hq in H.
      inversion H as [|p q0 Hro Hopt Hty E1 E2]; subst q0.
      exists (TObject [(k, p)]). split.
      * apply (members_Unionize ps Hwf). left. exists k, p. now split.
      * apply alike_entry. now constructor.
    + pose proof (Hs k) as H. rewrite Hq in H.
      inversion H as [|p q0 Hro Hopt Hty E1 E2]; subst q0.
      exists TUndefined. split; [|constructor].
      apply (members_Unionize ps Hwf). right. split; [reflexivity|].
      exists k, p. split; [now symmetry|congruence].
Qed.

(** ** Plain types *)

Lemma plain_union ms : plain (TUnion ms) = forallb plain ms.
Proof.
  unfold plain. cbn [tidy no_inter].
  induction ms as [|x r IH]; [reflexivity|].
  cbn [forallb]. rewrite <- IH.
  destruct (tidy x), (no_inter x), (forallb tidy r), (forallb no_inter r); reflexivity.
Qed.

Lemma plain_members X m : plain X = true -> In m (members X) -> plain m = true.
Proof.
  intros H Hm. rewrite (closed_members plain plain_union X) in H.
  rewrite forallb_forall in H. auto.
Qed.

Lemma plain_mk_union l : (forall x, In x l -> plain x = true) -> plain (mk_union l) = true.
Proof. apply (closed_mk_union plain plain_union). Qed.

Lemma plain_subset X Y :
  (forall m, In m (members Y) -> In m (members X)) -> plain X = true -> plain Y = true.
Proof. apply (closed_subset plain plain_union). Qed.

Lemma plain_prop_read p : plain (p_type p) = true -> plain (prop_read p) = true.
Proof.
  intros H. unfold prop_read. destruct (p_optional p); [|assumption].
  apply plain_mk_union. intros x [<-|[<-|[]]]; [assumption|reflexivity].
Qed.

Lemma plain_object ps k p :
  plain (TObject ps) = true -> In (k, p) ps -> plain (p_type p) = true.
Proof.
  unfold plain. cbn [tidy no_inter]. rewrite !andb_true_iff, !forallb_forall.
  intros [[_ H1] H2] Hin. split; [exact (H1 _ Hin)|exact (H2 _ Hin)].
Qed.

Lemma plain_index_key ps k :
  plain (TObject ps) = true -> plain (index (TObject ps) (TKey k)) = true.
Proof.
  intros H. rewrite index_key by reflexivity. apply plain_mk_union.
  intros x [<-|[]]. cbn [get_prop].
  destruct (assoc k ps) as [p|] eqn:E; [|reflexivity].
  apply plain_prop_read. apply assoc_In in E. eapply plain_object; eauto.
Qed.

Lemma plain_inter a b : plain (TInter a b) = false.
Proof. unfold plain. cbn [no_inter]. apply andb_false_r. Qed.

Lemma members_kept (c : ty -> bool) X m :
  In m (members (cond_dist (fun a => if c a then TNever else a) X)) -> In m (members X).
Proof.
  intros Hm. apply members_cond_dist in Hm as [Hm _].
  apply in_flat_map in Hm as (x & Hx & Hm). apply in_map_iff in Hx as (a & <- & Ha).
  destruct (c a); [destruct Hm|].
  rewrite (members_atom a) in Hm by (eapply members_not_union; eauto).
  destruct Hm as [<-|[]]. assumption.
Qed.

Lemma plain_NonUndefined X : plain X = true -> plain (NonUndefined X) = true.
Proof. apply plain_subset. apply members_kept. Qed.

Lemma plain_NonNullable X : plain X = true -> plain (NonNullable X) = true.
Proof. apply plain_subset. apply members_kept. Qed.

Lemma NonNullable_alike A A' :
  alike A A' -> tidy A = true -> tidy A' = true ->
  alike (NonNullable A) (NonNullable A').
Proof.
  intros HA TA TA'. apply cond_dist_alike; [assumption|].
  intros m m' Hm Hm' HR.
  rewrite (@extends_alike_member A A' (TUnion [TNull; TUndefined])
             (TUnion [TNull; TUndefined]) m m');
    try assumption; try reflexivity.
  - destruct (extends m' (TUnion [TNull; TUndefined])); [apply alike_never|].
    exact (alike_members_atoms _ _ Hm Hm' HR).
  - apply alike_corr. cbn [members flat_map app]. split;
      intros x [<-|[<-|[]]]; eexists; (split; [|constructor]); cbn; auto.
Qed.

(** ** Mapped types over alike types *)

Lemma mapped_alike ro opt T T' (F F' : string -> ty) :
  (forall k, In k (keys_of T) <-> In k (keys_of T')) ->
  alike_props T T' ->
  (forall k, In k (keys_of T) -> alike (F k) (F' k)) ->
  alike_atom (mapped ro opt T (keyof T) F) (mapped ro opt T' (keyof T') F').
Proof.
  intros Hk Hs HF. unfold mapped at 1 2. constructor. intros k.
  change (alike_prop (get_prop (mapped ro opt T (keyof T) F) k)
                     (get_prop (mapped ro opt T' (keyof T') F') k)).
  rewrite !get_prop_mapped.
  destruct (in_dec string_dec k (key_names (keyof T))) as [Hin|Hout],
           (in_dec string_dec k (key_names (keyof T'))) as [Hin'|Hout'].
  - apply key_names_keyof in Hin. unfold mapped_entry. cbn [snd].
    specialize (HF k Hin).
    destruct (Hs k) as [|p q Hro Hopt Hty].
    + apply make_prop_alike. cbn [andb]. rewrite andb_false_r. assumption.
    + rewrite Hro, Hopt. apply make_prop_alike.
      destruct (is_remove opt && p_optional q); [now apply strip_undefined_alike|assumption].
  - exfalso. apply Hout'. apply key_names_keyof, Hk, key_names_keyof, Hin.
  - exfalso. apply Hout. apply key_names_keyof, Hk, key_names_keyof, Hin'.
  - constructor.
Qed.

Lemma index_number_array e : index (TArray e) TNumber = mk_union [e].
Proof. reflexivity. Qed.

Lemma index_number_readonly_array e : index (TReadonlyArray e) TNumber = mk_union [e].
Proof. reflexivity. Qed.

Lemma mk_union_one_alike e e' : alike e e' -> alike (mk_union [e]) (mk_union [e']).
Proof.
  intros H. apply mk_union_alike. cbn [flat_map]. rewrite !app_nil_r.
  now apply alike_corr.
Qed.

Lemma plain_mk_union_one e : plain e = true -> plain (mk_union [e]) = true.
Proof. intros H. apply plain_mk_union. now intros x [<-|[]]. Qed.

Lemma rank_mk_union_one e : rank (mk_union [e]) <= rank e.
Proof. apply rank_mk_union. now intros x [<-|[]]. Qed.

Lemma plain_array e : plain (TArray e) = plain e.
Proof. reflexivity. Qed.

Lemma plain_readonly_array e : plain (TReadonlyArray e) = plain e.
Proof. reflexivity. Qed.

(** ** The recursive aliases respect [alike] *)

Section unfolded_alike.
Variable step : (ty -> option ty) -> ty -> option ty.
Variable branch : (ty -> option ty) -> ty -> option ty.
Hypothesis Hm : step_monotone step.
Hypothesis Hp : step_productive step.
Hypothesis Hs : forall rec T, step rec T = cond_dist_opt (branch rec) T.

Lemma unfolded_branches T :
  unfolded step T = cond_dist (unfolded_branch step branch) T.
Proof.
  pose proof (unfolded_unfold Hm Hp T) as H.
  rewrite Hs in H. unfold cond_dist_opt in H.
  destruct (mapM _ (members T)) as [rs|] eqn:E; [|discriminate].
  injection H as <-. unfold cond_dist. f_equal. now apply mapM_map_default.
Qed.

Hypothesis Hbranch :
  forall n,
    (forall Y Y', rank Y < n -> plain Y = true -> plain Y' = true -> alike Y Y' ->
                  alike (unfolded step Y) (unfolded step Y')) ->
    forall m m', rank m <= n -> plain m = true -> plain m' = true -> alike_atom m m' ->
                 alike (unfolded_branch step branch m) (unfolded_branch step branch m').

Lemma unfolded_alike X X' :
  plain X = true -> plain X' = true -> alike X X' ->
  alike (unfolded step X) (unfolded step X').
Proof.
  assert (G : forall n Y Y', rank Y < n -> plain Y = true -> plain Y' = true ->
                             alike Y Y' -> alike (unfolded step Y) (unfolded step Y')).
  { induction n as [|n IH]; intros Y Y' Hr HY HY' HA; [lia|].
    rewrite !unfolded_branches. apply cond_dist_alike; [assumption|].
    intros m m' Hin Hin' HR. apply (Hbranch IH); try assumption.
    - pose proof (rank_members _ _ Hin). lia.
    - exact (@plain_members Y m HY Hin).
    - exact (@plain_members Y' m' HY' Hin'). }
  intros HX HX' HA. apply (G (S (rank X))); try assumption. lia.
Qed.
End unfolded_alike.

Lemma alike_empty_object : alike_atom (TObject []) (TObject []).
Proof. constructor. intros k. constructor. Qed.

Ltac plain_atoms :=
  match goal with
  | H : plain (TInter _ _) = true |- _ => rewrite plain_inter in H; discriminate H
  end.

Lemma object_branch_alike ro opt (G : ty -> ty) (W : ty -> ty) n ps ps' :
  (forall Y Y', rank Y < n -> plain Y = true -> plain Y' = true -> alike Y Y' ->
                alike (G Y) (G Y')) ->
  (forall Y Y', plain Y = true -> plain Y' = true -> alike Y Y' ->
                alike (W Y) (W Y') /\ plain (W Y) = true /\ plain (W Y') = true
                /\ rank (W Y) <= rank Y) ->
  rank (TObject ps) <= n ->
  plain (TObject ps) = true -> plain (TObject ps') = true ->
  (forall k, alike_prop (assoc k ps) (assoc k ps')) ->
  alike (mapped ro opt (TObject ps) (keyof (TObject ps))
           (fun k => G (W (index (TObject ps) (TKey k)))))
        (mapped ro opt (TObject ps') (keyof (TObject ps'))
           (fun k => G (W (index (TObject ps') (TKey k))))).
Proof.
  intros IH HW Hr HP HP' Hps.
  assert (Hs : alike_props (TObject ps) (TObject ps')) by exact Hps.
  apply alike_of_atoms; try reflexivity. apply mapped_alike; [|assumption|].
  - intros k. rewrite <- !get_prop_keys. apply alike_prop_not_None, Hs.
  - intros k Hin.
    pose proof (@index_key_alike (TObject ps) (TObject ps') k eq_refl eq_refl Hs) as Hi.
    pose proof (@plain_index_key ps k HP) as Pi. pose proof (@plain_index_key ps' k HP') as Pi'.
    destruct (HW _ _ Pi Pi' Hi) as (A & B & C & D).
    apply IH; try assumption.
    pose proof (@rank_index_key (TObject ps) k eq_refl Hin). lia.
Qed.

Lemma element_alike (G W : ty -> ty) n e e' :
  (forall Y Y', rank Y < n -> plain Y = true -> plain Y' = true -> alike Y Y' ->
                alike (G Y) (G Y')) ->
  (forall Y Y', plain Y = true -> plain Y' = true -> alike Y Y' ->
                alike (W Y) (W Y') /\ plain (W Y) = true /\ plain (W Y') = true
                /\ rank (W Y) <= rank Y) ->
  S (rank e) <= n -> plain e = true -> plain e' = true -> alike e e' ->
  alike (G (W (mk_union [e]))) (G (W (mk_union [e']))).
Proof.
  intros IH HW Hr HP HP' He.
  destruct (HW (mk_union [e]) (mk_union [e'])) as (A & B & C & D).
  - now apply plain_mk_union_one.
  - now apply plain_mk_union_one.
  - now apply mk_union_one_alike.
  - apply IH; try assumption. pose proof (rank_mk_union_one e). lia.
Qed.

Lemma keep_alike Y Y' :
  plain Y = true -> plain Y' = true -> alike Y Y' ->
  alike Y Y' /\ plain Y = true /\ plain Y' = true /\ rank Y <= rank Y.
Proof.
  intros H1 H2 H3. split; [exact H3|]. split; [exact H1|]. split; [exact H2|lia].
Qed.

Lemma DeepReadonly_alike X X' :
  plain X = true -> plain X' = true -> alike X X' ->
  alike (DeepReadonly X) (DeepReadonly X').
Proof.
  apply (@unfolded_alike DeepReadonly_step DeepReadonly_at
           DeepReadonly_step_monotone DeepReadonly_step_productive
           (fun _ _ => eq_refl)).
  intros n IH m m' Hr HP HP' HR. unfold unfolded_branch, DeepReadonly_at.
  fold DeepReadonly.
  inversion HR; subst; try plain_atoms;
    cbn [extends_any_function extends_any_array extends_object];
    unfold _DeepReadonlyArray, _DeepReadonlyObject; cbn [mapped_keyof_opt option_map];
    try (apply alike_of_atoms; [reflexivity|reflexivity|assumption]).
  - (* arrays *)
    rewrite !index_number_array. cbn [rank] in Hr. rewrite plain_array in HP, HP'.
    apply alike_of_atoms; try reflexivity. constructor; [|apply alike_empty_object].
    constructor. now apply (@element_alike DeepReadonly (fun Y => Y) n e e' IH keep_alike).
  - (* readonly arrays *)
    rewrite !index_number_readonly_array. cbn [rank] in Hr.
    rewrite plain_readonly_array in HP, HP'.
    cbn [mapped_array apply_mod]. apply alike_of_atoms; try reflexivity.
    constructor. now apply (@element_alike DeepReadonly (fun Y => Y) n e e' IH keep_alike).
  - (* object types *)
    rewrite !mapped_opt_Some.
    now apply (@object_branch_alike Add Keep DeepReadonly (fun Y => Y) n ps ps' IH keep_alike).
Qed.

Lemma NonUndefined_kept Y Y' :
  plain Y = true -> plain Y' = true -> alike Y Y' ->
  alike (NonUndefined Y) (NonUndefined Y')
  /\ plain (NonUndefined Y) = true /\ plain (NonUndefined Y') = true
  /\ rank (NonUndefined Y) <= rank Y.
Proof.
  intros H1 H2 H3. split; [|split; [|split]].
  - apply NonUndefined_alike; try assumption; now apply plain_tidy.
  - now apply plain_NonUndefined.
  - now apply plain_NonUndefined.
  - apply rank_NonUndefined.
Qed.

Lemma NonNullable_kept Y Y' :
  plain Y = true -> plain Y' = true -> alike Y Y' ->
  alike (NonNullable Y) (NonNullable Y')
  /\ plain (NonNullable Y) = true /\ plain (NonNullable Y') = true
  /\ rank (NonNullable Y) <= rank Y.
Proof.
  intros H1 H2 H3. split; [|split; [|split]].
  - apply NonNullable_alike; try assumption; now apply plain_tidy.
  - now apply plain_NonNullable.
  - now apply plain_NonNullable.
  - apply rank_NonNullable.
Qed.

Lemma DeepRequired_alike X X' :
  plain X = true -> plain X' = true -> alike X X' ->
  alike (DeepRequired X) (DeepRequired X').
Proof.
  apply (@unfolded_alike DeepRequired_step
           (fun rec t =>
              if extends_any_function t then Some t
              else if extends_any_array t then _DeepRequiredArray rec (index t TNumber)
              else if extends_object t then _DeepRequiredObject rec t
              else Some t)
           DeepRequired_step_monotone DeepRequired_step_productive
           (fun _ _ => eq_refl)).
  intros n IH m m' Hr HP HP' HR. unfold unfolded_branch.
  fold DeepRequired.
  inversion HR; subst; try plain_atoms;
    cbn [extends_any_function extends_any_array extends_object];
    unfold _DeepRequiredArray, _DeepRequiredObject; cbn [mapped_keyof_opt option_map];
    try (apply alike_of_atoms; [reflexivity|reflexivity|assumption]).
  - rewrite !index_number_array. cbn [rank] in Hr. rewrite plain_array in HP, HP'.
    apply alike_of_atoms; try reflexivity. constructor.
    now apply (@element_alike DeepRequired NonUndefined n e e' IH NonUndefined_kept).
  - rewrite !index_number_readonly_array. cbn [rank] in Hr.
    rewrite plain_readonly_array in HP, HP'.
    cbn [mapped_array apply_mod]. apply alike_of_atoms; try reflexivity.
    constructor. apply strip_undefined_alike.
    now apply (@element_alike DeepRequired NonUndefined n e e' IH NonUndefined_kept).
  - rewrite !mapped_opt_Some.
    now apply (@object_branch_alike Keep Remove DeepRequired NonUndefined n ps ps' IH
                 NonUndefined_kept).
Qed.

Lemma DeepNonNullable_alike X X' :
  plain X = true -> plain X' = true -> alike X X' ->
  alike (DeepNonNullable X) (DeepNonNullable X').
Proof.
  apply (@unfolded_alike DeepNonNullable_step
           (fun rec t =>
              if extends_any_function t then Some t
              else if extends_any_array t then _DeepNonNullableArray rec (index t TNumber)
              else if extends_object t then _DeepNonNullableObject rec t
              else Some t)
           DeepNonNullable_step_monotone DeepNonNullable_step_productive
           (fun _ _ => eq_refl)).
  intros n IH m m' Hr HP HP' HR. unfold unfolded_branch.
  fold DeepNonNullable.
  inversion HR; subst; try plain_atoms;
    cbn [extends_any_function extends_any_array extends_object];
    unfold _DeepNonNullableArray, _DeepNonNullableObject;
    cbn [mapped_keyof_opt option_map];
    try (apply alike_of_atoms; [reflexivity|reflexivity|assumption]).
  - rewrite !index_number_array. cbn [rank] in Hr. rewrite plain_array in HP, HP'.
    apply alike_of_atoms; try reflexivity. constructor.
    now apply (@element_alike DeepNonNullable NonNullable n e e' IH NonNullable_kept).
  - rewrite !index_number_readonly_array. cbn [rank] in Hr.
    rewrite plain_readonly_array in HP, HP'.
    cbn [mapped_array apply_mod]. apply alike_of_atoms; try reflexivity.
    constructor. apply strip_undefined_alike.
    now apply (@element_alike DeepNonNullable NonNullable n e e' IH NonNullable_kept).
  - rewrite !mapped_opt_Some.
    now apply (@object_branch_alike Keep Remove DeepNonNullable NonNullable n ps ps' IH
                 NonNullable_kept).
Qed.

Lemma extends_Function_head m :
  is_union m = false -> is_inter m = false -> extends m TFunction = is_function m.
Proof.
  intros Hu Hi.
  destruct m as [| | |[?|?|?]| | | | | | | |]; try discriminate;
    unfold extends; cbn [size Nat.add]; cbn [extends_f]; reflexivity.
Qed.

Lemma DeepPartial_alike X X' :
  plain X = true -> plain X' = true -> alike X X' ->
  alike (DeepPartial X) (DeepPartial X').
Proof.
  apply (@unfolded_alike DeepPartial_step
           (fun rec t =>
              if extends t TFunction then Some t
              else match infer_array t with
                   | Some U => _DeepPartialArray rec U
                   | None =>
                       if extends_object t then _DeepPartialObject rec t
                       else Some (union2 t TUndefined)
                   end)
           DeepPartial_step_monotone DeepPartial_step_productive
           (fun _ _ => eq_refl)).
  intros n IH m m' Hr HP HP' HR. unfold unfolded_branch.
  fold DeepPartial.
  inversion HR; subst; try plain_atoms;
    rewrite !extends_Function_head by reflexivity;
    cbn [is_function infer_array extends_object];
    unfold _DeepPartialArray, _DeepPartialObject; cbn [mapped_keyof_opt option_map];
    try (apply alike_of_atoms; [reflexivity|reflexivity|assumption]);
    try (apply union2_alike; [|apply alike_undefined_refl];
         apply alike_of_atoms; [reflexivity|reflexivity|assumption]).
  - cbn [rank] in Hr. rewrite plain_array in HP, HP'.
    apply alike_of_atoms; try reflexivity. constructor.
    apply IH; assumption.
  - rewrite !index_number_readonly_array. cbn [rank] in Hr.
    rewrite plain_readonly_array in HP, HP'.
    cbn [mapped_array apply_mod]. apply alike_of_atoms; try reflexivity.
    constructor. apply union2_alike; [|apply alike_undefined_refl].
    now apply (@element_alike DeepPartial (fun Y => Y) n e e' IH keep_alike).
  - rewrite !mapped_opt_Some.
    now apply (@object_branch_alike Keep Add DeepPartial (fun Y => Y) n ps ps' IH keep_alike).
Qed.

(** ** Examples of alike types *)

Lemma ex_In_tail (P : ty -> Prop) x r :
  (exists m, In m r /\ P m) -> exists m, In m (x :: r) /\ P m.
Proof. intros (m & Hm & H). exists m. split; [now right|assumption]. Qed.

Ltac alike_keys k :=
  repeat match goal with
         | |- context [String.eqb k ?s] =>
             destruct (String.eqb_spec k s) as [->|?]; cbn
         end.

Ltac alike_concrete :=
  apply alike_corr; cbn [members flat_map app]; split;
  (let m := fresh "m" in
   let H := fresh "H" in
   intros m H; cbn [In] in H;
   repeat match goal with A : _ \/ _ |- _ => destruct A as [A|A] end;
   try contradiction; subst m; alike_member)
with alike_member :=
  first [ eexists; split; [left; reflexivity|solve [alike_atom_concrete]]
        | apply ex_In_tail; alike_member ]
with alike_atom_concrete :=
  constructor;
  try solve [alike_concrete];
  try (let k := fresh "k" in
       intros k; cbn [assoc]; alike_keys k;
       constructor; try reflexivity; cbn [p_type]; alike_concrete).

Lemma NestedOrder_alike : alike_objects NestedOrder NestedOrder'.
Proof.
  unfold alike_objects. do 2 eexists.
  split; [reflexivity|]. split; [reflexivity|].
  split; [reflexivity|]. split; [reflexivity|].
  split; [reflexivity|]. split; [reflexivity|].
  cbv [NestedOrder NestedOrder' TBoolean TString TNumber TTrue TFalse].
  alike_concrete.
Qed.

Lemma reordered_rev ps :
  wf_props ps = true -> NoDup (map fst ps) -> reordered (TObject ps) (TObject (rev ps)).
Proof.
  intros Hwf Hnd. exists ps, (rev ps). repeat split; try assumption.
  apply Permutation_rev.
Qed.

(** [ReadonlyArray<string>] and the interface [_DeepReadonlyArray<string>]
    are not alike: the interface has a body of its own, though an empty
    one. *)
Lemma interface_not_alike :
  ~ alike (TReadonlyArray TString) (DeepReadonly (TArray TString)).
Proof.
  intros H. apply alike_atom_of_alike in H; [|reflexivity|reflexivity].
  change (DeepReadonly (TArray TString))
    with (TInter (TReadonlyArray TString) (TObject [])) in H.
  inversion H as [| | | | | | | | | | | |a b c Hc H1 H2]; subst.
  inversion H2.
Qed.

(** ** C7: the aliases are functions of their parameters, up to order *)

(** C7, as amended.  The result of every exported alias depends on its
    type parameters only, and on their structure only, not on the order in
    which they list the constituents of a union or the properties of an
    object type.

    First, with the constituents or the properties of the arguments
    themselves in another order, the aliases of unions return the same
    constituents, the key aliases the same keys, and the aliases of object
    types the same properties.  ([Brand] is taken at any tag; [Exact] lists
    the keys in its [__brand] property, up to their order; [Optional<T, K>]
    is taken at a union [K] of keys of [T].)

    Second, at every depth: on arguments of the plain universe (built
    without intersections and interfaces, every object type listing each
    key once) that are [alike], that is, equal up to the order of
    constituents and properties wherever they occur, the results are
    alike; the key aliases return the same keys. *)
Theorem aliases_order_blind :
  ((order_blind2 SetIntersection /\ order_blind2 SetDifference
     /\ order_blind2 SetComplement /\ order_blind2 SymmetricDifference
     /\ order_blind1 NonUndefined /\ order_blind1 PromiseType
     /\ (forall U, order_blind1 (fun T => Brand T U)))
    /\ (keys_order_blind FunctionKeys /\ keys_order_blind NonFunctionKeys
        /\ keys_order_blind WritableKeys /\ keys_order_blind ReadonlyKeys
        /\ keys_order_blind RequiredKeys /\ keys_order_blind OptionalKeys
        /\ keys_order_blind Unionize)
    /\ (props_order_blind_union PickByValue /\ props_order_blind_union PickByValueExact
        /\ props_order_blind_union Omit
        /\ props_order_blind_union OmitByValue /\ props_order_blind_union OmitByValueExact)
    /\ (props_order_blind2 Intersection /\ props_order_blind2 Diff
        /\ props_order_blind2 Subtract
        /\ props_order_blind2 Overwrite /\ props_order_blind2 Assign
        /\ (forall T U, props_order_blind1 (Overwrite3 T U))
        /\ (forall T U, props_order_blind1 (Assign3 T U)))
    /\ ((forall A A', reordered A A' -> props_alike (Exact A) (Exact A'))
        /\ (forall T T' K K',
               reordered T T' -> same_type K K' ->
               normal K = true -> normal K' = true -> unit_union K = true ->
               (forall k, In (TKey k) (members K) -> In k (keys_of T)) ->
               same_props (Optional2 T K) (Optional2 T' K'))
        /\ props_order_blind1 Optional)
    /\ ((order_blind1 DeepReadonly /\ props_order_blind1 DeepReadonly)
        /\ (order_blind1 DeepRequired /\ props_order_blind1 DeepRequired)
        /\ (order_blind1 DeepNonNullable /\ props_order_blind1 DeepNonNullable)
        /\ (order_blind1 DeepPartial /\ props_order_blind1 DeepPartial)))
  /\
  ((respects_alike2 SetIntersection /\ respects_alike2 SetDifference
     /\ respects_alike2 SetComplement /\ respects_alike2 SymmetricDifference
     /\ respects_alike1 NonUndefined /\ respects_alike1 PromiseType
     /\ respects_alike2 Brand)
    /\ (keys_respect_alike FunctionKeys /\ keys_respect_alike NonFunctionKeys
        /\ keys_respect_alike WritableKeys /\ keys_respect_alike ReadonlyKeys
        /\ keys_respect_alike RequiredKeys /\ keys_respect_alike OptionalKeys
        /\ (forall T T', alike_objects T T' -> alike (Unionize T) (Unionize T')))
    /\ (props_respect_alike_union PickByValue /\ props_respect_alike_union PickByValueExact
        /\ props_respect_alike_union Omit
        /\ props_respect_alike_union OmitByValue
        /\ props_respect_alike_union OmitByValueExact)
    /\ (props_respect_alike2 Intersection /\ props_respect_alike2 Diff
        /\ props_respect_alike2 Subtract
        /\ props_respect_alike2 Overwrite /\ props_respect_alike2 Assign
        /\ (forall T U, props_respect_alike1 (Overwrite3 T U))
        /\ (forall T U, props_respect_alike1 (Assign3 T U)))
    /\ ((forall A A', alike_objects A A' -> alike (Exact A) (Exact A'))
        /\ (forall T T' K K',
               alike_objects T T' -> alike K K' ->
               normal K = true -> normal K' = true -> unit_union K = true ->
               (forall k, In (TKey k) (members K) -> In k (keys_of T)) ->
               alike_props (Optional2 T K) (Optional2 T' K'))
        /\ props_respect_alike1 Optional)
    /\ (respects_alike1 DeepReadonly /\ respects_alike1 DeepRequired
        /\ respects_alike1 DeepNonNullable /\ respects_alike1 DeepPartial)).
Proof.
  split.
  {
    split; [|split; [|split; [|split; [|split]]]].
    - split; [exact SetIntersection_order_blind|].
      split; [exact SetDifference_order_blind|].
      split; [exact SetDifference_order_blind|].
      split; [exact SymmetricDifference_order_blind|].
      split; [exact NonUndefined_order_blind|].
      split; [exact PromiseType_order_blind|exact Brand_order_blind].
    - split; [exact FunctionKeys_order_blind|].
      split; [exact NonFunctionKeys_order_blind|].
      split; [exact WritableKeys_order_blind|].
      split; [exact ReadonlyKeys_order_blind|].
      split; [exact RequiredKeys_order_blind|].
      split; [exact OptionalKeys_order_blind|exact Unionize_order_blind].
    - split; [exact PickByValue_order_blind|].
      split; [exact PickByValueExact_order_blind|].
      split; [exact Omit_order_blind|].
      split; [exact OmitByValue_order_blind|exact OmitByValueExact_order_blind].
    - split; [exact Intersection_order_blind|].
      split; [exact Diff_order_blind|].
      split; [exact Diff_order_blind|].
      split; [exact Overwrite_order_blind|].
      split; [exact Assign_order_blind|].
      split; intros T U; exact Pick_keyof_order_blind.
    - split; [exact Exact_order_blind|].
      split; [exact Optional2_order_blind|exact Optional_order_blind].
    - split; [exact DeepReadonly_order_blind|].
      split; [exact DeepRequired_order_blind|].
      split; [exact DeepNonNullable_order_blind|exact DeepPartial_order_blind].
  }
  assert (SD : respects_alike2 SetDifference).
  { intros A A' B B' PA PA' PB PB' HA HB.
    apply SetDifference_alike; try assumption; now apply plain_tidy. }
  assert (DF : props_respect_alike2 Diff).
  { intros T T' U U' HT HU. now apply Diff_alike. }
  split; [|split; [|split; [|split; [|split]]]].
  - split; [|split; [exact SD|split; [exact SD|split; [|split; [|split]]]]].
    + intros A A' B B' PA PA' PB PB' HA HB.
      apply SetIntersection_alike; try assumption; now apply plain_tidy.
    + intros A A' B B' PA PA' PB PB' HA HB.
      apply SymmetricDifference_alike; try assumption; now apply plain_tidy.
    + intros A A' PA PA' HA.
      apply NonUndefined_alike; try assumption; now apply plain_tidy.
    + intros A A' PA PA' HA.
      apply PromiseType_alike; try assumption; now apply plain_no_inter.
    + intros T T' U U' _ _ _ _ HT HU. now apply Brand_alike.
  - split; [exact FunctionKeys_alike|].
    split; [exact NonFunctionKeys_alike|].
    split; [exact WritableKeys_alike|].
    split; [exact ReadonlyKeys_alike|].
    split; [exact RequiredKeys_alike|].
    split; [exact OptionalKeys_alike|exact Unionize_alike].
  - split; [|split; [|split; [|split]]]; intros T T' V V' HT PV PV' HV.
    + apply PickByValue_alike; try assumption; now apply plain_tidy.
    + apply PickByValueExact_alike; try assumption; now apply plain_tidy.
    + apply Omit_alike; try assumption; now apply plain_tidy.
    + apply OmitByValue_alike; try assumption; now apply plain_tidy.
    + apply OmitByValueExact_alike; try assumption; now apply plain_tidy.
  - split; [intros T T' U U' HT HU; now apply Intersection_alike|].
    split; [exact DF|]. split; [exact DF|].
    split; [intros T T' U U' HT HU; now apply Overwrite_alike|].
    split; [intros T T' U U' HT HU; now apply Assign_alike|].
    split; intros T U I I' HI; now apply Pick_keyof_alike.
  - split; [exact Exact_alike|].
    split; [exact Optional2_alike|exact Optional_alike].
  - split; [exact DeepReadonly_alike|].
    split; [exact DeepRequired_alike|].
    split; [exact DeepNonNullable_alike|exact DeepPartial_alike].
Qed.

Lemma aliases_order_blind_witness :
  (same_props (Overwrite Props NewProps)
               (Overwrite (TObject (rev Props_list)) (TObject (rev NewProps_list)))
    /\ same_type (WritableKeys ReadonlyProps)
                 (WritableKeys (TObject [("bar", mkProp false false TNumber);
                                         ("foo", mkProp true false TString)]))
    /\ same_type (SetDifference keys_123 keys_234)
                 (SetDifference (TUnion [TKey "3"; TKey "1"; TKey "2"])
                                (TUnion [TKey "4"; TKey "3"; TKey "2"])))
  /\
  (alike (DeepReadonly NestedOrder) (DeepReadonly NestedOrder')
    /\ alike (DeepPartial NestedOrder) (DeepPartial NestedOrder')
    /\ alike_props (Omit NestedOrder (TKey "z")) (Omit NestedOrder' (TKey "z"))
    /\ alike_props (PickByValue NestedOrder TBoolean)
                   (PickByValue NestedOrder' (TUnion [TFalse; TTrue]))
    /\ same_type (FunctionKeys NestedOrder) (FunctionKeys NestedOrder')).
Proof.
  split.
  {
    destruct (proj1 aliases_order_blind)
      as ((_ & HD & _) & (_ & _ & HW & _) & _ & (_ & _ & _ & HO & _) & _).
    split; [|split].
    - apply HO; apply reordered_rev; try reflexivity;
        repeat constructor; simpl; intuition discriminate.
    - apply HW. apply (reordered_rev
                         [("foo", mkProp true false TString);
                          ("bar", mkProp false false TNumber)]);
        try reflexivity.
      repeat constructor; simpl; intuition discriminate.
    - apply HD; intros m; simpl; tauto.
  }
  destruct (proj2 aliases_order_blind)
    as (_ & (HF & _) & (HP & _ & HO & _) & _ & _ & (HR & _ & _ & HD)).
  pose proof NestedOrder_alike as H.
  assert (HA : alike NestedOrder NestedOrder').
  { destruct H as (ps & ps' & -> & -> & _ & _ & _ & _ & H). exact H. }
  assert (HB : alike TBoolean (TUnion [TFalse; TTrue])).
  { cbv [TBoolean TTrue TFalse]. alike_concrete. }
  split; [apply HR; [reflexivity|reflexivity|exact HA]|].
  split; [apply HD; [reflexivity|reflexivity|exact HA]|].
  split; [apply HO; [exact H|reflexivity|reflexivity|]|].
  { apply alike_leaf. reflexivity. }
  split; [apply HP; [exact H|reflexivity|reflexivity|exact HB]|].
  apply HF. exact H.
Defined.

(** C7, as stated, fails: structural equality of the arguments is not
    enough.  [ReadonlyArray<string>] and the interface
    [_DeepReadonlyArray<string>], which is [DeepReadonly<string[]>], have
    the same structure and are assignable to each other, but a mapped type
    maps the elements of the first and the members of the second, and
    [DeepReadonly] returns the readonly array for the first and an object
    type for the second (with the members that [ReadonlyArray] declares in
    the standard library, of which the universe lists none). *)
Lemma DeepReadonly_not_structural :
  structurally_equal (TReadonlyArray TString) (DeepReadonly (TArray TString))
  /\ extends (TReadonlyArray TString) (DeepReadonly (TArray TString)) = true
  /\ extends (DeepReadonly (TArray TString)) (TReadonlyArray TString) = true
  /\ DeepReadonly (TReadonlyArray TString) = TReadonlyArray TString
  /\ DeepReadonly (DeepReadonly (TArray TString)) = TObject []
  /\ ~ structurally_equal (DeepReadonly (TReadonlyArray TString))
                          (DeepReadonly (DeepReadonly (TArray TString))).
Proof.
  split; [vm_compute; reflexivity|]. split; [vm_compute; reflexivity|].
  split; [vm_compute; reflexivity|]. split; [vm_compute; reflexivity|].
  split; [vm_compute; reflexivity|].
  intros H. vm_compute in H. discriminate.
Qed.
